(** * Job configuration resolution (pkg/prow/apiv1/config.go)

    A shallow embedding of the job-configuration pipeline of the chat bot's
    vendored Prow configuration loader: fragment merging, defaulting,
    compilation of match structures and validation, together with the
    properties the specification states about them.

    Conventions of the embedding:
    - a Go function returning [error] (or [(T, error)]) becomes a function
      into [res], whose third constructor stands for a Go panic;
    - a Go [map[string]V] is a [gmap string V]; a [range] loop over it visits
      the entries in the order given by the [GoMap] interface, which is only
      known to be some enumeration of the map;
    - a Go pointer that may be nil is an [option];
    - slices are lists, and a slice mutated in place is returned. *)

From Stdlib Require Import Ascii String ZArith List Bool Lia.
From stdpp Require Import base option list gmap fin_maps strings pretty.

Open Scope string_scope.
Open Scope list_scope.

(** ** Errors, panics and results *)

(** Go's [error] values are built with [errors.New] and [fmt.Errorf]; only
    their message is observable here. *)
Definition error := string.

Inductive res (A : Type) : Type :=
| Ok (a : A)
| Err (e : error)
| Panic (v : string).
Arguments Ok {A} a.
Arguments Err {A} e.
Arguments Panic {A} v.

Definition bind {A B} (m : res A) (f : A → res B) : res B :=
  match m with
  | Ok a => f a
  | Err e => Err e
  | Panic v => Panic v
  end.

#[global] Instance res_bind : MBind res := λ A B f m, bind m f.
#[global] Instance res_ret : MRet res := @Ok.

(** [fmt.Errorf("...: %v", err)] around a failing call; a panic is not an
    error value and passes through untouched. *)
Definition wrap {A} (f : error → error) (m : res A) : res A :=
  match m with
  | Ok a => Ok a
  | Err e => Err (f e)
  | Panic v => Panic v
  end.

Definition is_ok {A} (m : res A) : bool :=
  match m with Ok _ => true | _ => false end.

Definition failed {A} (m : res A) : Prop := ∀ a, m ≠ Ok a.

(** The double quote, for the messages that print one. *)
Definition dquote : string := String (ascii_of_nat 34) EmptyString.

(** [%q] of a string without characters that need escaping. *)
Definition quoted (s : string) : string := dquote +:+ s +:+ dquote.

(** ** Go's [regexp], on the fragment of RE2 syntax the configuration uses

    [regexp.Compile] parses with the Perl flag set: [^] and [$] match at the
    ends of the text unless [(?m)] is in force, [.] does not match a newline
    unless [(?s)] is, a repetition operator may be followed by [?] (which only
    changes which match is preferred) but not by another repetition.
    Patterns using other syntax (counted repetition, named classes, word
    boundaries, ...) are outside this model and are reported as [None]. *)
Module GoRegexp.

Inductive regex : Type :=
| Empty
| Lit (c : ascii)
| AnyNotNL
| AnyChar
| Class (neg : bool) (rs : list (ascii * ascii))
| BeginText
| EndText
| BeginLine
| EndLine
| Cat (a b : regex)
| Alt (a b : regex)
| Star (a : regex)
| Plus (a : regex)
| Quest (a : regex).

Inductive token : Type :=
| TLit (c : ascii)
| TDot
| TCaret
| TDollar
| TClass (neg : bool) (rs : list (ascii * ascii))
| TStar
| TPlus
| TQuest
| TBar
| TLParen
| TRParen
| TFlags (m s : bool).

Definition nl : ascii := ascii_of_nat 10.

Definition in_range (c : ascii) (r : ascii * ascii) : bool :=
  (N_of_ascii (fst r) <=? N_of_ascii c)%N && (N_of_ascii c <=? N_of_ascii (snd r))%N.

Definition in_ranges (c : ascii) (rs : list (ascii * ascii)) : bool :=
  existsb (in_range c) rs.

Definition perl_d : list (ascii * ascii) := [("0", "9")]%char.
Definition perl_s : list (ascii * ascii) :=
  [(ascii_of_nat 9, ascii_of_nat 10); (ascii_of_nat 12, ascii_of_nat 13); (" ", " ")]%char.
Definition perl_w : list (ascii * ascii) :=
  [("0", "9"); ("A", "Z"); ("_", "_"); ("a", "z")]%char.

Definition is_alnum (c : ascii) : bool :=
  in_ranges c [("0", "9"); ("A", "Z"); ("a", "z")]%char.

Definition is_ascii7 (c : ascii) : bool := (N_of_ascii c <? 128)%N.

(** A backslash escape outside a character class. *)
Definition lex_escape (c : ascii) : option token :=
  if (c =? "d")%char then Some (TClass false perl_d)
  else if (c =? "D")%char then Some (TClass true perl_d)
  else if (c =? "s")%char then Some (TClass false perl_s)
  else if (c =? "S")%char then Some (TClass true perl_s)
  else if (c =? "w")%char then Some (TClass false perl_w)
  else if (c =? "W")%char then Some (TClass true perl_w)
  else if (c =? "n")%char then Some (TLit nl)
  else if (c =? "t")%char then Some (TLit (ascii_of_nat 9))
  else if (c =? "r")%char then Some (TLit (ascii_of_nat 13))
  else if (c =? "f")%char then Some (TLit (ascii_of_nat 12))
  else if is_ascii7 c && negb (is_alnum c) then Some (TLit c)
  else None.

(** A backslash escape inside a character class. *)
Definition class_escape (c : ascii) : option (list (ascii * ascii)) :=
  if (c =? "d")%char then Some perl_d
  else if (c =? "s")%char then Some perl_s
  else if (c =? "w")%char then Some perl_w
  else if (c =? "n")%char then Some [(nl, nl)]
  else if (c =? "t")%char then Some [(ascii_of_nat 9, ascii_of_nat 9)]
  else if (c =? "r")%char then Some [(ascii_of_nat 13, ascii_of_nat 13)]
  else if (c =? "f")%char then Some [(ascii_of_nat 12, ascii_of_nat 12)]
  else if is_ascii7 c && negb (is_alnum c) then Some [(c, c)]
  else None.

Inductive mode : Type :=
| Top
| InClass (neg first : bool) (acc : list (ascii * ascii)).

Definition is_meta (c : ascii) : bool :=
  existsb (Ascii.eqb c) ["\"; "."; "^"; "$"; "["; "]"; "*"; "+"; "?"; "|"; "("; ")"; "{"; "}"]%char.

Definition cons_tok (t : token) (r : option (list token)) : option (list token) :=
  match r with Some ts => Some (t :: ts) | None => None end.

(** The lexer.  After a repetition operator an optional [?] asks for the
    non-greedy variant, which matches the same strings; it is read together
    with the operator. *)
Fixpoint lex_go (m : mode) (s : list ascii) {struct s} : option (list token) :=
  match m with
  | Top =>
    match s with
    | [] => Some []
    | c :: s1 =>
      let after_rep (t : token) :=
        match s1 with
        | q :: s2 => if (q =? "?")%char then cons_tok t (lex_go Top s2)
                     else cons_tok t (lex_go Top s1)
        | [] => cons_tok t (lex_go Top s1)
        end in
      if (c =? "\")%char then
        match s1 with
        | e :: s2 => match lex_escape e with
                     | Some t => cons_tok t (lex_go Top s2)
                     | None => None
                     end
        | [] => None
        end
      else if (c =? ".")%char then cons_tok TDot (lex_go Top s1)
      else if (c =? "^")%char then cons_tok TCaret (lex_go Top s1)
      else if (c =? "$")%char then cons_tok TDollar (lex_go Top s1)
      else if (c =? "*")%char then after_rep TStar
      else if (c =? "+")%char then after_rep TPlus
      else if (c =? "?")%char then after_rep TQuest
      else if (c =? "|")%char then cons_tok TBar (lex_go Top s1)
      else if (c =? ")")%char then cons_tok TRParen (lex_go Top s1)
      else if (c =? "(")%char then
        match s1 with
        | q :: s2 =>
          if (q =? "?")%char then
            match s2 with
            | f :: s3 =>
              if (f =? ":")%char then cons_tok TLParen (lex_go Top s3)
              else
                match s3 with
                | g :: s4 =>
                  if (f =? "m")%char && (g =? ")")%char then cons_tok (TFlags true false) (lex_go Top s4)
                  else if (f =? "s")%char && (g =? ")")%char then cons_tok (TFlags false true) (lex_go Top s4)
                  else None
                | [] => None
                end
            | [] => None
            end
          else cons_tok TLParen (lex_go Top s1)
        | [] => cons_tok TLParen (lex_go Top s1)
        end
      else if (c =? "[")%char then
        match s1 with
        | h :: s2 => if (h =? "^")%char then lex_go (InClass true true []) s2
                     else lex_go (InClass false true []) s1
        | [] => None
        end
      else if (c =? "{")%char || (c =? "}")%char || (c =? "]")%char then None
      else cons_tok (TLit c) (lex_go Top s1)
    end
  | InClass neg first acc =>
    match s with
    | [] => None
    | c :: s1 =>
      if (c =? "]")%char && negb first then cons_tok (TClass neg acc) (lex_go Top s1)
      else if (c =? "[")%char then None
      else if (c =? "\")%char then
        match s1 with
        | e :: s2 => match class_escape e with
                     | Some rs => lex_go (InClass neg false (acc ++ rs)) s2
                     | None => None
                     end
        | [] => None
        end
      else
        match s1 with
        | d :: s2 =>
          match s2 with
          | h :: s3 =>
            if (d =? "-")%char && negb (h =? "]")%char then
              if (h =? "\")%char || (h =? "[")%char then None
              else if (N_of_ascii h <? N_of_ascii c)%N then None
              else lex_go (InClass neg false (acc ++ [(c, h)])) s3
            else lex_go (InClass neg false (acc ++ [(c, c)])) s1
          | [] => lex_go (InClass neg false (acc ++ [(c, c)])) s1
          end
        | [] => lex_go (InClass neg false (acc ++ [(c, c)])) s1
        end
    end
  end.

Definition lex (s : list ascii) : option (list token) := lex_go Top s.

(** *** Parsing: an operator stack, as in [regexp/syntax] *)

Record flags : Type := { multi : bool; dotnl : bool }.

Inductive item : Type :=
| INode (r : regex)
| IBar
| IParen (saved : flags).

Record pstate : Type := { stack : list item; fl : flags; lastRep : bool }.

Fixpoint cat_list (rs : list regex) : regex :=
  match rs with
  | [] => Empty
  | r :: rs' => Cat r (cat_list rs')
  end.

(** The nodes on top of the stack, down to the first marker, oldest first. *)
Fixpoint take_run (st : list item) (acc : list regex) : list regex * list item :=
  match st with
  | INode r :: st' => take_run st' (r :: acc)
  | _ => (acc, st)
  end.

(** The alternatives of the group being closed: [cur] is the newest. *)
Fixpoint close_alt (cur : regex) (st : list item) : regex * list item :=
  match st with
  | IBar :: INode a :: st' => close_alt (Alt a cur) st'
  | _ => (cur, st)
  end.

Definition collapse (st : list item) : regex * list item :=
  let '(run, rest) := take_run st [] in close_alt (cat_list run) rest.

Definition push (r : regex) (p : pstate) : option pstate :=
  Some {| stack := INode r :: stack p; fl := fl p; lastRep := false |}.

Definition repeat (op : regex → regex) (p : pstate) : option pstate :=
  if lastRep p then None
  else match stack p with
       | INode r :: st => Some {| stack := INode (op r) :: st; fl := fl p; lastRep := true |}
       | _ => None
       end.

Definition parse_step (p : pstate) (t : token) : option pstate :=
  match t with
  | TLit c => push (Lit c) p
  | TDot => push (if dotnl (fl p) then AnyChar else AnyNotNL) p
  | TCaret => push (if multi (fl p) then BeginLine else BeginText) p
  | TDollar => push (if multi (fl p) then EndLine else EndText) p
  | TClass neg rs => push (Class neg rs) p
  | TStar => repeat Star p
  | TPlus => repeat Plus p
  | TQuest => repeat Quest p
  | TBar =>
    let '(run, rest) := take_run (stack p) [] in
    Some {| stack := IBar :: INode (cat_list run) :: rest; fl := fl p; lastRep := false |}
  | TLParen =>
    Some {| stack := IParen (fl p) :: stack p; fl := fl p; lastRep := false |}
  | TRParen =>
    match collapse (stack p) with
    | (r, IParen saved :: rest) =>
      Some {| stack := INode r :: rest; fl := saved; lastRep := false |}
    | _ => None
    end
  | TFlags m s =>
    Some {| stack := stack p;
            fl := {| multi := multi (fl p) || m; dotnl := dotnl (fl p) || s |};
            lastRep := false |}
  end.

Fixpoint parse_go (p : pstate) (ts : list token) : option pstate :=
  match ts with
  | [] => Some p
  | t :: ts' => match parse_step p t with
                | Some p' => parse_go p' ts'
                | None => None
                end
  end.

Definition parse_init : pstate :=
  {| stack := []; fl := {| multi := false; dotnl := false |}; lastRep := false |}.

Definition parse (ts : list token) : option regex :=
  match parse_go parse_init ts with
  | Some p => match collapse (stack p) with
              | (r, []) => Some r
              | _ => None
              end
  | None => None
  end.

Definition compile (pat : string) : option regex :=
  match lex (list_ascii_of_string pat) with
  | Some ts => parse ts
  | None => None
  end.

(** *** Matching *)

Section Matching.
(** A position in the text: the character before it, if any, and the rest. *)
Definition cont : Type := option ascii → list ascii → bool.

Fixpoint star_loop (step : option ascii → list ascii → cont → bool)
    (n : nat) (prev : option ascii) (s : list ascii) (k : cont) : bool :=
  k prev s ||
  match n with
  | O => false
  | S n' => step prev s (λ p' s', Nat.ltb (List.length s') (List.length s) && star_loop step n' p' s' k)
  end.

Definition at_line_start (prev : option ascii) : bool :=
  match prev with None => true | Some c => (c =? nl)%char end.

Definition at_line_end (s : list ascii) : bool :=
  match s with [] => true | c :: _ => (c =? nl)%char end.

Definition one (ok : ascii → bool) (s : list ascii) (k : cont) : bool :=
  match s with
  | c :: s' => ok c && k (Some c) s'
  | [] => false
  end.

Fixpoint matchk (r : regex) (prev : option ascii) (s : list ascii) (k : cont) : bool :=
  match r with
  | Empty => k prev s
  | Lit c => one (Ascii.eqb c) s k
  | AnyNotNL => one (λ x, negb (x =? nl)%char) s k
  | AnyChar => one (λ _, true) s k
  | Class neg rs => one (λ x, xorb neg (in_ranges x rs)) s k
  | BeginText => match prev with None => k prev s | Some _ => false end
  | EndText => match s with [] => k prev s | _ :: _ => false end
  | BeginLine => at_line_start prev && k prev s
  | EndLine => at_line_end s && k prev s
  | Cat a b => matchk a prev s (λ p' s', matchk b p' s' k)
  | Alt a b => matchk a prev s k || matchk b prev s k
  | Star a => star_loop (matchk a) (List.length s) prev s k
  | Plus a => matchk a prev s (λ p' s', star_loop (matchk a) (List.length s') p' s' k)
  | Quest a => matchk a prev s k || k prev s
  end.

(** An unanchored search: some position starts a match. *)
Fixpoint search (r : regex) (prev : option ascii) (s : list ascii) : bool :=
  matchk r prev s (λ _ _, true) ||
  match s with
  | [] => false
  | c :: s' => search r (Some c) s'
  end.

Definition match_string (r : regex) (s : string) : bool :=
  search r None (list_ascii_of_string s).
End Matching.

(** *** The expressions of the job names and of the default trigger *)

Definition name_ranges : list (ascii * ascii) :=
  [("A", "Z"); ("a", "z"); ("0", "9"); ("-", "-"); (".", "."); ("_", "_")]%char.

(** The characters a job name may contain. *)
Definition name_char (c : ascii) : bool := in_ranges c name_ranges.

(** What a character of a job name is when it is read as a pattern: the dot
    is the only one that does not stand for itself. *)
Definition tok_of (c : ascii) : token := if (c =? ".")%char then TDot else TLit c.
Definition atom_of (c : ascii) : regex := if (c =? ".")%char then AnyNotNL else Lit c.

Definition name_regex : regex :=
  cat_list [BeginText; Plus (Class false name_ranges); EndText].

Definition trigger_group1 : regex :=
  Alt (cat_list [Lit " "]) (cat_list [Lit " "; Star AnyNotNL; Lit " "])%char.
Definition trigger_group2 : regex :=
  Alt (cat_list [EndLine]) (cat_list [Class false perl_s; Star AnyNotNL]).
Definition trigger_head : list regex :=
  [BeginLine; Lit "/"; Lit "t"; Lit "e"; Lit "s"; Lit "t"; trigger_group1]%char.
Definition trigger_tail : list regex := [Quest (Lit ","%char); trigger_group2].

Definition trigger_regex (l : list ascii) : regex :=
  cat_list (trigger_head ++ map atom_of l ++ trigger_tail).

(** The end of the text, as a continuation. *)
Definition at_end : cont := λ p s, matchk (cat_list [EndText]) p s (λ _ _, true).

End GoRegexp.

(** ** Text helpers *)

(** [strings.Join]. *)
Fixpoint join (sep : string) (l : list string) : string :=
  match l with
  | [] => ""
  | [x] => x
  | x :: l' => x +:+ sep +:+ join sep l'
  end.

(** [strings.Split(s, "/")[0]]: the text before the first slash, the whole
    string when it has none. *)
Fixpoint before_slash (s : string) : string :=
  match s with
  | EmptyString => EmptyString
  | String c s' => if (c =? "/")%char then EmptyString else String c (before_slash s')
  end.

(** [%v] of a [[]string]. *)
Definition fmt_strings (l : list string) : string := "[" +:+ join " " l +:+ "]".

(** ** Data model *)

(** Go's [regexp] package, as the pipeline uses it.  A call that returns an
    [error] in Go returns a [res] here, so it may also panic. *)
Class RegexpLib : Type := {
  Regexp : Type;
  (** [regexp.Compile] *)
  regexp_Compile : string → res Regexp;
  (** [Regexp.MatchString] *)
  MatchString : Regexp → string → bool;
}.

(** The model of Go's [regexp] above as such a library. *)
Definition go_regexp : RegexpLib :=
  {| Regexp := GoRegexp.regex;
     regexp_Compile pat :=
       match GoRegexp.compile pat with
       | Some r => Ok r
       | None => Err ("error parsing regexp: " +:+ pat)
       end;
     MatchString := GoRegexp.match_string |}.

(** [time.Duration], in nanoseconds. *)
Definition Duration : Type := Z.

(** Modelled from the spec: the declaration of [DecorationConfig] is not in
    the source tree.  It is "a structure of optional fields": a finite map
    from field name to the field's value, where an absent key is an unset
    field. *)
Definition DecorationConfig : Type := gmap string string.

(** Modelled from the spec: [ApplyDefault] is not in the source tree.  "For
    every field, a value explicitly set on the job wins; otherwise the
    resolved default's value is taken."  Receiver and argument are pointers;
    a nil one contributes no field. *)
Definition ApplyDefault (d def : option DecorationConfig) : option DecorationConfig :=
  match d, def with
  | None, None => None
  | Some d, None => Some d
  | None, Some def => Some def
  | Some d, Some def => Some (d ∪ def)
  end.

(** The field [f] of the configuration behind a pointer. *)
Definition field (d : option DecorationConfig) (f : string) : option string :=
  match d with
  | Some d => d !! f
  | None => None
  end.

(** Modelled from the spec: the agent kinds are a closed enumeration whose
    constants are declared outside the source tree; these are the names of
    the container-orchestrator, external-build, ticket-system and
    pipeline-engine kinds. *)
Definition KubernetesAgent : string := "kubernetes".
Definition KnativeBuildAgent : string := "knative-build".
Definition JenkinsAgent : string := "jenkins".
Definition TektonAgent : string := "tekton-pipeline".

Inductive ProwJobType : Type := PresubmitJob | PostsubmitJob | PeriodicJob.

(** The parts of [v1.Container] and [v1.PodSpec] the pipeline reads. *)
Record Container : Type := {
  Command : list string;
  Args : list string;
  Env : list (string * string);
}.

Record PodSpec : Type := {
  Containers : list Container;
  InitContainers : list Container;
  Volumes : list string;
}.

Record Preset : Type := {
  PresetLabels : gmap string string;
  PresetEnv : list (string * string);
  PresetVolumes : list string;
}.

Record Refs : Type := { Org : string; Repo : string }.

Record RerunAuthConfig : Type := {
  AllowAnyone : bool;
  GitHubUsers : list string;
  GitHubTeamIDs : list Z;
  GitHubTeamSlugs : list (string * string);
}.

Record UtilityConfig : Type := {
  Decorate : bool;
  JobDecorationConfig : option DecorationConfig;
  ExtraRefs : list Refs;
}.

Record JobBase : Type := {
  Name : string;
  Labels : gmap string string;
  MaxConcurrency : Z;
  Agent : string;
  Cluster : string;
  Namespace : option string;
  ErrorOnEviction : bool;
  SourcePath : string;
  Spec : option PodSpec;
  JobRerunAuthConfig : option RerunAuthConfig;
  JobUtilityConfig : UtilityConfig;
}.

Section Types.
Context {RL : RegexpLib}.

Record Brancher : Type := {
  SkipBranches : list string;
  Branches : list string;
  re : option Regexp;
  reSkip : option Regexp;
}.

Record RegexpChangeMatcher : Type := {
  RunIfChanged : string;
  reChanges : option Regexp;
}.

Record Presubmit : Type := {
  PresubmitJobBase : JobBase;
  AlwaysRun : bool;
  Context : string;
  SkipReport : bool;
  Trigger : string;
  RerunCommand : string;
  PresubmitBrancher : Brancher;
  PresubmitChangeMatcher : RegexpChangeMatcher;
  trigger_re : option Regexp;
}.

Record Postsubmit : Type := {
  PostsubmitJobBase : JobBase;
  PostsubmitContext : string;
  PostsubmitBrancher : Brancher;
  PostsubmitChangeMatcher : RegexpChangeMatcher;
}.

Record Periodic : Type := {
  PeriodicJobBase : JobBase;
  Interval : string;
  Cron : string;
  interval : Duration;
}.

Record JobConfig : Type := {
  Presets : list Preset;
  Presubmits : gmap string (list Presubmit);
  Postsubmits : gmap string (list Postsubmit);
  Periodics : list Periodic;
  AllRepos : gset string;
}.

Record Plank : Type := {
  DefaultDecorationConfig : option DecorationConfig;
  DefaultDecorationConfigs : gmap string (option DecorationConfig);
  JobURLPrefixConfig : gmap string string;
}.

Record SlackReporter : Type := {
  JobTypesToReport : list ProwJobType;
  JobStatesToReport : list string;
  Channel : string;
  ReportTemplate : string;
}.

(** The controller-level fields the job pipeline reads or writes; the
    others (Sinker, Deck, Gerrit, ...) are set by [parseProwConfig] while
    the files are loaded and are not touched afterwards. *)
Record ProwConfig : Type := {
  ProwPlank : Plank;
  ProwSlackReporter : option SlackReporter;
  PodNamespace : string;
}.

Record Config : Type := {
  ConfigJobConfig : JobConfig;
  ConfigProwConfig : ProwConfig;
}.
End Types.

(** What else the pipeline calls but does not define: Go's standard library,
    the Kubernetes validation helpers, and the functions of this package
    that live in other files. *)
Class Externals {RL : RegexpLib} : Type := {
  (** [time.ParseDuration] *)
  ParseDuration : string → res Duration;
  (** [url.Parse], for its error only *)
  url_Parse : string → res unit;
  (** [template.New("").Parse] and [Template.Execute] on an empty job, for
      their errors only *)
  template_Parse : string → res unit;
  template_Execute : string → res unit;
  (** [validation.IsQualifiedName] and [validation.IsValidLabelValue] *)
  IsQualifiedName : string → list string;
  IsValidLabelValue : string → list string;
  (** [Brancher.Intersects] *)
  Intersects : Brancher → Brancher → bool;
  (** [DecorationConfig.Validate], on a pointer that may be nil *)
  Validate : option DecorationConfig → res unit;
  (** [mergePreset]: the pod spec with the preset's environment and volumes
      added when the labels select it *)
  mergePreset : Preset → gmap string string → PodSpec → res PodSpec;
  (** [loadConfig]: reading and parsing the files.  [Ok None] is a nil
      [*Config] returned with a nil error. *)
  loadConfig : string → string → res (option Config);
}.

(** The order in which a [range] loop visits a map: Go leaves it unspecified,
    so it is only known to enumerate the map. *)
Class GoMap : Type := {
  range : ∀ {V : Type}, gmap string V → list (string * V);
  range_perm : ∀ (V : Type) (m : gmap string V), range m ≡ₚ map_to_list m;
}.

(** ** Loops that stop at the first error *)

Fixpoint mapM {A B} (f : A → res B) (l : list A) : res (list B) :=
  match l with
  | [] => Ok []
  | x :: l' => y ← f x; ys ← mapM f l'; Ok (y :: ys)
  end.

Fixpoint foldM {A S} (f : S → A → res S) (s : S) (l : list A) : res S :=
  match l with
  | [] => Ok s
  | x :: l' => s' ← f s x; foldM f s' l'
  end.

Fixpoint forM_ {A} (f : A → res unit) (l : list A) : res unit :=
  match l with
  | [] => Ok ()
  | x :: l' => f x;; forM_ f l'
  end.

Definition nonempty {A} (l : list A) : bool :=
  match l with [] => false | _ :: _ => true end.

(** Two results that agree up to a relation on their values: the same
    error, the same panic, or related values. *)
Definition res_rel {A} (R : A → A → Prop) (m1 m2 : res A) : Prop :=
  match m1, m2 with
  | Ok a, Ok b => R a b
  | Err e, Err e' => e = e'
  | Panic v, Panic v' => v = v'
  | _, _ => False
  end.

(** ** The pipeline *)

Section Pipeline.
Context {RL : RegexpLib} {EX : Externals} {GM : GoMap}.

(** *** Field updates *)

Definition with_DecorationConfig (d : option DecorationConfig) (b : JobBase) : JobBase :=
  {| Name := Name b; Labels := Labels b; MaxConcurrency := MaxConcurrency b;
     Agent := Agent b; Cluster := Cluster b; Namespace := Namespace b;
     ErrorOnEviction := ErrorOnEviction b; SourcePath := SourcePath b;
     Spec := Spec b; JobRerunAuthConfig := JobRerunAuthConfig b;
     JobUtilityConfig :=
       {| Decorate := Decorate (JobUtilityConfig b);
          JobDecorationConfig := d;
          ExtraRefs := ExtraRefs (JobUtilityConfig b) |} |}.

Definition with_Spec (s : option PodSpec) (b : JobBase) : JobBase :=
  {| Name := Name b; Labels := Labels b; MaxConcurrency := MaxConcurrency b;
     Agent := Agent b; Cluster := Cluster b; Namespace := Namespace b;
     ErrorOnEviction := ErrorOnEviction b; SourcePath := SourcePath b;
     Spec := s; JobRerunAuthConfig := JobRerunAuthConfig b;
     JobUtilityConfig := JobUtilityConfig b |}.

Definition with_PresubmitJobBase (b : JobBase) (ps : Presubmit) : Presubmit :=
  {| PresubmitJobBase := b; AlwaysRun := AlwaysRun ps; Context := Context ps;
     SkipReport := SkipReport ps; Trigger := Trigger ps; RerunCommand := RerunCommand ps;
     PresubmitBrancher := PresubmitBrancher ps;
     PresubmitChangeMatcher := PresubmitChangeMatcher ps; trigger_re := trigger_re ps |}.

Definition with_PostsubmitJobBase (b : JobBase) (ps : Postsubmit) : Postsubmit :=
  {| PostsubmitJobBase := b; PostsubmitContext := PostsubmitContext ps;
     PostsubmitBrancher := PostsubmitBrancher ps;
     PostsubmitChangeMatcher := PostsubmitChangeMatcher ps |}.

Definition with_PeriodicJobBase (b : JobBase) (p : Periodic) : Periodic :=
  {| PeriodicJobBase := b; Interval := Interval p; Cron := Cron p; interval := interval p |}.

Definition with_interval (d : Duration) (p : Periodic) : Periodic :=
  {| PeriodicJobBase := PeriodicJobBase p; Interval := Interval p; Cron := Cron p;
     interval := d |}.

Definition with_Periodics (ps : list Periodic) (c : Config) : Config :=
  {| ConfigJobConfig :=
       {| Presets := Presets (ConfigJobConfig c);
          Presubmits := Presubmits (ConfigJobConfig c);
          Postsubmits := Postsubmits (ConfigJobConfig c);
          Periodics := ps;
          AllRepos := AllRepos (ConfigJobConfig c) |};
     ConfigProwConfig := ConfigProwConfig c |}.

(** [c.Presubmits[repo]] holds the defaulted slice; [c.AllRepos.Insert(repo)] *)
Definition with_Presubmits_of (repo : string) (jobs : list Presubmit) (c : Config) : Config :=
  {| ConfigJobConfig :=
       {| Presets := Presets (ConfigJobConfig c);
          Presubmits := <[repo := jobs]> (Presubmits (ConfigJobConfig c));
          Postsubmits := Postsubmits (ConfigJobConfig c);
          Periodics := Periodics (ConfigJobConfig c);
          AllRepos := {[repo]} ∪ AllRepos (ConfigJobConfig c) |};
     ConfigProwConfig := ConfigProwConfig c |}.

Definition with_Postsubmits_of (repo : string) (jobs : list Postsubmit) (c : Config) : Config :=
  {| ConfigJobConfig :=
       {| Presets := Presets (ConfigJobConfig c);
          Presubmits := Presubmits (ConfigJobConfig c);
          Postsubmits := <[repo := jobs]> (Postsubmits (ConfigJobConfig c));
          Periodics := Periodics (ConfigJobConfig c);
          AllRepos := {[repo]} ∪ AllRepos (ConfigJobConfig c) |};
     ConfigProwConfig := ConfigProwConfig c |}.

Definition with_DefaultDecorationConfigs (m : gmap string (option DecorationConfig))
    (c : Config) : Config :=
  {| ConfigJobConfig := ConfigJobConfig c;
     ConfigProwConfig :=
       {| ProwPlank :=
            {| DefaultDecorationConfig := DefaultDecorationConfig (ProwPlank (ConfigProwConfig c));
               DefaultDecorationConfigs := m;
               JobURLPrefixConfig := JobURLPrefixConfig (ProwPlank (ConfigProwConfig c)) |};
          ProwSlackReporter := ProwSlackReporter (ConfigProwConfig c);
          PodNamespace := PodNamespace (ConfigProwConfig c) |} |}.

Definition with_SlackReporter (r : option SlackReporter) (c : Config) : Config :=
  {| ConfigJobConfig := ConfigJobConfig c;
     ConfigProwConfig :=
       {| ProwPlank := ProwPlank (ConfigProwConfig c);
          ProwSlackReporter := r;
          PodNamespace := PodNamespace (ConfigProwConfig c) |} |}.

(** *** Decoration defaults *)

Definition GetDefaultDecorationConfigs (p : Plank) (repo : string) : option DecorationConfig :=
  let def := default None (DefaultDecorationConfigs p !! "*") in
  match DefaultDecorationConfigs p !! repo with
  | Some dcByRepo => ApplyDefault dcByRepo def
  | None =>
    let org := before_slash repo in
    match DefaultDecorationConfigs p !! org with
    | Some dcByOrg => ApplyDefault dcByOrg def
    | None => def
    end
  end.

Definition decorate_base (c : Config) (repo : string) (b : JobBase) : JobBase :=
  let def := GetDefaultDecorationConfigs (ProwPlank (ConfigProwConfig c)) repo in
  with_DecorationConfig (ApplyDefault (JobDecorationConfig (JobUtilityConfig b)) def) b.

Definition setPresubmitDecorationDefaults (c : Config) (ps : Presubmit) (repo : string)
    : Presubmit :=
  if Decorate (JobUtilityConfig (PresubmitJobBase ps))
  then with_PresubmitJobBase (decorate_base c repo (PresubmitJobBase ps)) ps
  else ps.

Definition setPostsubmitDecorationDefaults (c : Config) (ps : Postsubmit) (repo : string)
    : Postsubmit :=
  if Decorate (JobUtilityConfig (PostsubmitJobBase ps))
  then with_PostsubmitJobBase (decorate_base c repo (PostsubmitJobBase ps)) ps
  else ps.

Definition setPeriodicDecorationDefaults (c : Config) (ps : Periodic) : Periodic :=
  if Decorate (JobUtilityConfig (PeriodicJobBase ps))
  then
    let orgRepo :=
      match ExtraRefs (JobUtilityConfig (PeriodicJobBase ps)) with
      | r :: _ => Org r +:+ "/" +:+ Repo r
      | [] => ""
      end in
    with_PeriodicJobBase (decorate_base c orgRepo (PeriodicJobBase ps)) ps
  else ps.

(** *** Merging fragments *)

Definition preset_pair (kv : string * string) : string := kv.1 +:+ ":" +:+ kv.2.

(** One turn of the inner loop: the pair must not have been seen. *)
Definition check_pair (validLabels : gset string) (pair : string) : res (gset string) :=
  if bool_decide (pair ∈ validLabels)
  then Err ("duplicated preset 'label:value' pair : " +:+ pair)
  else Ok ({[pair]} ∪ validLabels).

Definition check_preset (validLabels : gset string) (preset : Preset) : res (gset string) :=
  foldM check_pair validLabels (map preset_pair (range (PresetLabels preset))).

Definition merge_lists {J : Type} (a b : gmap string (list J)) : gmap string (list J) :=
  let c := foldl (λ c '(repo, jobs), <[repo := jobs]> c) ∅ (range a) in
  foldl (λ c '(repo, jobs), <[repo := default [] (c !! repo) ++ jobs]> c) c (range b).

(** The merged configuration; [AllRepos] is left nil. *)
Definition merged (a b : JobConfig) : JobConfig :=
  {| Presets := Presets a ++ Presets b;
     Presubmits := merge_lists (Presubmits a) (Presubmits b);
     Postsubmits := merge_lists (Postsubmits a) (Postsubmits b);
     Periodics := Periodics a ++ Periodics b;
     AllRepos := ∅ |}.

Definition mergeJobConfigs (a b : JobConfig) : res JobConfig :=
  foldM check_preset ∅ (Presets a ++ Presets b);;
  Ok (merged a b).

(** The [label:value] pairs of a list of presets, in the order the check
    reads them. *)
Definition pairs_of (presets : list Preset) : list string :=
  concat (map (λ p, map preset_pair (range (PresetLabels p))) presets).

(** *** Defaulting *)

Definition DefaultTriggerFor (name : string) : string :=
  "(?m)^/test( | .* )" +:+ name +:+ ",?($|\s.*)".

Definition DefaultRerunCommandFor (name : string) : string :=
  "/test " +:+ name.

Definition defaultJobBase (c : ProwConfig) (base : JobBase) : JobBase :=
  {| Name := Name base; Labels := Labels base; MaxConcurrency := MaxConcurrency base;
     Agent := if (Agent base =? "")%string then KubernetesAgent else Agent base;
     Cluster := if (Cluster base =? "")%string then "default" else Cluster base;
     Namespace :=
       match Namespace base with
       | None => Some (PodNamespace c)
       | Some ns => if (ns =? "")%string then Some (PodNamespace c) else Some ns
       end;
     ErrorOnEviction := ErrorOnEviction base; SourcePath := SourcePath base;
     Spec := Spec base; JobRerunAuthConfig := JobRerunAuthConfig base;
     JobUtilityConfig := JobUtilityConfig base |}.

Definition defaultPresubmitFields (c : ProwConfig) (js : list Presubmit) : list Presubmit :=
  map (λ j,
         let b := defaultJobBase c (PresubmitJobBase j) in
         let ctx := if (Context j =? "")%string then Name b else Context j in
         let both := (Trigger j =? "")%string && (RerunCommand j =? "")%string in
         {| PresubmitJobBase := b; AlwaysRun := AlwaysRun j; Context := ctx;
            SkipReport := SkipReport j;
            Trigger := if both then DefaultTriggerFor (Name b) else Trigger j;
            RerunCommand := if both then DefaultRerunCommandFor (Name b) else RerunCommand j;
            PresubmitBrancher := PresubmitBrancher j;
            PresubmitChangeMatcher := PresubmitChangeMatcher j;
            trigger_re := trigger_re j |}) js.

Definition defaultPostsubmitFields (c : ProwConfig) (js : list Postsubmit) : list Postsubmit :=
  map (λ j,
         let b := defaultJobBase c (PostsubmitJobBase j) in
         {| PostsubmitJobBase := b;
            PostsubmitContext := if (PostsubmitContext j =? "")%string then Name b
                                 else PostsubmitContext j;
            PostsubmitBrancher := PostsubmitBrancher j;
            PostsubmitChangeMatcher := PostsubmitChangeMatcher j |}) js.

Definition defaultPeriodicFields (c : ProwConfig) (js : list Periodic) : list Periodic :=
  map (λ j, with_PeriodicJobBase (defaultJobBase c (PeriodicJobBase j)) j) js.

(** The pod spec is reached through a pointer, so what [mergePreset] adds
    to it stays on the job. *)
Definition resolvePresets (name : string) (labels : gmap string string)
    (spec : option PodSpec) (presets : list Preset) : res (option PodSpec) :=
  foldM (λ spec preset,
           match spec with
           | Some sp =>
             sp' ← wrap (λ e, "job " +:+ name +:+ " failed to merge presets for podspec: " +:+ e)
                        (mergePreset preset labels sp);
             Ok (Some sp')
           | None => Ok None
           end)
        spec presets.

(** *** Compiling the match structures *)

Definition setBrancherRegexes (br : Brancher) : res Brancher :=
  br ← (if nonempty (Branches br) then
          r ← wrap (λ e, "could not compile positive branch regex: " +:+ e)
                   (regexp_Compile (join "|" (Branches br)));
          Ok {| SkipBranches := SkipBranches br; Branches := Branches br;
                re := Some r; reSkip := reSkip br |}
        else Ok br);
  if nonempty (SkipBranches br) then
    r ← wrap (λ e, "could not compile negative branch regex: " +:+ e)
             (regexp_Compile (join "|" (SkipBranches br)));
    Ok {| SkipBranches := SkipBranches br; Branches := Branches br;
          re := re br; reSkip := Some r |}
  else Ok br.

Definition setChangeRegexes (cm : RegexpChangeMatcher) : res RegexpChangeMatcher :=
  if negb (RunIfChanged cm =? "")%string then
    r ← wrap (λ e, "could not compile run_if_changed regex: " +:+ e)
             (regexp_Compile (RunIfChanged cm));
    Ok {| RunIfChanged := RunIfChanged cm; reChanges := Some r |}
  else Ok cm.

Definition rerun_mismatch (j : Presubmit) : error :=
  "for job " +:+ Name (PresubmitJobBase j) +:+ ", rerun command " +:+ quoted (RerunCommand j)
    +:+ " does not match trigger " +:+ quoted (Trigger j).

(** One turn of the loop of [SetPresubmitRegexes]. *)
Definition setPresubmitRegex (j : Presubmit) : res Presubmit :=
  let name := Name (PresubmitJobBase j) in
  r ← wrap (λ e, "could not compile trigger regex for " +:+ name +:+ ": " +:+ e)
           (regexp_Compile (Trigger j));
  if negb (MatchString r (RerunCommand j)) then Err (rerun_mismatch j)
  else
    b ← wrap (λ e, "could not set branch regexes for " +:+ name +:+ ": " +:+ e)
             (setBrancherRegexes (PresubmitBrancher j));
    c ← wrap (λ e, "could not set change regexes for " +:+ name +:+ ": " +:+ e)
             (setChangeRegexes (PresubmitChangeMatcher j));
    Ok {| PresubmitJobBase := PresubmitJobBase j; AlwaysRun := AlwaysRun j;
          Context := Context j; SkipReport := SkipReport j; Trigger := Trigger j;
          RerunCommand := RerunCommand j; PresubmitBrancher := b;
          PresubmitChangeMatcher := c; trigger_re := Some r |}.

Definition SetPresubmitRegexes (js : list Presubmit) : res (list Presubmit) :=
  mapM setPresubmitRegex js.

Definition setPostsubmitRegex (j : Postsubmit) : res Postsubmit :=
  let name := Name (PostsubmitJobBase j) in
  b ← wrap (λ e, "could not set branch regexes for " +:+ name +:+ ": " +:+ e)
           (setBrancherRegexes (PostsubmitBrancher j));
  c ← wrap (λ e, "could not set change regexes for " +:+ name +:+ ": " +:+ e)
           (setChangeRegexes (PostsubmitChangeMatcher j));
  Ok {| PostsubmitJobBase := PostsubmitJobBase j; PostsubmitContext := PostsubmitContext j;
        PostsubmitBrancher := b; PostsubmitChangeMatcher := c |}.

Definition SetPostsubmitRegexes (ps : list Postsubmit) : res (list Postsubmit) :=
  mapM setPostsubmitRegex ps.

(** *** Defaulting the jobs of one repository *)

Definition defaultPresubmits (presubmits : list Presubmit) (c : Config) (repo : string)
    : res (list Presubmit) :=
  presubmits ←
    mapM (λ ps,
            let ps' := setPresubmitDecorationDefaults c ps repo in
            spec ← resolvePresets (Name (PresubmitJobBase ps)) (Labels (PresubmitJobBase ps))
                                  (Spec (PresubmitJobBase ps)) (Presets (ConfigJobConfig c));
            Ok (with_PresubmitJobBase (with_Spec spec (PresubmitJobBase ps')) ps'))
         presubmits;
  let presubmits := defaultPresubmitFields (ConfigProwConfig c) presubmits in
  wrap (λ e, "could not set regex: " +:+ e) (SetPresubmitRegexes presubmits).

Definition defaultPostsubmits (postsubmits : list Postsubmit) (c : Config) (repo : string)
    : res (list Postsubmit) :=
  postsubmits ←
    mapM (λ ps,
            let ps' := setPostsubmitDecorationDefaults c ps repo in
            spec ← resolvePresets (Name (PostsubmitJobBase ps)) (Labels (PostsubmitJobBase ps))
                                  (Spec (PostsubmitJobBase ps)) (Presets (ConfigJobConfig c));
            Ok (with_PostsubmitJobBase (with_Spec spec (PostsubmitJobBase ps')) ps'))
         postsubmits;
  let postsubmits := defaultPostsubmitFields (ConfigProwConfig c) postsubmits in
  wrap (λ e, "could not set regex: " +:+ e) (SetPostsubmitRegexes postsubmits).

Definition defaultPeriodics (periodics : list Periodic) (c : Config) : res (list Periodic) :=
  let periodics := defaultPeriodicFields (ConfigProwConfig c) periodics in
  mapM (λ periodic,
          spec ← resolvePresets (Name (PeriodicJobBase periodic))
                                (Labels (PeriodicJobBase periodic))
                                (Spec (PeriodicJobBase periodic)) (Presets (ConfigJobConfig c));
          Ok (with_PeriodicJobBase (with_Spec spec (PeriodicJobBase periodic)) periodic))
       periodics.

(** *** finalizeJobConfig *)

Definition decorationRequested (c : JobConfig) : bool :=
  existsb (λ '(_, vs), existsb (λ v, Decorate (JobUtilityConfig (PresubmitJobBase v))) vs)
          (range (Presubmits c))
  || existsb (λ '(_, js), existsb (λ j, Decorate (JobUtilityConfig (PostsubmitJobBase j))) js)
             (range (Postsubmits c))
  || existsb (λ p, Decorate (JobUtilityConfig (PeriodicJobBase p))) (Periodics c).

Definition plank (c : Config) : Plank := ProwPlank (ConfigProwConfig c).

(** The block guarded by [c.decorationRequested()]. *)
Definition finalizeDecoration (c : Config) : res Config :=
  c ← match DefaultDecorationConfig (plank c) with
      | Some d =>
        if negb (bool_decide (DefaultDecorationConfigs (plank c) = ∅))
        then Err "both default_decoration_config and default_decoration_configs are specified"
        else Ok (with_DefaultDecorationConfigs {[ "*" := Some d ]} c)
      | None => Ok c
      end;
  if bool_decide (DefaultDecorationConfigs (plank c) = ∅)
  then Err "both default_decoration_config and default_decoration_configs['*'] are missing"
  else
    match DefaultDecorationConfigs (plank c) !! "*" with
    | None => Err "default_decoration_configs['*'] is missing"
    | Some star =>
      wrap (λ e, "decoration config validation error: " +:+ e) (Validate star);;
      Ok (with_Periodics (map (setPeriodicDecorationDefaults c) (Periodics (ConfigJobConfig c))) c)
    end.

(** One turn of the loop over [c.Presubmits]: the slice is defaulted in
    place and the repository recorded. *)
Definition presubmit_step (c : Config) (kv : string * list Presubmit) : res Config :=
  let '(repo, jobs) := kv in
  jobs ← defaultPresubmits jobs c repo; Ok (with_Presubmits_of repo jobs c).

Definition postsubmit_step (c : Config) (kv : string * list Postsubmit) : res Config :=
  let '(repo, jobs) := kv in
  jobs ← defaultPostsubmits jobs c repo; Ok (with_Postsubmits_of repo jobs c).

Definition finalizeJobConfig (c : Config) : res Config :=
  c ← (if decorationRequested (ConfigJobConfig c) then finalizeDecoration c else Ok c);
  c ← foldM presubmit_step c (range (Presubmits (ConfigJobConfig c)));
  c ← foldM postsubmit_step c (range (Postsubmits (ConfigJobConfig c)));
  periodics ← defaultPeriodics (Periodics (ConfigJobConfig c)) c;
  Ok (with_Periodics periodics c).

(** *** validateComponentConfig *)

Definition DefaultAndValidate (cfg : SlackReporter) : res SlackReporter :=
  let cfg :=
    if (ReportTemplate cfg =? "")%string then
      {| JobTypesToReport := JobTypesToReport cfg;
         JobStatesToReport := JobStatesToReport cfg;
         Channel := Channel cfg;
         ReportTemplate := "Job {{.Spec.Job}} of type {{.Spec.Type}} ended with state {{.Status.State}}. <{{.Status.URL}}|View logs>" |}
    else cfg in
  if (Channel cfg =? "")%string then Err "channel must be set"
  else
    wrap (λ e, "failed to parse template: " +:+ e) (template_Parse (ReportTemplate cfg));;
    wrap (λ e, "failed to execute report_template: " +:+ e)
         (template_Execute (ReportTemplate cfg));;
    Ok cfg.

Definition validateComponentConfig (c : Config) : res Config :=
  forM_ (λ '(k, v),
           wrap (λ e, "Invalid value for Planks job_url_prefix_config[" +:+ quoted k +:+ "]: " +:+ e)
                (url_Parse v))
        (range (JobURLPrefixConfig (plank c)));;
  match ProwSlackReporter (ConfigProwConfig c) with
  | Some cfg =>
    cfg ← wrap (λ e, "failed to validate slackreporter config: " +:+ e)
               (DefaultAndValidate cfg);
    Ok (with_SlackReporter (Some cfg) c)
  | None => Ok c
  end.

(** *** Validation of one job *)

Definition jobNamePattern : string := "^[A-Za-z0-9-._]+$".

(** [regexp.MustCompile]: a pattern that does not compile is a panic.  The
    variable is initialised when the package is loaded; here the pattern is
    compiled where the variable is read. *)
Definition MustCompile (pat : string) : res Regexp :=
  match regexp_Compile pat with
  | Ok r => Ok r
  | Err e => Panic ("regexp: Compile(" +:+ quoted pat +:+ "): " +:+ e)
  | Panic v => Panic v
  end.

Definition jobNameRegex : res Regexp := MustCompile jobNamePattern.

Definition validateAgent (v : JobBase) (podNamespace : string) : res unit :=
  let k := KubernetesAgent in
  let b := KnativeBuildAgent in
  let j := JenkinsAgent in
  let p := TektonAgent in
  let agent := Agent v in
  let has a := (agent =? a)%string in
  if negb (has k || has b || has j || has p) then Ok ()
  else if bool_decide (Spec v ≠ None) && negb (has k) then
    Err ("job specs require agent: " +:+ k +:+ " (found " +:+ quoted agent +:+ ")")
  else if has k && bool_decide (Spec v = None) then Err "kubernetes jobs require a spec"
  else if bool_decide (JobDecorationConfig (JobUtilityConfig v) ≠ None)
          && negb (has k) && negb (has b) then
    Err ("decoration requires agent: " +:+ k +:+ " or " +:+ b +:+ " (found " +:+ quoted agent +:+ ")")
  else if ErrorOnEviction v && negb (has k) then
    Err ("error_on_eviction only applies to agent: " +:+ k +:+ " (found " +:+ quoted agent +:+ ")")
  else
    match Namespace v with
    | None => Err "failed to default namespace"
    | Some ns =>
      if (ns =? "")%string then Err "failed to default namespace"
      else if negb (ns =? podNamespace)%string && negb (has b) && negb (has p) then
        Err ("namespace customization requires agent: " +:+ b +:+ " or " +:+ p
               +:+ " (found " +:+ quoted agent +:+ ")")
      else Ok ()
    end.

Definition validatePodSpec (jobType : ProwJobType) (spec : option PodSpec) : res unit :=
  match spec with
  | None => Ok ()
  | Some spec =>
    if nonempty (InitContainers spec) then Err "pod spec may not use init containers"
    else if negb (List.length (Containers spec) =? 1)%nat then
      Err ("pod spec must specify exactly 1 container, found: "
             +:+ pretty (List.length (Containers spec)))
    else Ok ()
  end.

Definition validateLabels (labels : gmap string string) : res unit :=
  forM_ (λ '(label, value),
           if nonempty (IsQualifiedName label) then
             Err ("invalid label " +:+ label +:+ ": " +:+ fmt_strings (IsQualifiedName label))
           else if nonempty (IsValidLabelValue value) then
             Err ("label " +:+ label +:+ " has invalid value " +:+ value +:+ ": "
                    +:+ fmt_strings (IsValidLabelValue value))
           else Ok ())
        (range labels).

Definition validateDecoration (container : Container) (config : option DecorationConfig)
    : res unit :=
  match config with
  | None => Ok ()
  | Some _ =>
    wrap (λ e, "invalid decoration config: " +:+ e) (Validate config);;
    match Command container ++ Args container with
    | [] => Err "decorated job containers must specify command and/or args"
    | a :: _ =>
      if (a =? "")%string
      then Err "decorated job containers must specify command and/or args"
      else Ok ()
    end
  end.

(** The rerun-authorization test of [validateJobBase]. *)
Definition ambiguous_rerun_auth (r : option RerunAuthConfig) : bool :=
  match r with
  | Some r =>
    AllowAnyone r
    && (nonempty (GitHubUsers r) || nonempty (GitHubTeamIDs r) || nonempty (GitHubTeamSlugs r))
  | None => false
  end.

Definition validateJobBase (v : JobBase) (jobType : ProwJobType) (podNamespace : string)
    : res unit :=
  r ← jobNameRegex;
  if negb (MatchString r (Name v)) then
    Err ("name: must match regex " +:+ quoted jobNamePattern)
  else if (MaxConcurrency v <? 0)%Z then
    Err ("max_concurrency: " +:+ pretty (MaxConcurrency v) +:+ " must be a non-negative number")
  else
    validateAgent v podNamespace;;
    validatePodSpec jobType (Spec v);;
    validateLabels (Labels v);;
    match Spec v with
    | None => Ok ()
    | Some spec =>
      match Containers spec with
      | [] => Ok ()
      | container :: _ =>
        if ambiguous_rerun_auth (JobRerunAuthConfig v) then
          Err "allow anyone is set to true and permitted users or groups are specified"
        else validateDecoration container (JobDecorationConfig (JobUtilityConfig v))
      end
    end.

Definition validateTriggering (job : Presubmit) : res unit :=
  let name := Name (PresubmitJobBase job) in
  if AlwaysRun job && negb (RunIfChanged (PresubmitChangeMatcher job) =? "")%string then
    Err ("job " +:+ name +:+ " is set to always run but also declares run_if_changed targets, which are mutually exclusive")
  else if negb (SkipReport job) && (Context job =? "")%string then
    Err ("job " +:+ name +:+ " is set to report but has no context configured")
  else if negb (Trigger job =? "")%string && (RerunCommand job =? "")%string
          || (Trigger job =? "")%string && negb (RerunCommand job =? "")%string then
    Err ("Either both of job.Trigger and job.RerunCommand must be set, wasnt the case for job "
           +:+ quoted name)
  else Ok ().

(** *** Validation of the jobs of one repository *)

(** One turn of the loop of [validatePresubmits]; [validPresubmits] maps a
    name to the entries accepted so far under it. *)
Definition validatePresubmit (podNamespace : string)
    (validPresubmits : gmap string (list Presubmit)) (ps : Presubmit)
    : res (gmap string (list Presubmit)) :=
  let name := Name (PresubmitJobBase ps) in
  let existing := default [] (validPresubmits !! name) in
  if existsb (λ existingJob, Intersects (PresubmitBrancher existingJob) (PresubmitBrancher ps))
             existing
  then Err ("duplicated presubmit job: " +:+ name)
  else
    wrap (λ e, "invalid presubmit job " +:+ name +:+ ": " +:+ e)
         (validateJobBase (PresubmitJobBase ps) PresubmitJob podNamespace);;
    validateTriggering ps;;
    Ok (<[name := existing ++ [ps]]> validPresubmits).

Definition validatePresubmits (presubmits : list Presubmit) (podNamespace : string)
    : res unit :=
  foldM (validatePresubmit podNamespace) ∅ presubmits;; Ok ().

Definition validatePostsubmit (podNamespace : string)
    (validPostsubmits : gmap string (list Postsubmit)) (ps : Postsubmit)
    : res (gmap string (list Postsubmit)) :=
  let name := Name (PostsubmitJobBase ps) in
  let existing := default [] (validPostsubmits !! name) in
  if existsb (λ existingJob, Intersects (PostsubmitBrancher existingJob) (PostsubmitBrancher ps))
             existing
  then Err ("duplicated postsubmit job: " +:+ name)
  else
    wrap (λ e, "invalid postsubmit job " +:+ name +:+ ": " +:+ e)
         (validateJobBase (PostsubmitJobBase ps) PostsubmitJob podNamespace);;
    Ok (<[name := existing ++ [ps]]> validPostsubmits).

Definition validatePostsubmits (postsubmits : list Postsubmit) (podNamespace : string)
    : res unit :=
  foldM (validatePostsubmit podNamespace) ∅ postsubmits;; Ok ().

Definition validatePeriodics (periodics : list Periodic) (podNamespace : string) : res unit :=
  foldM (λ (validPeriodics : gset string) p,
           let name := Name (PeriodicJobBase p) in
           if bool_decide (name ∈ validPeriodics)
           then Err ("duplicated periodic job : " +:+ name)
           else
             wrap (λ e, "invalid periodic job " +:+ name +:+ ": " +:+ e)
                  (validateJobBase (PeriodicJobBase p) PeriodicJob podNamespace);;
             Ok ({[name]} ∪ validPeriodics))
        ∅ periodics;; Ok ().

(** *** validateJobConfig *)

(** The last loop of [validateJobConfig]: the periodics as the loop leaves
    them, and how it ended. *)
Fixpoint setIntervals (periodics : list Periodic) : list Periodic * res unit :=
  match periodics with
  | [] => ([], Ok ())
  | p :: rest =>
    let name := Name (PeriodicJobBase p) in
    if negb (Cron p =? "")%string && negb (Interval p =? "")%string then
      (p :: rest, Err ("cron and interval cannot be both set in periodic " +:+ name))
    else if (Cron p =? "")%string && (Interval p =? "")%string then
      (p :: rest, Err ("cron and interval cannot be both empty in periodic " +:+ name))
    else if negb (Cron p =? "")%string then
      let '(rest', r) := setIntervals rest in (p :: rest', r)
    else
      match ParseDuration (Interval p) with
      | Ok d => let '(rest', r) := setIntervals rest in (with_interval d p :: rest', r)
      | Err e => (p :: rest, Err ("cannot parse duration for " +:+ name +:+ ": " +:+ e))
      | Panic v => (p :: rest, Panic v)
      end
  end.

Definition validateJobs (c : Config) : res unit :=
  let podNamespace := PodNamespace (ConfigProwConfig c) in
  forM_ (λ '(_, jobs), validatePresubmits jobs podNamespace)
        (range (Presubmits (ConfigJobConfig c)));;
  forM_ (λ '(_, jobs), validatePostsubmits jobs podNamespace)
        (range (Postsubmits (ConfigJobConfig c)));;
  validatePeriodics (Periodics (ConfigJobConfig c)) podNamespace.

(** The receiver is a pointer: the configuration as validation leaves it,
    and the error it returns. *)
Definition validateJobConfig (c : Config) : Config * res unit :=
  match validateJobs c with
  | Ok _ =>
    let '(periodics, r) := setIntervals (Periodics (ConfigJobConfig c)) in
    (with_Periodics periodics c, r)
  | r => (c, r)
  end.

(** *** Load *)

(** What [Load] runs once [loadConfig] has returned a configuration. *)
Definition Load_stages (c : Config) : res Config :=
  c ← finalizeJobConfig c;
  c ← validateComponentConfig c;
  let '(c, r) := validateJobConfig c in
  r;; Ok c.

(** The named results [(c, err)] of [Load] and whether the function is
    returning or panicking when its deferred call runs. *)
Inductive unwinding : Type :=
| Returning
| Panicking (r : string).

Definition results : Type := option Config * option error.

Definition nil_dereference : string :=
  "runtime error: invalid memory address or nil pointer dereference".

(** The body of [Load]: [return nil, err], [return c, nil], or a panic,
    which leaves the results as the last assignment made them.  Calling a
    method that reads the configuration through a nil pointer panics. *)
Definition Load_run (prowConfig jobConfig : string) : results * unwinding :=
  match loadConfig prowConfig jobConfig with
  | Panic r => ((None, None), Panicking r)
  | Err e => ((None, Some e), Returning)
  | Ok None => ((None, None), Panicking nil_dereference)
  | Ok (Some c) =>
    match Load_stages c with
    | Ok c' => ((Some c', None), Returning)
    | Err e => ((None, Some e), Returning)
    | Panic r => ((Some c, None), Panicking r)
    end
  end.

(** The deferred function: [recover()] returns the value of the panic in
    flight, which stops it, and the results are overwritten. *)
Definition Load_deferred (st : results * unwinding) : results * unwinding :=
  match snd st with
  | Panicking r => ((None, Some ("panic loading config: " +:+ r)), Returning)
  | Returning => st
  end.

Definition Load (prowConfig jobConfig : string) : results * unwinding :=
  Load_deferred (Load_run prowConfig jobConfig).

(** *** Vocabulary of the properties *)

Definition presubmit_decoration (ps : Presubmit) : option DecorationConfig :=
  JobDecorationConfig (JobUtilityConfig (PresubmitJobBase ps)).

(** The first of two optional values that is set. *)
Definition first_set {A} (a b : option A) : option A :=
  match a with Some v => Some v | None => b end.

Definition wildcard_entry (p : Plank) : option DecorationConfig :=
  default None (DefaultDecorationConfigs p !! "*").

(** The entry of the repository, or else of its organisation; nil when
    the map has neither. *)
Definition located_entry (p : Plank) (repo : string) : option DecorationConfig :=
  match DefaultDecorationConfigs p !! repo with
  | Some e => e
  | None => default None (DefaultDecorationConfigs p !! before_slash repo)
  end.

(** The resolution as the specification words it: the entry of the
    repository; if absent, that of the organisation; if absent, the
    wildcard entry. *)
Definition lookup_as_stated (p : Plank) (repo : string) : option DecorationConfig :=
  match DefaultDecorationConfigs p !! repo with
  | Some e => e
  | None =>
    match DefaultDecorationConfigs p !! before_slash repo with
    | Some e => e
    | None => wildcard_entry p
    end
  end.

Definition presubmit_name (ps : Presubmit) : string := Name (PresubmitJobBase ps).
Definition postsubmit_name (ps : Postsubmit) : string := Name (PostsubmitJobBase ps).

(** The trigger of the presubmit compiles, the compiled matcher is the one
    cached on the job, and it accepts the rerun command. *)
Definition accepts_rerun (ps : Presubmit) : Prop :=
  ∃ r, regexp_Compile (Trigger ps) = Ok r ∧ MatchString r (RerunCommand ps) = true
       ∧ trigger_re ps = Some r.

Definition cron_set (p : Periodic) : bool := negb (Cron p =? "")%string.
Definition interval_set (p : Periodic) : bool := negb (Interval p =? "")%string.

(** Exactly one of cron and interval is set. *)
Definition one_schedule (p : Periodic) : Prop := xorb (cron_set p) (interval_set p) = true.

(** What validation may have done to one periodic: nothing, or written
    the parsed interval; every other field is as it was. *)
Definition interval_written (p p' : Periodic) : Prop :=
  PeriodicJobBase p' = PeriodicJobBase p ∧ Interval p' = Interval p ∧ Cron p' = Cron p
  ∧ (interval p' = interval p
     ∨ (interval_set p = true ∧ ParseDuration (Interval p) = Ok (interval p'))).

(** What validation has done to one periodic when it returned no error. *)
Definition interval_set_from (p p' : Periodic) : Prop :=
  PeriodicJobBase p' = PeriodicJobBase p ∧ Interval p' = Interval p ∧ Cron p' = Cron p
  ∧ if interval_set p
    then cron_set p = false ∧ ParseDuration (Interval p) = Ok (interval p')
    else cron_set p = true ∧ interval p' = interval p.

(** The map of defaults once the deprecated single default has been
    migrated into it. *)
Definition migrated_configs (p : Plank) : gmap string (option DecorationConfig) :=
  match DefaultDecorationConfig p with
  | Some d => {[ "*" := Some d ]}
  | None => DefaultDecorationConfigs p
  end.

(** The two errors [finalizeJobConfig] has for a missing wildcard default. *)
Definition missing_wildcard_error (e : error) : Prop :=
  e = "both default_decoration_config and default_decoration_configs['*'] are missing"
  ∨ e = "default_decoration_configs['*'] is missing".

Definition both_specified (p : Plank) : Prop :=
  DefaultDecorationConfig p ≠ None ∧ DefaultDecorationConfigs p ≠ ∅.

(** Two configurations with the same jobs and pod namespace: they may
    differ in the rest of the controller configuration. *)
Definition same_jobs (c1 c2 : Config) : Prop :=
  ConfigJobConfig c1 = ConfigJobConfig c2
  ∧ PodNamespace (ConfigProwConfig c1) = PodNamespace (ConfigProwConfig c2).

Definition undecorated (b : JobBase) : Prop := Decorate (JobUtilityConfig b) = false.

(** What finalization leaves of a presubmit it was given: the name; the
    trigger and the rerun command, unless both were left out; the
    Brancher with its patterns compiled; and a compiled trigger that
    accepts the rerun command. *)
Definition presubmit_finalized (given final : Presubmit) : Prop :=
  presubmit_name final = presubmit_name given
  ∧ (¬ (Trigger given = "" ∧ RerunCommand given = "") →
     Trigger final = Trigger given ∧ RerunCommand final = RerunCommand given)
  ∧ setBrancherRegexes (PresubmitBrancher given) = Ok (PresubmitBrancher final)
  ∧ accepts_rerun final.

Definition postsubmit_finalized (given final : Postsubmit) : Prop :=
  postsubmit_name final = postsubmit_name given
  ∧ setBrancherRegexes (PostsubmitBrancher given) = Ok (PostsubmitBrancher final).

(** Two Branchers as a configuration file gives them intersect: their
    patterns compile, and the compiled Branchers, which are the ones
    validation compares, intersect. *)
Definition Branchers_intersect (a b : Brancher) : Prop :=
  ∃ a' b', setBrancherRegexes a = Ok a' ∧ setBrancherRegexes b = Ok b'
           ∧ Intersects a' b' = true.

Definition postsubmit_decoration (ps : Postsubmit) : option DecorationConfig :=
  JobDecorationConfig (JobUtilityConfig (PostsubmitJobBase ps)).

Definition periodic_decoration (ps : Periodic) : option DecorationConfig :=
  JobDecorationConfig (JobUtilityConfig (PeriodicJobBase ps)).

(** The identifier under which a periodic resolves its default: the
    repository of its first extra reference, the empty text when it has
    none. *)
Definition periodic_repo (ps : Periodic) : string :=
  match ExtraRefs (JobUtilityConfig (PeriodicJobBase ps)) with
  | r :: _ => Org r +:+ "/" +:+ Repo r
  | [] => ""
  end.

(** [Load] returned a configuration and a nil error. *)
Definition Load_succeeded (r : results * unwinding) : bool :=
  match r with
  | ((Some _, None), Returning) => true
  | _ => false
  end.
End Pipeline.

(** ** Lookups by repository and other accessors *)

(** [strings.Split(s, "/")]: the pieces between the slashes.  A string
    without a slash is its only piece, the empty string included. *)
Fixpoint split_slash (s : string) : list string :=
  match s with
  | EmptyString => [EmptyString]
  | String c s' =>
    if (c =? "/")%char then EmptyString :: split_slash s'
    else
      match split_slash s' with
      | piece :: pieces => String c piece :: pieces
      | [] => [String c EmptyString]
      end
  end.

Record InRepoConfig : Type := {
  Enabled : gmap string (option bool);
}.

(** [c.InRepoConfig.Enabled[k]]: the pointer stored under [k], nil when the
    map has no such key. *)
Definition enabled_at (c : InRepoConfig) (k : string) : option bool :=
  default None (Enabled c !! k).

Record OwnersDirBlacklist : Type := {
  Repos : gmap string (list string);
  Default : list string;
  IgnorePreconfiguredDefaults : bool;
}.

Definition preconfiguredDefaults : list string := ["\.git$"; "_output$"; "vendor/.*/.*"].

Definition DirBlacklist (ownersDirBlacklist : OwnersDirBlacklist) (org repo : string)
    : list string :=
  let blacklist := [] ++ Default ownersDirBlacklist in
  let blacklist :=
    match Repos ownersDirBlacklist !! org with
    | Some bl => blacklist ++ bl
    | None => blacklist
    end in
  let blacklist :=
    match Repos ownersDirBlacklist !! (org +:+ "/" +:+ repo) with
    | Some bl => blacklist ++ bl
    | None => blacklist
    end in
  if negb (IgnorePreconfiguredDefaults ownersDirBlacklist)
  then blacklist ++ preconfiguredDefaults
  else blacklist.

Definition DefaultConfigPath : string := "/etc/config/config.yaml".

(** The warning that is logged is not part of the result. *)
Definition ConfigPath (value : string) : string :=
  if negb (value =? "")%string then value else DefaultConfigPath.

Section Accessors.
Context {RL : RegexpLib}.

(** The receiver is read through two of its fields, which stand for it
    here: [FakeInRepoConfig], a map that may be nil, and [InRepoConfig]. *)
Definition InRepoConfigEnabled (FakeInRepoConfig : option (gmap string (list Presubmit)))
    (inRepoConfig : InRepoConfig) (identifier : string) : bool :=
  match FakeInRepoConfig with
  | Some _ => true
  | None =>
    match enabled_at inRepoConfig identifier with
    | Some enabled => enabled
    | None =>
      let identifierSlashSplit := split_slash identifier in
      let byOrg :=
        if (List.length identifierSlashSplit =? 2)%nat
        then enabled_at inRepoConfig (hd "" identifierSlashSplit)
        else None in
      match byOrg with
      | Some enabled => enabled
      | None =>
        match enabled_at inRepoConfig "*" with
        | Some enabled => enabled
        | None => false
        end
      end
    end
  end.

Definition PresubmitsStatic (jc : JobConfig) : gmap string (list Presubmit) :=
  Presubmits jc.

(** A nil map is replaced by an empty one before the write. *)
Definition SetTestPresubmits (jc : JobConfig) (identifier : string)
    (presubmits : list Presubmit) : JobConfig :=
  {| Presets := Presets jc;
     Presubmits := <[identifier := presubmits]> (Presubmits jc);
     Postsubmits := Postsubmits jc;
     Periodics := Periodics jc;
     AllRepos := AllRepos jc |}.

(** [p.JobURLPrefixConfig[k]]: the empty string for a key the map does not
    have. *)
Definition prefix_at (p : Plank) (k : string) : string :=
  default "" (JobURLPrefixConfig p !! k).

Definition GetJobURLPrefix (p : Plank) (refs : option Refs) : string :=
  match refs with
  | None => prefix_at p "*"
  | Some refs =>
    if negb (prefix_at p (Org refs +:+ "/" +:+ Repo refs) =? "")%string
    then prefix_at p (Org refs +:+ "/" +:+ Repo refs)
    else if negb (prefix_at p (Org refs) =? "")%string
    then prefix_at p (Org refs)
    else prefix_at p "*"
  end.

Context {GM : GoMap}.

(** The receiver is a pointer: the configuration as the call leaves it, and
    the error it returns.  The fragment made of the receiver's jobs has no
    [AllRepos], and the receiver keeps its own. *)
Definition mergeJobConfig (c : Config) (jc : JobConfig) : Config * res unit :=
  match mergeJobConfigs
          {| Presets := Presets (ConfigJobConfig c);
             Presubmits := Presubmits (ConfigJobConfig c);
             Postsubmits := Postsubmits (ConfigJobConfig c);
             Periodics := Periodics (ConfigJobConfig c);
             AllRepos := ∅ |} jc with
  | Ok m =>
    ({| ConfigJobConfig :=
          {| Presets := Presets m; Presubmits := Presubmits m;
             Postsubmits := Postsubmits m; Periodics := Periodics m;
             AllRepos := AllRepos (ConfigJobConfig c) |};
        ConfigProwConfig := ConfigProwConfig c |}, Ok ())
  | Err e => (c, Err e)
  | Panic v => (c, Panic v)
  end.
End Accessors.

(** *** Vocabulary *)

Definition has_slash (s : string) : bool :=
  existsb (Ascii.eqb "/") (list_ascii_of_string s).

Definition count_slash (s : string) : nat :=
  List.length (filter (λ c, c = "/"%char) (list_ascii_of_string s)).

(** The zero value [JobConfig{}]. *)
Definition empty_JobConfig {RL : RegexpLib} : JobConfig :=
  {| Presets := []; Presubmits := ∅; Postsubmits := ∅; Periodics := []; AllRepos := ∅ |}.

Definition with_JobURLPrefixConfig (m : gmap string string) (p : Plank) : Plank :=
  {| DefaultDecorationConfig := DefaultDecorationConfig p;
     DefaultDecorationConfigs := DefaultDecorationConfigs p;
     JobURLPrefixConfig := m |}.

(** ** Controller configuration *)

(** What [parseProwConfig] calls but the file does not define:
    [text/template], the label selectors of Kubernetes, [net/url], the
    levels of [logrus] and the text of a job type. *)
Class ConfigLibs : Type := {
  Template : Type;
  (** [template.New(name).Parse(text)] *)
  template_New_Parse : string → string → res Template;
  Selector : Type;
  (** [labels.Parse] *)
  labels_Parse : string → res Selector;
  URL : Type;
  (** [url.Parse], with the URL it returns *)
  url_Parse_URL : string → res URL;
  Level : Type;
  (** [logrus.ParseLevel] *)
  ParseLevel : string → res Level;
  (** [%v] of a job type: the text of its constant, which another file of
      the package declares *)
  ProwJobType_text : ProwJobType → string;
}.

Section Controllers.
Context {CL : ConfigLibs}.

Record Controller : Type := {
  JobURLTemplateString : string;
  JobURLTemplate : option Template;
  ReportTemplateString : string;
  ControllerReportTemplate : option Template;
  ControllerMaxConcurrency : Z;
  MaxGoroutines : Z;
  AllowCancellations : bool;
}.

Definition with_JobURLTemplate (t : option Template) (c : Controller) : Controller :=
  {| JobURLTemplateString := JobURLTemplateString c; JobURLTemplate := t;
     ReportTemplateString := ReportTemplateString c;
     ControllerReportTemplate := ControllerReportTemplate c;
     ControllerMaxConcurrency := ControllerMaxConcurrency c;
     MaxGoroutines := MaxGoroutines c; AllowCancellations := AllowCancellations c |}.

Definition with_ReportTemplate (t : option Template) (c : Controller) : Controller :=
  {| JobURLTemplateString := JobURLTemplateString c; JobURLTemplate := JobURLTemplate c;
     ReportTemplateString := ReportTemplateString c;
     ControllerReportTemplate := t;
     ControllerMaxConcurrency := ControllerMaxConcurrency c;
     MaxGoroutines := MaxGoroutines c; AllowCancellations := AllowCancellations c |}.

Definition with_MaxGoroutines (n : Z) (c : Controller) : Controller :=
  {| JobURLTemplateString := JobURLTemplateString c; JobURLTemplate := JobURLTemplate c;
     ReportTemplateString := ReportTemplateString c;
     ControllerReportTemplate := ControllerReportTemplate c;
     ControllerMaxConcurrency := ControllerMaxConcurrency c;
     MaxGoroutines := n; AllowCancellations := AllowCancellations c |}.

(** The receiver is a pointer: the controller as validation leaves it, and
    the error it returns.  What was written before an error stays written. *)
Definition ValidateController (c : Controller) : Controller * res unit :=
  match template_New_Parse "JobURL" (JobURLTemplateString c) with
  | Err err => (c, Err ("parsing template: " +:+ err))
  | Panic v => (c, Panic v)
  | Ok urlTmpl =>
    let c := with_JobURLTemplate (Some urlTmpl) c in
    match template_New_Parse "Report" (ReportTemplateString c) with
    | Err err => (c, Err ("parsing template: " +:+ err))
    | Panic v => (c, Panic v)
    | Ok reportTmpl =>
      let c := with_ReportTemplate (Some reportTmpl) c in
      if (ControllerMaxConcurrency c <? 0)%Z then
        (c, Err ("controller has invalid max_concurrency ("
                   +:+ pretty (ControllerMaxConcurrency c)
                   +:+ "), it needs to be a non-negative number"))
      else
        let c := if (MaxGoroutines c =? 0)%Z then with_MaxGoroutines 20 c else c in
        if (MaxGoroutines c <=? 0)%Z then
          (c, Err ("controller has invalid max_goroutines (" +:+ pretty (MaxGoroutines c)
                     +:+ "), it needs to be a positive number"))
        else (c, Ok ())
    end
  end.
End Controllers.

(** *** Vocabulary of the job checks *)

(** The four agents [validateAgent] knows. *)
Definition known_agent (agent : string) : bool :=
  (agent =? KubernetesAgent)%string || (agent =? KnativeBuildAgent)%string
  || (agent =? JenkinsAgent)%string || (agent =? TektonAgent)%string.

(** A name the job-name pattern accepts: one character or more, each a
    letter, a digit, a dash, a dot or an underscore. *)
Definition job_name_ok (name : string) : bool :=
  negb (name =? "")%string && forallb GoRegexp.name_char (list_ascii_of_string name).

(** *** Vocabulary of the defaulted jobs *)

(** What defaulting leaves on every job: an agent, a cluster and a
    namespace. *)
Definition base_defaulted (b : JobBase) : Prop :=
  Agent b ≠ "" ∧ Cluster b ≠ "" ∧ Namespace b ≠ None.

Section DefaultedJobs.
Context {RL : RegexpLib}.

(** A defaulted presubmit also has a context, unless it has no name to
    take it from, and a trigger or a rerun command. *)
Definition presubmit_defaulted (j : Presubmit) : Prop :=
  base_defaulted (PresubmitJobBase j)
  ∧ (Context j = "" → Name (PresubmitJobBase j) = "")
  ∧ ¬ (Trigger j = "" ∧ RerunCommand j = "").

Definition postsubmit_defaulted (j : Postsubmit) : Prop :=
  base_defaulted (PostsubmitJobBase j)
  ∧ (PostsubmitContext j = "" → Name (PostsubmitJobBase j) = "").

(** Two lists of jobs with the same names in the same order. *)
Definition same_names {J : Type} (name : J → string) (jobs jobs' : list J) : Prop :=
  map name jobs' = map name jobs.

Definition periodic_name (p : Periodic) : string := Name (PeriodicJobBase p).
End DefaultedJobs.

(** ** The controllers' part of the configuration *)

From stdpp Require sorting.

(** [sort.Slice] with an order that compares a text key of the elements
    with [<]: the slice is rearranged so that no element has a smaller key
    than the one before it.  The sort is not stable, so elements with equal
    keys may end in any order. *)
Class GoSort : Type := {
  sort_Slice : ∀ {A : Type}, (A → string) → list A → list A;
  sort_Slice_perm : ∀ (A : Type) (key : A → string) (l : list A), sort_Slice key l ≡ₚ l;
  sort_Slice_sorted : ∀ (A : Type) (key : A → string) (l : list A),
    Sorting.Sorted.Sorted (λ x y, (key x <=? key y)%string = true) (sort_Slice key l);
}.

(** [time.Second], [time.Minute] and [time.Hour]. *)
Definition Second : Duration := 1000000000%Z.
Definition Minute : Duration := (60 * Second)%Z.
Definition Hour : Duration := (60 * Minute)%Z.

Definition DefaultJobTimeout : Duration := (24 * Hour)%Z.

Section Components.
Context {RL : RegexpLib} {CL : ConfigLibs}.

Record PushGateway : Type := {
  Endpoint : string;
  PushInterval : option Duration;
  ServeMetrics : bool;
}.

Record Gerrit : Type := {
  TickInterval : option Duration;
  RateLimit : Z;
}.

Record JenkinsOperator : Type := {
  JenkinsController : Controller;
  LabelSelectorString : string;
  LabelSelector : option Selector;
}.

Record GitHubReporter : Type := {
  GitHubJobTypesToReport : list ProwJobType;
}.

Record Sinker : Type := {
  ResyncPeriod : option Duration;
  MaxProwJobAge : option Duration;
  MaxPodAge : option Duration;
}.

Record LensConfig : Type := {
  LensName : string;
  (** [Config], a [json.RawMessage] *)
  LensRawConfig : string;
}.

Record LensFileConfig : Type := {
  RequiredFiles : list string;
  OptionalFiles : list string;
  Lens : LensConfig;
}.

Record Spyglass : Type := {
  Lenses : list LensFileConfig;
  Viewers : gmap string (list string);
  RegexCache : gmap string Regexp;
  SizeLimit : Z;
  GCSBrowserPrefix : string;
  Announcement : string;
  TestGridConfig : string;
  TestGridRoot : string;
}.

Record ExternalAgentLog : Type := {
  ExternalAgent : string;
  SelectorString : string;
  ExternalSelector : option Selector;
  URLTemplateString : string;
  URLTemplate : option Template;
}.

Record Branding : Type := {
  Logo : string;
  Favicon : string;
  BackgroundColor : string;
  HeaderColor : string;
}.

Record Deck : Type := {
  DeckSpyglass : Spyglass;
  TideUpdatePeriod : option Duration;
  HiddenRepos : list string;
  ExternalAgentLogs : list ExternalAgentLog;
  DeckBranding : option Branding;
  GoogleAnalytics : string;
  DeckRerunAuthConfig : RerunAuthConfig;
}.

Record GitHubOptions : Type := {
  LinkURLFromConfig : string;
  LinkURL : option URL;
}.

(** The fields of [ProwConfig] and of [Plank] that the job pipeline does
    not read, and so are not in the records above: a Go [Config] is a
    [Config] and a [Components] here.  [BranchProtection] and
    [PubSubSubscriptions], which no function of the file reads or writes,
    are left out. *)
Record Components : Type := {
  PlankController : Controller;
  PodPendingTimeout : option Duration;
  PodRunningTimeout : option Duration;
  ProwSinker : Sinker;
  ProwDeck : Deck;
  ProwGerrit : Gerrit;
  ProwGitHubReporter : GitHubReporter;
  ProwInRepoConfig : InRepoConfig;
  JenkinsOperators : list JenkinsOperator;
  ProwJobNamespace : string;
  LogLevel : string;
  ProwPushGateway : PushGateway;
  ProwOwnersDirBlacklist : OwnersDirBlacklist;
  ProwGitHubOptions : GitHubOptions;
  StatusErrorLink : string;
  ProwDefaultJobTimeout : option Duration;
}.

(** [if d == nil { d = &metav1.Duration{Duration: v} }] *)
Definition default_duration (v : Duration) (d : option Duration) : option Duration :=
  match d with
  | Some _ => d
  | None => Some v
  end.

(** [if s == "" { s = v }] *)
Definition default_string (v s : string) : string :=
  if (s =? "")%string then v else s.

(** [ValidateController] on a controller of the configuration, its error
    under a prefix; the controller as validation leaves it matters only
    when the error is nil. *)
Definition validated (prefix : string) (c : Controller) : res Controller :=
  match ValidateController c with
  | (c', Ok _) => Ok c'
  | (_, Err err) => Err (prefix +:+ err)
  | (_, Panic v) => Panic v
  end.

Definition check_job_type (t : ProwJobType) : res unit :=
  match t with
  | PresubmitJob | PostsubmitJob => Ok ()
  | _ => Err ("invalid job_types_to_report: " +:+ ProwJobType_text t)
  end.

(** One turn of the loop over [c.JenkinsOperators]: [n] is the length of
    the slice and [first] the selector text of its element 0. *)
Definition parseJenkinsOperator (n : nat) (first : string) (op : JenkinsOperator)
    : res JenkinsOperator :=
  ctl ← validated "validating jenkins_operators config: " (JenkinsController op);
  sel ← wrap (λ err, "invalid jenkins_operators.label_selector option: " +:+ err)
        (labels_Parse (LabelSelectorString op));
  if (1 <? n)%nat && (LabelSelectorString op =? "")%string then
    Err "selector overlap: cannot use an empty label_selector with multiple selectors"
  else if (n =? 1)%nat && negb (first =? "")%string then
    Err "label_selector is invalid when used for a single jenkins-operator"
  else
    Ok {| JenkinsController := ctl;
          LabelSelectorString := LabelSelectorString op;
          LabelSelector := Some sel |}.

Definition parseJenkinsOperators (ops : list JenkinsOperator) : res (list JenkinsOperator) :=
  mapM (parseJenkinsOperator (List.length ops)
          (match ops with op :: _ => LabelSelectorString op | [] => "" end)) ops.

(** One turn of the loop over [c.Deck.ExternalAgentLogs]. *)
Definition parseExternalAgentLog (agentToTmpl : ExternalAgentLog) : res ExternalAgentLog :=
  urlTemplate ← wrap (λ err, "parsing template for agent " +:+ quoted (ExternalAgent agentToTmpl)
                               +:+ ": " +:+ err)
                (template_New_Parse (ExternalAgent agentToTmpl) (URLTemplateString agentToTmpl));
  s ← wrap (λ err, "error parsing selector " +:+ quoted (SelectorString agentToTmpl)
                     +:+ ": " +:+ err)
      (labels_Parse (SelectorString agentToTmpl));
  Ok {| ExternalAgent := ExternalAgent agentToTmpl;
        SelectorString := SelectorString agentToTmpl;
        ExternalSelector := Some s;
        URLTemplateString := URLTemplateString agentToTmpl;
        URLTemplate := Some urlTemplate |}.

(** [c.Deck.Spyglass.SizeLimit] after its default, or the error. *)
Definition parseSizeLimit (n : Z) : res Z :=
  if (n =? 0)%Z then Ok 100000000%Z
  else if (n <=? 0)%Z then Err "invalid value for deck.spyglass.size_limit, must be >=0"
  else Ok n.

(** The lens that stands for a viewer of the old format. *)
Definition viewer_lens (regex viewer : string) : LensFileConfig :=
  {| RequiredFiles := [regex]; OptionalFiles := [];
     Lens := {| LensName := viewer; LensRawConfig := "" |} |}.

(** One turn of the inner loop that fills the cache. *)
Definition cache_regex (cache : gmap string Regexp) (v : string) : res (gmap string Regexp) :=
  match cache !! v with
  | Some _ => Ok cache
  | None =>
    r ← wrap (λ err, "cannot compile regexp " +:+ quoted v +:+ ", err: " +:+ err)
        (regexp_Compile v);
    Ok (<[v := r]> cache)
  end.

Definition cache_regexes (lenses : list LensFileConfig) : res (gmap string Regexp) :=
  foldM (λ cache lens, foldM cache_regex cache (OptionalFiles lens ++ RequiredFiles lens))
        ∅ lenses.

Definition oldViewers : gmap string string :=
  {[ "build-log-viewer" := "buildlog";
     "metadata-viewer" := "metadata";
     "junit-viewer" := "junit" ]}.

Definition rename_viewer (v : string) : string :=
  match oldViewers !! v with
  | Some rename => rename
  | None => v
  end.

Context {GM : GoMap} {GS : GoSort}.

(** The lenses made of [c.Deck.Spyglass.Viewers], before they are sorted,
    in the order in which the map is visited. *)
Definition viewer_lenses (viewers : gmap string (list string)) : list LensFileConfig :=
  concat (map (λ '(regex, viewers), map (viewer_lens regex) viewers) (range viewers)).

Definition oldLenses (viewers : gmap string (list string)) : list LensFileConfig :=
  sort_Slice (λ lens, LensName (Lens lens)) (viewer_lenses viewers).

(** [c.GitHubReporter.JobTypesToReport] after its default. *)
Definition defaultJobTypes (k : Components) : list ProwJobType :=
  if (List.length (GitHubJobTypesToReport (ProwGitHubReporter k)) =? 0)%nat
  then GitHubJobTypesToReport (ProwGitHubReporter k) ++ [PresubmitJob; PostsubmitJob]
  else GitHubJobTypesToReport (ProwGitHubReporter k).

(** [c.Deck.Spyglass.Lenses] once the lenses of the viewers are appended. *)
Definition migratedLenses (k : Components) : list LensFileConfig :=
  Lenses (DeckSpyglass (ProwDeck k)) ++ oldLenses (Viewers (DeckSpyglass (ProwDeck k))).

(** The configuration as the assignments of [parseProwConfig] leave it,
    given what the calls that can fail have returned: the validated plank
    controller and operators, the external agent logs, the size limit, the
    cache and the link URL.  A [JobURLPrefixConfig] that is nil becomes an
    empty map, which is the same map here. *)
Definition assigned (c : Config) (k : Components) (plankController : Controller)
    (operators : list JenkinsOperator) (agentLogs : list ExternalAgentLog) (sizeLimit : Z)
    (regexCache : gmap string Regexp) (linkURL : URL) : Config * Components :=
  ({| ConfigJobConfig := ConfigJobConfig c;
      ConfigProwConfig :=
        {| ProwPlank := ProwPlank (ConfigProwConfig c);
           ProwSlackReporter := ProwSlackReporter (ConfigProwConfig c);
           PodNamespace := default_string "default" (PodNamespace (ConfigProwConfig c)) |} |},
   {| PlankController := plankController;
      PodPendingTimeout := default_duration (24 * Hour)%Z (PodPendingTimeout k);
      PodRunningTimeout := default_duration (48 * Hour)%Z (PodRunningTimeout k);
      ProwSinker :=
        {| ResyncPeriod := default_duration Hour (ResyncPeriod (ProwSinker k));
           MaxProwJobAge := default_duration (7 * 24 * Hour)%Z (MaxProwJobAge (ProwSinker k));
           MaxPodAge := default_duration (24 * Hour)%Z (MaxPodAge (ProwSinker k)) |};
      ProwDeck :=
        {| DeckSpyglass :=
             {| Lenses := migratedLenses k;
                Viewers := map rename_viewer <$> Viewers (DeckSpyglass (ProwDeck k));
                RegexCache := regexCache;
                SizeLimit := sizeLimit;
                GCSBrowserPrefix := GCSBrowserPrefix (DeckSpyglass (ProwDeck k));
                Announcement := Announcement (DeckSpyglass (ProwDeck k));
                TestGridConfig := TestGridConfig (DeckSpyglass (ProwDeck k));
                TestGridRoot := TestGridRoot (DeckSpyglass (ProwDeck k)) |};
           TideUpdatePeriod :=
             default_duration (Second * 10)%Z (TideUpdatePeriod (ProwDeck k));
           HiddenRepos := HiddenRepos (ProwDeck k);
           ExternalAgentLogs := agentLogs;
           DeckBranding := DeckBranding (ProwDeck k);
           GoogleAnalytics := GoogleAnalytics (ProwDeck k);
           DeckRerunAuthConfig := DeckRerunAuthConfig (ProwDeck k) |};
      ProwGerrit :=
        {| TickInterval := default_duration Minute (TickInterval (ProwGerrit k));
           RateLimit := if (RateLimit (ProwGerrit k) =? 0)%Z then 5%Z
                        else RateLimit (ProwGerrit k) |};
      ProwGitHubReporter := {| GitHubJobTypesToReport := defaultJobTypes k |};
      ProwInRepoConfig := ProwInRepoConfig k;
      JenkinsOperators := operators;
      ProwJobNamespace := default_string "default" (ProwJobNamespace k);
      LogLevel := default_string "info" (LogLevel k);
      ProwPushGateway :=
        {| Endpoint := Endpoint (ProwPushGateway k);
           PushInterval := default_duration Minute (PushInterval (ProwPushGateway k));
           ServeMetrics := ServeMetrics (ProwPushGateway k) |};
      ProwOwnersDirBlacklist := ProwOwnersDirBlacklist k;
      ProwGitHubOptions :=
        {| LinkURLFromConfig :=
             default_string "https://github.com" (LinkURLFromConfig (ProwGitHubOptions k));
           LinkURL := Some linkURL |};
      StatusErrorLink :=
        default_string "https://github.com/kubernetes/test-infra/issues" (StatusErrorLink k);
      ProwDefaultJobTimeout :=
        default_duration DefaultJobTimeout (ProwDefaultJobTimeout k) |}).

(** The argument is a pointer: the configuration as the call leaves it when
    it returns nil; the only caller drops the configuration when the error
    is not nil.  The calls that can fail are made in the order of the
    source; the assignments between them cannot fail and are gathered in
    [assigned].  The level goes to [logrus.SetLevel]; the logger is not
    part of the model. *)
Definition parseProwConfig (c : Config) (k : Components) : res (Config * Components) :=
  plankController ← validated "validating plank config: " (PlankController k);
  forM_ check_job_type (defaultJobTypes k);;
  operators ← parseJenkinsOperators (JenkinsOperators k);
  agentLogs ← mapM parseExternalAgentLog (ExternalAgentLogs (ProwDeck k));
  sizeLimit ← parseSizeLimit (SizeLimit (DeckSpyglass (ProwDeck k)));
  (if ambiguous_rerun_auth (Some (DeckRerunAuthConfig (ProwDeck k)))
   then Err "allow_anyone is set to true and authorized users or teams are specified."
   else Ok ());;
  regexCache ← cache_regexes (migratedLenses k);
  linkURL ← wrap (λ err, "unable to parse github.link_url, might not be a valid url: " +:+ err)
            (url_Parse_URL
               (default_string "https://github.com" (LinkURLFromConfig (ProwGitHubOptions k))));
  ParseLevel (default_string "info" (LogLevel k));;
  Ok (assigned c k plankController operators agentLogs sizeLimit regexCache linkURL).
End Components.

(** ** Reading the files *)

(** What the loader reads of an [os.FileInfo]: [Name()] and [IsDir()]. *)
Record FileInfo : Type := {
  InfoName : string;
  IsDir : bool;
}.

(** What a [filepath.WalkFunc] returns: nil, [filepath.SkipDir] or another
    error, unless it panics. *)
Inductive walked : Type :=
| WalkNil
| WalkSkipDir
| WalkErr (err : error)
| WalkPanic (v : string).

(** The file system and the decoders, which the file does not define.
    [filepath.Walk] calls the function it is given on the entries it
    visits; here the function carries the variables it captures as a state.
    Nothing is assumed about which entries are visited.  [yaml.Unmarshal]
    is only called on a zero value, so the result depends on the bytes
    alone. *)
Class FileSystem {RL : RegexpLib} {CL : ConfigLibs} : Type := {
  os_Stat : string → res FileInfo;
  ioutil_ReadFile : string → res string;
  GzipReader : Type;
  gzip_NewReader : string → res GzipReader;
  ioutil_ReadAll : GzipReader → res string;
  yaml_Unmarshal_JobConfig : string → res JobConfig;
  yaml_Unmarshal_Config : string → res (Config * Components);
  filepath_Ext : string → string;
  filepath_Base : string → string;
  filepath_Walk : ∀ {S : Type}, string →
    (S → string → option FileInfo → option error → S * walked) → S → S * res unit;
}.

(** The two bytes [1F 8B] that open a gzip file. *)
Definition gzip_header : string :=
  String (ascii_of_nat 31) (String (ascii_of_nat 139) EmptyString).

Definition with_SourcePath (path : string) (b : JobBase) : JobBase :=
  {| Name := Name b; Labels := Labels b; MaxConcurrency := MaxConcurrency b;
     Agent := Agent b; Cluster := Cluster b; Namespace := Namespace b;
     ErrorOnEviction := ErrorOnEviction b; SourcePath := path;
     Spec := Spec b; JobRerunAuthConfig := JobRerunAuthConfig b;
     JobUtilityConfig := JobUtilityConfig b |}.

Module Files.
Section Files.
Context {RL : RegexpLib} {CL : ConfigLibs} {GM : GoMap} {GS : GoSort} {FS : FileSystem}.

(** The bytes that [ioutil.ReadAll] returns beside an error are dropped:
    the caller reads them only when the error is nil. *)
Definition ReadFileMaybeGZIP (path : string) : res string :=
  b ← ioutil_ReadFile path;
  if negb (String.prefix gzip_header b) then Ok b
  else
    gzipReader ← gzip_NewReader b;
    ioutil_ReadAll gzipReader.

(** The three loops of [yamlToConfig] that write the path into the jobs. *)
Definition fix_SourcePath (path : string) (jc : JobConfig) : JobConfig :=
  {| Presets := Presets jc;
     Presubmits :=
       map (λ job, with_PresubmitJobBase (with_SourcePath path (PresubmitJobBase job)) job)
         <$> Presubmits jc;
     Postsubmits :=
       map (λ job, with_PostsubmitJobBase (with_SourcePath path (PostsubmitJobBase job)) job)
         <$> Postsubmits jc;
     Periodics :=
       map (λ job, with_PeriodicJobBase (with_SourcePath path (PeriodicJobBase job)) job)
         (Periodics jc);
     AllRepos := AllRepos jc |}.

(** [yamlToConfig] takes an [interface{}] and switches on its type; [T] is
    that type, [unmarshal] the decoder into its zero value, and [jobs] and
    [set_jobs] read and write the [JobConfig] the switch selects.  The
    value behind the pointer is returned when the error is nil. *)
Definition yamlToConfig {T : Type} (unmarshal : string → res T) (jobs : T → JobConfig)
    (set_jobs : JobConfig → T → T) (path : string) : res T :=
  b ← wrap (λ err, "error reading " +:+ path +:+ ": " +:+ err) (ReadFileMaybeGZIP path);
  nc ← wrap (λ err, "error unmarshaling " +:+ path +:+ ": " +:+ err) (unmarshal b);
  Ok (set_jobs (fix_SourcePath path (jobs nc)) nc).

(** [yamlToConfig(path, &jc)] with [jc] a [JobConfig]. *)
Definition yamlToJobConfig (path : string) : res JobConfig :=
  yamlToConfig yaml_Unmarshal_JobConfig (λ jc, jc) (λ jc _, jc) path.

(** [yamlToConfig(path, &nc)] with [nc] a [Config]. *)
Definition yamlToWholeConfig (path : string) : res (Config * Components) :=
  yamlToConfig yaml_Unmarshal_Config (λ nc, ConfigJobConfig (fst nc))
    (λ jc nc, ({| ConfigJobConfig := jc; ConfigProwConfig := ConfigProwConfig (fst nc) |},
               snd nc))
    path.

(** The function [ReadJobConfig] hands to [filepath.Walk].  It captures
    [uniqueBasenames] and [jc], which are its state here.  A nil [info]
    beside a nil error is dereferenced. *)
Definition ReadJobConfig_walkFn (st : gset string * JobConfig) (path : string)
    (info : option FileInfo) (err : option error) : (gset string * JobConfig) * walked :=
  let '(uniqueBasenames, jc) := st in
  match err, info with
  | Some _, _ => (st, WalkNil)
  | None, None => (st, WalkPanic nil_dereference)
  | None, Some info =>
    if String.prefix ".." (InfoName info) then
      if IsDir info then (st, WalkSkipDir) else (st, WalkNil)
    else if negb (filepath_Ext path =? ".yaml")%string
            && negb (filepath_Ext path =? ".yml")%string then (st, WalkNil)
    else if IsDir info then (st, WalkNil)
    else
      let base := filepath_Base path in
      if bool_decide (base ∈ uniqueBasenames) then
        (st, WalkErr ("duplicated basename is not allowed: " +:+ base))
      else
        let uniqueBasenames := {[base]} ∪ uniqueBasenames in
        match yamlToJobConfig path with
        | Err err => ((uniqueBasenames, jc), WalkErr err)
        | Panic v => ((uniqueBasenames, jc), WalkPanic v)
        | Ok subConfig =>
          match mergeJobConfigs jc subConfig with
          | Ok jc => ((uniqueBasenames, jc), WalkNil)
          | Err err => ((uniqueBasenames, empty_JobConfig), WalkErr err)
          | Panic v => ((uniqueBasenames, jc), WalkPanic v)
          end
        end
  end.

Definition ReadJobConfig (jobConfig : string) : res JobConfig :=
  stat ← os_Stat jobConfig;
  if negb (IsDir stat) then yamlToJobConfig jobConfig
  else
    match filepath_Walk jobConfig ReadJobConfig_walkFn (∅, empty_JobConfig) with
    | ((_, jc), Ok _) => Ok jc
    | (_, Err err) => Err err
    | (_, Panic v) => Panic v
    end.

Definition with_AllRepos (s : gset string) (c : Config) : Config :=
  {| ConfigJobConfig :=
       {| Presets := Presets (ConfigJobConfig c);
          Presubmits := Presubmits (ConfigJobConfig c);
          Postsubmits := Postsubmits (ConfigJobConfig c);
          Periodics := Periodics (ConfigJobConfig c);
          AllRepos := s |};
     ConfigProwConfig := ConfigProwConfig c |}.

(** The configuration behind the pointer [loadConfig] returns, which is
    never nil when the error is. *)
Definition loadConfig (prowConfig jobConfig : string) : res (Config * Components) :=
  stat ← os_Stat prowConfig;
  if IsDir stat then Err ("prowConfig cannot be a dir - " +:+ prowConfig)
  else
    nc ← yamlToWholeConfig prowConfig;
    nc ← parseProwConfig (fst nc) (snd nc);
    let c := with_AllRepos ∅ (fst nc) in
    if (jobConfig =? "")%string then Ok (c, snd nc)
    else
      jc ← ReadJobConfig jobConfig;
      match mergeJobConfig c jc with
      | (c, Ok _) => Ok (c, snd nc)
      | (_, Err err) => Err err
      | (_, Panic v) => Panic v
      end.
End Files.
End Files.

(** The externals of the job pipeline with [loadConfig] as the file
    defines it. *)
Definition with_loadConfig {RL : RegexpLib} (EX : Externals)
    (load : string → string → res (option Config)) : Externals :=
  {| ParseDuration := ParseDuration;
     url_Parse := url_Parse;
     template_Parse := template_Parse;
     template_Execute := template_Execute;
     IsQualifiedName := IsQualifiedName;
     IsValidLabelValue := IsValidLabelValue;
     Intersects := Intersects;
     Validate := Validate;
     mergePreset := mergePreset;
     loadConfig := load |}.

Definition file_externals {RL : RegexpLib} {CL : ConfigLibs} {GM : GoMap} {GS : GoSort}
    {FS : FileSystem} (EX : Externals) : Externals :=
  with_loadConfig EX (λ prowConfig jobConfig,
    nc ← Files.loadConfig prowConfig jobConfig; Ok (Some (fst nc))).

(** *** Vocabulary of the controllers' configuration *)

Section ComponentsVocabulary.
Context {RL : RegexpLib} {CL : ConfigLibs}.

(** What [ValidateController] asks of a controller. *)
Definition controller_ok (c : Controller) : Prop :=
  is_ok (template_New_Parse "JobURL" (JobURLTemplateString c)) = true
  ∧ is_ok (template_New_Parse "Report" (ReportTemplateString c)) = true
  ∧ (0 ≤ ControllerMaxConcurrency c)%Z ∧ (0 ≤ MaxGoroutines c)%Z.

(** The patterns of a list of lenses, in the order the cache reads them. *)
Definition patterns (lenses : list LensFileConfig) : list string :=
  concat (map (λ lens, OptionalFiles lens ++ RequiredFiles lens) lenses).

(** The order of two lenses by name. *)
Definition lens_name_le (a b : LensFileConfig) : Prop :=
  (LensName (Lens a) <=? LensName (Lens b))%string = true.
End ComponentsVocabulary.

(** *** Vocabulary of the files *)

(** A call [filepath.Walk] makes: the path, the info and the error it
    passes. *)
Definition walk_call : Type := string * option FileInfo * option error.

Section FilesVocabulary.
Context {RL : RegexpLib} {CL : ConfigLibs} {GM : GoMap} {GS : GoSort} {FS : FileSystem}.

(** Every job of a configuration has a source path with the property [P]. *)
Definition jobs_from (P : string → Prop) (jc : JobConfig) : Prop :=
  (∀ repo jobs job, Presubmits jc !! repo = Some jobs → job ∈ jobs →
                    P (SourcePath (PresubmitJobBase job)))
  ∧ (∀ repo jobs job, Postsubmits jc !! repo = Some jobs → job ∈ jobs →
                      P (SourcePath (PostsubmitJobBase job)))
  ∧ (∀ job, job ∈ Periodics jc → P (SourcePath (PeriodicJobBase job))).

(** The calls that pass the filters of the function [ReadJobConfig] walks
    with: no error, a name that does not start with two dots, the
    extension [.yaml] or [.yml], and not a directory. *)
Definition job_file (call : walk_call) : bool :=
  match call with
  | (path, Some info, None) =>
    negb (String.prefix ".." (InfoName info))
    && ((filepath_Ext path =? ".yaml")%string || (filepath_Ext path =? ".yml")%string)
    && negb (IsDir info)
  | _ => false
  end.

Definition call_path (call : walk_call) : string := call.1.1.

(** The captured variables after a run of calls of that function, each of
    which has returned nil or [filepath.SkipDir]. *)
Fixpoint walk_calls (calls : list walk_call) (st : gset string * JobConfig)
    : option (gset string * JobConfig) :=
  match calls with
  | [] => Some st
  | (path, info, err) :: calls =>
    match Files.ReadJobConfig_walkFn st path info err with
    | (st, WalkNil) | (st, WalkSkipDir) => walk_calls calls st
    | _ => None
    end
  end.
End FilesVocabulary.

(** ** Sample environments

    Concrete libraries on which the pipeline can be run: the model of Go's
    [regexp] above, maps visited in the order of [map_to_list], and simple
    stand-ins for the other calls. *)

Definition map_order : GoMap :=
  {| range V := map_to_list; range_perm V m := Permutation_refl _ |}.

(** Stand-in for [time.ParseDuration]: whole hours, minutes or seconds of
    one digit, as in [1h]. *)
Definition sample_ParseDuration (s : string) : res Duration :=
  match s with
  | String d (String u EmptyString) =>
    let n := (Z.of_N (N_of_ascii d) - 48)%Z in
    if (0 <=? n)%Z && (n <=? 9)%Z then
      if (u =? "h")%char then Ok (n * 3600000000000)%Z
      else if (u =? "m")%char then Ok (n * 60000000000)%Z
      else if (u =? "s")%char then Ok (n * 1000000000)%Z
      else Err ("time: unknown unit in duration " +:+ quoted s)
    else Err ("time: invalid duration " +:+ quoted s)
  | _ => Err ("time: invalid duration " +:+ quoted s)
  end.

(** Stand-in for [Brancher.Intersects] on filters that list branch names
    and skip none: they intersect when one of them lists no branch or they
    list a common one. *)
Definition sample_Intersects (a b : Brancher (RL := go_regexp)) : bool :=
  negb (nonempty (Branches a)) || negb (nonempty (Branches b))
  || existsb (λ x, existsb (String.eqb x) (Branches b)) (Branches a).

(** Stand-in for [DecorationConfig.Validate]: the utility images must be
    set; a nil receiver is dereferenced. *)
Definition sample_Validate (d : option DecorationConfig) : res unit :=
  match d with
  | Some d =>
    match d !! "utility_images" with
    | Some _ => Ok ()
    | None => Err "utility image config is not specified"
    end
  | None => Panic "runtime error: invalid memory address or nil pointer dereference"
  end.

Definition sample_externals (loaded : res (option (Config (RL := go_regexp))))
    : Externals (RL := go_regexp) :=
  {| ParseDuration := sample_ParseDuration;
     url_Parse _ := Ok ();
     template_Parse _ := Ok ();
     template_Execute _ := Ok ();
     IsQualifiedName _ := [];
     IsValidLabelValue _ := [];
     Intersects := sample_Intersects;
     Validate := sample_Validate;
     mergePreset _ _ spec := Ok spec;
     loadConfig _ _ := loaded |}.

(** *** Sample jobs *)

Definition sample_container : Container :=
  {| Command := ["make"]; Args := ["test"]; Env := [] |}.

Definition sample_spec : PodSpec :=
  {| Containers := [sample_container]; InitContainers := []; Volumes := [] |}.

Definition sample_base (name : string) : JobBase :=
  {| Name := name; Labels := ∅; MaxConcurrency := 0%Z; Agent := "kubernetes";
     Cluster := "default"; Namespace := Some "default"; ErrorOnEviction := false;
     SourcePath := "jobs.yaml"; Spec := Some sample_spec; JobRerunAuthConfig := None;
     JobUtilityConfig := {| Decorate := false; JobDecorationConfig := None; ExtraRefs := [] |} |}.

Definition sample_brancher (branches : list string) : Brancher (RL := go_regexp) :=
  {| SkipBranches := []; Branches := branches; re := None; reSkip := None |}.

Definition sample_presubmit (name : string) (branches : list string) (trigger rerun : string)
    : Presubmit (RL := go_regexp) :=
  {| PresubmitJobBase := sample_base name; AlwaysRun := true; Context := name;
     SkipReport := false; Trigger := trigger; RerunCommand := rerun;
     PresubmitBrancher := sample_brancher branches;
     PresubmitChangeMatcher := {| RunIfChanged := ""; reChanges := None |};
     trigger_re := None |}.

Definition sample_postsubmit (name : string) (branches : list string)
    : Postsubmit (RL := go_regexp) :=
  {| PostsubmitJobBase := sample_base name; PostsubmitContext := name;
     PostsubmitBrancher := sample_brancher branches;
     PostsubmitChangeMatcher := {| RunIfChanged := ""; reChanges := None |} |}.

Definition sample_periodic (name cron every : string) : Periodic :=
  {| PeriodicJobBase := sample_base name; Interval := every; Cron := cron; interval := 0%Z |}.

Definition sample_prow : ProwConfig :=
  {| ProwPlank := {| DefaultDecorationConfig := None; DefaultDecorationConfigs := ∅;
                     JobURLPrefixConfig := ∅ |};
     ProwSlackReporter := None;
     PodNamespace := "default" |}.

Definition sample_jobs (presubmits : gmap string (list (Presubmit (RL := go_regexp))))
    (postsubmits : gmap string (list (Postsubmit (RL := go_regexp))))
    (periodics : list Periodic) : JobConfig (RL := go_regexp) :=
  {| Presets := []; Presubmits := presubmits; Postsubmits := postsubmits;
     Periodics := periodics; AllRepos := ∅ |}.

(** A plank whose repository entry leaves the timeout to the wildcard. *)
Definition sample_plank : Plank :=
  {| DefaultDecorationConfig := None;
     DefaultDecorationConfigs :=
       {[ "org/repo" := Some {[ "grace_period" := "15s" ]};
          "*" := Some {[ "timeout" := "2h"; "grace_period" := "10s" ]} ]};
     JobURLPrefixConfig := ∅ |}.

Definition sample_decorated_base (name : string) (d : option DecorationConfig) : JobBase :=
  with_DecorationConfig d
    {| Name := name; Labels := ∅; MaxConcurrency := 0%Z; Agent := "kubernetes";
       Cluster := "default"; Namespace := Some "default"; ErrorOnEviction := false;
       SourcePath := "jobs.yaml"; Spec := Some sample_spec; JobRerunAuthConfig := None;
       JobUtilityConfig := {| Decorate := true; JobDecorationConfig := None; ExtraRefs := [] |} |}.

Definition sample_decorated_presubmit (name : string) (d : option DecorationConfig)
    : Presubmit (RL := go_regexp) :=
  with_PresubmitJobBase (sample_decorated_base name d) (sample_presubmit name [] "" "").

Definition sample_config (p : Plank) (jobs : JobConfig (RL := go_regexp))
    : Config (RL := go_regexp) :=
  {| ConfigJobConfig := jobs;
     ConfigProwConfig := {| ProwPlank := p; ProwSlackReporter := None;
                            PodNamespace := "default" |} |}.

(** A job for the ticket-system agent: no pod spec, and a rerun policy that
    both allows anyone and names a user. *)
Definition jenkins_job : JobBase :=
  {| Name := "nightly-build"; Labels := ∅; MaxConcurrency := 0%Z; Agent := JenkinsAgent;
     Cluster := "default"; Namespace := Some "default"; ErrorOnEviction := false;
     SourcePath := "jobs.yaml"; Spec := None;
     JobRerunAuthConfig :=
       Some {| AllowAnyone := true; GitHubUsers := ["alice"]; GitHubTeamIDs := [];
               GitHubTeamSlugs := [] |};
     JobUtilityConfig := {| Decorate := false; JobDecorationConfig := None; ExtraRefs := [] |} |}.

(** *** Sample configurations *)

Definition empty_plank : Plank :=
  {| DefaultDecorationConfig := None; DefaultDecorationConfigs := ∅; JobURLPrefixConfig := ∅ |}.

(** A wildcard entry that is a nil pointer. *)
Definition nil_wildcard_plank : Plank :=
  {| DefaultDecorationConfig := None; DefaultDecorationConfigs := {[ "*" := None ]};
     JobURLPrefixConfig := ∅ |}.

(** One repository with one presubmit that requests decoration. *)
Definition decorated_jobs : JobConfig (RL := go_regexp) :=
  sample_jobs {[ "org/repo" := [sample_decorated_presubmit "unit" None] ]} ∅ [].

(** Two presubmits named [unit-test], both scoped to branch [main]. *)
Definition unit_test_on_main : Presubmit (RL := go_regexp) :=
  sample_presubmit "unit-test" ["main"] "" "".

(** A presubmit whose rerun command its trigger does not accept. *)
Definition run_foo : Presubmit (RL := go_regexp) :=
  sample_presubmit "foo" [] "/run foo" "/test foo".

(** A periodic with both a cron expression and an interval. *)
Definition hourly_twice : Periodic := sample_periodic "nightly" "0 * * * *" "1h".

(** Two fragments with jobs for the same repository. *)
Definition fragment_a : JobConfig (RL := go_regexp) :=
  sample_jobs {[ "org/repo" := [sample_presubmit "unit" ["main"] "" ""] ]} ∅
              [sample_periodic "nightly" "" "1h"].

Definition fragment_b : JobConfig (RL := go_regexp) :=
  sample_jobs {[ "org/repo" := [sample_presubmit "lint" ["main"] "" ""];
                 "org/other" := [sample_presubmit "e2e" [] "" ""] ]} ∅
              [sample_periodic "weekly" "0 0 * * 0" ""].

(** A configuration whose only job is the ticket-system periodic above. *)
Definition jenkins_config : Config (RL := go_regexp) :=
  sample_config empty_plank
    (sample_jobs ∅ ∅
       [with_PeriodicJobBase jenkins_job (sample_periodic "nightly-build" "0 * * * *" "")]).

(** The decorated presubmit under a wildcard default that does not
    validate, under no default at all, and under a nil wildcard entry. *)
Definition invalid_wildcard_config : Config (RL := go_regexp) :=
  sample_config sample_plank decorated_jobs.

Definition no_wildcard_config : Config (RL := go_regexp) :=
  sample_config empty_plank decorated_jobs.

Definition nil_wildcard_config : Config (RL := go_regexp) :=
  sample_config nil_wildcard_plank decorated_jobs.

(** A decorated presubmit that sets its own timeout, in a configuration
    whose repository entry sets the grace period. *)
Definition own_timeout_presubmit : Presubmit (RL := go_regexp) :=
  sample_decorated_presubmit "unit" (Some {[ "timeout" := "4h" ]}).

(** The two presubmits named [unit-test] and scoped to [main], in one
    repository. *)
Definition duplicate_config : Config (RL := go_regexp) :=
  sample_config empty_plank
    (sample_jobs {[ "org/repo" := [unit_test_on_main; unit_test_on_main] ]} ∅ []).

(** The presubmit whose trigger does not accept its rerun command, alone
    in its repository. *)
Definition run_foo_config : Config (RL := go_regexp) :=
  sample_config empty_plank (sample_jobs {[ "org/repo" := [run_foo] ]} ∅ []).

(** A presubmit that does not request decoration. *)
Definition plain_presubmit : Presubmit (RL := go_regexp) :=
  sample_presubmit "unit" [] "" "".

(** The deprecated single default next to a map of defaults that has an
    entry for the repository and none for the wildcard. *)
Definition both_specified_plank : Plank :=
  {| DefaultDecorationConfig := Some {[ "timeout" := "2h" ]};
     DefaultDecorationConfigs := {[ "org/repo" := Some {[ "grace_period" := "15s" ]} ]};
     JobURLPrefixConfig := ∅ |}.

Definition both_specified_config : Config (RL := go_regexp) :=
  sample_config both_specified_plank decorated_jobs.

(** *** Samples for the accessors and the controllers *)

(** In-repo configuration switched on for an organisation, off for one of
    its repositories, with a nil wildcard entry. *)
Definition sample_in_repo : InRepoConfig :=
  {| Enabled := {[ "kubernetes" := Some true;
                   "kubernetes/test-infra" := Some false;
                   "*" := None ]} |}.

(** A plank with a URL prefix for one organisation and for everything
    else. *)
Definition prefixed_plank : Plank :=
  {| DefaultDecorationConfig := None; DefaultDecorationConfigs := ∅;
     JobURLPrefixConfig := {[ "*" := "https://prow.example/view/";
                              "kubernetes" := "https://k8s.example/view/" ]} |}.

Definition prefixed_config : Config (RL := go_regexp) :=
  sample_config prefixed_plank (sample_jobs ∅ ∅ []).

(** Stand-ins for the libraries of the controller configuration: a
    template parses unless it opens an action it does not close, a
    selector and a URL parse unless they hold a space, and the levels are
    the seven of [logrus]. *)
Fixpoint balanced_actions (open : bool) (s : string) : bool :=
  match s with
  | String "{" (String "{" s') => if open then false else balanced_actions true s'
  | String "}" (String "}" s') => if open then balanced_actions false s' else false
  | String _ s' => balanced_actions open s'
  | EmptyString => negb open
  end.

Definition has_space (s : string) : bool :=
  existsb (Ascii.eqb " ") (list_ascii_of_string s).

Definition sample_libs : ConfigLibs :=
  {| Template := string * string;
     template_New_Parse name text :=
       if balanced_actions false text then Ok (name, text)
       else Err ("template: " +:+ name +:+ ": unclosed action");
     Selector := string;
     labels_Parse s :=
       if has_space s then Err ("unable to parse requirement: " +:+ quoted s) else Ok s;
     URL := string;
     url_Parse_URL s :=
       if has_space s then Err ("parse " +:+ quoted s +:+ ": invalid character in host name")
       else Ok s;
     Level := string;
     ParseLevel s :=
       if existsb (String.eqb s)
            ["panic"; "fatal"; "error"; "warn"; "warning"; "info"; "debug"]
       then Ok s else Err ("not a valid logrus Level: " +:+ quoted s);
     ProwJobType_text t :=
       match t with
       | PresubmitJob => "presubmit"
       | PostsubmitJob => "postsubmit"
       | PeriodicJob => "periodic"
       end |}.

(** A controller as a configuration file gives it: templates as text, no
    number of goroutines. *)
Definition sample_controller : Controller (CL := sample_libs) :=
  {| JobURLTemplateString := "https://prow.example/view/{{.Spec.Job}}";
     JobURLTemplate := None;
     ReportTemplateString := "[Full PR test history](https://prow.example/pr-history)";
     ControllerReportTemplate := None;
     ControllerMaxConcurrency := 0%Z;
     MaxGoroutines := 0%Z;
     AllowCancellations := false |}.

(** Two presets whose bindings differ and read the same. *)
Definition preset_a : Preset :=
  {| PresetLabels := {[ "preset-a:b" := "c" ]}; PresetEnv := []; PresetVolumes := [] |}.

Definition preset_b : Preset :=
  {| PresetLabels := {[ "preset-a" := "b:c" ]}; PresetEnv := []; PresetVolumes := [] |}.

Definition preset_fragment (p : Preset) : JobConfig (RL := go_regexp) :=
  {| Presets := [p]; Presubmits := ∅; Postsubmits := ∅; Periodics := []; AllRepos := ∅ |}.

Definition sample_reporter : SlackReporter :=
  {| JobTypesToReport := [PresubmitJob]; JobStatesToReport := ["failure"];
     Channel := "ci-alerts"; ReportTemplate := "" |}.

(** A presubmit that leaves its context, trigger and rerun command to the
    defaults. *)
Definition bare_presubmit : Presubmit (RL := go_regexp) :=
  {| PresubmitJobBase := sample_base "unit"; AlwaysRun := true; Context := "";
     SkipReport := false; Trigger := ""; RerunCommand := "";
     PresubmitBrancher := sample_brancher [];
     PresubmitChangeMatcher := {| RunIfChanged := ""; reChanges := None |};
     trigger_re := None |}.

(** A configuration with one job of each kind, all left to the defaults. *)
Definition bare_jobs : JobConfig (RL := go_regexp) :=
  sample_jobs {[ "org/repo" := [bare_presubmit] ]}
              {[ "org/repo" := [sample_postsubmit "publish" []] ]}
              [sample_periodic "nightly" "" "1h"].

Definition bare_config : Config (RL := go_regexp) := sample_config empty_plank bare_jobs.

(** What a result holds when it is a value. *)
Definition from_Ok {A} (d : A) (m : res A) : A :=
  match m with Ok a => a | _ => d end.

(** The configuration [Load] has returned, if it has. *)
Definition from_Load {RL : RegexpLib} (d : Config) (r : results * unwinding) : Config :=
  match r with
  | ((Some c, _), _) => c
  | _ => d
  end.

(** The sample controller, validated. *)
Definition validated_controller : Controller (CL := sample_libs) :=
  (ValidateController sample_controller).1.

Definition validated_reporter : SlackReporter :=
  from_Ok sample_reporter (DefaultAndValidate (EX := sample_externals (Err "")) sample_reporter).

(** The configuration with the bare jobs, finalized and loaded. *)
Definition finalized_bare_config : Config (RL := go_regexp) :=
  from_Ok bare_config
    (finalizeJobConfig (EX := sample_externals (Err "")) (GM := map_order) bare_config).

Definition loaded_bare_config : Config (RL := go_regexp) :=
  from_Load bare_config
    (Load (EX := sample_externals (Ok (Some bare_config))) (GM := map_order) "config.yaml" "").

(** *** Samples for the controllers' configuration and the files *)

(** Stand-in for [sort.Slice]: a merge sort. *)
Definition sample_sort : GoSort :=
  {| sort_Slice A key l :=
       sorting.merge_sort (λ x y, (key x <=? key y)%string = true)
         (H := λ x y, decide ((key x <=? key y)%string = true)) l;
     sort_Slice_perm A key l :=
       sorting.merge_sort_Permutation _
         (H := λ x y, decide ((key x <=? key y)%string = true)) l;
     sort_Slice_sorted A key l :=
       sorting.Sorted_merge_sort _
         (H := λ x y, decide ((key x <=? key y)%string = true))
         (Total0 := λ x y, String.leb_total (key x) (key y)) l |}.

(** The controllers as a configuration file gives them: one lens, two
    viewers of the old format, one Jenkins operator, one external agent,
    and everything else left to the defaults. *)
Definition sample_spyglass : Spyglass (RL := go_regexp) :=
  {| Lenses := [{| RequiredFiles := ["artifacts/junit.*\.xml"]; OptionalFiles := [];
                   Lens := {| LensName := "junit"; LensRawConfig := "" |} |}];
     Viewers := {[ "build-log\.txt" := ["build-log-viewer"];
                   "started\.json|finished\.json" := ["metadata-viewer"] ]};
     RegexCache := ∅; SizeLimit := 0%Z; GCSBrowserPrefix := ""; Announcement := "";
     TestGridConfig := ""; TestGridRoot := "" |}.

Definition sample_components : Components (RL := go_regexp) (CL := sample_libs) :=
  {| PlankController := sample_controller;
     PodPendingTimeout := None;
     PodRunningTimeout := Some (2 * Hour)%Z;
     ProwSinker := {| ResyncPeriod := None; MaxProwJobAge := None; MaxPodAge := None |};
     ProwDeck :=
       {| DeckSpyglass := sample_spyglass; TideUpdatePeriod := None; HiddenRepos := [];
          ExternalAgentLogs :=
            [{| ExternalAgent := "jenkins"; SelectorString := "master=ci";
                ExternalSelector := None;
                URLTemplateString := "https://ci.example/job/{{.Spec.Job}}/consoleText";
                URLTemplate := None |}];
          DeckBranding := None; GoogleAnalytics := "";
          DeckRerunAuthConfig :=
            {| AllowAnyone := false; GitHubUsers := ["alice"]; GitHubTeamIDs := [];
               GitHubTeamSlugs := [] |} |};
     ProwGerrit := {| TickInterval := None; RateLimit := 0%Z |};
     ProwGitHubReporter := {| GitHubJobTypesToReport := [] |};
     ProwInRepoConfig := sample_in_repo;
     JenkinsOperators :=
       [{| JenkinsController := sample_controller; LabelSelectorString := "";
           LabelSelector := None |}];
     ProwJobNamespace := "";
     LogLevel := "";
     ProwPushGateway := {| Endpoint := ""; PushInterval := None; ServeMetrics := false |};
     ProwOwnersDirBlacklist :=
       {| Repos := ∅; Default := []; IgnorePreconfiguredDefaults := false |};
     ProwGitHubOptions := {| LinkURLFromConfig := ""; LinkURL := None |};
     StatusErrorLink := "";
     ProwDefaultJobTimeout := None |}.

(** What the configuration file says of the job pipeline: no job and no
    pod namespace. *)
Definition raw_config : Config (RL := go_regexp) :=
  {| ConfigJobConfig := sample_jobs ∅ ∅ [];
     ConfigProwConfig :=
       {| ProwPlank := empty_plank; ProwSlackReporter := None; PodNamespace := "" |} |}.

Definition parsed_sample
    : Config (RL := go_regexp) * Components (RL := go_regexp) (CL := sample_libs) :=
  from_Ok (raw_config, sample_components)
    (parseProwConfig (GM := map_order) (GS := sample_sort) raw_config sample_components).

(** Stand-ins for [filepath.Ext] and [filepath.Base] on clean paths: the
    text from the last dot of the last element, and the last element. *)
Fixpoint sample_Ext (path : string) : string :=
  match path with
  | EmptyString => EmptyString
  | String c rest =>
    if has_slash rest then sample_Ext rest
    else
      match sample_Ext rest with
      | EmptyString => if (c =? ".")%char then path else EmptyString
      | ext => ext
      end
  end.

Fixpoint sample_Base (path : string) : string :=
  match path with
  | EmptyString => EmptyString
  | String c rest =>
    if has_slash rest then sample_Base rest
    else if (c =? "/")%char then rest else path
  end.

(** The files of the sample: a controller configuration, and a directory
    of job files with a hidden directory and a file that is not YAML. *)
Definition sample_files : list (string * string) :=
  [("/etc/config/config.yaml", "plank: {}");
   ("/etc/job-config/README.md", "# jobs");
   ("/etc/job-config/org/repo.yaml", "presubmits: unit, postsubmits: publish");
   ("/etc/job-config/periodics.yaml", "periodics: nightly")].

Definition file (name : string) : option FileInfo :=
  Some {| InfoName := name; IsDir := false |}.

Definition directory (name : string) : option FileInfo :=
  Some {| InfoName := name; IsDir := true |}.

(** The calls a walk of the sample directory makes. *)
Definition sample_calls : list walk_call :=
  [("/etc/job-config", directory "job-config", None);
   ("/etc/job-config/..data", directory "..data", None);
   ("/etc/job-config/README.md", file "README.md", None);
   ("/etc/job-config/locked", None, Some "lstat /etc/job-config/locked: permission denied");
   ("/etc/job-config/org", directory "org", None);
   ("/etc/job-config/org/repo.yaml", file "repo.yaml", None);
   ("/etc/job-config/periodics.yaml", file "periodics.yaml", None)].

Fixpoint sample_Walk {S : Type}
    (walkFn : S → string → option FileInfo → option error → S * walked)
    (calls : list walk_call) (s : S) : S * res unit :=
  match calls with
  | [] => (s, Ok ())
  | (path, info, err) :: calls =>
    match walkFn s path info err with
    | (s, WalkNil) | (s, WalkSkipDir) => sample_Walk walkFn calls s
    | (s, WalkErr err) => (s, Err err)
    | (s, WalkPanic v) => (s, Panic v)
    end
  end.

Definition sample_file_system : FileSystem (RL := go_regexp) (CL := sample_libs) :=
  {| os_Stat path :=
       if (path =? "/etc/job-config")%string
       then Ok {| InfoName := "job-config"; IsDir := true |}
       else if existsb (λ f, (f.1 =? path)%string) sample_files
       then Ok {| InfoName := sample_Base path; IsDir := false |}
       else Err ("stat " +:+ path +:+ ": no such file or directory");
     ioutil_ReadFile path :=
       match List.find (λ f, (f.1 =? path)%string) sample_files with
       | Some f => Ok f.2
       | None => Err ("open " +:+ path +:+ ": no such file or directory")
       end;
     GzipReader := string;
     gzip_NewReader b := Err "gzip: invalid header";
     ioutil_ReadAll b := Ok b;
     yaml_Unmarshal_JobConfig b :=
       if (b =? "presubmits: unit, postsubmits: publish")%string
       then Ok (sample_jobs {[ "org/repo" := [bare_presubmit] ]}
                            {[ "org/repo" := [sample_postsubmit "publish" []] ]} [])
       else if (b =? "periodics: nightly")%string
       then Ok (sample_jobs ∅ ∅ [sample_periodic "nightly" "" "1h"])
       else Err "yaml: unmarshal errors";
     yaml_Unmarshal_Config b :=
       if (b =? "plank: {}")%string then Ok (raw_config, sample_components)
       else Err "yaml: unmarshal errors";
     filepath_Ext := sample_Ext;
     filepath_Base := sample_Base;
     filepath_Walk S root walkFn s :=
       if (root =? "/etc/job-config")%string then sample_Walk walkFn sample_calls s
       else sample_Walk walkFn
              [(root, None, Some ("lstat " +:+ root +:+ ": no such file or directory"))] s |}.

(** The variables the walk of the sample directory leaves. *)
Definition walked_sample : gset string * JobConfig (RL := go_regexp) :=
  default (∅, empty_JobConfig)
    (walk_calls (GM := map_order) (FS := sample_file_system)
       sample_calls (∅, empty_JobConfig)).

(** What [loadConfig] and [Load] return for the sample files. *)
Definition loaded_files
    : Config (RL := go_regexp) * Components (RL := go_regexp) (CL := sample_libs) :=
  from_Ok (raw_config, sample_components)
    (Files.loadConfig (GM := map_order) (GS := sample_sort) (FS := sample_file_system)
       "/etc/config/config.yaml" "/etc/job-config/periodics.yaml").

Definition loaded_from_files : Config (RL := go_regexp) :=
  from_Load raw_config
    (Load (EX := file_externals (GM := map_order) (GS := sample_sort)
                   (FS := sample_file_system) (sample_externals (Err "")))
          (GM := map_order) "/etc/config/config.yaml" "/etc/job-config").

(** * Properties *)

(** ** Results *)

Lemma failed_Err {A} (e : error) : failed (A := A) (Err e).
Proof. intros a; discriminate. Qed.

Lemma failed_Panic {A} (v : string) : failed (A := A) (Panic v).
Proof. intros a; discriminate. Qed.

Lemma not_failed_Ok {A} (a : A) : ¬ failed (Ok a).
Proof. intros H; exact (H a eq_refl). Qed.

Lemma failed_bind_l {A B} (m : res A) (f : A → res B) :
  failed m → failed (m ≫= f).
Proof. destruct m; simpl; intros H b; try discriminate. destruct (H a eq_refl). Qed.

Lemma failed_wrap {A} (f : error → error) (m : res A) :
  failed (wrap f m) ↔ failed m.
Proof.
  destruct m; simpl; split; intros H b; try discriminate; destruct (H a eq_refl).
Qed.



Lemma bind_Ok_inv {A B} (m : res A) (f : A → res B) (b : B) :
  (m ≫= f) = Ok b → ∃ a, m = Ok a ∧ f a = Ok b.
Proof. destruct m; simpl; intros Hb; try discriminate. eauto. Qed.

Lemma wrap_Ok_inv {A} (f : error → error) (m : res A) (a : A) :
  wrap f m = Ok a → m = Ok a.
Proof. destruct m; simpl; intros Hm; congruence. Qed.

(** ** The regular expressions of the job names and of the default trigger *)

Module GoRegexpFacts.
Import GoRegexp.

Lemma compile_jobNamePattern : compile jobNamePattern = Some name_regex.
Proof. reflexivity. Qed.

Lemma list_ascii_of_string_app (a b : string) :
  list_ascii_of_string (a +:+ b) = list_ascii_of_string a ++ list_ascii_of_string b.
Proof. induction a as [|c a IH]; simpl; [reflexivity|]. by rewrite IH. Qed.

(** *** Lexing and parsing a pattern with a job name spliced in *)

Lemma lex_name_char c s :
  name_char c = true → lex_go Top (c :: s) = cons_tok (tok_of c) (lex_go Top s).
Proof.
  destruct c as [[] [] [] [] [] [] [] []]; intros Hc; try discriminate Hc; reflexivity.
Qed.

Lemma lex_name (l suf : list ascii) :
  forallb name_char l = true →
  lex_go Top (l ++ suf) = (λ ts, map tok_of l ++ ts) <$> lex_go Top suf.
Proof.
  induction l as [|c l IH]; intros Hl.
  - change ([] ++ suf) with suf. by destruct (lex_go Top suf).
  - cbn [forallb] in Hl. apply andb_true_iff in Hl as [Hc Hl].
    rewrite <- app_comm_cons, lex_name_char by done. rewrite IH by done.
    by destruct (lex_go Top suf).
Qed.

Lemma parse_go_app p ts1 ts2 :
  parse_go p (ts1 ++ ts2) = parse_go p ts1 ≫= λ p', parse_go p' ts2.
Proof.
  revert p; induction ts1 as [|t ts1 IH]; intros p; simpl; [done|].
  destruct (parse_step p t); simpl; [apply IH|done].
Qed.

Lemma parse_step_name_char (c : ascii) p :
  dotnl (fl p) = false → parse_step p (tok_of c) = push (atom_of c) p.
Proof.
  intros Hdot. unfold tok_of, atom_of.
  destruct (c =? ".")%char; simpl; by rewrite ?Hdot.
Qed.

Lemma parse_go_name (l : list ascii) p :
  lastRep p = false → dotnl (fl p) = false →
  parse_go p (map tok_of l) =
    Some {| stack := rev (map (λ c, INode (atom_of c)) l) ++ stack p;
            fl := fl p; lastRep := false |}.
Proof.
  revert p; induction l as [|c l IH]; intros p Hlr Hdot.
  - destruct p; simpl in *; by subst.
  - cbn [map parse_go]. rewrite parse_step_name_char by done. unfold push.
    rewrite IH by done. cbn [stack fl rev map]. by rewrite <- app_assoc.
Qed.

Lemma take_run_nodes (rs : list regex) st acc :
  take_run (map INode rs ++ st) acc = take_run st (rev rs ++ acc).
Proof.
  revert acc; induction rs as [|r rs IH]; intros acc; simpl; [done|].
  rewrite IH. by rewrite <- app_assoc.
Qed.

Lemma compile_DefaultTriggerFor (name : string) :
  forallb name_char (list_ascii_of_string name) = true →
  compile (DefaultTriggerFor name) = Some (trigger_regex (list_ascii_of_string name)).
Proof.
  intros Hn. unfold compile, DefaultTriggerFor, lex.
  rewrite !list_ascii_of_string_app.
  set (l := list_ascii_of_string name) in *.
  cbn -[app]. cbn [app]. cbn.
  rewrite lex_name by done. cbn.
  unfold parse. cbn.
  rewrite parse_go_app, parse_go_name by done. cbn.
  unfold collapse. cbn.
  rewrite <- (map_map atom_of INode), <- map_rev, take_run_nodes, rev_involutive.
  reflexivity.
Qed.

(** *** Matching *)

Lemma star_loop_ext step step' n p s k k' :
  (∀ p s k k', (∀ p s, k p s = k' p s) → step p s k = step' p s k') →
  (∀ p s, k p s = k' p s) →
  star_loop step n p s k = star_loop step' n p s k'.
Proof.
  intros Hstep Hk. revert p s; induction n as [|n IH]; intros p s; simpl.
  - by rewrite Hk.
  - rewrite Hk. f_equal. apply Hstep. intros p' s'. by rewrite IH.
Qed.

Lemma matchk_ext r p s k k' :
  (∀ p s, k p s = k' p s) → matchk r p s k = matchk r p s k'.
Proof.
  revert p s k k'.
  induction r as [|c| | |neg rs| | | | |a IHa b IHb|a IHa b IHb|a IHa|a IHa|a IHa];
    intros p s k k' Hk; simpl.
  - apply Hk.
  - destruct s; simpl; by rewrite ?Hk.
  - destruct s; simpl; by rewrite ?Hk.
  - destruct s; simpl; by rewrite ?Hk.
  - destruct s; simpl; by rewrite ?Hk.
  - destruct p; by rewrite ?Hk.
  - destruct s; by rewrite ?Hk.
  - by rewrite Hk.
  - by rewrite Hk.
  - apply IHa. intros. by apply IHb.
  - by rewrite (IHa _ _ k k'), (IHb _ _ k k').
  - apply star_loop_ext; [|done]. intros. by apply IHa.
  - apply IHa. intros. apply star_loop_ext; [|done]. intros. by apply IHa.
  - by rewrite (IHa _ _ k k'), Hk.
Qed.

Lemma matchk_cat_list_app l1 l2 p s k :
  matchk (cat_list (l1 ++ l2)) p s k =
  matchk (cat_list l1) p s (λ p' s', matchk (cat_list l2) p' s' k).
Proof.
  revert p s; induction l1 as [|r l1 IH]; intros p s; simpl; [done|].
  apply matchk_ext. intros. apply IH.
Qed.

Lemma matchk_atom_of c p s k :
  name_char c = true → matchk (atom_of c) p (c :: s) k = k (Some c) s.
Proof.
  intros Hc. unfold atom_of. destruct (c =? ".")%char eqn:E; simpl.
  - apply Ascii.eqb_eq in E. by subst.
  - by rewrite Ascii.eqb_refl.
Qed.

(** A job name read as a pattern matches the job name itself. *)
Lemma matchk_name (l : list ascii) rest :
  forallb name_char l = true →
  ∀ p, ∃ p', ∀ k, matchk (cat_list (map atom_of l)) p (l ++ rest) k = k p' rest.
Proof.
  induction l as [|c l IH]; intros Hl p.
  - by exists p.
  - cbn [forallb] in Hl. apply andb_true_iff in Hl as [Hc Hl].
    destruct (IH Hl (Some c)) as [p' Hp']. exists p'. intros k.
    cbn [map cat_list matchk]. rewrite <- app_comm_cons.
    rewrite matchk_atom_of by done. apply Hp'.
Qed.

Lemma matchk_trigger_head s k :
  k (Some " "%char) s = true →
  matchk (cat_list trigger_head) None (list_ascii_of_string "/test " ++ s) k = true.
Proof. intros Hk. simpl. by rewrite Hk. Qed.

Lemma matchk_trigger_tail p k :
  k p [] = true → matchk (cat_list trigger_tail) p [] k = true.
Proof. intros Hk. simpl. by rewrite Hk. Qed.

Lemma search_matchk r p s : matchk r p s (λ _ _, true) = true → search r p s = true.
Proof. intros Hm. destruct s; simpl; by rewrite Hm. Qed.

Lemma trigger_regex_matches_rerun (name : string) :
  forallb name_char (list_ascii_of_string name) = true →
  match_string (trigger_regex (list_ascii_of_string name)) (DefaultRerunCommandFor name) = true.
Proof.
  intros Hn.
  unfold match_string, DefaultRerunCommandFor. rewrite list_ascii_of_string_app.
  apply search_matchk. unfold trigger_regex.
  rewrite matchk_cat_list_app. apply matchk_trigger_head.
  rewrite matchk_cat_list_app.
  destruct (matchk_name (list_ascii_of_string name) [] Hn (Some " "%char)) as [p' Hp'].
  rewrite <- (app_nil_r (list_ascii_of_string name)) at 2.
  rewrite Hp'. by apply matchk_trigger_tail.
Qed.

(** *** What the job-name pattern accepts *)

Lemma star_name_chars n p s :
  star_loop (matchk (Class false name_ranges)) n p s at_end = true →
  forallb name_char s = true.
Proof.
  revert p s; induction n as [|n IH]; intros p [|c s]; try done.
  cbn [star_loop at_end cat_list matchk one xorb orb forallb].
  rewrite !andb_true_iff. intros (Hc & _ & Hs). split; [done|]. by apply IH in Hs.
Qed.

Lemma search_name_regex_inside c s : search name_regex (Some c) s = false.
Proof. revert c; induction s as [|d s IH]; intros c; simpl; [done|]. apply IH. Qed.

Lemma name_regex_chars (name : string) :
  match_string name_regex name = true →
  forallb name_char (list_ascii_of_string name) = true.
Proof.
  unfold match_string. destruct (list_ascii_of_string name) as [|c s]; [done|].
  cbn [search]. rewrite search_name_regex_inside, orb_false_r.
  cbn [name_regex cat_list matchk one xorb]. rewrite andb_true_iff. intros [Hc Hs].
  cbn [forallb]. rewrite andb_true_iff. split; [done|].
  by apply star_name_chars in Hs.
Qed.

End GoRegexpFacts.

(** C8.  For every job name the job-name pattern accepts, the pattern that
    [DefaultTriggerFor] returns compiles, and the compiled expression matches
    the string that [DefaultRerunCommandFor] returns. *)
Theorem DefaultTriggerFor_matches_DefaultRerunCommandFor (name : string) (nre : GoRegexp.regex) :
  jobNameRegex (RL := go_regexp) = Ok nre →
  MatchString (RegexpLib := go_regexp) nre name = true →
  ∃ r, regexp_Compile (RegexpLib := go_regexp) (DefaultTriggerFor name) = Ok r
       ∧ MatchString (RegexpLib := go_regexp) r (DefaultRerunCommandFor name) = true.
Proof.
  intros Hnre Hname.
  assert (jobNameRegex (RL := go_regexp) = Ok GoRegexp.name_regex) as Hc by reflexivity.
  assert (nre = GoRegexp.name_regex) as -> by congruence. clear Hc Hnre.
  apply GoRegexpFacts.name_regex_chars in Hname.
  exists (GoRegexp.trigger_regex (list_ascii_of_string name)). split.
  - change (match GoRegexp.compile (DefaultTriggerFor name) with
            | Some r => Ok r
            | None => Err ("error parsing regexp: " +:+ DefaultTriggerFor name)
            end = Ok (GoRegexp.trigger_regex (list_ascii_of_string name))).
    by rewrite GoRegexpFacts.compile_DefaultTriggerFor.
  - by apply GoRegexpFacts.trigger_regex_matches_rerun.
Qed.

Lemma DefaultTriggerFor_matches_witness :
  ∃ r, regexp_Compile (RegexpLib := go_regexp) (DefaultTriggerFor "pull-ci_unit.v2") = Ok r
       ∧ MatchString (RegexpLib := go_regexp) r (DefaultRerunCommandFor "pull-ci_unit.v2") = true.
Proof.
  apply (DefaultTriggerFor_matches_DefaultRerunCommandFor "pull-ci_unit.v2"
           GoRegexp.name_regex); reflexivity.
Defined.

(** ** Loops *)

Lemma foldM_cons {A S} (f : S → A → res S) (s : S) x (l : list A) :
  foldM f s (x :: l) = f s x ≫= λ s', foldM f s' l.
Proof. done. Qed.

Lemma foldM_app {A S} (f : S → A → res S) (s : S) (l1 l2 : list A) :
  foldM f s (l1 ++ l2) = foldM f s l1 ≫= λ s', foldM f s' l2.
Proof.
  revert s; induction l1 as [|x l1 IH]; intros s; simpl; [done|].
  destruct (f s x); simpl; [apply IH|done..].
Qed.

(** ** Merging fragments *)

Section Merge.
Context {RL : RegexpLib} {GM : GoMap}.

Lemma range_NoDup_fst {V} (m : gmap string V) : NoDup (range m).*1.
Proof. rewrite (range_perm V m). apply NoDup_fst_map_to_list. Qed.

Lemma elem_of_range {V} (m : gmap string V) k v : (k, v) ∈ range m ↔ m !! k = Some v.
Proof. rewrite (range_perm V m). apply elem_of_map_to_list. Qed.

Lemma list_to_map_range {V} (m : gmap string V) : list_to_map (range m) = m.
Proof.
  rewrite <- (list_to_map_to_list m) at 2.
  apply list_to_map_proper; [apply range_NoDup_fst|apply range_perm].
Qed.

(** A loop that stores one value per visited key, computed from the value
    found under that key. *)
Lemma foldl_insert_lookup {V} (g : option V → V → V) (l : list (string * V))
    (c : gmap string V) k :
  NoDup l.*1 →
  foldl (λ (c : gmap string V) '(k, v), <[k := g (c !! k) v]> c) c l !! k =
    match list_to_map (M := gmap string V) l !! k with
    | Some v => Some (g (c !! k) v)
    | None => c !! k
    end.
Proof.
  revert c; induction l as [|[k1 v1] l IH]; intros c Hnd; simpl; [done|].
  apply NoDup_cons in Hnd as [Hk1 Hnd]. rewrite IH by done.
  destruct (decide (k1 = k)) as [->|Hne].
  - rewrite lookup_insert_eq.
    rewrite (not_elem_of_list_to_map_1 _ k) by done. by rewrite lookup_insert_eq.
  - rewrite !lookup_insert_ne by done. done.
Qed.

Lemma merge_lists_lookup {J} (a b : gmap string (list J)) k :
  merge_lists a b !! k = union_with (λ x y, Some (x ++ y)) (a !! k) (b !! k).
Proof.
  unfold merge_lists.
  rewrite (foldl_insert_lookup (λ o v, default [] o ++ v)) by apply range_NoDup_fst.
  rewrite (foldl_insert_lookup (λ _ v, v)) by apply range_NoDup_fst.
  rewrite !list_to_map_range, lookup_empty.
  destruct (a !! k), (b !! k); done.
Qed.

Lemma merge_lists_assoc {J} (a b c : gmap string (list J)) :
  merge_lists (merge_lists a b) c = merge_lists a (merge_lists b c).
Proof.
  apply map_eq. intros k. rewrite !merge_lists_lookup.
  destruct (a !! k), (b !! k), (c !! k); simpl; try done. by rewrite app_assoc.
Qed.

Lemma check_presets_pairs valid presets :
  foldM check_preset valid presets = foldM check_pair valid (pairs_of presets).
Proof.
  revert valid; induction presets as [|p ps IH]; intros valid; [done|].
  unfold pairs_of. cbn [map concat]. rewrite foldM_cons, foldM_app.
  change (check_preset valid p)
    with (foldM check_pair valid (map preset_pair (range (PresetLabels p)))).
  destruct (foldM check_pair valid (map preset_pair _)); simpl; [apply IH|done..].
Qed.

Lemma check_pairs_Ok valid l :
  (∃ valid', foldM check_pair valid l = Ok valid') ↔ NoDup l ∧ ∀ x, x ∈ l → x ∉ valid.
Proof.
  revert valid; induction l as [|x l IH]; intros valid.
  - split; [|intros _; by eexists]. intros _. split; [apply NoDup_nil_2|].
    intros x Hx. by apply elem_of_nil in Hx.
  - rewrite foldM_cons.
    replace (check_pair valid x) with
      (if bool_decide (x ∈ valid)
       then Err ("duplicated preset 'label:value' pair : " +:+ x)
       else Ok ({[x]} ∪ valid) : res (gset string)) by done.
    case_bool_decide as Hx; simpl.
    + split; [by intros [? ?]|]. intros [_ Hall]. destruct (Hall x); [by left|done].
    + rewrite (IH ({[x]} ∪ valid)), NoDup_cons. split.
      * intros [Hnd Hall]. split; [split; [|done]|].
        -- intros Hxl. apply (Hall x Hxl), elem_of_union_l, elem_of_singleton_2. done.
        -- intros y [->|Hy]%elem_of_cons; [done|]. specialize (Hall y Hy).
           intros Hyv. apply Hall, elem_of_union_r, Hyv.
      * intros [[Hxl Hnd] Hall]. split; [done|]. intros y Hy.
        intros [->%elem_of_singleton_1|Hyv]%elem_of_union; [done|].
        by apply (Hall y); [right|].
Qed.

Lemma check_pairs_empty_Ok l : (∃ valid', foldM check_pair ∅ l = Ok valid') ↔ NoDup l.
Proof.
  rewrite check_pairs_Ok. split; [by intros [? _]|]. intros Hnd. split; [done|].
  intros x _. apply not_elem_of_empty.
Qed.

Lemma pairs_of_app p1 p2 : pairs_of (p1 ++ p2) = pairs_of p1 ++ pairs_of p2.
Proof. unfold pairs_of. by rewrite map_app, concat_app. Qed.

(** The merge succeeds exactly when no pair occurs twice among the presets,
    and then returns the concatenation. *)
Lemma mergeJobConfigs_Ok a b c :
  mergeJobConfigs a b = Ok c ↔ NoDup (pairs_of (Presets a ++ Presets b)) ∧ c = merged a b.
Proof.
  unfold mergeJobConfigs. rewrite check_presets_pairs, <- check_pairs_empty_Ok.
  destruct (foldM check_pair ∅ _) as [v|e|v]; simpl.
  - split; [intros [= <-]; eauto|intros [_ ->]; done].
  - split; [done|]. by intros [[? ?] _].
  - split; [done|]. by intros [[? ?] _].
Qed.

(** C7.  When merging [a] then [b] succeeds, the merged configuration has,
    under every repository key, the presubmits of [a] followed by those of
    [b] (the list of the one that has the key when the other has not, and
    no key when neither has), likewise for the postsubmits, and the
    periodics of [a] followed by those of [b]; and merging is associative:
    merging the result with [c] succeeds exactly when merging [b] with [c]
    and [a] with that does, and with the same configuration. *)
Theorem mergeJobConfigs_concat_assoc (a b ab : JobConfig) :
  mergeJobConfigs a b = Ok ab →
  (∀ repo, Presubmits ab !! repo
           = union_with (λ x y, Some (x ++ y)) (Presubmits a !! repo) (Presubmits b !! repo))
  ∧ (∀ repo, Postsubmits ab !! repo
             = union_with (λ x y, Some (x ++ y)) (Postsubmits a !! repo) (Postsubmits b !! repo))
  ∧ Periodics ab = Periodics a ++ Periodics b
  ∧ (∀ c abc, mergeJobConfigs ab c = Ok abc
              ↔ ∃ bc, mergeJobConfigs b c = Ok bc ∧ mergeJobConfigs a bc = Ok abc).
Proof.
  intros Hab. apply mergeJobConfigs_Ok in Hab as [Hnd ->].
  cbn [merged Presubmits Postsubmits Periodics].
  split; [intros; apply merge_lists_lookup|].
  split; [intros; apply merge_lists_lookup|].
  split; [done|]. intros c abc.
  assert (merged (merged a b) c = merged a (merged b c)) as Hm.
  { unfold merged; cbn. by rewrite !merge_lists_assoc, !app_assoc. }
  rewrite mergeJobConfigs_Ok. cbn [merged Presets]. split.
  - intros [Hnd' ->]. rewrite <- app_assoc in Hnd'.
    assert (NoDup (pairs_of (Presets b ++ Presets c))) as Hbc.
    { rewrite pairs_of_app in Hnd'. by apply NoDup_app in Hnd' as (_ & _ & ?). }
    exists (merged b c). rewrite !mergeJobConfigs_Ok. cbn [merged Presets]. done.
  - intros (bc & Hbc & Habc). apply mergeJobConfigs_Ok in Hbc as [_ ->].
    apply mergeJobConfigs_Ok in Habc as [Hnd' ->]. cbn [merged Presets] in Hnd'.
    by rewrite <- app_assoc.
Qed.
End Merge.

(** ** Decoration defaults *)

Lemma field_ApplyDefault (d def : option DecorationConfig) (f : string) :
  field (ApplyDefault d def) f = first_set (field d f) (field def f).
Proof.
  destruct d as [d|], def as [def|]; unfold field, ApplyDefault, DecorationConfig in *;
    try done.
  - rewrite lookup_union. by destruct (d !! f), (def !! f).
  - by destruct (d !! f).
Qed.

Section Decoration.
Context {RL : RegexpLib}.

(** What [GetDefaultDecorationConfigs] returns, field by field: the located
    entry over the wildcard. *)
Lemma GetDefaultDecorationConfigs_field (p : Plank) (repo f : string) :
  field (GetDefaultDecorationConfigs p repo) f
  = first_set (field (located_entry p repo) f) (field (wildcard_entry p) f).
Proof.
  unfold GetDefaultDecorationConfigs, located_entry, wildcard_entry.
  destruct (DefaultDecorationConfigs p !! repo) as [e|]; [apply field_ApplyDefault|].
  destruct (DefaultDecorationConfigs p !! before_slash repo) as [e|]; simpl;
    [apply field_ApplyDefault|done].
Qed.

(** C2, as amended.  The default for a repository is found under the exact
    [org/repo] key, or else under the [org] key; the entry found is merged
    over the wildcard entry, which is used alone when neither key exists.
    For a presubmit, a postsubmit and a periodic alike, when the job
    requests decoration every field is then the value set on the job, or
    else the value of that resolved default: the job first, the located
    entry second, the wildcard last; a periodic resolves the default of
    the repository of its first extra reference.  A job that does not
    request decoration keeps every field as it is. *)
Theorem decoration_default_precedence (c : Config) (repo f : string) :
  field (GetDefaultDecorationConfigs (plank c) repo) f
  = first_set (field (located_entry (plank c) repo) f) (field (wildcard_entry (plank c)) f)
  ∧ (∀ ps : Presubmit,
       field (presubmit_decoration (setPresubmitDecorationDefaults c ps repo)) f
       = if Decorate (JobUtilityConfig (PresubmitJobBase ps))
         then first_set (field (presubmit_decoration ps) f)
                        (field (GetDefaultDecorationConfigs (plank c) repo) f)
         else field (presubmit_decoration ps) f)
  ∧ (∀ ps : Postsubmit,
       field (postsubmit_decoration (setPostsubmitDecorationDefaults c ps repo)) f
       = if Decorate (JobUtilityConfig (PostsubmitJobBase ps))
         then first_set (field (postsubmit_decoration ps) f)
                        (field (GetDefaultDecorationConfigs (plank c) repo) f)
         else field (postsubmit_decoration ps) f)
  ∧ (∀ ps : Periodic,
       field (periodic_decoration (setPeriodicDecorationDefaults c ps)) f
       = if Decorate (JobUtilityConfig (PeriodicJobBase ps))
         then first_set (field (periodic_decoration ps) f)
                        (field (GetDefaultDecorationConfigs (plank c) (periodic_repo ps)) f)
         else field (periodic_decoration ps) f).
Proof.
  split; [apply GetDefaultDecorationConfigs_field|].
  split; [|split]; intros ps.
  - unfold setPresubmitDecorationDefaults.
    destruct (Decorate (JobUtilityConfig (PresubmitJobBase ps))); [|done].
    unfold presubmit_decoration, decorate_base. cbn. apply field_ApplyDefault.
  - unfold setPostsubmitDecorationDefaults.
    destruct (Decorate (JobUtilityConfig (PostsubmitJobBase ps))); [|done].
    unfold postsubmit_decoration, decorate_base. cbn. apply field_ApplyDefault.
  - unfold setPeriodicDecorationDefaults, periodic_repo.
    destruct (Decorate (JobUtilityConfig (PeriodicJobBase ps))); [|done].
    unfold periodic_decoration, decorate_base. cbn. apply field_ApplyDefault.
Qed.
End Decoration.

(** The claim as the specification words it fails twice.  With a
    repository entry that leaves the timeout unset and a wildcard entry
    that sets it, a decorated job without a configuration of its own gets
    the wildcard's timeout, not the unset field of the entry that was
    located.  And a job that does not request decoration takes nothing
    from the resolved default: its unset grace period stays unset though
    the default has one. *)
Lemma decoration_default_as_stated_fails :
  ¬ (∀ f, field (presubmit_decoration
                   (setPresubmitDecorationDefaults invalid_wildcard_config
                      (sample_decorated_presubmit "unit" None) "org/repo")) f
          = first_set (field (presubmit_decoration (sample_decorated_presubmit "unit" None)) f)
                      (field (lookup_as_stated (plank invalid_wildcard_config) "org/repo") f))
  ∧ ¬ (∀ f, field (presubmit_decoration
                     (setPresubmitDecorationDefaults invalid_wildcard_config
                        plain_presubmit "org/repo")) f
            = first_set (field (presubmit_decoration plain_presubmit) f)
                        (field (GetDefaultDecorationConfigs (plank invalid_wildcard_config)
                                  "org/repo") f)).
Proof.
  split; intros Hall.
  - specialize (Hall "timeout"). vm_compute in Hall. discriminate Hall.
  - specialize (Hall "grace_period"). vm_compute in Hall. discriminate Hall.
Qed.

Lemma decoration_default_precedence_witness :
  field (presubmit_decoration
           (setPresubmitDecorationDefaults invalid_wildcard_config own_timeout_presubmit
              "org/repo")) "grace_period"
  = first_set (field (presubmit_decoration own_timeout_presubmit) "grace_period")
              (field (GetDefaultDecorationConfigs (plank invalid_wildcard_config) "org/repo")
                     "grace_period").
Proof.
  exact (proj1 (proj2 (decoration_default_precedence invalid_wildcard_config
                         "org/repo" "grace_period"))
           own_timeout_presubmit).
Defined.

Lemma forM__Ok {A} (f : A → res unit) (l : list A) :
  forM_ f l = Ok () ↔ ∀ x, x ∈ l → f x = Ok ().
Proof.
  induction l as [|x l IH]; simpl.
  - split; [|done]. intros _ x Hx. by apply elem_of_nil in Hx.
  - split.
    + intros (? & Hx & Hl)%bind_Ok_inv y [->|Hy]%elem_of_cons.
      * by destruct x0.
      * by apply IH.
    + intros Hall. rewrite (Hall x) by left. simpl. apply IH. intros y Hy. apply Hall. by right.
Qed.

Lemma seq_guard {A} (m : res unit) (k : res A) : (m ≫= λ _, k) = k ∨ failed (m ≫= λ _, k).
Proof.
  destruct m as [[]|e|v]; simpl; [by left|right..]; intros a; discriminate.
Qed.

(** ** Same-name jobs with intersecting branch filters *)

(** The loops of [validatePresubmits] and [validatePostsubmits] have one
    shape: an entry is refused when it intersects an entry accepted before it
    under the same name, is then checked on its own, and is recorded. *)
Section DupCheck.
Context {RL : RegexpLib} {EX : Externals}.
Context {J : Type} (name : J → string) (brancher : J → Brancher).
Context (dup : string → error).
Context (check : J → res (gmap string (list J)) → res (gmap string (list J))).
Hypothesis check_guard : ∀ ps k, check ps k = k ∨ failed (check ps k).

Definition accept (valid : gmap string (list J)) (ps : J) : res (gmap string (list J)) :=
  let existing := default [] (valid !! name ps) in
  if existsb (λ existingJob, Intersects (brancher existingJob) (brancher ps)) existing
  then Err (dup (name ps))
  else check ps (Ok (<[name ps := existing ++ [ps]]> valid)).

Definition same_name (n : string) (l : list J) : list J :=
  filter (λ e, name e = n) l.

Lemma accept_Ok valid ps valid' :
  accept valid ps = Ok valid' →
  valid' = <[name ps := default [] (valid !! name ps) ++ [ps]]> valid.
Proof.
  unfold accept. destruct (existsb _ _); [done|]. intros Hc.
  destruct (check_guard ps (Ok (<[name ps := default [] (valid !! name ps) ++ [ps]]> valid)))
    as [Heq|Hf].
  - rewrite Heq in Hc. by injection Hc.
  - by destruct (Hf valid').
Qed.

(** The entries recorded under a name are the accepted entries of that
    name, in the order they were listed. *)
Lemma accepted_names valid l valid' :
  foldM accept valid l = Ok valid' →
  ∀ n, default [] (valid' !! n) = default [] (valid !! n) ++ same_name n l.
Proof.
  revert valid; induction l as [|ps l IH]; intros valid Hl n.
  - injection Hl as <-. by rewrite app_nil_r.
  - rewrite foldM_cons in Hl. apply bind_Ok_inv in Hl as (v1 & H1 & Hl).
    apply accept_Ok in H1 as ->. rewrite (IH _ Hl n).
    unfold same_name. rewrite filter_cons. destruct (decide (name ps = n)) as [<-|Hne].
    + rewrite lookup_insert_eq. simpl. by rewrite <- app_assoc.
    + by rewrite lookup_insert_ne.
Qed.

Lemma accept_duplicate pre valid e p rest :
  foldM accept ∅ pre = Ok valid → e ∈ pre → name e = name p →
  Intersects (brancher e) (brancher p) = true →
  foldM accept ∅ (pre ++ p :: rest) = Err (dup (name p)).
Proof.
  intros Hpre He Hn Hi. rewrite foldM_app, Hpre. simpl.
  change (accept valid p ≫= (λ s', foldM accept s' rest) = Err (dup (name p))).
  assert (accept valid p = Err (dup (name p))) as ->; [|done].
  unfold accept. rewrite (accepted_names _ _ _ Hpre (name p)), lookup_empty. simpl.
  assert (existsb (λ x, Intersects (brancher x) (brancher p)) (same_name (name p) pre) = true)
    as ->; [|done].
  apply existsb_exists. exists e. split; [|done].
  apply list_elem_of_In, list_elem_of_filter. done.
Qed.

Lemma accept_no_clash l valid :
  foldM accept ∅ l = Ok valid →
  ∀ i j e p, l !! i = Some e → l !! j = Some p → (i < j)%nat → name e = name p →
  Intersects (brancher e) (brancher p) = false.
Proof.
  intros Hl i j e p Hi Hj Hij Hn.
  destruct (Intersects (brancher e) (brancher p)) eqn:Hint; [|done].
  pose proof (take_drop_middle l j p Hj) as Hsplit.
  assert (∃ v, foldM accept ∅ (take j l) = Ok v) as [v Hpre].
  { rewrite <- Hsplit, foldM_app in Hl. apply bind_Ok_inv in Hl as (v & ? & _). eauto. }
  assert (e ∈ take j l) as He.
  { apply list_elem_of_lookup. exists i. by rewrite lookup_take_lt. }
  pose proof (accept_duplicate _ _ e p (drop (S j) l) Hpre He Hn Hint) as Hd.
  rewrite Hsplit in Hd. congruence.
Qed.
End DupCheck.

Lemma seq_Ok_unit {A} (m : res A) : (m ≫= λ _, Ok ()) = Ok () ↔ ∃ x, m = Ok x.
Proof. destruct m as [a|e|v]; simpl; split; try done; eauto; by intros [? ?]. Qed.

Section Validation.
Context {RL : RegexpLib} {EX : Externals} {GM : GoMap}.

Lemma validatePresubmit_accept ns :
  validatePresubmit ns
  = accept presubmit_name PresubmitBrancher (λ n, "duplicated presubmit job: " +:+ n)
      (λ ps k,
         wrap (λ e, "invalid presubmit job " +:+ presubmit_name ps +:+ ": " +:+ e)
              (validateJobBase (PresubmitJobBase ps) PresubmitJob ns);;
         validateTriggering ps;; k).
Proof. reflexivity. Qed.

Lemma validatePostsubmit_accept ns :
  validatePostsubmit ns
  = accept postsubmit_name PostsubmitBrancher (λ n, "duplicated postsubmit job: " +:+ n)
      (λ ps k,
         wrap (λ e, "invalid postsubmit job " +:+ postsubmit_name ps +:+ ": " +:+ e)
              (validateJobBase (PostsubmitJobBase ps) PostsubmitJob ns);; k).
Proof. reflexivity. Qed.

Lemma validatePresubmits_duplicate ns pre (e p : Presubmit) rest :
  validatePresubmits pre ns = Ok () → e ∈ pre → presubmit_name e = presubmit_name p →
  Intersects (PresubmitBrancher e) (PresubmitBrancher p) = true →
  validatePresubmits (pre ++ p :: rest) ns
  = Err ("duplicated presubmit job: " +:+ presubmit_name p).
Proof.
  unfold validatePresubmits. rewrite validatePresubmit_accept.
  intros [v Hpre]%seq_Ok_unit He Hn Hi. erewrite accept_duplicate; try done.
  intros ps k. destruct (seq_guard (wrap (λ e, "invalid presubmit job " +:+ presubmit_name ps
    +:+ ": " +:+ e) (validateJobBase (PresubmitJobBase ps) PresubmitJob ns))
    (validateTriggering ps;; k)) as [->|?]; [apply seq_guard|by right].
Qed.

Lemma validatePresubmits_no_clash ns l :
  validatePresubmits l ns = Ok () →
  ∀ i j e p, l !! i = Some e → l !! j = Some p → (i < j)%nat →
  presubmit_name e = presubmit_name p →
  Intersects (PresubmitBrancher e) (PresubmitBrancher p) = false.
Proof.
  unfold validatePresubmits. rewrite validatePresubmit_accept.
  intros [v Hl]%seq_Ok_unit. eapply accept_no_clash; [|done].
  intros ps k. destruct (seq_guard (wrap (λ e, "invalid presubmit job " +:+ presubmit_name ps
    +:+ ": " +:+ e) (validateJobBase (PresubmitJobBase ps) PresubmitJob ns))
    (validateTriggering ps;; k)) as [->|?]; [apply seq_guard|by right].
Qed.

Lemma validatePostsubmits_duplicate ns pre (e p : Postsubmit) rest :
  validatePostsubmits pre ns = Ok () → e ∈ pre → postsubmit_name e = postsubmit_name p →
  Intersects (PostsubmitBrancher e) (PostsubmitBrancher p) = true →
  validatePostsubmits (pre ++ p :: rest) ns
  = Err ("duplicated postsubmit job: " +:+ postsubmit_name p).
Proof.
  unfold validatePostsubmits. rewrite validatePostsubmit_accept.
  intros [v Hpre]%seq_Ok_unit He Hn Hi. erewrite accept_duplicate; try done.
  intros ps k. apply seq_guard.
Qed.

Lemma validatePostsubmits_no_clash ns l :
  validatePostsubmits l ns = Ok () →
  ∀ i j e p, l !! i = Some e → l !! j = Some p → (i < j)%nat →
  postsubmit_name e = postsubmit_name p →
  Intersects (PostsubmitBrancher e) (PostsubmitBrancher p) = false.
Proof.
  unfold validatePostsubmits. rewrite validatePostsubmit_accept.
  intros [v Hl]%seq_Ok_unit. eapply accept_no_clash; [|done].
  intros ps k. apply seq_guard.
Qed.
End Validation.

(** ** Loops, continued *)

Lemma mapM_cons {A B} (f : A → res B) x (l : list A) :
  mapM f (x :: l) = f x ≫= λ y, mapM f l ≫= λ ys, Ok (y :: ys).
Proof. done. Qed.

Lemma mapM_Ok {A B} (f : A → res B) (l : list A) (l' : list B) :
  mapM f l = Ok l' ↔ Forall2 (λ x y, f x = Ok y) l l'.
Proof.
  revert l'; induction l as [|x l IH]; intros l'.
  - simpl. split; [intros [= <-]; constructor|]. by intros ->%Forall2_nil_inv_l.
  - rewrite mapM_cons. split.
    + intros (y & Hy & (ys & Hys & [= <-])%bind_Ok_inv)%bind_Ok_inv.
      constructor; [done|]. by apply IH.
    + intros (y & ys & Hy & Hys & ->)%Forall2_cons_inv_l.
      rewrite Hy. simpl. apply IH in Hys. rewrite Hys. done.
Qed.



(** ** Triggers and rerun commands *)

Section Regexes.
Context {RL : RegexpLib} {EX : Externals}.


End Regexes.

Lemma foldM_invariant {A S} (f : S → A → res S) (P : S → Prop) (l : list A) s0 s1 :
  (∀ s x s', x ∈ l → f s x = Ok s' → P s → P s') → P s0 → foldM f s0 l = Ok s1 → P s1.
Proof.
  revert s0; induction l as [|x l IH]; intros s0 Hstep H0.
  - by intros [= <-].
  - rewrite foldM_cons. intros (s' & Hs' & Hl)%bind_Ok_inv.
    apply (IH s'); [|eapply Hstep; [left|done..]|done].
    intros s x' s'' Hx'. apply Hstep. by right.
Qed.

Section Finalize.
Context {RL : RegexpLib} {EX : Externals} {GM : GoMap}.





Lemma finalizeJobConfig_unfold c :
  finalizeJobConfig c =
    c ← (if decorationRequested (ConfigJobConfig c) then finalizeDecoration c else Ok c);
    c ← foldM presubmit_step c (range (Presubmits (ConfigJobConfig c)));
    c ← foldM postsubmit_step c (range (Postsubmits (ConfigJobConfig c)));
    periodics ← defaultPeriodics (Periodics (ConfigJobConfig c)) c;
    Ok (with_Periodics periodics c).
Proof. reflexivity. Qed.


Lemma finalizeDecoration_jobs c c' :
  finalizeDecoration c = Ok c' →
  Presubmits (ConfigJobConfig c') = Presubmits (ConfigJobConfig c)
  ∧ Postsubmits (ConfigJobConfig c') = Postsubmits (ConfigJobConfig c).
Proof.
  unfold finalizeDecoration. intros (c1 & Hc1 & Hrest)%bind_Ok_inv.
  assert (ConfigJobConfig c1 = ConfigJobConfig c) as Hj.
  { repeat case_match; by simplify_eq. }
  repeat case_match; try done;
    apply bind_Ok_inv in Hrest as (? & _ & [= <-]); cbn; by rewrite Hj.
Qed.

End Finalize.

(** ** The schedule of the periodics, and what validation writes *)

Section Intervals.
Context {RL : RegexpLib} {EX : Externals} {GM : GoMap}.

Lemma setIntervals_cons p rest :
  setIntervals (p :: rest) =
    match cron_set p, interval_set p with
    | true, true =>
      (p :: rest, Err ("cron and interval cannot be both set in periodic "
                         +:+ Name (PeriodicJobBase p)))
    | false, false =>
      (p :: rest, Err ("cron and interval cannot be both empty in periodic "
                         +:+ Name (PeriodicJobBase p)))
    | true, false => let '(rest', r) := setIntervals rest in (p :: rest', r)
    | false, true =>
      match ParseDuration (Interval p) with
      | Ok d => let '(rest', r) := setIntervals rest in (with_interval d p :: rest', r)
      | Err e => (p :: rest, Err ("cannot parse duration for " +:+ Name (PeriodicJobBase p)
                                    +:+ ": " +:+ e))
      | Panic v => (p :: rest, Panic v)
      end
    end.
Proof.
  unfold cron_set, interval_set. cbn [setIntervals].
  by destruct (Cron p =? "")%string, (Interval p =? "")%string.
Qed.

Lemma interval_written_refl ps : Forall2 interval_written ps ps.
Proof. induction ps; constructor; [|done]. repeat split; by left. Qed.

Lemma setIntervals_frame ps :
  Forall2 interval_written ps (setIntervals ps).1.
Proof.
  induction ps as [|p ps IH]; [constructor|].
  pose proof (interval_written_refl (p :: ps)) as Hrefl.
  rewrite setIntervals_cons.
  destruct (cron_set p) eqn:Hc, (interval_set p) eqn:Hi; try done.
  - destruct (setIntervals ps) as [ps' r]. constructor; [|done]. repeat split; by left.
  - destruct (ParseDuration (Interval p)) as [d|e|v] eqn:Hd; try done.
    destruct (setIntervals ps) as [ps' r]. constructor; [|done].
    repeat split; by right.
Qed.

Lemma setIntervals_Ok ps :
  (setIntervals ps).2 = Ok () → Forall2 interval_set_from ps (setIntervals ps).1.
Proof.
  induction ps as [|p ps IH]; [constructor|].
  rewrite setIntervals_cons.
  destruct (cron_set p) eqn:Hc, (interval_set p) eqn:Hi; try done.
  - destruct (setIntervals ps) as [ps' r]. intros Hr. constructor; [|by apply IH].
    unfold interval_set_from. by rewrite Hi.
  - destruct (ParseDuration (Interval p)) as [d|e|v] eqn:Hd; try done.
    destruct (setIntervals ps) as [ps' r]. intros Hr. constructor; [|by apply IH].
    unfold interval_set_from. by rewrite Hi.
Qed.

Lemma setIntervals_app_Ok pre rest :
  (setIntervals pre).2 = Ok () →
  setIntervals (pre ++ rest)
  = ((setIntervals pre).1 ++ (setIntervals rest).1, (setIntervals rest).2).
Proof.
  induction pre as [|p pre IH]; [intros _; simpl; by destruct (setIntervals rest)|].
  rewrite <- app_comm_cons, !setIntervals_cons.
  destruct (cron_set p), (interval_set p); try done.
  - destruct (setIntervals pre) as [pre' r]. intros Hr. by rewrite (IH Hr).
  - destruct (ParseDuration (Interval p)); try done.
    destruct (setIntervals pre) as [pre' r]. intros Hr. by rewrite (IH Hr).
Qed.

(** the first periodic that breaks the rule decides the error *)
Lemma setIntervals_both_set pre p rest :
  (setIntervals pre).2 = Ok () → cron_set p = true → interval_set p = true →
  (setIntervals (pre ++ p :: rest)).2
  = Err ("cron and interval cannot be both set in periodic " +:+ Name (PeriodicJobBase p)).
Proof.
  intros Hpre Hc Hi. rewrite setIntervals_app_Ok, setIntervals_cons, Hc, Hi by done. done.
Qed.

Lemma setIntervals_both_empty pre p rest :
  (setIntervals pre).2 = Ok () → cron_set p = false → interval_set p = false →
  (setIntervals (pre ++ p :: rest)).2
  = Err ("cron and interval cannot be both empty in periodic " +:+ Name (PeriodicJobBase p)).
Proof.
  intros Hpre Hc Hi. rewrite setIntervals_app_Ok, setIntervals_cons, Hc, Hi by done. done.
Qed.

Lemma setIntervals_bad_interval pre p rest e :
  (setIntervals pre).2 = Ok () → cron_set p = false → interval_set p = true →
  ParseDuration (Interval p) = Err e →
  (setIntervals (pre ++ p :: rest)).2
  = Err ("cannot parse duration for " +:+ Name (PeriodicJobBase p) +:+ ": " +:+ e).
Proof.
  intros Hpre Hc Hi Hd.
  rewrite setIntervals_app_Ok, setIntervals_cons, Hc, Hi, Hd by done. done.
Qed.

Lemma interval_set_from_schedule p p' :
  interval_set_from p p' → one_schedule p ∧ one_schedule p'.
Proof.
  unfold interval_set_from, one_schedule, cron_set, interval_set.
  intros (_ & -> & -> & Hp). destruct (negb (Interval p =? "")%string); destruct Hp as [-> _]; done.
Qed.

(** *** What the stages after defaulting leave alone *)

Lemma validateComponentConfig_jobs c c' :
  validateComponentConfig c = Ok c' →
  ConfigJobConfig c' = ConfigJobConfig c ∧ plank c' = plank c.
Proof.
  unfold validateComponentConfig. intros (? & _ & Hc)%bind_Ok_inv.
  destruct (ProwSlackReporter (ConfigProwConfig c)); [|by injection Hc as <-].
  by apply bind_Ok_inv in Hc as (? & _ & [= <-]).
Qed.

Lemma validateJobConfig_cases c :
  (validateJobs c = Ok ()
   ∧ validateJobConfig c
     = (with_Periodics (setIntervals (Periodics (ConfigJobConfig c))).1 c,
        (setIntervals (Periodics (ConfigJobConfig c))).2))
  ∨ (failed (validateJobs c) ∧ validateJobConfig c = (c, validateJobs c)).
Proof.
  unfold validateJobConfig. destruct (validateJobs c) as [[]|e|v]; [left|right..].
  - split; [done|]. by destruct (setIntervals _).
  - split; [apply failed_Err|done].
  - split; [apply failed_Panic|done].
Qed.

Lemma validateJobs_Ok c :
  validateJobs c = Ok () →
  (∀ repo jobs, Presubmits (ConfigJobConfig c) !! repo = Some jobs →
                validatePresubmits jobs (PodNamespace (ConfigProwConfig c)) = Ok ())
  ∧ (∀ repo jobs, Postsubmits (ConfigJobConfig c) !! repo = Some jobs →
                  validatePostsubmits jobs (PodNamespace (ConfigProwConfig c)) = Ok ()).
Proof.
  unfold validateJobs.
  intros ([] & Hpre & ([] & Hpost & _)%bind_Ok_inv)%bind_Ok_inv. split.
  - intros repo jobs Hj%elem_of_range. by apply (proj1 (forM__Ok _ _) Hpre (repo, jobs)).
  - intros repo jobs Hj%elem_of_range. by apply (proj1 (forM__Ok _ _) Hpost (repo, jobs)).
Qed.

(** *** A successful load went through every stage *)

Lemma Load_stages_Ok c0 c :
  Load_stages c0 = Ok c →
  ∃ c1 c2, finalizeJobConfig c0 = Ok c1 ∧ validateComponentConfig c1 = Ok c2
           ∧ validateJobConfig c2 = (c, Ok ()).
Proof.
  unfold Load_stages. intros (c1 & Hc1 & (c2 & Hc2 & Hv)%bind_Ok_inv)%bind_Ok_inv.
  exists c1, c2. repeat split; try done.
  destruct (validateJobConfig c2) as [c' r]. by apply bind_Ok_inv in Hv as ([] & -> & [= ->]).
Qed.

Lemma Load_Ok prowConfig jobConfig c :
  Load prowConfig jobConfig = ((Some c, None), Returning) →
  ∃ c0, loadConfig prowConfig jobConfig = Ok (Some c0) ∧ Load_stages c0 = Ok c.
Proof.
  unfold Load, Load_run, Load_deferred.
  destruct (loadConfig prowConfig jobConfig) as [[c0|]|e|v]; cbn; try by intros [=].
  destruct (Load_stages c0) as [c'|e|v] eqn:Hs; cbn; try by intros [=].
  intros [= ->]. eauto.
Qed.

Lemma Load_Ok_validated prowConfig jobConfig c :
  Load prowConfig jobConfig = ((Some c, None), Returning) →
  ∃ c0 c1 c2, loadConfig prowConfig jobConfig = Ok (Some c0)
    ∧ finalizeJobConfig c0 = Ok c1 ∧ validateComponentConfig c1 = Ok c2
    ∧ validateJobs c2 = Ok ()
    ∧ (setIntervals (Periodics (ConfigJobConfig c2))).2 = Ok ()
    ∧ c = with_Periodics (setIntervals (Periodics (ConfigJobConfig c2))).1 c2.
Proof.
  intros (c0 & Hload & (c1 & c2 & Hc1 & Hc2 & Hv)%Load_stages_Ok)%Load_Ok.
  exists c0, c1, c2. repeat split; try done;
    destruct (validateJobConfig_cases c2) as [[Hj Heq]|[Hf Heq]];
    rewrite Heq in Hv; try (by injection Hv); try done.
  all: injection Hv as -> Hr; by destruct (Hf ()).
Qed.
End Intervals.

(** ** From the configuration that is read to the one that is validated *)

Section Finalized.
Context {RL : RegexpLib} {EX : Externals} {GM : GoMap}.

Lemma setPresubmitRegex_finalized (j j' : Presubmit) :
  setPresubmitRegex j = Ok j' →
  PresubmitJobBase j' = PresubmitJobBase j
  ∧ Trigger j' = Trigger j ∧ RerunCommand j' = RerunCommand j
  ∧ setBrancherRegexes (PresubmitBrancher j) = Ok (PresubmitBrancher j')
  ∧ accepts_rerun j'.
Proof.
  unfold setPresubmitRegex.
  intros (r & Hr%wrap_Ok_inv & Hj)%bind_Ok_inv.
  destruct (MatchString r (RerunCommand j)) eqn:Hm; [|done]. simpl in Hj.
  apply bind_Ok_inv in Hj as (b & Hb%wrap_Ok_inv & (cm & _ & [= <-])%bind_Ok_inv).
  repeat split; try done. exists r. done.
Qed.

Lemma defaultPresubmits_finalized (jobs jobs' : list Presubmit) (c : Config) (repo : string) :
  defaultPresubmits jobs c repo = Ok jobs' → Forall2 presubmit_finalized jobs jobs'.
Proof.
  unfold defaultPresubmits. intros (js & Hjs%mapM_Ok & Hset%wrap_Ok_inv)%bind_Ok_inv.
  apply mapM_Ok in Hset. unfold defaultPresubmitFields in Hset.
  apply Forall2_fmap_l in Hset.
  revert jobs' Hset. induction Hjs as [|x y l l' Hxy _ IH]; intros jobs' Hset.
  - apply Forall2_nil_inv_l in Hset as ->. constructor.
  - apply Forall2_cons_inv_l in Hset as (z & zs & Hz & Hzs & ->).
    constructor; [|by apply IH].
    apply bind_Ok_inv in Hxy as (spec & _ & [= <-]).
    apply setPresubmitRegex_finalized in Hz as (Hb & Ht & Hr & Hbr & Hacc).
    assert (∀ ps : Presubmit,
              Name (PresubmitJobBase (setPresubmitDecorationDefaults c ps repo))
              = Name (PresubmitJobBase ps)
              ∧ Trigger (setPresubmitDecorationDefaults c ps repo) = Trigger ps
              ∧ RerunCommand (setPresubmitDecorationDefaults c ps repo) = RerunCommand ps
              ∧ PresubmitBrancher (setPresubmitDecorationDefaults c ps repo)
                = PresubmitBrancher ps) as Hdec.
    { intros ps. unfold setPresubmitDecorationDefaults. by destruct (Decorate _). }
    destruct (Hdec x) as (Hn & Htx & Hrx & Hbx).
    cbn in Hb, Ht, Hr, Hbr. rewrite Htx, Hrx in Ht, Hr. rewrite Hbx in Hbr.
    unfold presubmit_finalized, presubmit_name. rewrite Hb. cbn. rewrite Hn.
    split; [done|]. split; [|done].
    intros Hne. rewrite Ht, Hr.
    destruct (String.eqb_spec (Trigger x) ""), (String.eqb_spec (RerunCommand x) "");
      cbn; try done. by destruct Hne.
Qed.

Lemma setPostsubmitRegex_finalized (j j' : Postsubmit) :
  setPostsubmitRegex j = Ok j' →
  PostsubmitJobBase j' = PostsubmitJobBase j
  ∧ setBrancherRegexes (PostsubmitBrancher j) = Ok (PostsubmitBrancher j').
Proof.
  unfold setPostsubmitRegex.
  by intros (b & Hb%wrap_Ok_inv & (cm & _ & [= <-])%bind_Ok_inv)%bind_Ok_inv.
Qed.

Lemma defaultPostsubmits_finalized (jobs jobs' : list Postsubmit) (c : Config)
    (repo : string) :
  defaultPostsubmits jobs c repo = Ok jobs' → Forall2 postsubmit_finalized jobs jobs'.
Proof.
  unfold defaultPostsubmits. intros (js & Hjs%mapM_Ok & Hset%wrap_Ok_inv)%bind_Ok_inv.
  apply mapM_Ok in Hset. unfold defaultPostsubmitFields in Hset.
  apply Forall2_fmap_l in Hset.
  revert jobs' Hset. induction Hjs as [|x y l l' Hxy _ IH]; intros jobs' Hset.
  - apply Forall2_nil_inv_l in Hset as ->. constructor.
  - apply Forall2_cons_inv_l in Hset as (z & zs & Hz & Hzs & ->).
    constructor; [|by apply IH].
    apply bind_Ok_inv in Hxy as (spec & _ & [= <-]).
    apply setPostsubmitRegex_finalized in Hz as (Hb & Hbr).
    assert (Name (PostsubmitJobBase (setPostsubmitDecorationDefaults c x repo))
            = Name (PostsubmitJobBase x)
            ∧ PostsubmitBrancher (setPostsubmitDecorationDefaults c x repo)
              = PostsubmitBrancher x) as [Hn Hbx].
    { unfold setPostsubmitDecorationDefaults. by destruct (Decorate _). }
    cbn in Hb, Hbr. rewrite Hbx in Hbr.
    unfold postsubmit_finalized, postsubmit_name. rewrite Hb. cbn. by rewrite Hn.
Qed.

(** The loops over the repositories: every repository listed has its jobs
    replaced by the finalized ones; the others keep theirs. *)
Lemma presubmit_loop_finalized (l : list (string * list Presubmit)) (c0 c1 : Config) :
  NoDup l.*1 → foldM presubmit_step c0 l = Ok c1 →
  Postsubmits (ConfigJobConfig c1) = Postsubmits (ConfigJobConfig c0)
  ∧ (∀ k, k ∉ l.*1 →
          Presubmits (ConfigJobConfig c1) !! k = Presubmits (ConfigJobConfig c0) !! k)
  ∧ (∀ k v, (k, v) ∈ l →
            ∃ v', Presubmits (ConfigJobConfig c1) !! k = Some v'
                  ∧ Forall2 presubmit_finalized v v').
Proof.
  revert c0; induction l as [|[repo jobs] l IH]; intros c0 Hnd.
  - intros [= <-]. repeat split; try done. by intros k v ?%elem_of_nil.
  - rewrite foldM_cons. intros (c' & Hc' & Hl)%bind_Ok_inv.
    apply bind_Ok_inv in Hc' as (jobs' & Hjobs & [= <-]).
    apply NoDup_cons in Hnd as [Hrepo Hnd].
    destruct (IH _ Hnd Hl) as (H1 & H2 & H3). cbn in H1, H2.
    split; [done|]. split.
    + intros k Hk. cbn in Hk. apply not_elem_of_cons in Hk as [Hne Hk].
      rewrite (H2 k Hk). by apply lookup_insert_ne.
    + intros k v [[= -> ->]|Hkv]%elem_of_cons; [|by apply H3].
      exists jobs'. rewrite (H2 repo Hrepo), lookup_insert_eq.
      split; [done|]. by eapply defaultPresubmits_finalized.
Qed.

Lemma postsubmit_loop_finalized (l : list (string * list Postsubmit)) (c0 c1 : Config) :
  NoDup l.*1 → foldM postsubmit_step c0 l = Ok c1 →
  Presubmits (ConfigJobConfig c1) = Presubmits (ConfigJobConfig c0)
  ∧ (∀ k, k ∉ l.*1 →
          Postsubmits (ConfigJobConfig c1) !! k = Postsubmits (ConfigJobConfig c0) !! k)
  ∧ (∀ k v, (k, v) ∈ l →
            ∃ v', Postsubmits (ConfigJobConfig c1) !! k = Some v'
                  ∧ Forall2 postsubmit_finalized v v').
Proof.
  revert c0; induction l as [|[repo jobs] l IH]; intros c0 Hnd.
  - intros [= <-]. repeat split; try done. by intros k v ?%elem_of_nil.
  - rewrite foldM_cons. intros (c' & Hc' & Hl)%bind_Ok_inv.
    apply bind_Ok_inv in Hc' as (jobs' & Hjobs & [= <-]).
    apply NoDup_cons in Hnd as [Hrepo Hnd].
    destruct (IH _ Hnd Hl) as (H1 & H2 & H3). cbn in H1, H2.
    split; [done|]. split.
    + intros k Hk. cbn in Hk. apply not_elem_of_cons in Hk as [Hne Hk].
      rewrite (H2 k Hk). by apply lookup_insert_ne.
    + intros k v [[= -> ->]|Hkv]%elem_of_cons; [|by apply H3].
      exists jobs'. rewrite (H2 repo Hrepo), lookup_insert_eq.
      split; [done|]. by eapply defaultPostsubmits_finalized.
Qed.

(** Every list of presubmits and of postsubmits that [finalizeJobConfig]
    is given is, in what it returns, the list of the finalized jobs, job
    by job. *)
Lemma finalizeJobConfig_finalized (c c' : Config) :
  finalizeJobConfig c = Ok c' →
  (∀ repo jobs, Presubmits (ConfigJobConfig c) !! repo = Some jobs →
     ∃ jobs', Presubmits (ConfigJobConfig c') !! repo = Some jobs'
              ∧ Forall2 presubmit_finalized jobs jobs')
  ∧ (∀ repo jobs, Postsubmits (ConfigJobConfig c) !! repo = Some jobs →
       ∃ jobs', Postsubmits (ConfigJobConfig c') !! repo = Some jobs'
                ∧ Forall2 postsubmit_finalized jobs jobs').
Proof.
  rewrite finalizeJobConfig_unfold.
  intros (c1 & Hc1 & (c2 & Hc2 & (c3 & Hc3 & (ps & _ & [= <-])%bind_Ok_inv)%bind_Ok_inv)%bind_Ok_inv)%bind_Ok_inv.
  cbn [with_Periodics ConfigJobConfig Presubmits Postsubmits].
  assert (Presubmits (ConfigJobConfig c1) = Presubmits (ConfigJobConfig c)
          ∧ Postsubmits (ConfigJobConfig c1) = Postsubmits (ConfigJobConfig c)) as [Hpre Hpost].
  { destruct (decorationRequested (ConfigJobConfig c)).
    - by apply finalizeDecoration_jobs.
    - by injection Hc1 as <-. }
  apply presubmit_loop_finalized in Hc2 as (A1 & _ & A3); [|apply range_NoDup_fst].
  apply postsubmit_loop_finalized in Hc3 as (B1 & _ & B3); [|apply range_NoDup_fst].
  split.
  - intros repo jobs Hjobs. rewrite B1. apply A3, elem_of_range. by rewrite Hpre.
  - intros repo jobs Hjobs. apply B3, elem_of_range. by rewrite A1, Hpost.
Qed.

(** [Load] returns a configuration or an error. *)
Lemma Load_cases (prowConfig jobConfig : string) :
  (∃ c, Load prowConfig jobConfig = ((Some c, None), Returning))
  ∨ (∃ e, Load prowConfig jobConfig = ((None, Some e), Returning)).
Proof.
  unfold Load, Load_deferred, Load_run.
  destruct (loadConfig prowConfig jobConfig) as [[c0|]|e|v]; cbn; try (right; by eauto).
  destruct (Load_stages c0) as [c|e|v]; cbn; [left|right..]; eauto.
Qed.

(** What a configuration that [Load] returns has of the one that was
    read. *)
Lemma Load_Ok_finalized (prowConfig jobConfig : string) (c0 c : Config) :
  loadConfig prowConfig jobConfig = Ok (Some c0) →
  Load prowConfig jobConfig = ((Some c, None), Returning) →
  (∀ repo jobs, Presubmits (ConfigJobConfig c0) !! repo = Some jobs →
     ∃ jobs', Presubmits (ConfigJobConfig c) !! repo = Some jobs'
              ∧ Forall2 presubmit_finalized jobs jobs'
              ∧ validatePresubmits jobs' (PodNamespace (ConfigProwConfig c)) = Ok ())
  ∧ (∀ repo jobs, Postsubmits (ConfigJobConfig c0) !! repo = Some jobs →
       ∃ jobs', Postsubmits (ConfigJobConfig c) !! repo = Some jobs'
                ∧ Forall2 postsubmit_finalized jobs jobs'
                ∧ validatePostsubmits jobs' (PodNamespace (ConfigProwConfig c)) = Ok ()).
Proof.
  intros Hl (c0' & c1 & c2 & Hl' & Hfin & Hcomp & Hjobs & _ & ->)%Load_Ok_validated.
  rewrite Hl in Hl'. injection Hl' as <-.
  apply validateComponentConfig_jobs in Hcomp as [Hj _].
  apply finalizeJobConfig_finalized in Hfin as [Hpre Hpost].
  apply validateJobs_Ok in Hjobs as [Hvpre Hvpost].
  cbn [with_Periodics ConfigJobConfig ConfigProwConfig Presubmits Postsubmits].
  rewrite Hj in *. split.
  - intros repo jobs Hr. destruct (Hpre repo jobs Hr) as (jobs' & Hr' & Hf). eauto.
  - intros repo jobs Hr. destruct (Hpost repo jobs Hr) as (jobs' & Hr' & Hf). eauto.
Qed.
End Finalized.

Section Claims.
Context {RL : RegexpLib} {EX : Externals} {GM : GoMap}.

(** C3.  Within the presubmits of one repository, and likewise within its
    postsubmits: when the entries listed before [p] have been accepted and
    one of them has the name of [p] and a Brancher that intersects its
    own, validation returns the duplicated-job error naming [p]; whenever
    two entries of a list share a name and intersect, validation of the
    list fails; no configuration that [Load] returns has two presubmits of
    one repository with the same name and intersecting Branchers; and
    when the configuration that [Load] reads has, in the presubmits or in
    the postsubmits of one repository, two entries with the same name
    whose Branchers intersect, [Load] returns an error. *)
Theorem duplicate_jobs_rejected (ns : string) :
  (∀ pre (e p : Presubmit) rest,
     validatePresubmits pre ns = Ok () → e ∈ pre → presubmit_name e = presubmit_name p →
     Intersects (PresubmitBrancher e) (PresubmitBrancher p) = true →
     validatePresubmits (pre ++ p :: rest) ns
     = Err ("duplicated presubmit job: " +:+ presubmit_name p))
  ∧ (∀ l i j (e p : Presubmit),
       l !! i = Some e → l !! j = Some p → (i < j)%nat →
       presubmit_name e = presubmit_name p →
       Intersects (PresubmitBrancher e) (PresubmitBrancher p) = true →
       failed (validatePresubmits l ns))
  ∧ (∀ pre (e p : Postsubmit) rest,
       validatePostsubmits pre ns = Ok () → e ∈ pre → postsubmit_name e = postsubmit_name p →
       Intersects (PostsubmitBrancher e) (PostsubmitBrancher p) = true →
       validatePostsubmits (pre ++ p :: rest) ns
       = Err ("duplicated postsubmit job: " +:+ postsubmit_name p))
  ∧ (∀ l i j (e p : Postsubmit),
       l !! i = Some e → l !! j = Some p → (i < j)%nat →
       postsubmit_name e = postsubmit_name p →
       Intersects (PostsubmitBrancher e) (PostsubmitBrancher p) = true →
       failed (validatePostsubmits l ns))
  ∧ (∀ prowConfig jobConfig c repo l i j (e p : Presubmit),
       Load prowConfig jobConfig = ((Some c, None), Returning) →
       Presubmits (ConfigJobConfig c) !! repo = Some l →
       l !! i = Some e → l !! j = Some p → (i < j)%nat →
       presubmit_name e = presubmit_name p →
       Intersects (PresubmitBrancher e) (PresubmitBrancher p) = false)
  ∧ (∀ prowConfig jobConfig c0 repo l i j (e p : Presubmit),
       loadConfig prowConfig jobConfig = Ok (Some c0) →
       Presubmits (ConfigJobConfig c0) !! repo = Some l →
       l !! i = Some e → l !! j = Some p → (i < j)%nat →
       presubmit_name e = presubmit_name p →
       Branchers_intersect (PresubmitBrancher e) (PresubmitBrancher p) →
       ∃ err, Load prowConfig jobConfig = ((None, Some err), Returning))
  ∧ (∀ prowConfig jobConfig c0 repo l i j (e p : Postsubmit),
       loadConfig prowConfig jobConfig = Ok (Some c0) →
       Postsubmits (ConfigJobConfig c0) !! repo = Some l →
       l !! i = Some e → l !! j = Some p → (i < j)%nat →
       postsubmit_name e = postsubmit_name p →
       Branchers_intersect (PostsubmitBrancher e) (PostsubmitBrancher p) →
       ∃ err, Load prowConfig jobConfig = ((None, Some err), Returning)).
Proof.
  split; [intros; by eapply validatePresubmits_duplicate|].
  split.
  { intros l i j e p Hi Hj Hij Hn Hint [] Hok.
    pose proof (validatePresubmits_no_clash ns l Hok i j e p Hi Hj Hij Hn). congruence. }
  split; [intros; by eapply validatePostsubmits_duplicate|].
  split.
  { intros l i j e p Hi Hj Hij Hn Hint [] Hok.
    pose proof (validatePostsubmits_no_clash ns l Hok i j e p Hi Hj Hij Hn). congruence. }
  split.
  { intros prowConfig jobConfig c repo l i j e p
      (c0 & c1 & c2 & _ & _ & _ & Hjobs & _ & ->)%Load_Ok_validated Hl.
    cbn in Hl. apply validateJobs_Ok in Hjobs as [Hpre _].
    by apply (validatePresubmits_no_clash _ l (Hpre repo l Hl)). }
  split.
  - intros prowConfig jobConfig c0 repo l i j e p Hload Hl Hi Hj Hij Hn
      (a' & b' & Ha & Hb & Hint).
    destruct (Load_cases prowConfig jobConfig) as [[c Hc]|Herr]; [exfalso|done].
    destruct (Load_Ok_finalized _ _ _ _ Hload Hc) as [Hpre _].
    destruct (Hpre repo l Hl) as (l' & _ & Hfin & Hok).
    destruct (Forall2_lookup_l _ _ _ _ _ Hfin Hi) as (e' & Hi' & He' & _ & Hbe & _).
    destruct (Forall2_lookup_l _ _ _ _ _ Hfin Hj) as (p' & Hj' & Hp' & _ & Hbp & _).
    assert (Intersects (PresubmitBrancher e') (PresubmitBrancher p') = false) as Hno.
    { apply (validatePresubmits_no_clash _ l' Hok i j e' p' Hi' Hj' Hij). congruence. }
    congruence.
  - intros prowConfig jobConfig c0 repo l i j e p Hload Hl Hi Hj Hij Hn
      (a' & b' & Ha & Hb & Hint).
    destruct (Load_cases prowConfig jobConfig) as [[c Hc]|Herr]; [exfalso|done].
    destruct (Load_Ok_finalized _ _ _ _ Hload Hc) as [_ Hpost].
    destruct (Hpost repo l Hl) as (l' & _ & Hfin & Hok).
    destruct (Forall2_lookup_l _ _ _ _ _ Hfin Hi) as (e' & Hi' & He' & Hbe).
    destruct (Forall2_lookup_l _ _ _ _ _ Hfin Hj) as (p' & Hj' & Hp' & Hbp).
    assert (Intersects (PostsubmitBrancher e') (PostsubmitBrancher p') = false) as Hno.
    { apply (validatePostsubmits_no_clash _ l' Hok i j e' p' Hi' Hj' Hij). congruence. }
    congruence.
Qed.


(** C5.  When the jobs validate and the periodics listed before [p] pass
    the schedule check, validation returns the error naming [p] if its
    cron and interval are both set, the error naming [p] if both are
    empty, and the error naming [p] if only the interval is set and does
    not parse; when validation returns no error every periodic has exactly
    one of the two set and a set interval parses; so every periodic of a
    configuration that [Load] returns has exactly one of them set. *)
Theorem periodic_schedule_exclusive :
  (∀ c pre p rest,
     validateJobs c = Ok () → Periodics (ConfigJobConfig c) = pre ++ p :: rest →
     (setIntervals pre).2 = Ok () →
     (cron_set p = true → interval_set p = true →
      (validateJobConfig c).2
      = Err ("cron and interval cannot be both set in periodic " +:+ Name (PeriodicJobBase p)))
     ∧ (cron_set p = false → interval_set p = false →
        (validateJobConfig c).2
        = Err ("cron and interval cannot be both empty in periodic "
                 +:+ Name (PeriodicJobBase p)))
     ∧ (∀ e, cron_set p = false → interval_set p = true →
             ParseDuration (Interval p) = Err e →
             (validateJobConfig c).2
             = Err ("cannot parse duration for " +:+ Name (PeriodicJobBase p) +:+ ": " +:+ e)))
  ∧ (∀ c p, p ∈ Periodics (ConfigJobConfig c) →
            (validateJobConfig c).2 = Ok () →
            one_schedule p ∧ (interval_set p = true → ∃ d, ParseDuration (Interval p) = Ok d))
  ∧ (∀ prowConfig jobConfig c p,
       Load prowConfig jobConfig = ((Some c, None), Returning) →
       p ∈ Periodics (ConfigJobConfig c) → one_schedule p).
Proof.
  split.
  { intros c pre p rest Hjobs Hps Hpre.
    destruct (validateJobConfig_cases c) as [[_ ->]|[Hf _]]; [|by destruct (Hf ())].
    cbn [snd]. rewrite Hps. repeat split.
    - by apply setIntervals_both_set.
    - by apply setIntervals_both_empty.
    - intros e. by apply setIntervals_bad_interval. }
  split.
  { intros c p Hp Hok.
    destruct (validateJobConfig_cases c) as [[_ Heq]|[Hf Heq]]; rewrite Heq in Hok;
      [|by destruct (Hf ())].
    apply setIntervals_Ok in Hok. apply list_elem_of_lookup in Hp as [i Hi].
    destruct (Forall2_lookup_l _ _ _ _ _ Hok Hi) as (p' & _ & Hp').
    split; [by apply interval_set_from_schedule in Hp' as [? _]|].
    intros His. destruct Hp' as (_ & _ & _ & Hp'). rewrite His in Hp'. destruct Hp'. eauto. }
  intros prowConfig jobConfig c p
    (c0 & c1 & c2 & _ & _ & _ & _ & Hok & ->)%Load_Ok_validated Hp.
  cbn in Hp. apply setIntervals_Ok in Hok. apply list_elem_of_lookup in Hp as [i Hi].
  destruct (Forall2_lookup_r _ _ _ _ _ Hok Hi) as (p0 & _ & Hp0).
  by apply interval_set_from_schedule in Hp0 as [_ ?].
Qed.

(** C10.  Validation writes to the configuration it is given: nothing but
    the private interval of periodics changes, a periodic is either
    untouched or has the parsed duration of its interval field in it, and
    when validation returns no error every periodic whose interval field
    is set has received that duration while the others are untouched. *)
Theorem validateJobConfig_writes_only_intervals (c : Config) :
  let c' := (validateJobConfig c).1 in
  ConfigProwConfig c' = ConfigProwConfig c
  ∧ Presets (ConfigJobConfig c') = Presets (ConfigJobConfig c)
  ∧ Presubmits (ConfigJobConfig c') = Presubmits (ConfigJobConfig c)
  ∧ Postsubmits (ConfigJobConfig c') = Postsubmits (ConfigJobConfig c)
  ∧ AllRepos (ConfigJobConfig c') = AllRepos (ConfigJobConfig c)
  ∧ Forall2 interval_written (Periodics (ConfigJobConfig c)) (Periodics (ConfigJobConfig c'))
  ∧ ((validateJobConfig c).2 = Ok () →
     Forall2 interval_set_from (Periodics (ConfigJobConfig c)) (Periodics (ConfigJobConfig c'))).
Proof.
  destruct (validateJobConfig_cases c) as [[_ ->]|[Hf ->]]; cbn.
  - repeat split; try done; [apply setIntervals_frame|apply setIntervals_Ok].
  - repeat split; try done; [apply interval_written_refl|]. intros Hok. by destruct (Hf ()).
Qed.
End Claims.

Lemma mapM_ext_in {A B} (f g : A → res B) (l : list A) :
  (∀ x, x ∈ l → f x = g x) → mapM f l = mapM g l.
Proof.
  induction l as [|x l IH]; intros Hfg; [done|].
  rewrite !mapM_cons, (Hfg x) by left. destruct (g x); simpl; try done.
  rewrite IH; [done|]. intros y Hy. apply Hfg. by right.
Qed.


(** ** Decoration requested, and the wildcard default *)

Section Requested.
Context {RL : RegexpLib} {EX : Externals} {GM : GoMap}.

Lemma finalizeDecoration_missing c :
  migrated_configs (plank c) !! "*" = None →
  ∃ e, finalizeDecoration c = Err e ∧ missing_wildcard_error e.
Proof.
  unfold migrated_configs, finalizeDecoration, missing_wildcard_error.
  destruct (DefaultDecorationConfig (plank c)) as [d|].
  { by rewrite lookup_singleton_eq. }
  intros Hstar. simpl. case_bool_decide; [eauto|]. rewrite Hstar. eauto.
Qed.

Lemma finalizeDecoration_wildcard c star :
  ¬ both_specified (plank c) → migrated_configs (plank c) !! "*" = Some star →
  finalizeDecoration c =
    c1 ← Ok (match DefaultDecorationConfig (plank c) with
             | Some d => with_DefaultDecorationConfigs {[ "*" := Some d ]} c
             | None => c
             end);
    wrap (λ e, "decoration config validation error: " +:+ e) (Validate star);;
    Ok (with_Periodics (map (setPeriodicDecorationDefaults c1) (Periodics (ConfigJobConfig c1))) c1).
Proof.
  unfold migrated_configs, finalizeDecoration, both_specified.
  destruct (DefaultDecorationConfig (plank c)) as [d|] eqn:Hd.
  - intros Hboth Hstar. case_bool_decide as Hm; [|destruct Hboth; done].
    simpl. rewrite bool_decide_eq_false_2.
    + unfold plank, with_DefaultDecorationConfigs. cbn. by rewrite Hstar.
    + unfold plank, with_DefaultDecorationConfigs. cbn. intros He.
      apply (f_equal (λ m, m !! "*")) in He. by rewrite lookup_singleton_eq in He.
  - intros _ Hstar. simpl. rewrite bool_decide_eq_false_2, Hstar; [done|].
    intros He. by rewrite He in Hstar.
Qed.

Lemma finalizeDecoration_both c :
  both_specified (plank c) →
  finalizeDecoration c
  = Err "both default_decoration_config and default_decoration_configs are specified".
Proof.
  unfold both_specified, finalizeDecoration. intros [Hd Hm].
  destruct (DefaultDecorationConfig (plank c)); [|done].
  by rewrite bool_decide_eq_false_2.
Qed.

Lemma both_specified_dec p : both_specified p ∨ ¬ both_specified p.
Proof.
  unfold both_specified.
  destruct (DefaultDecorationConfig p); [|right; by intros [? _]].
  destruct (decide (DefaultDecorationConfigs p = ∅)) as [->|?]; [right; by intros [_ ?]|by left].
Qed.

Lemma finalizeJobConfig_requested c :
  decorationRequested (ConfigJobConfig c) = true →
  finalizeJobConfig c
  = c ← finalizeDecoration c;
    c ← foldM presubmit_step c (range (Presubmits (ConfigJobConfig c)));
    c ← foldM postsubmit_step c (range (Postsubmits (ConfigJobConfig c)));
    periodics ← defaultPeriodics (Periodics (ConfigJobConfig c)) c;
    Ok (with_Periodics periodics c).
Proof. intros Hreq. unfold finalizeJobConfig. by rewrite Hreq. Qed.

Lemma finalizeJobConfig_missing c :
  decorationRequested (ConfigJobConfig c) = true →
  migrated_configs (plank c) !! "*" = None →
  ∃ e, finalizeJobConfig c = Err e ∧ missing_wildcard_error e.
Proof.
  intros Hreq (e & He & Hmiss)%finalizeDecoration_missing.
  exists e. by rewrite finalizeJobConfig_requested, He.
Qed.

Lemma finalizeJobConfig_invalid c star e :
  decorationRequested (ConfigJobConfig c) = true →
  ¬ both_specified (plank c) → migrated_configs (plank c) !! "*" = Some star →
  Validate star = Err e →
  finalizeJobConfig c = Err ("decoration config validation error: " +:+ e).
Proof.
  intros Hreq Hboth Hstar Hv.
  rewrite finalizeJobConfig_requested, (finalizeDecoration_wildcard c star), Hv by done. done.
Qed.

Lemma finalizeJobConfig_wildcard c c' :
  decorationRequested (ConfigJobConfig c) = true → finalizeJobConfig c = Ok c' →
  ∃ star, migrated_configs (plank c) !! "*" = Some star ∧ Validate star = Ok ().
Proof.
  intros Hreq. rewrite finalizeJobConfig_requested by done.
  intros (c1 & Hc1 & _)%bind_Ok_inv.
  destruct (both_specified_dec (plank c)) as [Hb|Hb].
  { by rewrite finalizeDecoration_both in Hc1. }
  destruct (migrated_configs (plank c) !! "*") as [star|] eqn:Hstar.
  - exists star. split; [done|].
    rewrite (finalizeDecoration_wildcard c star) in Hc1 by done. simpl in Hc1.
    by destruct (Validate star) as [[]| |].
  - apply finalizeDecoration_missing in Hstar as (e & He & _). congruence.
Qed.

Lemma Load_finalize_Err prowConfig jobConfig c0 e :
  loadConfig prowConfig jobConfig = Ok (Some c0) → finalizeJobConfig c0 = Err e →
  Load prowConfig jobConfig = ((None, Some e), Returning).
Proof.
  intros Hl Hf. unfold Load, Load_run, Load_stages. by rewrite Hl, Hf.
Qed.

(** *** Without a decorated job the plank is not consulted *)

Lemma defaultJobBase_ns (p1 p2 : ProwConfig) base :
  PodNamespace p1 = PodNamespace p2 → defaultJobBase p1 base = defaultJobBase p2 base.
Proof. intros Hns. unfold defaultJobBase. by rewrite Hns. Qed.

Lemma defaultPresubmits_undecorated c1 c2 jobs repo :
  same_jobs c1 c2 → Forall (λ ps, undecorated (PresubmitJobBase ps)) jobs →
  defaultPresubmits jobs c1 repo = defaultPresubmits jobs c2 repo.
Proof.
  intros [Hj Hns] Hund. unfold defaultPresubmits.
  rewrite (mapM_ext_in _ (λ ps,
    let ps' := setPresubmitDecorationDefaults c2 ps repo in
    spec ← resolvePresets (Name (PresubmitJobBase ps)) (Labels (PresubmitJobBase ps))
                          (Spec (PresubmitJobBase ps)) (Presets (ConfigJobConfig c2));
    Ok (with_PresubmitJobBase (with_Spec spec (PresubmitJobBase ps')) ps')) jobs).
  - destruct (mapM _ jobs); simpl; try done. unfold defaultPresubmitFields.
    do 2 f_equal. apply map_ext. intros j. by rewrite (defaultJobBase_ns _ _ _ Hns).
  - intros ps Hps. rewrite Forall_forall in Hund. specialize (Hund ps Hps).
    unfold setPresubmitDecorationDefaults, undecorated in *. by rewrite Hund, Hj.
Qed.

Lemma defaultPostsubmits_undecorated c1 c2 jobs repo :
  same_jobs c1 c2 → Forall (λ ps, undecorated (PostsubmitJobBase ps)) jobs →
  defaultPostsubmits jobs c1 repo = defaultPostsubmits jobs c2 repo.
Proof.
  intros [Hj Hns] Hund. unfold defaultPostsubmits.
  rewrite (mapM_ext_in _ (λ ps,
    let ps' := setPostsubmitDecorationDefaults c2 ps repo in
    spec ← resolvePresets (Name (PostsubmitJobBase ps)) (Labels (PostsubmitJobBase ps))
                          (Spec (PostsubmitJobBase ps)) (Presets (ConfigJobConfig c2));
    Ok (with_PostsubmitJobBase (with_Spec spec (PostsubmitJobBase ps')) ps')) jobs).
  - destruct (mapM _ jobs); simpl; try done. unfold defaultPostsubmitFields.
    do 2 f_equal. apply map_ext. intros j. by rewrite (defaultJobBase_ns _ _ _ Hns).
  - intros ps Hps. rewrite Forall_forall in Hund. specialize (Hund ps Hps).
    unfold setPostsubmitDecorationDefaults, undecorated in *. by rewrite Hund, Hj.
Qed.

Lemma defaultPeriodics_same c1 c2 :
  same_jobs c1 c2 →
  defaultPeriodics (Periodics (ConfigJobConfig c1)) c1
  = defaultPeriodics (Periodics (ConfigJobConfig c2)) c2.
Proof.
  intros [Hj Hns]. unfold defaultPeriodics, defaultPeriodicFields. rewrite Hj.
  f_equal. apply map_ext. intros j. by rewrite (defaultJobBase_ns _ _ _ Hns).
Qed.

Lemma presubmit_step_pair c repo jobs :
  presubmit_step c (repo, jobs)
  = defaultPresubmits jobs c repo ≫= λ jobs', Ok (with_Presubmits_of repo jobs' c).
Proof. done. Qed.

Lemma postsubmit_step_pair c repo jobs :
  postsubmit_step c (repo, jobs)
  = defaultPostsubmits jobs c repo ≫= λ jobs', Ok (with_Postsubmits_of repo jobs' c).
Proof. done. Qed.

Lemma presubmit_loop_same l c1 c2 :
  same_jobs c1 c2 →
  (∀ kv, kv ∈ l → Forall (λ ps, undecorated (PresubmitJobBase ps)) kv.2) →
  res_rel same_jobs (foldM presubmit_step c1 l) (foldM presubmit_step c2 l).
Proof.
  revert c1 c2; induction l as [|[repo jobs] l IH]; intros c1 c2 Hsame Hund; [done|].
  rewrite !foldM_cons, !presubmit_step_pair.
  rewrite (defaultPresubmits_undecorated c1 c2) by (try done; apply (Hund (repo, jobs)); left).
  destruct (defaultPresubmits jobs c2 repo) as [jobs'|e|v]; simpl; try done.
  apply IH.
  - destruct Hsame as [Hj Hns]. split; cbn; by rewrite ?Hj.
  - intros kv Hkv. apply Hund. by right.
Qed.

Lemma postsubmit_loop_same l c1 c2 :
  same_jobs c1 c2 →
  (∀ kv, kv ∈ l → Forall (λ ps, undecorated (PostsubmitJobBase ps)) kv.2) →
  res_rel same_jobs (foldM postsubmit_step c1 l) (foldM postsubmit_step c2 l).
Proof.
  revert c1 c2; induction l as [|[repo jobs] l IH]; intros c1 c2 Hsame Hund; [done|].
  rewrite !foldM_cons, !postsubmit_step_pair.
  rewrite (defaultPostsubmits_undecorated c1 c2) by (try done; apply (Hund (repo, jobs)); left).
  destruct (defaultPostsubmits jobs c2 repo) as [jobs'|e|v]; simpl; try done.
  apply IH.
  - destruct Hsame as [Hj Hns]. split; cbn; by rewrite ?Hj.
  - intros kv Hkv. apply Hund. by right.
Qed.

Lemma undecorated_lists {J} (base : J → JobBase) (l : list (string * list J)) :
  existsb (λ '(_, vs), existsb (λ v, Decorate (JobUtilityConfig (base v))) vs) l = false →
  ∀ kv, kv ∈ l → Forall (λ ps, undecorated (base ps)) kv.2.
Proof.
  intros Hex [k vs] Hkv. apply Forall_forall. intros v Hv. unfold undecorated.
  destruct (Decorate (JobUtilityConfig (base v))) eqn:Hd; [|done].
  assert (existsb (λ '(_, vs), existsb (λ v, Decorate (JobUtilityConfig (base v))) vs) l = true)
    as Ht; [|congruence].
  apply existsb_exists. exists (k, vs). split; [by apply list_elem_of_In|].
  apply existsb_exists. exists v. split; [by apply list_elem_of_In|done].
Qed.

Lemma finalizeJobConfig_not_requested c1 c2 :
  decorationRequested (ConfigJobConfig c1) = false → same_jobs c1 c2 →
  res_rel same_jobs (finalizeJobConfig c1) (finalizeJobConfig c2).
Proof.
  intros Hreq Hsame. unfold finalizeJobConfig.
  assert (decorationRequested (ConfigJobConfig c2) = false) as Hreq2.
  { destruct Hsame as [<- _]. done. }
  rewrite Hreq, Hreq2. simpl.
  unfold decorationRequested in Hreq.
  apply orb_false_iff in Hreq as [[Hpre Hpost]%orb_false_iff _].
  pose proof (presubmit_loop_same (range (Presubmits (ConfigJobConfig c1))) c1 c2 Hsame
                (undecorated_lists PresubmitJobBase _ Hpre)) as H1.
  replace (range (Presubmits (ConfigJobConfig c2)))
    with (range (Presubmits (ConfigJobConfig c1))) by (by destruct Hsame as [-> _]).
  destruct (foldM presubmit_step c1 _) as [d1|e1|v1] eqn:E1,
           (foldM presubmit_step c2 _) as [d2|e2|v2] eqn:E2; simpl in *; try done.
  assert (Postsubmits (ConfigJobConfig d1) = Postsubmits (ConfigJobConfig c1)) as Hp1.
  { eapply (foldM_invariant presubmit_step
              (λ c, Postsubmits (ConfigJobConfig c) = Postsubmits (ConfigJobConfig c1)));
      [|done|exact E1].
    intros s [repo jobs] s' _ (jobs' & _ & [= <-])%bind_Ok_inv. done. }
  replace (range (Postsubmits (ConfigJobConfig d2)))
    with (range (Postsubmits (ConfigJobConfig d1))) by (by destruct H1 as [-> _]).
  rewrite Hp1.
  pose proof (postsubmit_loop_same (range (Postsubmits (ConfigJobConfig c1))) d1 d2 H1
                (undecorated_lists PostsubmitJobBase _ Hpost)) as H2.
  destruct (foldM postsubmit_step d1 _) as [f1|e1|v1],
           (foldM postsubmit_step d2 _) as [f2|e2|v2]; simpl in *; try done.
  rewrite (defaultPeriodics_same f1 f2 H2).
  destruct (defaultPeriodics _ f2); simpl; try done.
  destruct H2 as [Hj Hns]. split; cbn; by rewrite ?Hj.
Qed.
End Requested.

(** ** The checks on a job base *)

Section BaseChecks.
Context {RL : RegexpLib} {EX : Externals} {GM : GoMap}.

Lemma validatePodSpec_Ok t spec :
  validatePodSpec t (Some spec) = Ok () → ∃ container, Containers spec = [container].
Proof.
  unfold validatePodSpec. destruct (nonempty _); [done|].
  destruct (Containers spec) as [|x [|y l]]; try done. eauto.
Qed.

(** A job with a pod spec is refused when its rerun policy both allows
    anyone and lists users or teams. *)
Lemma validateJobBase_rerun_auth_with_spec v t ns :
  Spec v ≠ None → ambiguous_rerun_auth (JobRerunAuthConfig v) = true →
  failed (validateJobBase v t ns).
Proof.
  intros Hspec Hamb [] Hok. unfold validateJobBase in Hok.
  apply bind_Ok_inv in Hok as (r & _ & Hok).
  destruct (negb _); [done|]. destruct (_ <? _)%Z; [done|].
  apply bind_Ok_inv in Hok as ([] & _ & Hok).
  apply bind_Ok_inv in Hok as ([] & Hpod & Hok).
  apply bind_Ok_inv in Hok as ([] & _ & Hok).
  destruct (Spec v) as [spec|]; [|done].
  apply validatePodSpec_Ok in Hpod as [container Hc]. rewrite Hc, Hamb in Hok. done.
Qed.

(** Without a pod spec the function returns before the rerun policy is
    looked at: the outcome does not depend on the policy. *)
Lemma validateJobBase_without_spec v t ns :
  Spec v = None →
  validateJobBase v t ns =
    r ← jobNameRegex;
    if negb (MatchString r (Name v)) then
      Err ("name: must match regex " +:+ quoted jobNamePattern)
    else if (MaxConcurrency v <? 0)%Z then
      Err ("max_concurrency: " +:+ pretty (MaxConcurrency v) +:+ " must be a non-negative number")
    else
      validateAgent v ns;; validateLabels (Labels v);; Ok ().
Proof.
  intros Hs. unfold validateJobBase. rewrite Hs.
  by destruct jobNameRegex.
Qed.
End BaseChecks.


(** ** Load *)

Section LoadClaims.
Context {RL : RegexpLib} {EX : Externals} {GM : GoMap}.

(** C6, as amended.  When some job requests decoration and
    [finalizeJobConfig] succeeds, the deprecated single default and a
    non-empty map of defaults are not both given, and the map, once the
    deprecated single default is migrated into it, has a wildcard entry
    and that entry validates; otherwise [Load] returns an error.  The
    error is the both-specified one when the single default and a
    non-empty map are both given, whatever they hold; if not, it is one of
    the two missing-default errors when the wildcard entry is missing, and
    the decoration-config validation error when the entry is there and its
    validation returns an error.  When no job requests decoration the
    outcome of [finalizeJobConfig] does not depend on the plank
    configuration at all, so no wildcard entry is needed. *)
Theorem wildcard_default_required :
  (∀ c c',
     decorationRequested (ConfigJobConfig c) = true → finalizeJobConfig c = Ok c' →
     ¬ both_specified (plank c)
     ∧ ∃ star, migrated_configs (plank c) !! "*" = Some star ∧ Validate star = Ok ())
  ∧ (∀ prowConfig jobConfig c0,
       loadConfig prowConfig jobConfig = Ok (Some c0) →
       decorationRequested (ConfigJobConfig c0) = true →
       migrated_configs (plank c0) !! "*" = None →
       ∃ e, Load prowConfig jobConfig = ((None, Some e), Returning)
            ∧ missing_wildcard_error e)
  ∧ (∀ prowConfig jobConfig c0 star e,
       loadConfig prowConfig jobConfig = Ok (Some c0) →
       decorationRequested (ConfigJobConfig c0) = true →
       ¬ both_specified (plank c0) → migrated_configs (plank c0) !! "*" = Some star →
       Validate star = Err e →
       Load prowConfig jobConfig
       = ((None, Some ("decoration config validation error: " +:+ e)), Returning))
  ∧ (∀ prowConfig jobConfig c0,
       loadConfig prowConfig jobConfig = Ok (Some c0) →
       decorationRequested (ConfigJobConfig c0) = true →
       both_specified (plank c0) →
       Load prowConfig jobConfig
       = ((None, Some "both default_decoration_config and default_decoration_configs are specified"),
          Returning))
  ∧ (∀ prowConfig jobConfig c0,
       loadConfig prowConfig jobConfig = Ok (Some c0) →
       decorationRequested (ConfigJobConfig c0) = true →
       ¬ (¬ both_specified (plank c0)
          ∧ ∃ star, migrated_configs (plank c0) !! "*" = Some star ∧ Validate star = Ok ()) →
       ∃ e, Load prowConfig jobConfig = ((None, Some e), Returning))
  ∧ (∀ c1 c2,
       decorationRequested (ConfigJobConfig c1) = false → same_jobs c1 c2 →
       res_rel same_jobs (finalizeJobConfig c1) (finalizeJobConfig c2)).
Proof.
  assert (∀ c c',
            decorationRequested (ConfigJobConfig c) = true → finalizeJobConfig c = Ok c' →
            ¬ both_specified (plank c)
            ∧ ∃ star, migrated_configs (plank c) !! "*" = Some star ∧ Validate star = Ok ())
    as Hneeded.
  { intros c c' Hreq Hfin. split; [|by eapply finalizeJobConfig_wildcard].
    intros Hboth%finalizeDecoration_both.
    rewrite finalizeJobConfig_requested, Hboth in Hfin by done. discriminate Hfin. }
  split; [done|].
  split.
  { intros prowConfig jobConfig c0 Hl Hreq Hstar.
    destruct (finalizeJobConfig_missing c0 Hreq Hstar) as (e & He & Hm).
    exists e. split; [by apply (Load_finalize_Err _ _ c0)|done]. }
  split.
  { intros prowConfig jobConfig c0 star e Hl Hreq Hb Hstar Hv.
    apply (Load_finalize_Err _ _ c0); [done|]. by eapply finalizeJobConfig_invalid. }
  split.
  { intros prowConfig jobConfig c0 Hl Hreq Hboth%finalizeDecoration_both.
    apply (Load_finalize_Err _ _ c0); [done|].
    by rewrite finalizeJobConfig_requested, Hboth. }
  split.
  { intros prowConfig jobConfig c0 Hl Hreq Hnot.
    destruct (Load_cases prowConfig jobConfig) as [[c Hc]|Herr]; [exfalso|done].
    apply Load_Ok_validated in Hc as (c0' & c1 & c2 & Hl' & Hfin & _).
    rewrite Hl in Hl'. injection Hl' as <-. by eapply Hnot, Hneeded. }
  intros. by apply finalizeJobConfig_not_requested.
Qed.

Lemma Load_stages_finalize_Panic c0 r :
  finalizeJobConfig c0 = Panic r → Load_stages c0 = Panic r.
Proof. intros Hp. unfold Load_stages. by rewrite Hp. Qed.

Lemma Load_stages_component_Panic c0 c1 r :
  finalizeJobConfig c0 = Ok c1 → validateComponentConfig c1 = Panic r →
  Load_stages c0 = Panic r.
Proof. intros H1 Hp. unfold Load_stages. rewrite H1. simpl. by rewrite Hp. Qed.

Lemma Load_stages_validate_Panic c0 c1 c2 r :
  finalizeJobConfig c0 = Ok c1 → validateComponentConfig c1 = Ok c2 →
  (validateJobConfig c2).2 = Panic r → Load_stages c0 = Panic r.
Proof.
  intros H1 H2 Hp. unfold Load_stages. rewrite H1. simpl. rewrite H2. simpl.
  destruct (validateJobConfig c2) as [c' r']. simpl in Hp. by subst.
Qed.

Lemma Load_run_stages_Panic prowConfig jobConfig c0 r :
  loadConfig prowConfig jobConfig = Ok (Some c0) → Load_stages c0 = Panic r →
  (Load_run prowConfig jobConfig).2 = Panicking r.
Proof. intros Hl Hs. unfold Load_run. by rewrite Hl, Hs. Qed.

(** C1.  [Load] always returns: its deferred call leaves no panic in
    flight.  It returns either a configuration with a nil error, and then
    every stage has succeeded on it, or a nil configuration with an error.
    A panic of the body is turned into the error [panic loading config],
    whichever stage raised it: reading the files, a nil configuration,
    defaulting and compilation, component validation, or job validation. *)
Theorem Load_recovers_panics (prowConfig jobConfig : string) :
  (Load prowConfig jobConfig).2 = Returning
  ∧ ((∃ c0 c1 c2 c,
        loadConfig prowConfig jobConfig = Ok (Some c0)
        ∧ finalizeJobConfig c0 = Ok c1 ∧ validateComponentConfig c1 = Ok c2
        ∧ validateJobConfig c2 = (c, Ok ())
        ∧ (Load prowConfig jobConfig).1 = (Some c, None))
     ∨ (∃ e, (Load prowConfig jobConfig).1 = (None, Some e)))
  ∧ (∀ r, (Load_run prowConfig jobConfig).2 = Panicking r →
          (Load prowConfig jobConfig).1 = (None, Some ("panic loading config: " +:+ r)))
  ∧ (∀ r, loadConfig prowConfig jobConfig = Panic r →
          (Load_run prowConfig jobConfig).2 = Panicking r)
  ∧ (loadConfig prowConfig jobConfig = Ok None →
     (Load_run prowConfig jobConfig).2 = Panicking nil_dereference)
  ∧ (∀ c0 r, loadConfig prowConfig jobConfig = Ok (Some c0) →
             finalizeJobConfig c0 = Panic r →
             (Load_run prowConfig jobConfig).2 = Panicking r)
  ∧ (∀ c0 c1 r, loadConfig prowConfig jobConfig = Ok (Some c0) →
                finalizeJobConfig c0 = Ok c1 → validateComponentConfig c1 = Panic r →
                (Load_run prowConfig jobConfig).2 = Panicking r)
  ∧ (∀ c0 c1 c2 r, loadConfig prowConfig jobConfig = Ok (Some c0) →
                   finalizeJobConfig c0 = Ok c1 → validateComponentConfig c1 = Ok c2 →
                   (validateJobConfig c2).2 = Panic r →
                   (Load_run prowConfig jobConfig).2 = Panicking r).
Proof.
  split; [|split; [|split; [|split; [|split; [|split; [|split]]]]]].
  - unfold Load, Load_deferred. by destruct (Load_run prowConfig jobConfig) as [? []].
  - unfold Load, Load_deferred, Load_run.
    destruct (loadConfig prowConfig jobConfig) as [[c0|]|e|v] eqn:Hl; cbn;
      try (right; by eauto).
    destruct (Load_stages c0) as [c|e|v] eqn:Hs; cbn; try (right; by eauto).
    left. apply Load_stages_Ok in Hs as (c1 & c2 & H1 & H2 & H3).
    exists c0, c1, c2, c. done.
  - intros r. unfold Load, Load_deferred.
    destruct (Load_run prowConfig jobConfig) as [? []]; cbn; [done|]. by intros [= ->].
  - intros r Hl. unfold Load_run. by rewrite Hl.
  - intros Hl. unfold Load_run. by rewrite Hl.
  - intros c0 r Hl Hp. eapply Load_run_stages_Panic; [done|].
    by apply Load_stages_finalize_Panic.
  - intros c0 c1 r Hl H1 Hp. eapply Load_run_stages_Panic; [done|].
    by eapply Load_stages_component_Panic.
  - intros c0 c1 c2 r Hl H1 H2 Hp. eapply Load_run_stages_Panic; [done|].
    by eapply Load_stages_validate_Panic.
Qed.
End LoadClaims.

(** ** The properties on the sample environment *)

(** The claim as the specification words it fails twice.  A wildcard entry
    that is present but does not validate makes [Load] fail with the
    validation error, which is not a missing-default error.  And with the
    deprecated single default given next to a non-empty map, [Load] fails
    with the both-specified error, which is neither a missing-default
    error nor a validation error, although the single default does not
    validate and the map has no wildcard entry. *)
Lemma invalid_wildcard_is_not_reported_missing :
  (decorationRequested (GM := map_order) (ConfigJobConfig invalid_wildcard_config) = true
   ∧ sample_Validate (wildcard_entry (plank invalid_wildcard_config))
     = Err "utility image config is not specified"
   ∧ ¬ (∃ e, Load (EX := sample_externals (Ok (Some invalid_wildcard_config)))
                  (GM := map_order) "config.yaml" ""
             = ((None, Some e), Returning)
             ∧ missing_wildcard_error e))
  ∧ (decorationRequested (GM := map_order) (ConfigJobConfig both_specified_config) = true
     ∧ DefaultDecorationConfigs (plank both_specified_config) !! "*" = None
     ∧ (∀ d, DefaultDecorationConfig (plank both_specified_config) = Some d →
             sample_Validate (Some d) = Err "utility image config is not specified")
     ∧ ¬ (∃ e, Load (EX := sample_externals (Ok (Some both_specified_config)))
                    (GM := map_order) "config.yaml" ""
               = ((None, Some e), Returning)
               ∧ (missing_wildcard_error e
                  ∨ ∃ e', e = "decoration config validation error: " +:+ e'))).
Proof.
  split.
  - split; [vm_compute; reflexivity|]. split; [vm_compute; reflexivity|].
    intros (e & He & Hm).
    assert ((Load (EX := sample_externals (Ok (Some invalid_wildcard_config)))
                  (GM := map_order) "config.yaml" "").1.2
            = Some "decoration config validation error: utility image config is not specified")
      as Hl by (vm_compute; reflexivity).
    rewrite He in Hl. injection Hl as ->. destruct Hm as [Hm|Hm]; discriminate Hm.
  - split; [vm_compute; reflexivity|]. split; [vm_compute; reflexivity|].
    split; [by intros d [= <-]|].
    intros (e & He & Hm).
    assert ((Load (EX := sample_externals (Ok (Some both_specified_config)))
                  (GM := map_order) "config.yaml" "").1.2
            = Some "both default_decoration_config and default_decoration_configs are specified")
      as Hl by (vm_compute; reflexivity).
    rewrite He in Hl. injection Hl as ->.
    destruct Hm as [[Hm|Hm]|[e' Hm]]; discriminate Hm.
Qed.

Lemma wildcard_default_required_witness :
  ∃ e, Load (EX := sample_externals (Ok (Some no_wildcard_config))) (GM := map_order)
            "config.yaml" ""
       = ((None, Some e), Returning)
       ∧ missing_wildcard_error e.
Proof.
  refine (proj1 (proj2 (wildcard_default_required
                          (EX := sample_externals (Ok (Some no_wildcard_config)))
                          (GM := map_order)))
            "config.yaml" "" no_wildcard_config eq_refl _ _).
  - vm_compute. reflexivity.
  - vm_compute. reflexivity.
Defined.

Lemma Load_recovers_panics_witness :
  (Load (EX := sample_externals (Ok (Some nil_wildcard_config))) (GM := map_order)
        "config.yaml" "").1
  = (None, Some ("panic loading config: " +:+ nil_dereference)).
Proof.
  refine (proj1 (proj2 (proj2 (Load_recovers_panics
                                 (EX := sample_externals (Ok (Some nil_wildcard_config)))
                                 (GM := map_order) "config.yaml" "")))
            nil_dereference _).
  vm_compute. reflexivity.
Defined.

Lemma mergeJobConfigs_concat_assoc_witness :
  Periodics (merged (GM := map_order) fragment_a fragment_b)
  = Periodics fragment_a ++ Periodics fragment_b.
Proof.
  apply (mergeJobConfigs_concat_assoc (GM := map_order) fragment_a fragment_b
           (merged (GM := map_order) fragment_a fragment_b)).
  reflexivity.
Defined.

Lemma duplicate_jobs_rejected_witness :
  ∃ err, Load (EX := sample_externals (Ok (Some duplicate_config))) (GM := map_order)
              "config.yaml" ""
         = ((None, Some err), Returning).
Proof.
  refine (proj1 (proj2 (proj2 (proj2 (proj2 (proj2
            (duplicate_jobs_rejected (EX := sample_externals (Ok (Some duplicate_config)))
               (GM := map_order) "default"))))))
            "config.yaml" "" duplicate_config "org/repo"
            [unit_test_on_main; unit_test_on_main] 0%nat 1%nat
            unit_test_on_main unit_test_on_main eq_refl _ eq_refl eq_refl _ eq_refl _).
  - vm_compute. reflexivity.
  - lia.
  - pose (compiled :=
            match setBrancherRegexes (RL := go_regexp) (sample_brancher ["main"]) with
            | Ok b => b
            | _ => sample_brancher ["main"]
            end).
    exists compiled, compiled. repeat split; vm_compute; reflexivity.
Defined.

(** The two presubmits named [unit-test] on [main]: the error that [Load]
    returns is the duplicated-job error naming them. *)
Lemma duplicate_config_reported :
  (Load (EX := sample_externals (Ok (Some duplicate_config))) (GM := map_order)
        "config.yaml" "").1.2
  = Some "duplicated presubmit job: unit-test".
Proof. vm_compute. reflexivity. Qed.


(** The presubmit with trigger [/run foo] and rerun command [/test foo]:
    the error that [Load] returns names the job, the rerun command and the
    trigger. *)
Lemma run_foo_config_reported :
  (Load (EX := sample_externals (Ok (Some run_foo_config))) (GM := map_order)
        "config.yaml" "").1.2
  = Some ("could not set regex: " +:+ rerun_mismatch run_foo).
Proof. vm_compute. reflexivity. Qed.

Lemma periodic_schedule_exclusive_witness :
  (validateJobConfig (EX := sample_externals (Err "")) (GM := map_order)
     (sample_config empty_plank (sample_jobs ∅ ∅ [hourly_twice]))).2
  = Err ("cron and interval cannot be both set in periodic "
           +:+ Name (PeriodicJobBase hourly_twice)).
Proof.
  refine (proj1 (proj1 (periodic_schedule_exclusive
                          (EX := sample_externals (Err "")) (GM := map_order))
                   (sample_config empty_plank (sample_jobs ∅ ∅ [hourly_twice]))
                   [] hourly_twice [] _ eq_refl eq_refl)
            eq_refl eq_refl).
  vm_compute. reflexivity.
Defined.

Lemma validateJobConfig_writes_only_intervals_witness :
  Forall2 (interval_set_from (EX := sample_externals (Err "")))
    (Periodics (ConfigJobConfig
       (sample_config empty_plank (sample_jobs ∅ ∅ [sample_periodic "nightly" "" "1h"]))))
    (Periodics (ConfigJobConfig
       (validateJobConfig (EX := sample_externals (Err "")) (GM := map_order)
          (sample_config empty_plank (sample_jobs ∅ ∅ [sample_periodic "nightly" "" "1h"]))).1)).
Proof.
  refine (proj2 (proj2 (proj2 (proj2 (proj2 (proj2
    (validateJobConfig_writes_only_intervals
       (EX := sample_externals (Err "")) (GM := map_order)
       (sample_config empty_plank
          (sample_jobs ∅ ∅ [sample_periodic "nightly" "" "1h"])))))))) _).
  vm_compute. reflexivity.
Defined.

(** C9, on the code.  A job without a pod spec whose rerun policy both
    allows anyone and names a user passes [validateJobBase], and a
    configuration holding it loads: the function returns for jobs without a
    spec before it reaches the rerun-authorization test. *)
Theorem rerun_auth_unchecked_without_spec :
  ambiguous_rerun_auth (JobRerunAuthConfig jenkins_job) = true
  ∧ validateJobBase (EX := sample_externals (Err "")) (GM := map_order)
      jenkins_job PeriodicJob "default" = Ok ()
  ∧ Load_succeeded
      (Load (EX := sample_externals (Ok (Some jenkins_config))) (GM := map_order)
            "config.yaml" "") = true.
Proof. split; [reflexivity|]. split; vm_compute; reflexivity. Qed.
(** * Further properties of the loader *)

(** ** Splitting an identifier at its slashes *)

Lemma split_slash_not_nil (s : string) : split_slash s ≠ [].
Proof.
  induction s as [|c s IH]; simpl; [done|].
  destruct (c =? "/")%char; [done|]. by destruct (split_slash s).
Qed.

Lemma has_slash_String (c : ascii) (s : string) :
  has_slash (String c s) = (c =? "/")%char || has_slash s.
Proof.
  unfold has_slash. cbn [list_ascii_of_string existsb]. by rewrite (Ascii.eqb_sym "/" c).
Qed.

Lemma split_slash_no_slash (s : string) : has_slash s = false → split_slash s = [s].
Proof.
  induction s as [|c s IH]; [done|].
  rewrite has_slash_String. intros [Hc Hs]%orb_false_iff. simpl.
  by rewrite Hc, (IH Hs).
Qed.

Lemma split_slash_app (a b : string) :
  has_slash a = false → split_slash (a +:+ "/" +:+ b) = a :: split_slash b.
Proof.
  induction a as [|c a IH]; [done|].
  rewrite has_slash_String. intros [Hc Ha]%orb_false_iff. simpl.
  by rewrite Hc, (IH Ha).
Qed.

Lemma count_slash_String (c : ascii) (s : string) :
  count_slash (String c s) = ((if (c =? "/")%char then 1 else 0) + count_slash s)%nat.
Proof.
  unfold count_slash. simpl. rewrite filter_cons.
  destruct (Ascii.eqb_spec c "/"); by case_decide.
Qed.

Lemma split_slash_length (s : string) : List.length (split_slash s) = S (count_slash s).
Proof.
  induction s as [|c s IH]; [done|].
  rewrite count_slash_String. simpl. destruct (c =? "/")%char; simpl; [by rewrite IH|].
  pose proof (split_slash_not_nil s). destruct (split_slash s); [done|]. simpl in *. lia.
Qed.

(** The first piece is the text before the first slash. *)
Lemma split_slash_hd (s : string) : hd "" (split_slash s) = before_slash s.
Proof.
  induction s as [|c s IH]; [done|]. simpl. destruct (c =? "/")%char; [done|].
  pose proof (split_slash_not_nil s). destruct (split_slash s); [done|]. simpl in *. by rewrite IH.
Qed.

(** ** InRepoConfigEnabled *)

Section InRepo.
Context {RL : RegexpLib}.

(** X1.  With a fake in-repo configuration [InRepoConfigEnabled] returns
    true.  Without one, it resolves an identifier by the narrowest entry
    that is set: the entry of the identifier itself; else, when the
    identifier has exactly one slash, the entry of the text before the
    slash; else the wildcard; and false when none of them is set.  An
    entry whose pointer is nil counts as not set, and an identifier with
    no slash or with several never takes the entry of an organisation. *)
Theorem InRepoConfigEnabled_narrowest_match
    (FakeInRepoConfig : option (gmap string (list Presubmit))) (c : InRepoConfig)
    (identifier : string) :
  InRepoConfigEnabled FakeInRepoConfig c identifier
  = match FakeInRepoConfig with
    | Some _ => true
    | None =>
      default false
        (first_set (enabled_at c identifier)
           (first_set (if decide (count_slash identifier = 1%nat)
                       then enabled_at c (before_slash identifier) else None)
              (enabled_at c "*")))
    end.
Proof.
  destruct FakeInRepoConfig; [done|]. unfold InRepoConfigEnabled.
  rewrite split_slash_length, split_slash_hd.
  destruct (enabled_at c identifier); [done|]. cbn [first_set].
  destruct (Nat.eqb_spec (S (count_slash identifier)) 2) as [Heq|Hne]; case_decide; try lia.
  - by destruct (enabled_at c (before_slash identifier)), (enabled_at c "*").
  - by destruct (enabled_at c "*").
Qed.
End InRepo.

(** ** Test presubmits *)

Section TestPresubmits.
Context {RL : RegexpLib}.

(** X2.  What [SetTestPresubmits] stores under an identifier is what
    [PresubmitsStatic] holds there afterwards; every other identifier and
    every other part of the job configuration, the set of repositories
    included, is as before; and a second write under the same identifier
    replaces the first. *)
Theorem SetTestPresubmits_round_trip (jc : JobConfig) (identifier : string)
    (presubmits : list Presubmit) :
  PresubmitsStatic (SetTestPresubmits jc identifier presubmits) !! identifier = Some presubmits
  ∧ (∀ other, other ≠ identifier →
       PresubmitsStatic (SetTestPresubmits jc identifier presubmits) !! other
       = PresubmitsStatic jc !! other)
  ∧ Presets (SetTestPresubmits jc identifier presubmits) = Presets jc
  ∧ Postsubmits (SetTestPresubmits jc identifier presubmits) = Postsubmits jc
  ∧ Periodics (SetTestPresubmits jc identifier presubmits) = Periodics jc
  ∧ AllRepos (SetTestPresubmits jc identifier presubmits) = AllRepos jc
  ∧ (∀ again, SetTestPresubmits (SetTestPresubmits jc identifier presubmits) identifier again
              = SetTestPresubmits jc identifier again).
Proof.
  unfold PresubmitsStatic, SetTestPresubmits. cbn.
  split; [apply lookup_insert_eq|].
  split; [intros other Hne; by apply lookup_insert_ne|].
  repeat split. intros again. by rewrite insert_insert_eq.
Qed.
End TestPresubmits.

(** ** The directory blacklist *)

(** X3.  The blacklist of a repository is the default list, then the list
    of its organisation, then the list of the repository itself, then,
    unless they are switched off, the three preconfigured patterns; a key
    the map does not have contributes nothing. *)
Theorem DirBlacklist_layers (o : OwnersDirBlacklist) (org repo : string) :
  DirBlacklist o org repo
  = Default o ++ default [] (Repos o !! org)
      ++ default [] (Repos o !! (org +:+ "/" +:+ repo))
      ++ (if IgnorePreconfiguredDefaults o then [] else preconfiguredDefaults).
Proof.
  unfold DirBlacklist.
  destruct (Repos o !! org), (Repos o !! (org +:+ "/" +:+ repo)),
    (IgnorePreconfiguredDefaults o); simpl; by rewrite <- ?app_assoc, ?app_nil_r.
Qed.

(** ** The job URL prefix *)

Lemma prefix_at_empty_is_absent (p : Plank) (k k' : string) :
  prefix_at (with_JobURLPrefixConfig (<[k := ""]> (JobURLPrefixConfig p)) p) k'
  = prefix_at (with_JobURLPrefixConfig (delete k (JobURLPrefixConfig p)) p) k'.
Proof.
  unfold prefix_at, with_JobURLPrefixConfig. cbn.
  destruct (decide (k = k')) as [->|Hne].
  - by rewrite lookup_insert_eq, lookup_delete_eq.
  - by rewrite lookup_insert_ne, lookup_delete_ne.
Qed.

(** X4.  An entry whose URL is the empty string is the same as no entry:
    the lookup falls through to the next wider key, for every reference
    and whichever key holds the empty string. *)
Theorem GetJobURLPrefix_empty_is_absent (p : Plank) (k : string) (refs : option Refs) :
  GetJobURLPrefix (with_JobURLPrefixConfig (<[k := ""]> (JobURLPrefixConfig p)) p) refs
  = GetJobURLPrefix (with_JobURLPrefixConfig (delete k (JobURLPrefixConfig p)) p) refs.
Proof.
  unfold GetJobURLPrefix. destruct refs as [refs|]; by rewrite !prefix_at_empty_is_absent.
Qed.

Lemma prefix_at_configured (p : Plank) (k : string) :
  prefix_at p k = "" ∨ JobURLPrefixConfig p !! k = Some (prefix_at p k).
Proof. unfold prefix_at. destruct (JobURLPrefixConfig p !! k); [by right|by left]. Qed.

Lemma GetJobURLPrefix_configured (p : Plank) (refs : option Refs) :
  GetJobURLPrefix p refs = ""
  ∨ ∃ k, JobURLPrefixConfig p !! k = Some (GetJobURLPrefix p refs).
Proof.
  unfold GetJobURLPrefix. destruct refs as [refs|].
  - repeat case_match; (edestruct prefix_at_configured as [->|?]; [by left|right; eauto]).
  - edestruct prefix_at_configured as [->|?]; [by left|right; eauto].
Qed.

Section Prefix.
Context {RL : RegexpLib} {EX : Externals} {GM : GoMap}.

Lemma validateComponentConfig_urls (c c' : Config) :
  validateComponentConfig c = Ok c' →
  ∀ k v, JobURLPrefixConfig (plank c) !! k = Some v → url_Parse v = Ok ().
Proof.
  unfold validateComponentConfig. intros ([] & Hurls & _)%bind_Ok_inv k v Hk.
  apply elem_of_range in Hk. apply (proj1 (forM__Ok _ _) Hurls) in Hk.
  by apply wrap_Ok_inv in Hk.
Qed.

(** X5.  Once [validateComponentConfig] has accepted a configuration, the
    prefix [GetJobURLPrefix] returns for any reference is either empty
    (nothing is configured for it) or a URL that [url.Parse] accepts. *)
Theorem GetJobURLPrefix_validated (c c' : Config) (refs : option Refs) :
  validateComponentConfig c = Ok c' →
  GetJobURLPrefix (plank c') refs = ""
  ∨ url_Parse (GetJobURLPrefix (plank c') refs) = Ok ().
Proof.
  intros Hv. destruct (validateComponentConfig_jobs _ _ Hv) as [_ ->].
  destruct (GetJobURLPrefix_configured (plank c) refs) as [?|[k Hk]]; [by left|right].
  by eapply validateComponentConfig_urls.
Qed.

(** ** Merging a fragment into a configuration *)

Lemma range_empty {V} : range (∅ : gmap string V) = [].
Proof. apply Permutation_nil_r. rewrite (range_perm V ∅). by rewrite map_to_list_empty. Qed.

Lemma merge_lists_empty_r {J} (a : gmap string (list J)) : merge_lists a ∅ = a.
Proof.
  apply map_eq. intros k. rewrite merge_lists_lookup, lookup_empty. by destruct (a !! k).
Qed.

(** X6.  [mergeJobConfig] replaces the presets and the three kinds of jobs
    of the configuration by the merged ones and keeps its set of
    repositories and its controller configuration; when the merge is
    refused the configuration is left as it was.  Merging the empty
    fragment succeeds exactly when no [label:value] pair occurs twice among
    the presets the configuration already has, and then changes nothing. *)
Theorem mergeJobConfig_outcome (c : Config) (jc : JobConfig) :
  ConfigProwConfig (mergeJobConfig c jc).1 = ConfigProwConfig c
  ∧ AllRepos (ConfigJobConfig (mergeJobConfig c jc).1) = AllRepos (ConfigJobConfig c)
  ∧ ((mergeJobConfig c jc).2 = Ok () →
     Presets (ConfigJobConfig (mergeJobConfig c jc).1) = Presets (ConfigJobConfig c) ++ Presets jc
     ∧ Periodics (ConfigJobConfig (mergeJobConfig c jc).1)
       = Periodics (ConfigJobConfig c) ++ Periodics jc
     ∧ (∀ repo, Presubmits (ConfigJobConfig (mergeJobConfig c jc).1) !! repo
                = union_with (λ x y, Some (x ++ y))
                    (Presubmits (ConfigJobConfig c) !! repo) (Presubmits jc !! repo))
     ∧ (∀ repo, Postsubmits (ConfigJobConfig (mergeJobConfig c jc).1) !! repo
                = union_with (λ x y, Some (x ++ y))
                    (Postsubmits (ConfigJobConfig c) !! repo) (Postsubmits jc !! repo)))
  ∧ ((mergeJobConfig c jc).2 ≠ Ok () → (mergeJobConfig c jc).1 = c)
  ∧ ((mergeJobConfig c empty_JobConfig).2 = Ok ()
     ↔ NoDup (pairs_of (Presets (ConfigJobConfig c))))
  ∧ ((mergeJobConfig c empty_JobConfig).2 = Ok () → (mergeJobConfig c empty_JobConfig).1 = c).
Proof.
  unfold mergeJobConfig.
  set (a := {| Presets := Presets (ConfigJobConfig c);
               Presubmits := Presubmits (ConfigJobConfig c);
               Postsubmits := Postsubmits (ConfigJobConfig c);
               Periodics := Periodics (ConfigJobConfig c); AllRepos := ∅ |}).
  split; [by destruct (mergeJobConfigs a jc)|].
  split; [by destruct (mergeJobConfigs a jc)|].
  split.
  { destruct (mergeJobConfigs a jc) as [m|e|v] eqn:Hm; cbn; try done. intros _.
    apply mergeJobConfigs_Ok in Hm as [_ ->]. cbn.
    repeat split; intros; apply merge_lists_lookup. }
  split; [by destruct (mergeJobConfigs a jc)|].
  pose proof (mergeJobConfigs_Ok a empty_JobConfig (merged a empty_JobConfig)) as Hiff.
  cbn [Presets empty_JobConfig a] in Hiff. rewrite app_nil_r in Hiff.
  split.
  { destruct (mergeJobConfigs a empty_JobConfig) as [m|e|v] eqn:Hm; cbn.
    - apply mergeJobConfigs_Ok in Hm as [Hnd _]. cbn in Hnd. by rewrite app_nil_r in Hnd.
    - split; [done|]. intros Hnd. specialize (proj2 Hiff (conj Hnd eq_refl)). congruence.
    - split; [done|]. intros Hnd. specialize (proj2 Hiff (conj Hnd eq_refl)). congruence. }
  destruct (mergeJobConfigs a empty_JobConfig) as [m|e|v] eqn:Hm; cbn; try done. intros _.
  apply mergeJobConfigs_Ok in Hm as [_ ->]. cbn.
  rewrite !app_nil_r, !merge_lists_empty_r. by destruct c as [[] ?].
Qed.
End Prefix.

(** ** Controllers *)

Section ControllerFacts.
Context {CL : ConfigLibs}.

Lemma ValidateController_Ok (c c' : Controller) :
  ValidateController c = (c', Ok ())
  ↔ ∃ urlTmpl reportTmpl,
      template_New_Parse "JobURL" (JobURLTemplateString c) = Ok urlTmpl
      ∧ template_New_Parse "Report" (ReportTemplateString c) = Ok reportTmpl
      ∧ (0 ≤ ControllerMaxConcurrency c)%Z ∧ (0 ≤ MaxGoroutines c)%Z
      ∧ c' = {| JobURLTemplateString := JobURLTemplateString c;
                JobURLTemplate := Some urlTmpl;
                ReportTemplateString := ReportTemplateString c;
                ControllerReportTemplate := Some reportTmpl;
                ControllerMaxConcurrency := ControllerMaxConcurrency c;
                MaxGoroutines := if (MaxGoroutines c =? 0)%Z then 20%Z else MaxGoroutines c;
                AllowCancellations := AllowCancellations c |}.
Proof.
  unfold ValidateController.
  destruct (template_New_Parse "JobURL" _) as [u|e|v]; cbn;
    [|split; [done|by intros (? & ? & ? & _)]..].
  destruct (template_New_Parse "Report" _) as [r|e|v]; cbn;
    [|split; [done|by intros (? & ? & _ & ? & _)]..].
  destruct (Z.ltb_spec (ControllerMaxConcurrency c) 0) as [Hneg|Hpos]; cbn.
  { split; [done|]. intros (_ & _ & _ & _ & ? & _). lia. }
  destruct (Z.eqb_spec (MaxGoroutines c) 0) as [Hz|Hnz]; cbn.
  - split.
    + intros [= <-]. exists u, r. repeat split; try done. lia.
    + intros (? & ? & [= <-] & [= <-] & _ & _ & ->). done.
  - destruct (Z.leb_spec (MaxGoroutines c) 0) as [Hle|Hgt]; cbn.
    + split; [done|]. intros (_ & _ & _ & _ & _ & ? & _). lia.
    + split.
      * intros [= <-]. exists u, r. repeat split; try done. lia.
      * intros (? & ? & [= <-] & [= <-] & _ & _ & ->). done.
Qed.

(** X7.  [ValidateController] accepts a controller exactly when its two
    templates parse, its concurrency limit is not negative and its number
    of goroutines is not negative; it then leaves the controller with both
    compiled templates, with twenty goroutines if none was asked for, and
    with every other field as given.  A controller it has accepted has a
    positive number of goroutines, and is accepted again and not changed
    by a second validation. *)
Theorem ValidateController_accepts (c c' : Controller) :
  (ValidateController c = (c', Ok ())
   ↔ ∃ urlTmpl reportTmpl,
       template_New_Parse "JobURL" (JobURLTemplateString c) = Ok urlTmpl
       ∧ template_New_Parse "Report" (ReportTemplateString c) = Ok reportTmpl
       ∧ (0 ≤ ControllerMaxConcurrency c)%Z ∧ (0 ≤ MaxGoroutines c)%Z
       ∧ c' = {| JobURLTemplateString := JobURLTemplateString c;
                 JobURLTemplate := Some urlTmpl;
                 ReportTemplateString := ReportTemplateString c;
                 ControllerReportTemplate := Some reportTmpl;
                 ControllerMaxConcurrency := ControllerMaxConcurrency c;
                 MaxGoroutines := if (MaxGoroutines c =? 0)%Z then 20%Z else MaxGoroutines c;
                 AllowCancellations := AllowCancellations c |})
  ∧ (ValidateController c = (c', Ok ()) →
     ValidateController c' = (c', Ok ()) ∧ (0 < MaxGoroutines c')%Z).
Proof.
  split; [apply ValidateController_Ok|].
  intros (u & r & Hu & Hr & Hc & Hg & ->)%ValidateController_Ok.
  split.
  - apply ValidateController_Ok. exists u, r. cbn.
    destruct (Z.eqb_spec (MaxGoroutines c) 0) as [Hz|Hnz]; cbn; [done|].
    repeat split; try done. by rewrite (proj2 (Z.eqb_neq _ _) Hnz).
  - cbn. destruct (Z.eqb_spec (MaxGoroutines c) 0); lia.
Qed.
End ControllerFacts.

(** ** Presets with the same pair *)

Section MergeErrors.
Context {RL : RegexpLib} {GM : GoMap}.

Lemma check_pair_eq (valid : gset string) (pair : string) :
  check_pair valid pair
  = if bool_decide (pair ∈ valid)
    then Err ("duplicated preset 'label:value' pair : " +:+ pair)
    else Ok ({[pair]} ∪ valid).
Proof. done. Qed.

Lemma check_pairs_Err valid l e :
  foldM check_pair valid l = Err e →
  ∃ before pair after,
    l = before ++ pair :: after
    ∧ (∃ valid', foldM check_pair valid before = Ok valid')
    ∧ (pair ∈ valid ∨ pair ∈ before)
    ∧ e = "duplicated preset 'label:value' pair : " +:+ pair.
Proof.
  revert valid; induction l as [|x l IH]; intros valid; [done|].
  rewrite foldM_cons, check_pair_eq. case_bool_decide as Hx; simpl.
  - intros [= <-]. exists [], x, l. repeat split; eauto.
  - intros (before & pair & after & -> & [valid' Hb] & Hin & ->)%IH.
    exists (x :: before), pair, after. repeat split.
    + exists valid'. by rewrite foldM_cons, check_pair_eq, bool_decide_eq_false_2.
    + destruct Hin as [[->%elem_of_singleton_1|?]%elem_of_union|?].
      * right. left.
      * by left.
      * right. by right.
Qed.

Lemma check_pairs_no_Panic valid l v : foldM check_pair valid l ≠ Panic v.
Proof.
  revert valid; induction l as [|x l IH]; intros valid; [done|].
  rewrite foldM_cons, check_pair_eq. case_bool_decide; simpl; [done|apply IH].
Qed.

(** X8.  [mergeJobConfigs] never panics and has two outcomes.  Either no
    [label:value] pair occurs twice among the presets of the two
    fragments, read in the order of the check, and the merged
    configuration is returned; or the error names the first pair that
    repeats an earlier one. *)
Theorem mergeJobConfigs_refuses_repeated_pairs (a b : JobConfig) :
  (NoDup (pairs_of (Presets a ++ Presets b)) ∧ mergeJobConfigs a b = Ok (merged a b))
  ∨ (∃ before pair after,
       pairs_of (Presets a ++ Presets b) = before ++ pair :: after
       ∧ NoDup before ∧ pair ∈ before
       ∧ mergeJobConfigs a b = Err ("duplicated preset 'label:value' pair : " +:+ pair)).
Proof.
  unfold mergeJobConfigs. rewrite check_presets_pairs.
  destruct (foldM check_pair ∅ _) as [valid|e|v] eqn:Hc; simpl.
  - left. split; [|done]. apply check_pairs_empty_Ok. eauto.
  - right. apply check_pairs_Err in Hc as (before & pair & after & Hl & Hb & Hin & ->).
    exists before, pair, after. repeat split; try done.
    + by apply check_pairs_empty_Ok.
    + destruct Hin as [Hin|?]; [|done]. by apply not_elem_of_empty in Hin.
  - by apply check_pairs_no_Panic in Hc.
Qed.

Lemma elem_of_pairs_of presets p l v :
  p ∈ presets → PresetLabels p !! l = Some v → preset_pair (l, v) ∈ pairs_of presets.
Proof.
  intros Hp Hl. unfold pairs_of. apply list_elem_of_In, in_concat.
  exists (map preset_pair (range (PresetLabels p))). split.
  - apply in_map_iff. exists p. split; [done|]. by apply list_elem_of_In.
  - apply in_map_iff. exists (l, v). split; [done|]. by apply list_elem_of_In, elem_of_range.
Qed.

(** X9.  The check compares the text [label:value], not the binding: a
    preset of one fragment and a preset of the other whose label and value
    join to the same text make the merge fail, whether the two bindings
    are the same or only read the same. *)
Theorem mergeJobConfigs_pair_text_collision (a b : JobConfig) (pa pb : Preset)
    (l1 v1 l2 v2 : string) :
  pa ∈ Presets a → pb ∈ Presets b →
  PresetLabels pa !! l1 = Some v1 → PresetLabels pb !! l2 = Some v2 →
  l1 +:+ ":" +:+ v1 = l2 +:+ ":" +:+ v2 →
  failed (mergeJobConfigs a b).
Proof.
  intros Hpa Hpb H1 H2 Htext c [Hnd _]%mergeJobConfigs_Ok.
  rewrite pairs_of_app in Hnd. apply NoDup_app in Hnd as (_ & Hdisj & _).
  apply (Hdisj (preset_pair (l1, v1))).
  - by eapply elem_of_pairs_of.
  - replace (preset_pair (l1, v1)) with (preset_pair (l2, v2)) by (by unfold preset_pair).
    by eapply elem_of_pairs_of.
Qed.
End MergeErrors.

(** ** The Slack reporter and the component configuration *)

Section Components.
Context {RL : RegexpLib} {EX : Externals} {GM : GoMap}.

Lemma DefaultAndValidate_Ok (cfg cfg' : SlackReporter) :
  DefaultAndValidate cfg = Ok cfg'
  ↔ Channel cfg ≠ ""
    ∧ template_Parse (ReportTemplate cfg') = Ok ()
    ∧ template_Execute (ReportTemplate cfg') = Ok ()
    ∧ cfg' = {| JobTypesToReport := JobTypesToReport cfg;
                JobStatesToReport := JobStatesToReport cfg;
                Channel := Channel cfg;
                ReportTemplate :=
                  if (ReportTemplate cfg =? "")%string
                  then "Job {{.Spec.Job}} of type {{.Spec.Type}} ended with state {{.Status.State}}. <{{.Status.URL}}|View logs>"
                  else ReportTemplate cfg |}.
Proof.
  unfold DefaultAndValidate.
  destruct (String.eqb_spec (ReportTemplate cfg) "") as [Ht|Ht]; cbn.
  - destruct (String.eqb_spec (Channel cfg) "") as [Hc|Hc]; [split; [done|by intros [? _]]|].
    split.
    + intros ([] & Hp%wrap_Ok_inv & ([] & He%wrap_Ok_inv & [= <-])%bind_Ok_inv)%bind_Ok_inv. done.
    + intros (_ & Hp & He & ->). cbn in *. by rewrite Hp, He.
  - destruct (String.eqb_spec (Channel cfg) "") as [Hc|Hc]; [split; [done|by intros [? _]]|].
    split.
    + intros ([] & Hp%wrap_Ok_inv & ([] & He%wrap_Ok_inv & [= <-])%bind_Ok_inv)%bind_Ok_inv.
      repeat split; try done. by destruct cfg.
    + intros (_ & Hp & He & ->). cbn in *. rewrite Hp, He. cbn. by destruct cfg.
Qed.

(** X10.  A reporter that [DefaultAndValidate] accepts has a channel and
    a report template that are not empty, the template being the one it
    was given or, if it was given none, the default one; nothing else is
    changed, and validating the result again returns it unchanged. *)
Theorem DefaultAndValidate_idempotent (cfg cfg' : SlackReporter) :
  DefaultAndValidate cfg = Ok cfg' →
  Channel cfg' = Channel cfg ∧ Channel cfg' ≠ "" ∧ ReportTemplate cfg' ≠ ""
  ∧ (ReportTemplate cfg ≠ "" → cfg' = cfg)
  ∧ JobTypesToReport cfg' = JobTypesToReport cfg
  ∧ JobStatesToReport cfg' = JobStatesToReport cfg
  ∧ DefaultAndValidate cfg' = Ok cfg'.
Proof.
  intros Hok. pose proof Hok as (Hc & Hp & He & Heq)%DefaultAndValidate_Ok.
  assert (ReportTemplate cfg' ≠ "") as Ht.
  { rewrite Heq. cbn. by destruct (String.eqb_spec (ReportTemplate cfg) ""). }
  assert (Channel cfg' = Channel cfg) as Hch by (by rewrite Heq).
  split; [done|]. split; [congruence|]. split; [done|]. split.
  { intros Hne. rewrite Heq. destruct (String.eqb_spec (ReportTemplate cfg) ""); [done|].
    by destruct cfg. }
  split; [by rewrite Heq|]. split; [by rewrite Heq|].
  apply DefaultAndValidate_Ok. repeat split; try done; [congruence|].
  destruct (String.eqb_spec (ReportTemplate cfg') ""); [done|]. by destruct cfg'.
Qed.

Lemma validateComponentConfig_Ok (c c' : Config) :
  validateComponentConfig c = Ok c'
  ↔ (∀ k v, JobURLPrefixConfig (plank c) !! k = Some v → url_Parse v = Ok ())
    ∧ match ProwSlackReporter (ConfigProwConfig c) with
      | Some cfg => ∃ cfg', DefaultAndValidate cfg = Ok cfg' ∧ c' = with_SlackReporter (Some cfg') c
      | None => c' = c
      end.
Proof.
  unfold validateComponentConfig. split.
  - intros ([] & Hurls & Hc)%bind_Ok_inv. split.
    + intros k v Hk%elem_of_range. apply (proj1 (forM__Ok _ _) Hurls) in Hk.
      by apply wrap_Ok_inv in Hk.
    + destruct (ProwSlackReporter (ConfigProwConfig c)) as [cfg|]; [|by injection Hc].
      apply bind_Ok_inv in Hc as (cfg' & Hcfg%wrap_Ok_inv & [= <-]). eauto.
  - intros [Hurls Hrep].
    assert (forM_ (λ '(k, v),
              wrap (λ e, "Invalid value for Planks job_url_prefix_config[" +:+ quoted k
                           +:+ "]: " +:+ e) (url_Parse v))
              (range (JobURLPrefixConfig (plank c))) = Ok ()) as ->.
    { apply forM__Ok. intros [k v] Hk%elem_of_range. by rewrite (Hurls k v Hk). }
    cbn. destruct (ProwSlackReporter (ConfigProwConfig c)) as [cfg|]; [|by rewrite Hrep].
    destruct Hrep as (cfg' & -> & ->). done.
Qed.

(** X11.  [validateComponentConfig] accepts a configuration exactly when
    [url.Parse] accepts every URL prefix of the plank, in whatever order
    the map is visited, and the Slack reporter, if there is one,
    validates; the configuration returned differs from the one given in
    the defaulted reporter only. *)
Theorem validateComponentConfig_accepts (c c' : Config) :
  validateComponentConfig c = Ok c'
  ↔ (∀ k v, JobURLPrefixConfig (plank c) !! k = Some v → url_Parse v = Ok ())
    ∧ match ProwSlackReporter (ConfigProwConfig c) with
      | Some cfg => ∃ cfg', DefaultAndValidate cfg = Ok cfg' ∧ c' = with_SlackReporter (Some cfg') c
      | None => c' = c
      end.
Proof. apply validateComponentConfig_Ok. Qed.
End Components.

(** ** The checks on one job *)

Lemma guard_Ok {A} (b : bool) (e : error) (m : res A) (a : A) :
  (if b then Err e else m) = Ok a ↔ b = false ∧ m = Ok a.
Proof. destruct b; split; try done; by intros [? ?]. Qed.

Section JobChecks.
Context {RL : RegexpLib} {EX : Externals} {GM : GoMap}.
(** X12.  [validateAgent] accepts every job whose agent is not one of the
    four it knows.  A job of a known agent is accepted exactly when it has
    a pod spec if and only if its agent is the Kubernetes one, a
    decoration configuration only with the Kubernetes or the Knative
    build agent, eviction errors only with the Kubernetes agent, and a
    namespace that is not empty and is the pod namespace unless the agent
    is the Knative build or the Tekton one. *)
Theorem validateAgent_accepts (v : JobBase) (podNamespace : string) :
  validateAgent v podNamespace = Ok ()
  ↔ known_agent (Agent v) = false
    ∨ ((Spec v ≠ None ↔ Agent v = KubernetesAgent)
       ∧ (JobDecorationConfig (JobUtilityConfig v) ≠ None →
          Agent v = KubernetesAgent ∨ Agent v = KnativeBuildAgent)
       ∧ (ErrorOnEviction v = true → Agent v = KubernetesAgent)
       ∧ ∃ ns, Namespace v = Some ns ∧ ns ≠ ""
               ∧ (ns ≠ podNamespace → Agent v = KnativeBuildAgent ∨ Agent v = TektonAgent)).
Proof.
  unfold validateAgent.
  change ((Agent v =? KubernetesAgent)%string || (Agent v =? KnativeBuildAgent)%string
          || (Agent v =? JenkinsAgent)%string || (Agent v =? TektonAgent)%string)
    with (known_agent (Agent v)).
  destruct (known_agent (Agent v)) eqn:Hknown; cbn [negb]; [|split; [by left|done]].
  rewrite !guard_Ok.
  rewrite !andb_false_iff, !negb_false_iff, !bool_decide_eq_false, !String.eqb_eq, !String.eqb_neq.
  assert (Namespace_ok :
    match Namespace v with
    | Some ns =>
      if (ns =? "")%string then Err "failed to default namespace"
      else if negb (ns =? podNamespace)%string && negb (Agent v =? KnativeBuildAgent)%string
              && negb (Agent v =? TektonAgent)%string
      then Err ("namespace customization requires agent: " +:+ KnativeBuildAgent +:+ " or "
                  +:+ TektonAgent +:+ " (found " +:+ quoted (Agent v) +:+ ")")
      else Ok ()
    | None => Err "failed to default namespace"
    end = Ok ()
    ↔ ∃ ns, Namespace v = Some ns ∧ ns ≠ ""
            ∧ (ns ≠ podNamespace → Agent v = KnativeBuildAgent ∨ Agent v = TektonAgent)).
  { destruct (Namespace v) as [ns|]; [|split; [done|by intros (? & ? & _)]].
    rewrite !guard_Ok, !andb_false_iff, !negb_false_iff, !String.eqb_eq, String.eqb_neq.
    split.
    - intros (Hne & Hc & _). exists ns. repeat split; try done. intros Hpn.
      destruct Hc as [[?|?]|?]; auto. done.
    - intros (? & [= <-] & Hne & Hc). repeat split; try done.
      destruct (decide (ns = podNamespace)) as [?|Hpn]; [by left; left|].
      destruct (Hc Hpn); [left; by right|by right]. }
  rewrite Namespace_ok. clear Namespace_ok.
  assert (Agent v = KubernetesAgent ∨ Agent v ≠ KubernetesAgent) as Hk
    by (destruct (decide (Agent v = KubernetesAgent)); auto).
  assert (Agent v = KnativeBuildAgent ∨ Agent v ≠ KnativeBuildAgent) as Hb
    by (destruct (decide (Agent v = KnativeBuildAgent)); auto).
  assert (Spec v = None ∨ Spec v ≠ None) as Hs by (destruct (Spec v); auto).
  assert (JobDecorationConfig (JobUtilityConfig v) = None
          ∨ JobDecorationConfig (JobUtilityConfig v) ≠ None) as Hd
    by (destruct (JobDecorationConfig (JobUtilityConfig v)); auto).
  generalize (∃ ns, Namespace v = Some ns ∧ ns ≠ ""
               ∧ (ns ≠ podNamespace → Agent v = KnativeBuildAgent ∨ Agent v = TektonAgent)).
  intros N. split.
  - intros (H1 & H2 & H3 & H4 & HN). right.
    split; [split; [intros HS; destruct H1 as [H1|H1]; [destruct (H1 HS)|exact H1]
                   |intros HK; destruct H2 as [H2|H2]; [destruct (H2 HK)|exact H2]]|].
    split; [intros HD; destruct H3 as [[H3|H3]|H3]; [destruct (H3 HD)|by left|by right]|].
    split; [intros HE; destruct H4 as [?|?]; [congruence|done]|done].
  - intros [?|([HSK HKS] & HD & HE & HN)]; [done|].
    split; [destruct Hs as [Hs|Hs]; [left; intros HS; exact (HS Hs)|right; by apply HSK]|].
    split; [destruct Hk as [Hk|Hk]; [right; by apply HKS|by left]|].
    split; [destruct Hd as [Hd|Hd];
            [left; left; intros HD'; exact (HD' Hd)|destruct (HD Hd); [left; by right|by right]]|].
    split; [destruct (ErrorOnEviction v); [right; by apply HE|by left]|done].
Qed.

Lemma seq_Ok_iff {A} (m : res unit) (k : res A) (a : A) :
  (m ≫= λ _, k) = Ok a ↔ m = Ok () ∧ k = Ok a.
Proof. destruct m as [[]|e|v]; simpl; split; try done; by intros [? ?]. Qed.

Lemma validatePodSpec_accepts (t : ProwJobType) (spec : PodSpec) :
  validatePodSpec t (Some spec) = Ok ()
  ↔ InitContainers spec = [] ∧ ∃ container, Containers spec = [container].
Proof.
  unfold validatePodSpec. destruct (InitContainers spec); cbn.
  - destruct (Containers spec) as [|x [|y l]]; cbn; split; try done; eauto.
    + by intros (_ & ? & ?).
    + by intros (_ & ? & ?).
  - split; [done|by intros [? _]].
Qed.

(** X13.  [validateJobBase] accepts a job exactly when its name matches
    the job-name pattern, its concurrency limit is not negative, its agent
    and its labels pass their checks and, if it has a pod spec, the spec
    has no init container and exactly one container, the rerun policy is
    not ambiguous and the decoration of that container passes its check.
    The kind of job plays no part, and a job without a pod spec is not
    checked further. *)
Theorem validateJobBase_accepts (v : JobBase) (jobType : ProwJobType) (podNamespace : string) :
  validateJobBase v jobType podNamespace = Ok ()
  ↔ (∃ r, jobNameRegex = Ok r ∧ MatchString r (Name v) = true)
    ∧ (0 ≤ MaxConcurrency v)%Z
    ∧ validateAgent v podNamespace = Ok ()
    ∧ validateLabels (Labels v) = Ok ()
    ∧ match Spec v with
      | None => True
      | Some spec =>
        InitContainers spec = []
        ∧ ∃ container,
            Containers spec = [container]
            ∧ ambiguous_rerun_auth (JobRerunAuthConfig v) = false
            ∧ validateDecoration container (JobDecorationConfig (JobUtilityConfig v)) = Ok ()
      end.
Proof.
  unfold validateJobBase.
  destruct jobNameRegex as [r|e|p]; cbn;
    [|split; [done|by intros [(? & ? & _) _]]..].
  rewrite guard_Ok, negb_false_iff, guard_Ok, Z.ltb_ge, !seq_Ok_iff.
  assert ((∃ r0, Ok r = Ok r0 ∧ MatchString r0 (Name v) = true)
          ↔ MatchString r (Name v) = true) as ->.
  { split; [by intros (? & [= <-] & ?)|eauto]. }
  destruct (Spec v) as [spec|].
  - rewrite validatePodSpec_accepts. split.
    + intros (? & ? & ? & (Hinit & container & Hc) & ? & Hrest).
      rewrite Hc in Hrest. apply guard_Ok in Hrest as [? ?].
      repeat split; try done. exists container. done.
    + intros (? & ? & ? & ? & Hinit & container & Hc & ? & ?).
      repeat split; try done; [by exists container|]. rewrite Hc. by apply guard_Ok.
  - split; [by intros (? & ? & ? & _ & ? & _)|]. by intros (? & ? & ? & ? & _).
Qed.

(** X14.  [validateLabels] accepts a set of labels exactly when every
    label is a qualified name and every value a valid label value, in
    whatever order the map is visited. *)
Theorem validateLabels_accepts (labels : gmap string string) :
  validateLabels labels = Ok ()
  ↔ ∀ label value, labels !! label = Some value →
      IsQualifiedName label = [] ∧ IsValidLabelValue value = [].
Proof.
  unfold validateLabels. rewrite forM__Ok. split.
  - intros Hall label value Hl%elem_of_range. specialize (Hall _ Hl). cbn in Hall.
    destruct (IsQualifiedName label); [|done].
    destruct (IsValidLabelValue value); [done|done].
  - intros Hall [label value] Hl%elem_of_range. destruct (Hall _ _ Hl) as [-> ->]. done.
Qed.

(** X15.  [validateDecoration] accepts a container without looking at it
    when the job has no decoration configuration; otherwise the
    configuration must validate and the first word of the command line,
    the command followed by the arguments, must not be empty. *)
Theorem validateDecoration_accepts (container : Container) (config : option DecorationConfig) :
  validateDecoration container config = Ok ()
  ↔ config = None
    ∨ (Validate config = Ok ()
       ∧ ∃ first rest, Command container ++ Args container = first :: rest ∧ first ≠ "").
Proof.
  unfold validateDecoration. destruct config as [d|]; [|split; [by left|done]].
  rewrite seq_Ok_iff. split.
  - intros [Hv%wrap_Ok_inv Hargs]. right. split; [done|].
    destruct (Command container ++ Args container) as [|a rest]; [done|].
    destruct (String.eqb_spec a ""); [done|]. eauto.
  - intros [?|(Hv & a & rest & Hargs & Hne)]; [done|]. rewrite Hv, Hargs. split; [done|].
    by destruct (String.eqb_spec a "").
Qed.
End JobChecks.

(** ** Job names under Go's regexp *)

Module JobNameFacts.
Import GoRegexp.

Lemma star_name_chars_complete n p s :
  (List.length s ≤ n)%nat → forallb name_char s = true →
  star_loop (matchk (Class false name_ranges)) n p s at_end = true.
Proof.
  revert n p; induction s as [|c s IH]; intros n p Hn Hs.
  - by destruct n.
  - destruct n as [|n]; [simpl in Hn; lia|].
    cbn [forallb] in Hs. apply andb_true_iff in Hs as [Hc Hs].
    cbn [star_loop at_end cat_list matchk one xorb orb]. unfold name_char in Hc. rewrite Hc.
    cbn [andb]. rewrite (proj2 (Nat.ltb_lt _ _)) by (simpl; lia). cbn [andb].
    apply IH; [simpl in Hn; lia|done].
Qed.

Lemma match_name_regex (name : string) :
  match_string name_regex name = job_name_ok name.
Proof.
  unfold job_name_ok. destruct name as [|c name]; [done|].
  cbn [negb String.eqb andb]. apply eq_true_iff_eq. split.
  - apply GoRegexpFacts.name_regex_chars.
  - cbn [list_ascii_of_string forallb]. intros [Hc Hs]%andb_true_iff.
    unfold match_string. cbn [list_ascii_of_string search].
    apply orb_true_iff. left.
    cbn [name_regex cat_list matchk one xorb]. unfold name_char in Hc. rewrite Hc. cbn [andb].
    by apply (star_name_chars_complete _ _ _ (le_n _)).
Qed.
End JobNameFacts.

(** X16.  With Go's regular expressions the job-name pattern compiles, and
    it accepts exactly the names of one character or more made of
    letters, digits, dashes, dots and underscores; a job whose name is not
    of that form is refused by [validateJobBase] with the name error,
    whatever else is wrong with it. *)
Theorem job_name_pattern_accepts :
  ∃ r, jobNameRegex (RL := go_regexp) = Ok r
       ∧ (∀ name, MatchString (RegexpLib := go_regexp) r name = job_name_ok name)
       ∧ (∀ (EX : Externals (RL := go_regexp)) (GM : GoMap) v jobType podNamespace,
            job_name_ok (Name v) = false →
            validateJobBase (RL := go_regexp) (EX := EX) (GM := GM) v jobType podNamespace
            = Err ("name: must match regex " +:+ quoted jobNamePattern)).
Proof.
  exists GoRegexp.name_regex. split; [reflexivity|].
  split; [apply JobNameFacts.match_name_regex|].
  intros EX GM v jobType podNamespace Hname. unfold validateJobBase.
  change (jobNameRegex (RL := go_regexp))
    with (Ok (GoRegexp.name_regex : @Regexp go_regexp)).
  cbn [mbind res_bind bind].
  change (MatchString (RegexpLib := go_regexp) GoRegexp.name_regex (Name v))
    with (GoRegexp.match_string GoRegexp.name_regex (Name v)).
  by rewrite JobNameFacts.match_name_regex, Hname.
Qed.

(** ** Defaulting the fields of a job *)

Section Defaults.
Context {RL : RegexpLib}.

Lemma defaultJobBase_idempotent (c : ProwConfig) (base : JobBase) :
  defaultJobBase c (defaultJobBase c base) = defaultJobBase c base.
Proof.
  unfold defaultJobBase. cbn. f_equal.
  - destruct (String.eqb_spec (Agent base) "") as [?|Hne]; [done|].
    by rewrite (proj2 (String.eqb_neq _ _) Hne).
  - destruct (String.eqb_spec (Cluster base) "") as [?|Hne]; [done|].
    by rewrite (proj2 (String.eqb_neq _ _) Hne).
  - destruct (Namespace base) as [ns|]; [destruct (String.eqb_spec ns "") as [->|Hne]|];
      cbn; try (by destruct (PodNamespace c =? "")%string).
    by rewrite (proj2 (String.eqb_neq _ _) Hne).
Qed.

Lemma defaultJobBase_set (c : ProwConfig) (base : JobBase) :
  Name (defaultJobBase c base) = Name base
  ∧ Agent (defaultJobBase c base) ≠ ""
  ∧ Cluster (defaultJobBase c base) ≠ ""
  ∧ (∃ ns, Namespace (defaultJobBase c base) = Some ns ∧ (PodNamespace c ≠ "" → ns ≠ "")).
Proof.
  unfold defaultJobBase. cbn. split; [done|].
  split; [by destruct (String.eqb_spec (Agent base) "")|].
  split; [by destruct (String.eqb_spec (Cluster base) "")|].
  destruct (Namespace base) as [ns|]; [destruct (String.eqb_spec ns "")|]; eauto.
Qed.

Lemma DefaultTriggerFor_set (name : string) : (DefaultTriggerFor name =? "")%string = false.
Proof. done. Qed.

Lemma DefaultRerunCommandFor_set (name : string) :
  (DefaultRerunCommandFor name =? "")%string = false.
Proof. done. Qed.

Lemma default_if_empty (s d : string) :
  (if ((if (s =? "")%string then d else s) =? "")%string then d
   else (if (s =? "")%string then d else s))
  = if (s =? "")%string then d else s.
Proof.
  destruct (String.eqb_spec s "") as [?|Hne]; [by destruct (d =? "")%string|].
  by rewrite (proj2 (String.eqb_neq _ _) Hne).
Qed.

(** Both given or both missing, once the defaults are in. *)
Lemma default_both (T R t r : string) :
  (t =? "")%string = false → (r =? "")%string = false →
  let both := (T =? "")%string && (R =? "")%string in
  ((if both then t else T) =? "")%string && ((if both then r else R) =? "")%string = false
  ∧ (negb ((if both then t else T) =? "")%string && ((if both then r else R) =? "")%string
     || ((if both then t else T) =? "")%string && negb ((if both then r else R) =? "")%string)
    = xorb (T =? "")%string (R =? "")%string.
Proof.
  intros Ht Hr. destruct (String.eqb_spec T "") as [?|HT], (String.eqb_spec R "") as [?|HR];
    cbn [andb]; rewrite ?Ht, ?Hr, ?(proj2 (String.eqb_neq _ _) HT),
      ?(proj2 (String.eqb_neq _ _) HR); subst; done.
Qed.

(** X17.  Defaulting the fields of presubmits, postsubmits or periodics a
    second time changes nothing: what the first pass has filled in counts
    as set. *)
Theorem default_fields_idempotent (c : ProwConfig) :
  (∀ js, defaultPresubmitFields c (defaultPresubmitFields c js) = defaultPresubmitFields c js)
  ∧ (∀ js, defaultPostsubmitFields c (defaultPostsubmitFields c js)
           = defaultPostsubmitFields c js)
  ∧ (∀ js, defaultPeriodicFields c (defaultPeriodicFields c js) = defaultPeriodicFields c js).
Proof.
  split; [|split]; intros js.
  - unfold defaultPresubmitFields. rewrite map_map. apply map_ext. intros j.
    cbn [PresubmitJobBase AlwaysRun Context SkipReport Trigger RerunCommand
         PresubmitBrancher PresubmitChangeMatcher trigger_re].
    rewrite defaultJobBase_idempotent.
    change (Name (defaultJobBase c (PresubmitJobBase j))) with (Name (PresubmitJobBase j)).
    rewrite default_if_empty.
    destruct (default_both (Trigger j) (RerunCommand j)
                (DefaultTriggerFor (Name (PresubmitJobBase j)))
                (DefaultRerunCommandFor (Name (PresubmitJobBase j)))
                (DefaultTriggerFor_set _) (DefaultRerunCommandFor_set _)) as [-> _].
    done.
  - unfold defaultPostsubmitFields. rewrite map_map. apply map_ext. intros j.
    cbn [PostsubmitJobBase PostsubmitContext PostsubmitBrancher PostsubmitChangeMatcher].
    rewrite defaultJobBase_idempotent.
    change (Name (defaultJobBase c (PostsubmitJobBase j))) with (Name (PostsubmitJobBase j)).
    by rewrite default_if_empty.
  - unfold defaultPeriodicFields. rewrite map_map. apply map_ext. intros j.
    unfold with_PeriodicJobBase. cbn [PeriodicJobBase Interval Cron interval].
    by rewrite defaultJobBase_idempotent.
Qed.

Context {EX : Externals}.

(** X18.  After its fields are defaulted, a presubmit passes
    [validateTriggering] exactly when it does not both always run and
    name changed paths, it skips reporting or has a context or a name,
    and its trigger and rerun command were given together or left out
    together: defaulting fills the context from the name and fills the
    trigger and the rerun command only when both are missing. *)
Theorem validateTriggering_after_defaults (c : ProwConfig) (js : list Presubmit)
    (i : nat) (j j' : Presubmit) :
  js !! i = Some j → defaultPresubmitFields c js !! i = Some j' →
  (validateTriggering j' = Ok ()
   ↔ ¬ (AlwaysRun j = true ∧ RunIfChanged (PresubmitChangeMatcher j) ≠ "")
     ∧ (SkipReport j = true ∨ Context j ≠ "" ∨ Name (PresubmitJobBase j) ≠ "")
     ∧ (Trigger j = "" ↔ RerunCommand j = "")).
Proof.
  intros Hj Hj'. unfold defaultPresubmitFields in Hj'.
  rewrite list_lookup_fmap, Hj in Hj'. injection Hj' as <-.
  unfold validateTriggering.
  cbn [PresubmitJobBase AlwaysRun Context SkipReport Trigger RerunCommand
       PresubmitBrancher PresubmitChangeMatcher trigger_re].
  change (Name (defaultJobBase c (PresubmitJobBase j))) with (Name (PresubmitJobBase j)).
  destruct (default_both (Trigger j) (RerunCommand j)
              (DefaultTriggerFor (Name (PresubmitJobBase j)))
              (DefaultRerunCommandFor (Name (PresubmitJobBase j)))
              (DefaultTriggerFor_set _) (DefaultRerunCommandFor_set _)) as [_ ->].
  rewrite !guard_Ok.
  assert (AlwaysRun j && negb (RunIfChanged (PresubmitChangeMatcher j) =? "")%string = false
          ↔ ¬ (AlwaysRun j = true ∧ RunIfChanged (PresubmitChangeMatcher j) ≠ "")) as ->.
  { destruct (AlwaysRun j), (String.eqb_spec (RunIfChanged (PresubmitChangeMatcher j)) "");
      cbn; split; try done; try (by intros _ [? ?]). intros H. by destruct H. }
  assert (negb (SkipReport j)
          && ((if (Context j =? "")%string then Name (PresubmitJobBase j) else Context j)
              =? "")%string = false
          ↔ SkipReport j = true ∨ Context j ≠ "" ∨ Name (PresubmitJobBase j) ≠ "") as ->.
  { destruct (SkipReport j); cbn; [split; [by left|done]|].
    destruct (String.eqb_spec (Context j) "") as [Hx|Hx].
    - destruct (String.eqb_spec (Name (PresubmitJobBase j)) ""); split; try done; auto.
      by intros [?|[?|?]].
    - rewrite (proj2 (String.eqb_neq _ _) Hx). split; auto. }
  assert (xorb (Trigger j =? "")%string (RerunCommand j =? "")%string = false
          ↔ (Trigger j = "" ↔ RerunCommand j = "")) as ->.
  { destruct (String.eqb_spec (Trigger j) "") as [Ht|Ht],
      (String.eqb_spec (RerunCommand j) "") as [Hr|Hr]; cbn; split; try done.
    - intros [H1 _]. destruct Hr. auto.
    - intros [_ H2]. destruct Ht. auto. }
  split; [by intros (? & ? & ? & _)|by intros (? & ? & ?)].
Qed.
End Defaults.

(** ** Periodics with the same name *)

Section PeriodicNames.
Context {RL : RegexpLib} {EX : Externals} {GM : GoMap}.

Lemma validatePeriodics_loop (podNamespace : string) (valid : gset string)
    (periodics : list Periodic) :
  (∃ valid',
     foldM (λ (validPeriodics : gset string) p,
              let name := Name (PeriodicJobBase p) in
              if bool_decide (name ∈ validPeriodics)
              then Err ("duplicated periodic job : " +:+ name)
              else
                wrap (λ e, "invalid periodic job " +:+ name +:+ ": " +:+ e)
                     (validateJobBase (PeriodicJobBase p) PeriodicJob podNamespace);;
                Ok ({[name]} ∪ validPeriodics))
           valid periodics = Ok valid')
  ↔ NoDup (map (λ p, Name (PeriodicJobBase p)) periodics)
    ∧ (∀ p, p ∈ periodics → Name (PeriodicJobBase p) ∉ valid)
    ∧ (∀ p, p ∈ periodics →
            validateJobBase (PeriodicJobBase p) PeriodicJob podNamespace = Ok ()).
Proof.
  revert valid; induction periodics as [|p l IH]; intros valid.
  - split; [intros _|by eexists]. split; [constructor|].
    split; intros p Hp; by apply elem_of_nil in Hp.
  - rewrite foldM_cons. cbn zeta. case_bool_decide as Hin; cbn [mbind res_bind bind].
    { split; [by intros [? ?]|]. intros (_ & Hfresh & _). destruct (Hfresh p); [left|done]. }
    destruct (validateJobBase (PeriodicJobBase p) PeriodicJob podNamespace) as [[]|e|v] eqn:Hv;
      cbn [wrap mbind res_bind bind].
    + rewrite (IH ({[Name (PeriodicJobBase p)]} ∪ valid)). cbn [map]. rewrite NoDup_cons.
      split.
      * intros (Hnd & Hfresh & Hall). split; [split; [|done]|split].
        -- intros (q & Hq & Hql%list_elem_of_In)%list_elem_of_In%in_map_iff.
           apply (Hfresh q Hql). apply elem_of_union_l, elem_of_singleton_2. done.
        -- intros q [->|Hq]%elem_of_cons; [done|]. intros Hqv.
           apply (Hfresh q Hq), elem_of_union_r, Hqv.
        -- intros q [->|Hq]%elem_of_cons; [done|by apply Hall].
      * intros ([Hp Hnd] & Hfresh & Hall). split; [done|split].
        -- intros q Hq [Heq%elem_of_singleton_1|Hqv]%elem_of_union.
           ++ apply Hp, list_elem_of_In, in_map_iff. exists q.
              split; [done|by apply list_elem_of_In].
           ++ apply (Hfresh q); [by right|done].
        -- intros q Hq. apply Hall. by right.
    + split; [by intros [? ?]|]. intros (_ & _ & Hall). specialize (Hall p). rewrite Hv in Hall.
      discriminate Hall. left.
    + split; [by intros [? ?]|]. intros (_ & _ & Hall). specialize (Hall p). rewrite Hv in Hall.
      discriminate Hall. left.
Qed.

Lemma validatePeriodics_Ok (periodics : list Periodic) (podNamespace : string) :
  validatePeriodics periodics podNamespace = Ok ()
  ↔ NoDup (map (λ p, Name (PeriodicJobBase p)) periodics)
    ∧ ∀ p, p ∈ periodics →
           validateJobBase (PeriodicJobBase p) PeriodicJob podNamespace = Ok ().
Proof.
  unfold validatePeriodics. rewrite seq_Ok_unit, validatePeriodics_loop. split.
  - by intros (? & _ & ?).
  - intros [? ?]. split; [done|]. split; [|done]. intros p _. apply not_elem_of_empty.
Qed.

Lemma validatePeriodics_loop_names (periodics : list Periodic) (podNamespace : string) :
  validatePeriodics periodics podNamespace = Ok () →
  NoDup (map (λ p, Name (PeriodicJobBase p)) periodics).
Proof. by intros [? _]%validatePeriodics_Ok. Qed.

Lemma validatePeriodics_each (periodics : list Periodic) (podNamespace : string) :
  validatePeriodics periodics podNamespace = Ok () →
  ∀ p, p ∈ periodics → validateJobBase (PeriodicJobBase p) PeriodicJob podNamespace = Ok ().
Proof. by intros [_ ?]%validatePeriodics_Ok. Qed.

(** X19.  [validatePeriodics] accepts a list of periodics exactly when no
    two of them have the same name and each passes [validateJobBase]. *)
Theorem validatePeriodics_accepts (periodics : list Periodic) (podNamespace : string) :
  validatePeriodics periodics podNamespace = Ok ()
  ↔ NoDup (map (λ p, Name (PeriodicJobBase p)) periodics)
    ∧ ∀ p, p ∈ periodics →
           validateJobBase (PeriodicJobBase p) PeriodicJob podNamespace = Ok ().
Proof. apply validatePeriodics_Ok. Qed.

(** ** Presets *)

(** X20.  [resolvePresets] leaves a job without a pod spec alone, whatever
    the presets.  With a pod spec it merges the presets into it one after
    the other, in the order they are listed: it returns a spec exactly
    when every [mergePreset] call succeeds, each call is given the spec
    the call before it returned, and the spec returned is the one the last
    call returned; so resolving two lists one after the other is resolving
    their concatenation, and the spec is still there afterwards.  The
    first preset that does not merge, on the spec the presets before it
    have built, gives the error, which names the job. *)
Theorem resolvePresets_in_order (name : string) (labels : gmap string string) :
  (∀ presets, resolvePresets name labels None presets = Ok None)
  ∧ (∀ sp presets sp',
       resolvePresets name labels (Some sp) presets = Ok (Some sp')
       ↔ foldM (λ sp preset, mergePreset preset labels sp) sp presets = Ok sp')
  ∧ (∀ spec presets1 presets2,
       resolvePresets name labels spec (presets1 ++ presets2)
       = resolvePresets name labels spec presets1
           ≫= λ spec', resolvePresets name labels spec' presets2)
  ∧ (∀ sp presets spec',
       resolvePresets name labels (Some sp) presets = Ok spec' → spec' ≠ None)
  ∧ (∀ sp preset presets e,
       mergePreset preset labels sp = Err e →
       resolvePresets name labels (Some sp) (preset :: presets)
       = Err ("job " +:+ name +:+ " failed to merge presets for podspec: " +:+ e))
  ∧ (∀ sp before sp1 preset rest e,
       foldM (λ sp preset, mergePreset preset labels sp) sp before = Ok sp1 →
       mergePreset preset labels sp1 = Err e →
       resolvePresets name labels (Some sp) (before ++ preset :: rest)
       = Err ("job " +:+ name +:+ " failed to merge presets for podspec: " +:+ e)).
Proof.
  assert (∀ presets sp sp',
            resolvePresets name labels (Some sp) presets = Ok (Some sp')
            ↔ foldM (λ sp preset, mergePreset preset labels sp) sp presets = Ok sp')
    as Hfold.
  { unfold resolvePresets. induction presets as [|p l IH]; intros sp sp'.
    - cbn. split; by intros [= ->].
    - rewrite !foldM_cons. destruct (mergePreset p labels sp) as [sp1|e|v] eqn:Hp; cbn.
      + apply IH.
      + split; intros [=].
      + split; intros [=]. }
  split; [|split; [|split; [|split; [|split]]]].
  - intros presets. unfold resolvePresets. induction presets as [|p l IH]; [done|].
    rewrite foldM_cons. cbn. apply IH.
  - intros sp presets sp'. apply Hfold.
  - intros spec presets1 presets2. unfold resolvePresets. apply foldM_app.
  - intros sp presets. revert sp. unfold resolvePresets.
    induction presets as [|p l IH]; intros sp spec'; [by intros [= <-]|].
    rewrite foldM_cons. intros (s1 & Hs1 & Hl)%bind_Ok_inv.
    apply bind_Ok_inv in Hs1 as (sp' & _ & [= <-]). by eapply IH.
  - intros sp preset presets e He. unfold resolvePresets. rewrite foldM_cons.
    cbn. by rewrite He.
  - intros sp before sp1 preset rest e Hbefore%Hfold He.
    unfold resolvePresets in *. rewrite foldM_app, Hbefore.
    change (Ok (Some sp1) ≫= ?k) with (k (Some sp1)). cbv beta.
    rewrite foldM_cons. cbn. by rewrite He.
Qed.
End PeriodicNames.

(** ** Compiled matchers *)

Section Matchers.
Context {RL : RegexpLib}.

Lemma setBrancherRegexes_Ok (br br' : Brancher) :
  setBrancherRegexes br = Ok br' →
  Branches br' = Branches br ∧ SkipBranches br' = SkipBranches br
  ∧ setBrancherRegexes br' = Ok br'.
Proof.
  intros H. unfold setBrancherRegexes in H.
  destruct (nonempty (Branches br)) eqn:HnB; cbn in H.
  - destruct (regexp_Compile (join "|" (Branches br))) as [r|e|v] eqn:Hr;
      cbn in H; try done.
    destruct (nonempty (SkipBranches br)) eqn:HnS; cbn in H.
    + destruct (regexp_Compile (join "|" (SkipBranches br))) as [r'|e|v] eqn:Hr';
        cbn in H; try done.
      injection H as <-. split; [done|]. split; [done|]. unfold setBrancherRegexes.
      cbn [Branches SkipBranches re reSkip]. rewrite HnB, Hr.
      cbn [wrap mbind res_bind bind Branches SkipBranches re reSkip]. rewrite HnS, Hr'. done.
    + injection H as <-. split; [done|]. split; [done|]. unfold setBrancherRegexes.
      cbn [Branches SkipBranches re reSkip]. rewrite HnB, Hr.
      cbn [wrap mbind res_bind bind Branches SkipBranches re reSkip]. rewrite HnS. done.
  - destruct (nonempty (SkipBranches br)) eqn:HnS; cbn in H.
    + destruct (regexp_Compile (join "|" (SkipBranches br))) as [r'|e|v] eqn:Hr';
        cbn in H; try done.
      injection H as <-. split; [done|]. split; [done|]. unfold setBrancherRegexes.
      cbn [Branches SkipBranches re reSkip]. rewrite HnB.
      cbn [wrap mbind res_bind bind Branches SkipBranches re reSkip]. rewrite HnS, Hr'. done.
    + injection H as <-. split; [done|]. split; [done|]. unfold setBrancherRegexes.
      rewrite HnB. cbn [mbind res_bind bind]. by rewrite HnS.
Qed.

Lemma setChangeRegexes_Ok (cm cm' : RegexpChangeMatcher) :
  setChangeRegexes cm = Ok cm' →
  RunIfChanged cm' = RunIfChanged cm ∧ setChangeRegexes cm' = Ok cm'.
Proof.
  unfold setChangeRegexes. destruct (negb (RunIfChanged cm =? "")%string) eqn:Hc.
  - intros (r & Hr%wrap_Ok_inv & [= <-])%bind_Ok_inv. cbn. by rewrite Hc, Hr.
  - intros [= <-]. by rewrite Hc.
Qed.

Lemma mapM_fixed {A} (f : A → res A) (l l' : list A) :
  (∀ x y, f x = Ok y → f y = Ok y) → mapM f l = Ok l' → mapM f l' = Ok l'.
Proof.
  intros Hf Hl%mapM_Ok. apply mapM_Ok. induction Hl; constructor; eauto.
Qed.

Lemma setPresubmitRegex_fixed (j j' : Presubmit) :
  setPresubmitRegex j = Ok j' → setPresubmitRegex j' = Ok j'.
Proof.
  unfold setPresubmitRegex. intros (r & Hr%wrap_Ok_inv & Hj)%bind_Ok_inv.
  destruct (MatchString r (RerunCommand j)) eqn:Hm; [|done]. cbn [negb] in Hj.
  apply bind_Ok_inv in Hj as (b & Hb%wrap_Ok_inv & Hj).
  apply bind_Ok_inv in Hj as (cm & Hcm%wrap_Ok_inv & [= <-]). cbn.
  rewrite Hr. cbn. rewrite Hm. cbn.
  destruct (setBrancherRegexes_Ok _ _ Hb) as (_ & _ & ->).
  destruct (setChangeRegexes_Ok _ _ Hcm) as (_ & ->). done.
Qed.

Lemma setPostsubmitRegex_fixed (j j' : Postsubmit) :
  setPostsubmitRegex j = Ok j' → setPostsubmitRegex j' = Ok j'.
Proof.
  unfold setPostsubmitRegex.
  intros (b & Hb%wrap_Ok_inv & (cm & Hcm%wrap_Ok_inv & [= <-])%bind_Ok_inv)%bind_Ok_inv. cbn.
  destruct (setBrancherRegexes_Ok _ _ Hb) as (_ & _ & ->).
  destruct (setChangeRegexes_Ok _ _ Hcm) as (_ & ->). done.
Qed.

(** X21.  Compiling the matchers of presubmits or postsubmits that have
    been compiled already succeeds and changes nothing; and the first
    compilation writes the compiled matchers only: the job, its texts and
    its lists of branches are as before. *)
Theorem SetRegexes_idempotent :
  (∀ js js', SetPresubmitRegexes js = Ok js' →
     SetPresubmitRegexes js' = Ok js'
     ∧ Forall2 (λ j j',
          PresubmitJobBase j' = PresubmitJobBase j ∧ AlwaysRun j' = AlwaysRun j
          ∧ Context j' = Context j ∧ SkipReport j' = SkipReport j
          ∧ Trigger j' = Trigger j ∧ RerunCommand j' = RerunCommand j
          ∧ Branches (PresubmitBrancher j') = Branches (PresubmitBrancher j)
          ∧ SkipBranches (PresubmitBrancher j') = SkipBranches (PresubmitBrancher j)
          ∧ RunIfChanged (PresubmitChangeMatcher j') = RunIfChanged (PresubmitChangeMatcher j))
         js js')
  ∧ (∀ ps ps', SetPostsubmitRegexes ps = Ok ps' →
       SetPostsubmitRegexes ps' = Ok ps'
       ∧ Forall2 (λ j j',
            PostsubmitJobBase j' = PostsubmitJobBase j
            ∧ PostsubmitContext j' = PostsubmitContext j
            ∧ Branches (PostsubmitBrancher j') = Branches (PostsubmitBrancher j)
            ∧ SkipBranches (PostsubmitBrancher j') = SkipBranches (PostsubmitBrancher j)
            ∧ RunIfChanged (PostsubmitChangeMatcher j')
              = RunIfChanged (PostsubmitChangeMatcher j))
           ps ps').
Proof.
  split.
  - intros js js' Hjs. split.
    + by apply (mapM_fixed _ _ _ setPresubmitRegex_fixed) in Hjs.
    + apply mapM_Ok in Hjs. eapply Forall2_impl; [exact Hjs|]. intros j j'.
      unfold setPresubmitRegex. intros (r & _ & Hj)%bind_Ok_inv.
      destruct (negb _); [done|].
      apply bind_Ok_inv in Hj as (b & Hb%wrap_Ok_inv & Hj).
      apply bind_Ok_inv in Hj as (cm & Hcm%wrap_Ok_inv & [= <-]). cbn.
      destruct (setBrancherRegexes_Ok _ _ Hb) as (? & ? & _).
      destruct (setChangeRegexes_Ok _ _ Hcm) as (? & _). done.
  - intros ps ps' Hps. split.
    + by apply (mapM_fixed _ _ _ setPostsubmitRegex_fixed) in Hps.
    + apply mapM_Ok in Hps. eapply Forall2_impl; [exact Hps|]. intros j j'.
      unfold setPostsubmitRegex.
      intros (b & Hb%wrap_Ok_inv & (cm & Hcm%wrap_Ok_inv & [= <-])%bind_Ok_inv)%bind_Ok_inv.
      cbn. destruct (setBrancherRegexes_Ok _ _ Hb) as (? & ? & _).
      destruct (setChangeRegexes_Ok _ _ Hcm) as (? & _). done.
Qed.
End Matchers.

(** ** Decoration requested *)

Section RequestedFacts.
Context {RL : RegexpLib} {GM : GoMap}.

(** X22.  [decorationRequested] holds exactly when some presubmit of some
    repository, some postsubmit of some repository or some periodic asks
    for decoration, in whatever order the maps are visited. *)
Theorem decorationRequested_some_job (c : JobConfig) :
  decorationRequested c = true
  ↔ (∃ repo jobs ps, Presubmits c !! repo = Some jobs ∧ ps ∈ jobs
                     ∧ Decorate (JobUtilityConfig (PresubmitJobBase ps)) = true)
    ∨ (∃ repo jobs ps, Postsubmits c !! repo = Some jobs ∧ ps ∈ jobs
                       ∧ Decorate (JobUtilityConfig (PostsubmitJobBase ps)) = true)
    ∨ (∃ p, p ∈ Periodics c ∧ Decorate (JobUtilityConfig (PeriodicJobBase p)) = true).
Proof.
  unfold decorationRequested. rewrite !orb_true_iff, !existsb_exists.
  split.
  - intros [[([repo jobs] & Hin & Hex)|([repo jobs] & Hin & Hex)]|(p & Hin & Hp)].
    + left. apply existsb_exists in Hex as (ps & Hps & Hd).
      exists repo, jobs, ps. split; [by apply elem_of_range, list_elem_of_In|].
      split; [by apply list_elem_of_In|done].
    + right. left. apply existsb_exists in Hex as (ps & Hps & Hd).
      exists repo, jobs, ps. split; [by apply elem_of_range, list_elem_of_In|].
      split; [by apply list_elem_of_In|done].
    + right. right. exists p. split; [by apply list_elem_of_In|done].
  - intros [(repo & jobs & ps & Hj & Hps & Hd)|[(repo & jobs & ps & Hj & Hps & Hd)
                                                |(p & Hp & Hd)]].
    + left. left. exists (repo, jobs). split; [by apply list_elem_of_In, elem_of_range|].
      apply existsb_exists. exists ps. split; [by apply list_elem_of_In|done].
    + left. right. exists (repo, jobs). split; [by apply list_elem_of_In, elem_of_range|].
      apply existsb_exists. exists ps. split; [by apply list_elem_of_In|done].
    + right. exists p. split; [by apply list_elem_of_In|done].
Qed.
End RequestedFacts.

(** ** What finalizeJobConfig does to the jobs *)

Lemma mapM_same_names {A} (name : A → string) (f : A → res A) (l l' : list A) :
  (∀ x y, f x = Ok y → name y = name x) → mapM f l = Ok l' → map name l' = map name l.
Proof.
  intros Hf Hl%mapM_Ok. induction Hl as [|x y l l' Hxy _ IH]; [done|].
  cbn. by rewrite (Hf x y Hxy), IH.
Qed.

Lemma mapM_Forall {A B} (f : A → res B) (Q : B → Prop) (l : list A) (l' : list B) :
  (∀ x y, f x = Ok y → Q y) → mapM f l = Ok l' → Forall Q l'.
Proof.
  intros Hf Hl%mapM_Ok. induction Hl as [|x y l l' Hxy _ IH]; constructor; eauto.
Qed.

Section FinalizeFacts.
Context {RL : RegexpLib} {EX : Externals} {GM : GoMap}.

Lemma defaultJobBase_defaulted (c : ProwConfig) (base : JobBase) :
  base_defaulted (defaultJobBase c base).
Proof.
  destruct (defaultJobBase_set c base) as (_ & ? & ? & ns & Hns & _).
  repeat split; try done. by rewrite Hns.
Qed.

Lemma setPresubmitRegex_frame (j j' : Presubmit) :
  setPresubmitRegex j = Ok j' →
  PresubmitJobBase j' = PresubmitJobBase j ∧ AlwaysRun j' = AlwaysRun j
  ∧ Context j' = Context j ∧ SkipReport j' = SkipReport j
  ∧ Trigger j' = Trigger j ∧ RerunCommand j' = RerunCommand j
  ∧ Branches (PresubmitBrancher j') = Branches (PresubmitBrancher j)
  ∧ SkipBranches (PresubmitBrancher j') = SkipBranches (PresubmitBrancher j)
  ∧ RunIfChanged (PresubmitChangeMatcher j') = RunIfChanged (PresubmitChangeMatcher j).
Proof.
  unfold setPresubmitRegex. intros (r & _ & Hj)%bind_Ok_inv.
  destruct (negb _); [done|].
  apply bind_Ok_inv in Hj as (b & Hb%wrap_Ok_inv & Hj).
  apply bind_Ok_inv in Hj as (cm & Hcm%wrap_Ok_inv & [= <-]). cbn.
  destruct (setBrancherRegexes_Ok _ _ Hb) as (? & ? & _).
  destruct (setChangeRegexes_Ok _ _ Hcm) as (? & _). done.
Qed.

Lemma setPostsubmitRegex_frame (j j' : Postsubmit) :
  setPostsubmitRegex j = Ok j' →
  PostsubmitJobBase j' = PostsubmitJobBase j
  ∧ PostsubmitContext j' = PostsubmitContext j
  ∧ Branches (PostsubmitBrancher j') = Branches (PostsubmitBrancher j)
  ∧ SkipBranches (PostsubmitBrancher j') = SkipBranches (PostsubmitBrancher j)
  ∧ RunIfChanged (PostsubmitChangeMatcher j') = RunIfChanged (PostsubmitChangeMatcher j).
Proof.
  unfold setPostsubmitRegex.
  intros (b & Hb%wrap_Ok_inv & (cm & Hcm%wrap_Ok_inv & [= <-])%bind_Ok_inv)%bind_Ok_inv.
  cbn. destruct (setBrancherRegexes_Ok _ _ Hb) as (? & ? & _).
  destruct (setChangeRegexes_Ok _ _ Hcm) as (? & _). done.
Qed.

Lemma defaultPresubmits_Ok (jobs jobs' : list Presubmit) (c : Config) (repo : string) :
  defaultPresubmits jobs c repo = Ok jobs' →
  same_names presubmit_name jobs jobs' ∧ Forall presubmit_defaulted jobs'.
Proof.
  unfold defaultPresubmits. intros (js & Hjs & Hset%wrap_Ok_inv)%bind_Ok_inv. split.
  - unfold same_names.
    rewrite (mapM_same_names presubmit_name setPresubmitRegex _ _
               (λ x y H, f_equal Name (proj1 (setPresubmitRegex_frame x y H))) Hset).
    unfold defaultPresubmitFields. rewrite map_map. cbn.
    apply (mapM_same_names presubmit_name _ _ _) in Hjs; [done|].
    intros x y (spec & _ & [= <-])%bind_Ok_inv. unfold setPresubmitDecorationDefaults.
    by destruct (Decorate _).
  - eapply Forall2_Forall_r; [apply mapM_Ok, Hset|].
    unfold defaultPresubmitFields. apply Forall_forall.
    intros x (j & -> & _)%list_elem_of_fmap y Hy%setPresubmitRegex_frame.
    destruct Hy as (Hb & _ & Hc & _ & Ht & Hr & _). unfold presubmit_defaulted.
    rewrite Hb, Hc, Ht, Hr. cbn [PresubmitJobBase Context Trigger RerunCommand].
    change (Name (defaultJobBase (ConfigProwConfig c) (PresubmitJobBase j)))
      with (Name (PresubmitJobBase j)).
    split; [apply defaultJobBase_defaulted|]. split.
    + by destruct (String.eqb_spec (Context j) "").
    + destruct (default_both (Trigger j) (RerunCommand j)
                  (DefaultTriggerFor (Name (PresubmitJobBase j)))
                  (DefaultRerunCommandFor (Name (PresubmitJobBase j)))
                  (DefaultTriggerFor_set _) (DefaultRerunCommandFor_set _)) as [Hboth _].
      intros [H1 H2]. rewrite H1, H2 in Hboth. done.
Qed.

Lemma defaultPostsubmits_Ok (jobs jobs' : list Postsubmit) (c : Config) (repo : string) :
  defaultPostsubmits jobs c repo = Ok jobs' →
  same_names postsubmit_name jobs jobs' ∧ Forall postsubmit_defaulted jobs'.
Proof.
  unfold defaultPostsubmits. intros (js & Hjs & Hset%wrap_Ok_inv)%bind_Ok_inv. split.
  - unfold same_names.
    rewrite (mapM_same_names postsubmit_name setPostsubmitRegex _ _
               (λ x y H, f_equal Name (proj1 (setPostsubmitRegex_frame x y H))) Hset).
    unfold defaultPostsubmitFields. rewrite map_map. cbn.
    apply (mapM_same_names postsubmit_name _ _ _) in Hjs; [done|].
    intros x y (spec & _ & [= <-])%bind_Ok_inv. unfold setPostsubmitDecorationDefaults.
    by destruct (Decorate _).
  - eapply Forall2_Forall_r; [apply mapM_Ok, Hset|].
    unfold defaultPostsubmitFields. apply Forall_forall.
    intros x (j & -> & _)%list_elem_of_fmap y Hy%setPostsubmitRegex_frame.
    destruct Hy as (Hb & Hc & _). unfold postsubmit_defaulted.
    rewrite Hb, Hc. cbn [PostsubmitJobBase PostsubmitContext].
    change (Name (defaultJobBase (ConfigProwConfig c) (PostsubmitJobBase j)))
      with (Name (PostsubmitJobBase j)).
    split; [apply defaultJobBase_defaulted|].
    by destruct (String.eqb_spec (PostsubmitContext j) "").
Qed.

Lemma defaultPeriodics_Ok (periodics periodics' : list Periodic) (c : Config) :
  defaultPeriodics periodics c = Ok periodics' →
  same_names periodic_name periodics periodics'
  ∧ Forall (λ p, base_defaulted (PeriodicJobBase p)) periodics'.
Proof.
  unfold defaultPeriodics. intros Hps. split.
  - pose proof Hps as Hn. apply (mapM_same_names periodic_name) in Hn.
    + unfold same_names. rewrite Hn. unfold defaultPeriodicFields. by rewrite map_map.
    + by intros x y (? & _ & [= <-])%bind_Ok_inv.
  - apply mapM_Ok in Hps. eapply Forall2_Forall_r; [exact Hps|].
    unfold defaultPeriodicFields. apply Forall_forall.
    intros x (j & -> & _)%list_elem_of_fmap y (spec & _ & [= <-])%bind_Ok_inv. cbn.
    apply (defaultJobBase_defaulted (ConfigProwConfig c) (PeriodicJobBase j)).
Qed.

(** The loop over the presubmits of the repositories: each repository
    listed is visited once, its jobs are replaced by the defaulted ones and
    it is recorded; nothing else changes. *)
Lemma presubmit_loop_frame (l : list (string * list Presubmit)) (c0 c1 : Config) :
  NoDup l.*1 → foldM presubmit_step c0 l = Ok c1 →
  ConfigProwConfig c1 = ConfigProwConfig c0
  ∧ Presets (ConfigJobConfig c1) = Presets (ConfigJobConfig c0)
  ∧ Postsubmits (ConfigJobConfig c1) = Postsubmits (ConfigJobConfig c0)
  ∧ Periodics (ConfigJobConfig c1) = Periodics (ConfigJobConfig c0)
  ∧ (∀ k, k ∈ AllRepos (ConfigJobConfig c1) ↔ k ∈ l.*1 ∨ k ∈ AllRepos (ConfigJobConfig c0))
  ∧ (∀ k, k ∉ l.*1 →
          Presubmits (ConfigJobConfig c1) !! k = Presubmits (ConfigJobConfig c0) !! k)
  ∧ (∀ k v, (k, v) ∈ l →
            ∃ v', Presubmits (ConfigJobConfig c1) !! k = Some v'
                  ∧ same_names presubmit_name v v' ∧ Forall presubmit_defaulted v').
Proof.
  revert c0; induction l as [|[repo jobs] l IH]; intros c0 Hnd.
  - intros [= <-]. repeat split; try done.
    + intros ?. by right.
    + by intros [?%elem_of_nil|?].
    + by intros k v ?%elem_of_nil.
  - rewrite foldM_cons. intros (c' & Hc' & Hl)%bind_Ok_inv.
    apply bind_Ok_inv in Hc' as (jobs' & Hjobs & [= <-]).
    apply NoDup_cons in Hnd as [Hrepo Hnd].
    destruct (IH _ Hnd Hl) as (H1 & H2 & H3 & H4 & H5 & H6 & H7).
    cbn in H1, H2, H3, H4, H5, H6. repeat split; try done.
    + intros Hk%H5. cbn. rewrite elem_of_cons.
      destruct Hk as [?|[->%elem_of_singleton_1|?]%elem_of_union]; auto.
    + cbn. rewrite elem_of_cons. intros [[->|?]|?]; apply H5; auto.
      * right. apply elem_of_union_l. by apply elem_of_singleton_2.
      * right. by apply elem_of_union_r.
    + intros k Hk. cbn in Hk. apply not_elem_of_cons in Hk as [Hne Hk].
      rewrite (H6 k Hk). by apply lookup_insert_ne.
    + intros k v [[= -> ->]|Hkv]%elem_of_cons; [|by apply H7].
      exists jobs'. rewrite (H6 repo Hrepo), lookup_insert_eq.
      split; [done|]. by eapply defaultPresubmits_Ok.
Qed.

Lemma postsubmit_loop_frame (l : list (string * list Postsubmit)) (c0 c1 : Config) :
  NoDup l.*1 → foldM postsubmit_step c0 l = Ok c1 →
  ConfigProwConfig c1 = ConfigProwConfig c0
  ∧ Presets (ConfigJobConfig c1) = Presets (ConfigJobConfig c0)
  ∧ Presubmits (ConfigJobConfig c1) = Presubmits (ConfigJobConfig c0)
  ∧ Periodics (ConfigJobConfig c1) = Periodics (ConfigJobConfig c0)
  ∧ (∀ k, k ∈ AllRepos (ConfigJobConfig c1) ↔ k ∈ l.*1 ∨ k ∈ AllRepos (ConfigJobConfig c0))
  ∧ (∀ k, k ∉ l.*1 →
          Postsubmits (ConfigJobConfig c1) !! k = Postsubmits (ConfigJobConfig c0) !! k)
  ∧ (∀ k v, (k, v) ∈ l →
            ∃ v', Postsubmits (ConfigJobConfig c1) !! k = Some v'
                  ∧ same_names postsubmit_name v v' ∧ Forall postsubmit_defaulted v').
Proof.
  revert c0; induction l as [|[repo jobs] l IH]; intros c0 Hnd.
  - intros [= <-]. repeat split; try done.
    + intros ?. by right.
    + by intros [?%elem_of_nil|?].
    + by intros k v ?%elem_of_nil.
  - rewrite foldM_cons. intros (c' & Hc' & Hl)%bind_Ok_inv.
    apply bind_Ok_inv in Hc' as (jobs' & Hjobs & [= <-]).
    apply NoDup_cons in Hnd as [Hrepo Hnd].
    destruct (IH _ Hnd Hl) as (H1 & H2 & H3 & H4 & H5 & H6 & H7).
    cbn in H1, H2, H3, H4, H5, H6. repeat split; try done.
    + intros Hk%H5. cbn. rewrite elem_of_cons.
      destruct Hk as [?|[->%elem_of_singleton_1|?]%elem_of_union]; auto.
    + cbn. rewrite elem_of_cons. intros [[->|?]|?]; apply H5; auto.
      * right. apply elem_of_union_l. by apply elem_of_singleton_2.
      * right. by apply elem_of_union_r.
    + intros k Hk. cbn in Hk. apply not_elem_of_cons in Hk as [Hne Hk].
      rewrite (H6 k Hk). by apply lookup_insert_ne.
    + intros k v [[= -> ->]|Hkv]%elem_of_cons; [|by apply H7].
      exists jobs'. rewrite (H6 repo Hrepo), lookup_insert_eq.
      split; [done|]. by eapply defaultPostsubmits_Ok.
Qed.

Lemma finalizeDecoration_frame (c c' : Config) :
  finalizeDecoration c = Ok c' →
  PodNamespace (ConfigProwConfig c') = PodNamespace (ConfigProwConfig c)
  ∧ ProwSlackReporter (ConfigProwConfig c') = ProwSlackReporter (ConfigProwConfig c)
  ∧ JobURLPrefixConfig (plank c') = JobURLPrefixConfig (plank c)
  ∧ Presets (ConfigJobConfig c') = Presets (ConfigJobConfig c)
  ∧ Presubmits (ConfigJobConfig c') = Presubmits (ConfigJobConfig c)
  ∧ Postsubmits (ConfigJobConfig c') = Postsubmits (ConfigJobConfig c)
  ∧ AllRepos (ConfigJobConfig c') = AllRepos (ConfigJobConfig c)
  ∧ same_names periodic_name (Periodics (ConfigJobConfig c)) (Periodics (ConfigJobConfig c')).
Proof.
  unfold finalizeDecoration. intros (c1 & Hc1 & Hrest)%bind_Ok_inv.
  assert (ConfigJobConfig c1 = ConfigJobConfig c
          ∧ PodNamespace (ConfigProwConfig c1) = PodNamespace (ConfigProwConfig c)
          ∧ ProwSlackReporter (ConfigProwConfig c1) = ProwSlackReporter (ConfigProwConfig c)
          ∧ JobURLPrefixConfig (plank c1) = JobURLPrefixConfig (plank c)) as (Hj & Hn & Hs & Hu).
  { repeat case_match; by simplify_eq. }
  repeat case_match; try done;
    apply bind_Ok_inv in Hrest as (? & _ & [= <-]); cbn; rewrite ?Hj; repeat split; try done.
  all: unfold same_names; rewrite map_map; apply map_ext; intros p.
  all: unfold setPeriodicDecorationDefaults; by destruct (Decorate _).
Qed.

Lemma finalizeJobConfig_Ok (c c' : Config) :
  finalizeJobConfig c = Ok c' →
  PodNamespace (ConfigProwConfig c') = PodNamespace (ConfigProwConfig c)
  ∧ ProwSlackReporter (ConfigProwConfig c') = ProwSlackReporter (ConfigProwConfig c)
  ∧ JobURLPrefixConfig (plank c') = JobURLPrefixConfig (plank c)
  ∧ Presets (ConfigJobConfig c') = Presets (ConfigJobConfig c)
  ∧ (∀ repo, repo ∈ AllRepos (ConfigJobConfig c')
             ↔ repo ∈ AllRepos (ConfigJobConfig c)
               ∨ is_Some (Presubmits (ConfigJobConfig c) !! repo)
               ∨ is_Some (Postsubmits (ConfigJobConfig c) !! repo))
  ∧ (∀ repo, option_Forall2 (same_names presubmit_name)
               (Presubmits (ConfigJobConfig c) !! repo) (Presubmits (ConfigJobConfig c') !! repo))
  ∧ (∀ repo, option_Forall2 (same_names postsubmit_name)
               (Postsubmits (ConfigJobConfig c) !! repo)
               (Postsubmits (ConfigJobConfig c') !! repo))
  ∧ same_names periodic_name (Periodics (ConfigJobConfig c)) (Periodics (ConfigJobConfig c'))
  ∧ (∀ repo jobs, Presubmits (ConfigJobConfig c') !! repo = Some jobs →
                  Forall presubmit_defaulted jobs)
  ∧ (∀ repo jobs, Postsubmits (ConfigJobConfig c') !! repo = Some jobs →
                  Forall postsubmit_defaulted jobs)
  ∧ Forall (λ p, base_defaulted (PeriodicJobBase p)) (Periodics (ConfigJobConfig c')).
Proof.
  rewrite finalizeJobConfig_unfold.
  intros (c1 & Hc1 & (c2 & Hc2 & (c3 & Hc3 & (ps & Hps & [= <-])%bind_Ok_inv)%bind_Ok_inv)%bind_Ok_inv)%bind_Ok_inv.
  assert (PodNamespace (ConfigProwConfig c1) = PodNamespace (ConfigProwConfig c)
          ∧ ProwSlackReporter (ConfigProwConfig c1) = ProwSlackReporter (ConfigProwConfig c)
          ∧ JobURLPrefixConfig (plank c1) = JobURLPrefixConfig (plank c)
          ∧ Presets (ConfigJobConfig c1) = Presets (ConfigJobConfig c)
          ∧ Presubmits (ConfigJobConfig c1) = Presubmits (ConfigJobConfig c)
          ∧ Postsubmits (ConfigJobConfig c1) = Postsubmits (ConfigJobConfig c)
          ∧ AllRepos (ConfigJobConfig c1) = AllRepos (ConfigJobConfig c)
          ∧ same_names periodic_name (Periodics (ConfigJobConfig c))
              (Periodics (ConfigJobConfig c1)))
    as (A1 & A2 & A3 & A4 & A5 & A6 & A7 & A8).
  { destruct (decorationRequested (ConfigJobConfig c)).
    - by apply finalizeDecoration_frame.
    - by injection Hc1 as <-. }
  apply presubmit_loop_frame in Hc2 as (B1 & B2 & B3 & B4 & B5 & B6 & B7);
    [|apply range_NoDup_fst].
  apply postsubmit_loop_frame in Hc3 as (C1 & C2 & C3 & C4 & C5 & C6 & C7);
    [|apply range_NoDup_fst].
  apply defaultPeriodics_Ok in Hps as [D1 D2].
  cbn [with_Periodics ConfigJobConfig ConfigProwConfig Presets Presubmits Postsubmits
       Periodics AllRepos plank].
  assert (∀ {V} (m : gmap string V) k, k ∈ (range m).*1 ↔ is_Some (m !! k)) as Hdom.
  { intros V m k. rewrite list_elem_of_fmap. split.
    - intros ([k' v] & -> & Hkv%elem_of_range). eauto.
    - intros [v Hv]. exists (k, v). split; [done|]. by apply elem_of_range. }
  split; [by rewrite C1, B1|]. split; [by rewrite C1, B1|].
  split; [unfold plank in A3 |- *; cbn [with_Periodics ConfigProwConfig]; by rewrite C1, B1|].
  split; [congruence|].
  split.
  { intros repo. rewrite C5, B5, !Hdom, B3, A5, A6, A7. tauto. }
  split.
  { intros repo. rewrite C3.
    destruct (Presubmits (ConfigJobConfig c1) !! repo) as [v|] eqn:Hv.
    - destruct (B7 repo v) as (v' & -> & Hn & _); [by apply elem_of_range|].
      rewrite <- A5, Hv. by constructor.
    - rewrite B6, <- A5, Hv; [constructor|]. rewrite Hdom, Hv. by intros [? ?]. }
  split.
  { intros repo. rewrite <- A6, <- B3.
    destruct (Postsubmits (ConfigJobConfig c2) !! repo) as [v|] eqn:Hv.
    - destruct (C7 repo v) as (v' & -> & Hn & _); [by apply elem_of_range|]. by constructor.
    - rewrite C6, Hv; [constructor|]. rewrite Hdom, Hv. by intros [? ?]. }
  split.
  { unfold same_names in *. by rewrite D1, C4, B4. }
  split.
  { intros repo jobs. rewrite C3. intros Hj.
    destruct (Presubmits (ConfigJobConfig c1) !! repo) as [v|] eqn:Hv.
    - destruct (B7 repo v) as (v' & Hv' & _ & Hd); [by apply elem_of_range|]. congruence.
    - rewrite B6, Hv in Hj; [done|]. rewrite Hdom, Hv. by intros [? ?]. }
  split; [|done].
  intros repo jobs Hj.
  destruct (Postsubmits (ConfigJobConfig c2) !! repo) as [v|] eqn:Hv.
  - destruct (C7 repo v) as (v' & Hv' & _ & Hd); [by apply elem_of_range|]. congruence.
  - rewrite C6, Hv in Hj; [done|]. rewrite Hdom, Hv. by intros [? ?].
Qed.

(** X23.  When [finalizeJobConfig] succeeds it has neither added, dropped,
    renamed nor reordered jobs: every repository has the presubmits and
    postsubmits it had, under the same names in the same order, and so
    have the periodics; the presets are untouched; and the set of
    repositories has grown by exactly the repositories that have
    presubmits or postsubmits.  Every job then has an agent, a cluster and
    a namespace; every presubmit and postsubmit has a context unless it
    has no name; and no presubmit is left with both its trigger and its
    rerun command empty. *)
Theorem finalizeJobConfig_keeps_jobs (c c' : Config) :
  finalizeJobConfig c = Ok c' →
  Presets (ConfigJobConfig c') = Presets (ConfigJobConfig c)
  ∧ (∀ repo, option_Forall2 (same_names presubmit_name)
               (Presubmits (ConfigJobConfig c) !! repo) (Presubmits (ConfigJobConfig c') !! repo))
  ∧ (∀ repo, option_Forall2 (same_names postsubmit_name)
               (Postsubmits (ConfigJobConfig c) !! repo)
               (Postsubmits (ConfigJobConfig c') !! repo))
  ∧ same_names periodic_name (Periodics (ConfigJobConfig c)) (Periodics (ConfigJobConfig c'))
  ∧ (∀ repo, repo ∈ AllRepos (ConfigJobConfig c')
             ↔ repo ∈ AllRepos (ConfigJobConfig c)
               ∨ is_Some (Presubmits (ConfigJobConfig c) !! repo)
               ∨ is_Some (Postsubmits (ConfigJobConfig c) !! repo))
  ∧ (∀ repo jobs, Presubmits (ConfigJobConfig c') !! repo = Some jobs →
                  Forall presubmit_defaulted jobs)
  ∧ (∀ repo jobs, Postsubmits (ConfigJobConfig c') !! repo = Some jobs →
                  Forall postsubmit_defaulted jobs)
  ∧ Forall (λ p, base_defaulted (PeriodicJobBase p)) (Periodics (ConfigJobConfig c')).
Proof.
  intros (_ & _ & _ & ? & ? & ? & ? & ? & ? & ? & ?)%finalizeJobConfig_Ok. done.
Qed.
End FinalizeFacts.

(** ** The jobs of a loaded configuration *)

Section Loaded.
Context {RL : RegexpLib} {EX : Externals} {GM : GoMap}.

Lemma validatePresubmits_each (ns : string) (l : list Presubmit) :
  validatePresubmits l ns = Ok () →
  ∀ ps, ps ∈ l →
    validateJobBase (PresubmitJobBase ps) PresubmitJob ns = Ok ()
    ∧ validateTriggering ps = Ok ().
Proof.
  unfold validatePresubmits. intros [v Hl]%seq_Ok_unit. revert Hl. generalize (∅ : gmap string (list Presubmit)).
  induction l as [|p l IH]; intros valid Hl ps Hps; [by apply elem_of_nil in Hps|].
  rewrite foldM_cons in Hl. apply bind_Ok_inv in Hl as (v1 & Hp & Hl).
  apply elem_of_cons in Hps as [->|Hps]; [|by eapply IH].
  unfold validatePresubmit in Hp. destruct (existsb _ _); [done|].
  apply bind_Ok_inv in Hp as ([] & Hb%wrap_Ok_inv & Hp).
  apply bind_Ok_inv in Hp as ([] & Ht & _). done.
Qed.

Lemma validatePostsubmits_each (ns : string) (l : list Postsubmit) :
  validatePostsubmits l ns = Ok () →
  ∀ ps, ps ∈ l → validateJobBase (PostsubmitJobBase ps) PostsubmitJob ns = Ok ().
Proof.
  unfold validatePostsubmits. intros [v Hl]%seq_Ok_unit. revert Hl.
  generalize (∅ : gmap string (list Postsubmit)).
  induction l as [|p l IH]; intros valid Hl ps Hps; [by apply elem_of_nil in Hps|].
  rewrite foldM_cons in Hl. apply bind_Ok_inv in Hl as (v1 & Hp & Hl).
  apply elem_of_cons in Hps as [->|Hps]; [|by eapply IH].
  unfold validatePostsubmit in Hp. destruct (existsb _ _); [done|].
  by apply bind_Ok_inv in Hp as ([] & Hb%wrap_Ok_inv & _).
Qed.

Lemma validateJobs_periodics (c : Config) :
  validateJobs c = Ok () →
  validatePeriodics (Periodics (ConfigJobConfig c)) (PodNamespace (ConfigProwConfig c)) = Ok ().
Proof.
  unfold validateJobs. by intros ([] & _ & ([] & _ & ?)%bind_Ok_inv)%bind_Ok_inv.
Qed.

Lemma validateTriggering_pair (ps : Presubmit) :
  validateTriggering ps = Ok () →
  (SkipReport ps = true ∨ Context ps ≠ "") ∧ (Trigger ps = "" ↔ RerunCommand ps = "").
Proof.
  unfold validateTriggering. rewrite !guard_Ok. intros (_ & Hc & Ht & _). split.
  - destruct (SkipReport ps); [by left|right].
    by destruct (String.eqb_spec (Context ps) "").
  - destruct (String.eqb_spec (Trigger ps) ""), (String.eqb_spec (RerunCommand ps) ""); done.
Qed.

Lemma interval_set_from_names (l l' : list Periodic) :
  Forall2 interval_set_from l l' → map periodic_name l' = map periodic_name l.
Proof.
  induction 1 as [|p p' l l' (Hb & _) _ IH]; [done|].
  cbn. unfold periodic_name at 1 3. by rewrite Hb, IH.
Qed.

(** X24.  Every job of a configuration that [Load] returns has passed
    [validateJobBase] under the pod namespace of that configuration and
    has an agent, a cluster and a namespace.  Every presubmit has a
    trigger and a rerun command, and a context unless it skips reporting;
    the repository of every presubmit and postsubmit is in the set of
    repositories; and no two periodics have the same name. *)
Theorem Load_returns_complete_jobs (prowConfig jobConfig : string) (c : Config) :
  Load prowConfig jobConfig = ((Some c, None), Returning) →
  (∀ repo jobs ps,
     Presubmits (ConfigJobConfig c) !! repo = Some jobs → ps ∈ jobs →
     repo ∈ AllRepos (ConfigJobConfig c)
     ∧ validateJobBase (PresubmitJobBase ps) PresubmitJob (PodNamespace (ConfigProwConfig c))
       = Ok ()
     ∧ base_defaulted (PresubmitJobBase ps)
     ∧ Trigger ps ≠ "" ∧ RerunCommand ps ≠ ""
     ∧ (SkipReport ps = true ∨ Context ps ≠ ""))
  ∧ (∀ repo jobs ps,
       Postsubmits (ConfigJobConfig c) !! repo = Some jobs → ps ∈ jobs →
       repo ∈ AllRepos (ConfigJobConfig c)
       ∧ validateJobBase (PostsubmitJobBase ps) PostsubmitJob
           (PodNamespace (ConfigProwConfig c)) = Ok ()
       ∧ base_defaulted (PostsubmitJobBase ps))
  ∧ NoDup (map periodic_name (Periodics (ConfigJobConfig c)))
  ∧ (∀ p, p ∈ Periodics (ConfigJobConfig c) →
          validateJobBase (PeriodicJobBase p) PeriodicJob (PodNamespace (ConfigProwConfig c))
          = Ok ()
          ∧ base_defaulted (PeriodicJobBase p)).
Proof.
  intros (c0 & c1 & c2 & _ & Hfin & Hcomp & Hjobs & Hint & ->)%Load_Ok_validated.
  pose proof (validateComponentConfig_Ok c1 c2) as [Hacc _].
  destruct (Hacc Hcomp) as [_ Hrep]. clear Hacc.
  assert (ConfigJobConfig c2 = ConfigJobConfig c1
          ∧ PodNamespace (ConfigProwConfig c2) = PodNamespace (ConfigProwConfig c1))
    as [Hj Hns].
  { destruct (ProwSlackReporter (ConfigProwConfig c1)).
    - destruct Hrep as (? & _ & ->). split; reflexivity.
    - subst c2. split; reflexivity. }
  apply finalizeJobConfig_Ok in Hfin
    as (_ & _ & _ & _ & Hrepos & Hpre & Hpost & _ & Hdpre & Hdpost & Hdper).
  pose proof (validateJobs_periodics _ Hjobs) as Hper.
  apply validateJobs_Ok in Hjobs as [Hvpre Hvpost].
  cbn [with_Periodics ConfigJobConfig ConfigProwConfig Presubmits Postsubmits Periodics
       AllRepos].
  rewrite Hj in *. split; [|split; [|split]].
  - intros repo jobs ps Hjobs Hps.
    destruct (validatePresubmits_each _ _ (Hvpre _ _ Hjobs) ps Hps) as [Hb Ht].
    apply validateTriggering_pair in Ht as [Hctx Hboth].
    pose proof (proj1 (Forall_forall _ _) (Hdpre _ _ Hjobs) ps Hps) as (Hd & _ & Hnb).
    split.
    { apply Hrepos. right. left. specialize (Hpre repo). rewrite Hjobs in Hpre.
      inversion Hpre. eauto. }
    split; [done|]. split; [done|].
    split; [intros Ht'; apply Hnb; split; [done|]; by apply Hboth|].
    split; [intros Hr'; apply Hnb; split; [|done]; by apply Hboth|done].
  - intros repo jobs ps Hjobs Hps. split.
    { apply Hrepos. right. right. specialize (Hpost repo). rewrite Hjobs in Hpost.
      inversion Hpost. eauto. }
    split; [by eapply validatePostsubmits_each; [apply (Hvpost _ _ Hjobs)|]|].
    by apply (proj1 (Forall_forall _ _) (Hdpost _ _ Hjobs) ps Hps).
  - apply validatePeriodics_loop_names in Hper.
    apply setIntervals_Ok in Hint.
    by rewrite (interval_set_from_names _ _ Hint).
  - intros p' Hp'. apply setIntervals_Ok in Hint.
    apply list_elem_of_lookup in Hp' as [i Hi].
    destruct (Forall2_lookup_r _ _ _ _ _ Hint Hi) as (p & Hp & Hb & _).
    rewrite Hb. apply list_elem_of_lookup_2 in Hp. split.
    + by apply (validatePeriodics_each _ _ Hper).
    + by apply (proj1 (Forall_forall _ _) Hdper p Hp).
Qed.
End Loaded.
(** ** The controllers' part of the configuration *)

Lemma is_ok_true {A} (m : res A) : is_ok m = true ↔ ∃ a, m = Ok a.
Proof. destruct m; simpl; split; try done; eauto; by intros [? ?]. Qed.

Lemma mapM_is_ok {A B} (f : A → res B) (l : list A) :
  is_ok (mapM f l) = true ↔ ∀ x, x ∈ l → is_ok (f x) = true.
Proof.
  induction l as [|x l IH].
  - split; [|done]. intros _ x Hx. by apply elem_of_nil in Hx.
  - rewrite mapM_cons. split.
    + intros (ys & (y & Hy & (ys' & Hys & _)%bind_Ok_inv)%bind_Ok_inv)%is_ok_true z
        [->|Hz]%elem_of_cons.
      * by rewrite Hy.
      * apply IH; [|done]. by rewrite Hys.
    + intros Hall. destruct (proj1 (is_ok_true (f x)) (Hall x ltac:(left))) as [y Hy].
      rewrite Hy. simpl.
      destruct (proj1 (is_ok_true (mapM f l))) as [ys Hys].
      { apply IH. intros z Hz. apply Hall. by right. }
      by rewrite Hys.
Qed.

Lemma foldM_concat {A B S} (f : S → A → res S) (g : B → list A) (s : S) (l : list B) :
  foldM (λ s x, foldM f s (g x)) s l = foldM f s (concat (map g l)).
Proof.
  revert s; induction l as [|x l IH]; intros s; [done|].
  cbn [map concat]. rewrite foldM_cons, foldM_app.
  destruct (foldM f s (g x)); simpl; [apply IH|done..].
Qed.

Lemma concat_perm_map {A B} (f : A → list B) (l l' : list A) :
  l ≡ₚ l' → concat (map f l) ≡ₚ concat (map f l').
Proof.
  induction 1 as [|x l l' _ IH|x y l|l1 l2 l3 _ IH1 _ IH2]; cbn.
  - done.
  - by rewrite IH.
  - rewrite !app_assoc. f_equiv. apply Permutation_app_comm.
  - by rewrite IH1.
Qed.

Section ParseFacts.
Context {RL : RegexpLib} {CL : ConfigLibs}.

Lemma validated_Ok (prefix : string) (c c' : Controller) :
  validated prefix c = Ok c' ↔ ValidateController c = (c', Ok ()).
Proof.
  unfold validated. destruct (ValidateController c) as [c1 [[]|e|v]]; split; congruence.
Qed.

Lemma controller_ok_validated (prefix : string) (c : Controller) :
  is_ok (validated prefix c) = true ↔ controller_ok c.
Proof.
  rewrite is_ok_true. unfold controller_ok. rewrite !is_ok_true. split.
  - intros [c' Hc%validated_Ok]. apply ValidateController_Ok in Hc as (u & r & ? & ? & ? & ? & _).
    repeat split; eauto.
  - intros ([u Hu] & [r Hr] & ? & ?). eexists. apply validated_Ok, ValidateController_Ok.
    exists u, r. repeat split; eauto.
Qed.

Lemma validated_positive (prefix : string) (c c' : Controller) :
  validated prefix c = Ok c' →
  (0 < MaxGoroutines c')%Z ∧ (0 ≤ ControllerMaxConcurrency c')%Z
  ∧ JobURLTemplate c' ≠ None ∧ ControllerReportTemplate c' ≠ None
  ∧ JobURLTemplateString c' = JobURLTemplateString c
  ∧ ReportTemplateString c' = ReportTemplateString c
  ∧ ControllerMaxConcurrency c' = ControllerMaxConcurrency c
  ∧ AllowCancellations c' = AllowCancellations c
  ∧ MaxGoroutines c' = (if (MaxGoroutines c =? 0)%Z then 20%Z else MaxGoroutines c).
Proof.
  intros (u & r & _ & _ & ? & ? & ->)%validated_Ok%ValidateController_Ok.
  cbn. repeat split; try done. destruct (Z.eqb_spec (MaxGoroutines c) 0); lia.
Qed.

Lemma parseSizeLimit_Ok (n m : Z) :
  parseSizeLimit n = Ok m ↔ (0 ≤ n)%Z ∧ m = (if (n =? 0)%Z then 100000000%Z else n).
Proof.
  unfold parseSizeLimit. destruct (Z.eqb_spec n 0) as [->|Hn].
  - split; [by intros [= <-]|by intros [_ ->]].
  - destruct (Z.leb_spec n 0); split; try done.
    + intros [? _]. lia.
    + intros [= <-]. split; [lia|done].
    + by intros [_ ->].
Qed.

Lemma cache_regex_hit (cache : gmap string Regexp) (v : string) (r : Regexp) :
  cache !! v = Some r → cache_regex cache v = Ok cache.
Proof. unfold cache_regex. by intros ->. Qed.

Lemma cache_regex_miss (cache : gmap string Regexp) (v : string) (r : Regexp) :
  cache !! v = None → regexp_Compile v = Ok r → cache_regex cache v = Ok (<[v := r]> cache).
Proof. unfold cache_regex. by intros -> ->. Qed.

(** The cache after the loop: what it had, and the compiled form of each
    pattern it did not have. *)
Lemma cache_fold_Ok (l : list string) (cache cache' : gmap string Regexp) :
  foldM cache_regex cache l = Ok cache' →
  ∀ v r, cache' !! v = Some r
         ↔ cache !! v = Some r ∨ (cache !! v = None ∧ v ∈ l ∧ regexp_Compile v = Ok r).
Proof.
  revert cache; induction l as [|x l IH]; intros cache.
  - intros [= <-] v r. split; [by left|]. intros [?|(_ & Hv & _)]; [done|].
    by apply elem_of_nil in Hv.
  - rewrite foldM_cons. intros (c1 & Hx & Hl)%bind_Ok_inv v r.
    rewrite (IH _ Hl v r). unfold cache_regex in Hx.
    destruct (cache !! x) as [rx|] eqn:Hcx.
    + injection Hx as <-. split.
      * intros [?|(? & ? & ?)]; [by left|]. right. split; [done|]. split; [by right|done].
      * intros [?|(Hn & [->|?]%elem_of_cons & ?)]; [by left|congruence|]. by right.
    + apply bind_Ok_inv in Hx as (rx & Hrx%wrap_Ok_inv & [= <-]).
      destruct (decide (v = x)) as [->|Hne].
      * rewrite lookup_insert_eq. split.
        -- intros [[= <-]|(? & _)]; [|done]. right. split; [done|]. split; [by left|done].
        -- intros [?|(_ & _ & ?)]; [congruence|]. left. congruence.
      * rewrite lookup_insert_ne by done. split.
        -- intros [?|(? & ? & ?)]; [by left|]. right. split; [done|]. split; [by right|done].
        -- intros [?|(? & [->|?]%elem_of_cons & ?)]; [by left|done|]. by right.
Qed.

Lemma cache_fold_is_ok (l : list string) (cache : gmap string Regexp) :
  is_ok (foldM cache_regex cache l) = true
  ↔ ∀ v, v ∈ l → cache !! v = None → is_ok (regexp_Compile v) = true.
Proof.
  revert cache; induction l as [|x l IH]; intros cache.
  - split; [|done]. intros _ v Hv. by apply elem_of_nil in Hv.
  - rewrite foldM_cons. split.
    + intros (c' & (c1 & Hx & Hl)%bind_Ok_inv)%is_ok_true v Hv Hnone.
      assert (is_ok (foldM cache_regex c1 l) = true) as Hok by by rewrite Hl.
      unfold cache_regex in Hx. destruct (cache !! x) as [rx|] eqn:Hcx.
      * injection Hx as <-. apply elem_of_cons in Hv as [->|Hv]; [congruence|].
        by apply (proj1 (IH cache) Hok).
      * apply bind_Ok_inv in Hx as (rx & Hrx%wrap_Ok_inv & [= <-]).
        destruct (decide (v = x)) as [->|Hne]; [by rewrite Hrx|].
        apply elem_of_cons in Hv as [->|Hv]; [done|].
        apply (proj1 (IH _) Hok); [done|]. by rewrite lookup_insert_ne.
    + intros Hall. destruct (cache !! x) as [rx|] eqn:Hcx.
      * rewrite (cache_regex_hit _ _ _ Hcx). simpl.
        apply IH. intros v Hv. apply Hall. by right.
      * destruct (proj1 (is_ok_true _) (Hall x ltac:(left) Hcx)) as [rx Hrx].
        rewrite (cache_regex_miss _ _ _ Hcx Hrx). simpl. apply IH. intros v Hv Hnone.
        destruct (decide (v = x)) as [->|Hne]; [by rewrite Hrx|].
        rewrite lookup_insert_ne in Hnone by done. apply Hall; [by right|done].
Qed.

Lemma cache_regexes_eq (lenses : list LensFileConfig) :
  cache_regexes lenses = foldM cache_regex ∅ (patterns lenses).
Proof. unfold cache_regexes, patterns. apply foldM_concat. Qed.

Lemma cache_regexes_Ok (lenses : list LensFileConfig) (cache : gmap string Regexp) :
  cache_regexes lenses = Ok cache →
  ∀ v r, cache !! v = Some r ↔ v ∈ patterns lenses ∧ regexp_Compile v = Ok r.
Proof.
  rewrite cache_regexes_eq. intros H v r. rewrite (cache_fold_Ok _ _ _ H v r).
  rewrite lookup_empty. split; [by intros [?|(_ & ? & ?)]|intros [? ?]; by right].
Qed.

Lemma cache_regexes_is_ok (lenses : list LensFileConfig) :
  is_ok (cache_regexes lenses) = true
  ↔ ∀ v, v ∈ patterns lenses → is_ok (regexp_Compile v) = true.
Proof.
  rewrite cache_regexes_eq, cache_fold_is_ok. split; [|by auto].
  intros H v Hv. apply H; [done|apply lookup_empty].
Qed.

Lemma patterns_app (a b : list LensFileConfig) : patterns (a ++ b) = patterns a ++ patterns b.
Proof. unfold patterns. by rewrite map_app, concat_app. Qed.

Lemma elem_of_patterns (lenses : list LensFileConfig) (v : string) :
  v ∈ patterns lenses ↔ ∃ lens, lens ∈ lenses ∧ v ∈ OptionalFiles lens ++ RequiredFiles lens.
Proof.
  unfold patterns. rewrite list_elem_of_In, in_concat. split.
  - intros (l & (lens & <- & Hl)%in_map_iff & Hv). exists lens.
    by rewrite !list_elem_of_In.
  - intros (lens & Hl & Hv). exists (OptionalFiles lens ++ RequiredFiles lens).
    rewrite in_map_iff. split; [|by apply list_elem_of_In]. exists lens.
    by rewrite <- list_elem_of_In.
Qed.

Context {GM : GoMap} {GS : GoSort}.

Lemma elem_of_viewer_lenses (viewers : gmap string (list string)) (lens : LensFileConfig) :
  lens ∈ viewer_lenses viewers
  ↔ ∃ regex vs viewer, viewers !! regex = Some vs ∧ viewer ∈ vs ∧ lens = viewer_lens regex viewer.
Proof.
  unfold viewer_lenses. rewrite list_elem_of_In, in_concat. split.
  - intros (l & ([regex vs] & <- & Hin)%in_map_iff & Hl).
    apply in_map_iff in Hl as (viewer & <- & Hv).
    exists regex, vs, viewer. split; [|by rewrite list_elem_of_In].
    apply elem_of_map_to_list. rewrite <- range_perm. by apply list_elem_of_In.
  - intros (regex & vs & viewer & Hvs & Hv & ->).
    exists (map (viewer_lens regex) vs). split.
    + apply in_map_iff. exists (regex, vs). split; [done|].
      apply list_elem_of_In. rewrite range_perm. by apply elem_of_map_to_list.
    + apply in_map. by apply list_elem_of_In.
Qed.

Lemma elem_of_oldLenses (viewers : gmap string (list string)) (lens : LensFileConfig) :
  lens ∈ oldLenses viewers
  ↔ ∃ regex vs viewer, viewers !! regex = Some vs ∧ viewer ∈ vs ∧ lens = viewer_lens regex viewer.
Proof. unfold oldLenses. rewrite sort_Slice_perm. apply elem_of_viewer_lenses. Qed.

Lemma elem_of_patterns_oldLenses (viewers : gmap string (list string)) (v : string) :
  v ∈ patterns (oldLenses viewers) ↔ ∃ vs, viewers !! v = Some vs ∧ vs ≠ [].
Proof.
  rewrite elem_of_patterns. split.
  - intros (lens & (regex & vs & viewer & Hvs & Hv & ->)%elem_of_oldLenses & Hin).
    cbn in Hin. apply list_elem_of_singleton in Hin as ->. exists vs. split; [done|].
    intros ->. by apply elem_of_nil in Hv.
  - intros (vs & Hvs & Hne). destruct vs as [|viewer vs]; [done|].
    exists (viewer_lens v viewer). split.
    + apply elem_of_oldLenses. exists v, (viewer :: vs), viewer. split; [done|]. split; [left|done].
    + cbn. apply list_elem_of_singleton. done.
Qed.
End ParseFacts.
Section ParseTheorems.
Context {RL : RegexpLib} {CL : ConfigLibs} {GM : GoMap} {GS : GoSort}.

Lemma parseProwConfig_Ok (c : Config) (k : Components) (r : Config * Components) :
  parseProwConfig c k = Ok r
  ↔ ∃ plankController operators agentLogs sizeLimit regexCache linkURL,
      validated "validating plank config: " (PlankController k) = Ok plankController
      ∧ forM_ check_job_type (defaultJobTypes k) = Ok ()
      ∧ parseJenkinsOperators (JenkinsOperators k) = Ok operators
      ∧ mapM parseExternalAgentLog (ExternalAgentLogs (ProwDeck k)) = Ok agentLogs
      ∧ parseSizeLimit (SizeLimit (DeckSpyglass (ProwDeck k))) = Ok sizeLimit
      ∧ ambiguous_rerun_auth (Some (DeckRerunAuthConfig (ProwDeck k))) = false
      ∧ cache_regexes (migratedLenses k) = Ok regexCache
      ∧ url_Parse_URL
          (default_string "https://github.com" (LinkURLFromConfig (ProwGitHubOptions k)))
        = Ok linkURL
      ∧ is_ok (ParseLevel (default_string "info" (LogLevel k))) = true
      ∧ r = assigned c k plankController operators agentLogs sizeLimit regexCache linkURL.
Proof.
  unfold parseProwConfig. split.
  - intros (pc & H1 & H)%bind_Ok_inv.
    apply bind_Ok_inv in H as ([] & H2 & H).
    apply bind_Ok_inv in H as (ops & H3 & H).
    apply bind_Ok_inv in H as (logs & H4 & H).
    apply bind_Ok_inv in H as (size & H5 & H).
    apply bind_Ok_inv in H as ([] & H6 & H).
    apply bind_Ok_inv in H as (cache & H7 & H).
    apply bind_Ok_inv in H as (url & H8%wrap_Ok_inv & H).
    apply bind_Ok_inv in H as (lvl & H9 & [= <-]).
    exists pc, ops, logs, size, cache, url.
    repeat (split; [done|]). split; [by destruct (ambiguous_rerun_auth _)|].
    repeat (split; [done|]). split; [by rewrite H9|done].
  - intros (pc & ops & logs & size & cache & url & H1 & H2 & H3 & H4 & H5 & H6 & H7 & H8
            & [lvl H9]%is_ok_true & ->).
    rewrite H1. cbn [mbind res_bind bind]. rewrite H2. cbn [mbind res_bind bind].
    rewrite H3. cbn [mbind res_bind bind]. rewrite H4. cbn [mbind res_bind bind].
    rewrite H5. cbn [mbind res_bind bind]. rewrite H6. cbn [mbind res_bind bind].
    rewrite H7. cbn [mbind res_bind bind]. rewrite H8. cbn [mbind res_bind bind wrap].
    rewrite H9. reflexivity.
Qed.

Lemma check_job_type_Ok (t : ProwJobType) :
  check_job_type t = Ok () ↔ t = PresubmitJob ∨ t = PostsubmitJob.
Proof. destruct t; cbn; split; try done; eauto; by intros [?|?]. Qed.

Lemma defaultJobTypes_Ok (k : Components) :
  forM_ check_job_type (defaultJobTypes k) = Ok ()
  ↔ ∀ t, t ∈ GitHubJobTypesToReport (ProwGitHubReporter k) →
         t = PresubmitJob ∨ t = PostsubmitJob.
Proof.
  rewrite forM__Ok. unfold defaultJobTypes.
  destruct (GitHubJobTypesToReport (ProwGitHubReporter k)) as [|t0 l]; cbn.
  - split.
    + intros _ t Ht. by apply elem_of_nil in Ht.
    + intros _ t [->|[->|Ht%elem_of_nil]%elem_of_cons]%elem_of_cons; done.
  - split; intros H t Ht; by apply check_job_type_Ok, H.
Qed.

Lemma parseJenkinsOperator_is_ok (n : nat) (first : string) (op : JenkinsOperator) :
  is_ok (parseJenkinsOperator n first op) = true
  ↔ controller_ok (JenkinsController op)
    ∧ is_ok (labels_Parse (LabelSelectorString op)) = true
    ∧ ¬ (1 < n ∧ LabelSelectorString op = "")
    ∧ ¬ (n = 1%nat ∧ first ≠ "").
Proof.
  unfold parseJenkinsOperator.
  rewrite <- (controller_ok_validated "validating jenkins_operators config: ").
  destruct (validated _ _) as [ctl|e|v]; cbn [mbind res_bind bind is_ok];
    [|split; [done|by intros [? _]]..].
  destruct (labels_Parse _) as [sel|e|v]; cbn [mbind res_bind bind is_ok wrap];
    [|split; [done|by intros (_ & ? & _)]..].
  destruct (Nat.ltb_spec 1 n) as [Hn|Hn], (String.eqb_spec (LabelSelectorString op) "") as [He|He];
    cbn [andb is_ok].
  - split; [done|]. intros (_ & _ & H & _). by destruct H.
  - destruct (Nat.eqb_spec n 1) as [->|_]; [lia|]. cbn [andb is_ok].
    split; [|done]. intros _. repeat split; try done; intros [? ?]; [done|lia].
  - destruct (Nat.eqb_spec n 1) as [->|Hn1], (String.eqb_spec first "") as [Hf|Hf];
      cbn [andb negb is_ok].
    + split; [|done]. intros _. repeat split; try done; intros [? ?]; [lia|done].
    + split; [done|]. intros (_ & _ & _ & H). by destruct H.
    + split; [|done]. intros _. repeat split; try done; intros [? ?]; [lia|done].
    + split; [|done]. intros _. repeat split; try done; intros [? ?]; [lia|done].
  - destruct (Nat.eqb_spec n 1) as [->|Hn1], (String.eqb_spec first "") as [Hf|Hf];
      cbn [andb negb is_ok].
    + split; [|done]. intros _. repeat split; try done; intros [? ?]; [lia|done].
    + split; [done|]. intros (_ & _ & _ & H). by destruct H.
    + split; [|done]. intros _. repeat split; try done; intros [? ?]; [lia|done].
    + split; [|done]. intros _. repeat split; try done; intros [? ?]; [lia|done].
Qed.

Lemma parseJenkinsOperators_is_ok (ops : list JenkinsOperator) :
  is_ok (parseJenkinsOperators ops) = true
  ↔ ∀ op, op ∈ ops →
      controller_ok (JenkinsController op)
      ∧ is_ok (labels_Parse (LabelSelectorString op)) = true
      ∧ (LabelSelectorString op = "" ↔ List.length ops = 1%nat).
Proof.
  unfold parseJenkinsOperators. rewrite mapM_is_ok.
  split; intros H op Hop; specialize (H op Hop).
  - apply parseJenkinsOperator_is_ok in H as (Hc & Hs & Hmany & Hone).
    split; [done|]. split; [done|]. split.
    + intros He. destruct ops as [|op0 [|op1 ops]]; [by apply elem_of_nil in Hop|done|].
      destruct Hmany. split; [cbn; lia|done].
    + intros Hlen. destruct ops as [|op0 [|op1 ops]]; try done.
      apply list_elem_of_singleton in Hop as ->.
      destruct (decide (LabelSelectorString op0 = "")) as [|Hne]; [done|].
      destruct Hone. done.
  - destruct H as (Hc & Hs & Hiff). apply parseJenkinsOperator_is_ok.
    split; [done|]. split; [done|]. split.
    + intros [Hn He]. apply Hiff in He. lia.
    + intros [Hn Hf]. destruct ops as [|op0 [|op1 ops]]; try done.
      apply list_elem_of_singleton in Hop as ->. apply Hf, Hiff. done.
Qed.

Lemma parseJenkinsOperator_Ok (n : nat) (first : string) (op op' : JenkinsOperator) :
  parseJenkinsOperator n first op = Ok op' →
  validated "validating jenkins_operators config: " (JenkinsController op)
  = Ok (JenkinsController op')
  ∧ LabelSelectorString op' = LabelSelectorString op
  ∧ ∃ sel, labels_Parse (LabelSelectorString op) = Ok sel ∧ LabelSelector op' = Some sel.
Proof.
  unfold parseJenkinsOperator.
  intros (ctl & Hc & (sel & Hs%wrap_Ok_inv & H)%bind_Ok_inv)%bind_Ok_inv.
  destruct (_ && _); [done|]. destruct (_ && _); [done|]. injection H as <-.
  cbn. eauto.
Qed.

Lemma parseExternalAgentLog_is_ok (a : ExternalAgentLog) :
  is_ok (parseExternalAgentLog a) = true
  ↔ is_ok (template_New_Parse (ExternalAgent a) (URLTemplateString a)) = true
    ∧ is_ok (labels_Parse (SelectorString a)) = true.
Proof.
  unfold parseExternalAgentLog.
  destruct (template_New_Parse _ _); cbn [mbind res_bind bind is_ok wrap];
    [|split; [done|by intros [? _]]..].
  destruct (labels_Parse _); cbn [mbind res_bind bind is_ok wrap];
    split; try done; by intros [_ ?].
Qed.

Lemma parseExternalAgentLog_Ok (a a' : ExternalAgentLog) :
  parseExternalAgentLog a = Ok a' →
  ExternalAgent a' = ExternalAgent a ∧ SelectorString a' = SelectorString a
  ∧ URLTemplateString a' = URLTemplateString a
  ∧ (∃ t, template_New_Parse (ExternalAgent a) (URLTemplateString a) = Ok t
          ∧ URLTemplate a' = Some t)
  ∧ (∃ s, labels_Parse (SelectorString a) = Ok s ∧ ExternalSelector a' = Some s).
Proof.
  unfold parseExternalAgentLog.
  intros (t & Ht%wrap_Ok_inv & (s & Hs%wrap_Ok_inv & [= <-])%bind_Ok_inv)%bind_Ok_inv.
  cbn. eauto 10.
Qed.

Lemma default_string_decide (v s : string) :
  default_string v s = if decide (s = "") then v else s.
Proof. unfold default_string. destruct (String.eqb_spec s ""); by case_decide. Qed.

Lemma default_duration_default (v : Duration) (d : option Duration) :
  default_duration v d = Some (default v d).
Proof. by destruct d. Qed.

(** X25.  [parseProwConfig] returns nil exactly when: [ValidateController]
    accepts the plank controller and the controller of every Jenkins
    operator; the job types to report to GitHub are presubmit or
    postsubmit; the label selector of every Jenkins operator parses, and
    is empty when there is one operator and not empty when there are
    several; the URL template and the selector of every external agent log
    parse; the Spyglass size limit is not negative; the rerun
    authorization of Deck does not allow anyone while it names users or
    teams; every pattern of a lens compiles, and so does every key of
    [Viewers] that has a viewer; and the link URL and the log level, or
    their defaults for an empty text, parse.  The jobs play no part. *)
Theorem parseProwConfig_accepts (c : Config) (k : Components) :
  is_ok (parseProwConfig c k) = true
  ↔ controller_ok (PlankController k)
    ∧ (∀ t, t ∈ GitHubJobTypesToReport (ProwGitHubReporter k) →
            t = PresubmitJob ∨ t = PostsubmitJob)
    ∧ (∀ op, op ∈ JenkinsOperators k →
         controller_ok (JenkinsController op)
         ∧ is_ok (labels_Parse (LabelSelectorString op)) = true
         ∧ (LabelSelectorString op = "" ↔ List.length (JenkinsOperators k) = 1%nat))
    ∧ (∀ a, a ∈ ExternalAgentLogs (ProwDeck k) →
         is_ok (template_New_Parse (ExternalAgent a) (URLTemplateString a)) = true
         ∧ is_ok (labels_Parse (SelectorString a)) = true)
    ∧ (0 ≤ SizeLimit (DeckSpyglass (ProwDeck k)))%Z
    ∧ ambiguous_rerun_auth (Some (DeckRerunAuthConfig (ProwDeck k))) = false
    ∧ (∀ lens v, lens ∈ Lenses (DeckSpyglass (ProwDeck k)) →
                 v ∈ OptionalFiles lens ++ RequiredFiles lens →
                 is_ok (regexp_Compile v) = true)
    ∧ (∀ regex viewers, Viewers (DeckSpyglass (ProwDeck k)) !! regex = Some viewers →
                        viewers ≠ [] → is_ok (regexp_Compile regex) = true)
    ∧ is_ok (url_Parse_URL (if decide (LinkURLFromConfig (ProwGitHubOptions k) = "")
                            then "https://github.com"
                            else LinkURLFromConfig (ProwGitHubOptions k))) = true
    ∧ is_ok (ParseLevel (if decide (LogLevel k = "") then "info" else LogLevel k)) = true.
Proof.
  rewrite <- !default_string_decide.
  assert ((∀ lens v, lens ∈ Lenses (DeckSpyglass (ProwDeck k)) →
                     v ∈ OptionalFiles lens ++ RequiredFiles lens →
                     is_ok (regexp_Compile v) = true)
          ∧ (∀ regex viewers, Viewers (DeckSpyglass (ProwDeck k)) !! regex = Some viewers →
                              viewers ≠ [] → is_ok (regexp_Compile regex) = true)
          ↔ is_ok (cache_regexes (migratedLenses k)) = true) as Hcache.
  { rewrite cache_regexes_is_ok. unfold migratedLenses. split.
    - intros [Hl Hv] v. rewrite patterns_app, elem_of_app.
      intros [(lens & ? & ?)%elem_of_patterns|(vs & ? & ?)%elem_of_patterns_oldLenses]; eauto.
    - intros H. split.
      + intros lens v Hlens Hv. apply H. rewrite patterns_app, elem_of_app. left.
        apply elem_of_patterns. eauto.
      + intros regex vs Hvs Hne. apply H. rewrite patterns_app, elem_of_app. right.
        apply elem_of_patterns_oldLenses. eauto. }
  split.
  - intros ([c' k'] & H)%is_ok_true.
    apply parseProwConfig_Ok in H
      as (pc & ops & logs & size & cache & url & H1 & H2 & H3 & H4 & H5 & H6 & H7 & H8 & H9 & _).
    split; [apply (controller_ok_validated "validating plank config: "); by rewrite H1|].
    split; [by apply defaultJobTypes_Ok|].
    split; [apply parseJenkinsOperators_is_ok; by rewrite H3|].
    split; [intros a Ha; apply parseExternalAgentLog_is_ok;
            revert a Ha; apply mapM_is_ok; by rewrite H4|].
    split; [by apply parseSizeLimit_Ok in H5 as [? _]|]. split; [done|].
    assert (is_ok (cache_regexes (migratedLenses k)) = true) as Hc by by rewrite H7.
    apply Hcache in Hc as [? ?]. split; [done|]. split; [done|]. split; [by rewrite H8|done].
  - intros (H1 & H2 & H3 & H4 & H5 & H6 & Hl & Hv & [url H8]%is_ok_true & H9).
    apply (controller_ok_validated "validating plank config: ") in H1.
    apply is_ok_true in H1 as [pc H1].
    apply defaultJobTypes_Ok in H2.
    apply parseJenkinsOperators_is_ok, is_ok_true in H3 as [ops H3].
    destruct (proj1 (is_ok_true (mapM parseExternalAgentLog (ExternalAgentLogs (ProwDeck k)))))
      as [logs Hlogs].
    { apply mapM_is_ok. intros a Ha. apply parseExternalAgentLog_is_ok. by apply H4. }
    destruct (proj1 (is_ok_true (cache_regexes (migratedLenses k)))) as [cache Hc].
    { apply Hcache. done. }
    apply is_ok_true. eexists. apply parseProwConfig_Ok.
    exists pc, ops, logs,
      (if (SizeLimit (DeckSpyglass (ProwDeck k)) =? 0)%Z then 100000000%Z
       else SizeLimit (DeckSpyglass (ProwDeck k))), cache, url.
    split; [done|]. split; [done|]. split; [done|]. split; [done|].
    split; [apply parseSizeLimit_Ok; split; [done|reflexivity]|].
    repeat (split; [done|]). reflexivity.
Qed.

(** X26.  A configuration that [parseProwConfig] accepts has every
    optional setting filled: each duration is the given one, or its
    default when none was given (a day and two days for the pods of plank,
    a minute for Gerrit and the push gateway, ten seconds for Tide
    updates, an hour, a week and a day for the sinker, a day for the job
    timeout); the namespaces, the link URL, the status link and the log
    level are the given text, or their default when it was empty; a rate
    limit of 0 becomes 5 and a size limit of 0 becomes 100000000, and the
    size limit is positive.  The job types to report are not empty.  The
    plank controller and every Jenkins operator have a positive number of
    goroutines and compiled templates, every operator and external agent
    log has its selector, and the link URL is parsed.  The jobs, the
    decoration defaults, the URL prefixes and the Slack reporter are as
    they were. *)
Theorem parseProwConfig_fills_defaults (c c' : Config) (k k' : Components) :
  parseProwConfig c k = Ok (c', k') →
  (ConfigJobConfig c' = ConfigJobConfig c
   ∧ ProwPlank (ConfigProwConfig c') = ProwPlank (ConfigProwConfig c)
   ∧ ProwSlackReporter (ConfigProwConfig c') = ProwSlackReporter (ConfigProwConfig c)
   ∧ ProwInRepoConfig k' = ProwInRepoConfig k
   ∧ ProwOwnersDirBlacklist k' = ProwOwnersDirBlacklist k)
  ∧ (PodPendingTimeout k' = Some (default (24 * Hour)%Z (PodPendingTimeout k))
     ∧ PodRunningTimeout k' = Some (default (48 * Hour)%Z (PodRunningTimeout k))
     ∧ TickInterval (ProwGerrit k') = Some (default Minute (TickInterval (ProwGerrit k)))
     ∧ TideUpdatePeriod (ProwDeck k')
       = Some (default (10 * Second)%Z (TideUpdatePeriod (ProwDeck k)))
     ∧ PushInterval (ProwPushGateway k')
       = Some (default Minute (PushInterval (ProwPushGateway k)))
     ∧ ResyncPeriod (ProwSinker k') = Some (default Hour (ResyncPeriod (ProwSinker k)))
     ∧ MaxProwJobAge (ProwSinker k')
       = Some (default (7 * 24 * Hour)%Z (MaxProwJobAge (ProwSinker k)))
     ∧ MaxPodAge (ProwSinker k') = Some (default (24 * Hour)%Z (MaxPodAge (ProwSinker k)))
     ∧ ProwDefaultJobTimeout k' = Some (default (24 * Hour)%Z (ProwDefaultJobTimeout k)))
  ∧ (PodNamespace (ConfigProwConfig c')
     = (if decide (PodNamespace (ConfigProwConfig c) = "") then "default"
        else PodNamespace (ConfigProwConfig c))
     ∧ ProwJobNamespace k'
       = (if decide (ProwJobNamespace k = "") then "default" else ProwJobNamespace k)
     ∧ LinkURLFromConfig (ProwGitHubOptions k')
       = (if decide (LinkURLFromConfig (ProwGitHubOptions k) = "") then "https://github.com"
          else LinkURLFromConfig (ProwGitHubOptions k))
     ∧ StatusErrorLink k'
       = (if decide (StatusErrorLink k = "")
          then "https://github.com/kubernetes/test-infra/issues" else StatusErrorLink k)
     ∧ LogLevel k' = (if decide (LogLevel k = "") then "info" else LogLevel k))
  ∧ (RateLimit (ProwGerrit k')
     = (if decide (RateLimit (ProwGerrit k) = 0%Z) then 5%Z else RateLimit (ProwGerrit k))
     ∧ SizeLimit (DeckSpyglass (ProwDeck k'))
       = (if decide (SizeLimit (DeckSpyglass (ProwDeck k)) = 0%Z) then 100000000%Z
          else SizeLimit (DeckSpyglass (ProwDeck k)))
     ∧ (0 < SizeLimit (DeckSpyglass (ProwDeck k')))%Z
     ∧ GitHubJobTypesToReport (ProwGitHubReporter k')
       = (if decide (GitHubJobTypesToReport (ProwGitHubReporter k) = [])
          then [PresubmitJob; PostsubmitJob]
          else GitHubJobTypesToReport (ProwGitHubReporter k)))
  ∧ ((0 < MaxGoroutines (PlankController k'))%Z
     ∧ JobURLTemplate (PlankController k') ≠ None
     ∧ ControllerReportTemplate (PlankController k') ≠ None
     ∧ Forall2 (λ op op', LabelSelectorString op' = LabelSelectorString op
                          ∧ LabelSelector op' ≠ None
                          ∧ (0 < MaxGoroutines (JenkinsController op'))%Z
                          ∧ JobURLTemplate (JenkinsController op') ≠ None
                          ∧ ControllerReportTemplate (JenkinsController op') ≠ None)
         (JenkinsOperators k) (JenkinsOperators k')
     ∧ Forall2 (λ a a', ExternalAgent a' = ExternalAgent a
                        ∧ SelectorString a' = SelectorString a
                        ∧ URLTemplateString a' = URLTemplateString a
                        ∧ URLTemplate a' ≠ None ∧ ExternalSelector a' ≠ None)
         (ExternalAgentLogs (ProwDeck k)) (ExternalAgentLogs (ProwDeck k'))
     ∧ LinkURL (ProwGitHubOptions k') ≠ None).
Proof.
  intros (pc & ops & logs & size & cache & url & H1 & H2 & H3 & H4 & H5 & H6 & H7 & H8 & H9
          & [= -> ->])%parseProwConfig_Ok.
  unfold assigned.
  cbn [ConfigJobConfig ConfigProwConfig ProwPlank ProwSlackReporter PodNamespace
       PlankController PodPendingTimeout PodRunningTimeout ProwSinker ProwDeck ProwGerrit
       ProwGitHubReporter ProwInRepoConfig JenkinsOperators ProwJobNamespace LogLevel
       ProwPushGateway ProwOwnersDirBlacklist ProwGitHubOptions StatusErrorLink
       ProwDefaultJobTimeout TickInterval RateLimit TideUpdatePeriod PushInterval
       ResyncPeriod MaxProwJobAge MaxPodAge LinkURLFromConfig LinkURL DeckSpyglass SizeLimit
       GitHubJobTypesToReport ExternalAgentLogs].
  rewrite !default_duration_default, !default_string_decide.
  apply parseSizeLimit_Ok in H5 as [Hsize ->].
  apply validated_positive in H1 as (Hg & _ & Hu & Hr & _).
  split; [done|]. split.
  { repeat split; done. }
  split; [done|]. split.
  { split; [destruct (Z.eqb_spec (RateLimit (ProwGerrit k)) 0); by case_decide|].
    split; [destruct (Z.eqb_spec (SizeLimit (DeckSpyglass (ProwDeck k))) 0); by case_decide|].
    split; [destruct (Z.eqb_spec (SizeLimit (DeckSpyglass (ProwDeck k))) 0); lia|].
    unfold defaultJobTypes.
    by destruct (GitHubJobTypesToReport (ProwGitHubReporter k)). }
  split; [done|]. split; [done|]. split; [done|]. split; [|split; [|done]].
  - apply mapM_Ok in H3. eapply Forall2_impl; [exact H3|].
    intros op op' (Hc & Hs & sel & _ & Hsel)%parseJenkinsOperator_Ok.
    apply validated_positive in Hc as (? & _ & ? & ? & _).
    rewrite Hsel. done.
  - apply mapM_Ok in H4. eapply Forall2_impl; [exact H4|].
    intros a a' (? & ? & ? & (t & _ & Ht) & (s & _ & Hs))%parseExternalAgentLog_Ok.
    rewrite Ht, Hs. done.
Qed.

(** X27.  When [parseProwConfig] accepts a configuration, the lenses are
    the given lenses followed by one lens for each viewer of each entry of
    [Viewers], which requires the key of the entry and has the name of the
    viewer as it was given, in nondecreasing order of the names; the
    viewers themselves are renamed where they had one of the three old
    names; and the cache holds exactly the patterns of the resulting
    lenses, each with what [regexp.Compile] returns for it. *)
Theorem parseProwConfig_migrates_viewers (c c' : Config) (k k' : Components) :
  parseProwConfig c k = Ok (c', k') →
  ∃ migrated,
    Lenses (DeckSpyglass (ProwDeck k')) = Lenses (DeckSpyglass (ProwDeck k)) ++ migrated
    ∧ migrated ≡ₚ concat (map (λ '(regex, viewers), map (viewer_lens regex) viewers)
                            (map_to_list (Viewers (DeckSpyglass (ProwDeck k)))))
    ∧ Sorting.Sorted.Sorted lens_name_le migrated
    ∧ (∀ regex, Viewers (DeckSpyglass (ProwDeck k')) !! regex
                = map rename_viewer <$> Viewers (DeckSpyglass (ProwDeck k)) !! regex)
    ∧ (∀ v r, RegexCache (DeckSpyglass (ProwDeck k')) !! v = Some r
              ↔ v ∈ patterns (Lenses (DeckSpyglass (ProwDeck k'))) ∧ regexp_Compile v = Ok r)
    ∧ (∀ v, v ∈ patterns (Lenses (DeckSpyglass (ProwDeck k'))) →
            is_Some (RegexCache (DeckSpyglass (ProwDeck k')) !! v)).
Proof.
  intros (pc & ops & logs & size & cache & url & H1 & H2 & H3 & H4 & H5 & H6 & H7 & H8 & H9
          & [= -> ->])%parseProwConfig_Ok.
  exists (oldLenses (Viewers (DeckSpyglass (ProwDeck k)))).
  unfold assigned. cbn [ProwDeck DeckSpyglass Lenses Viewers RegexCache].
  split; [done|]. split.
  { unfold oldLenses, viewer_lenses. rewrite sort_Slice_perm.
    apply (concat_perm_map _ _ _ (range_perm _ _)). }
  split; [apply sort_Slice_sorted|].
  split; [intros regex; apply lookup_fmap|].
  split; [apply cache_regexes_Ok; done|].
  intros v Hv.
  assert (is_ok (cache_regexes (migratedLenses k)) = true) as Hok by by rewrite H7.
  destruct (proj1 (is_ok_true _) (proj1 (cache_regexes_is_ok _) Hok v Hv)) as [r Hr].
  exists r. apply (cache_regexes_Ok _ _ H7). done.
Qed.
End ParseTheorems.
(** ** Reading the files *)

Section FilesFacts.
Context {RL : RegexpLib} {CL : ConfigLibs} {GM : GoMap} {GS : GoSort} {FS : FileSystem}.

Lemma jobs_from_impl (P Q : string → Prop) (jc : JobConfig) :
  (∀ p, P p → Q p) → jobs_from P jc → jobs_from Q jc.
Proof.
  intros HPQ (H1 & H2 & H3). split; [|split].
  - intros repo jobs job Hj Hin. by eapply HPQ, H1.
  - intros repo jobs job Hj Hin. by eapply HPQ, H2.
  - intros job Hin. by eapply HPQ, H3.
Qed.

Lemma jobs_from_empty (P : string → Prop) : jobs_from P empty_JobConfig.
Proof.
  split; [|split]; cbn.
  - intros repo jobs job Hj. by rewrite lookup_empty in Hj.
  - intros repo jobs job Hj. by rewrite lookup_empty in Hj.
  - intros job Hin. by apply elem_of_nil in Hin.
Qed.

Lemma fix_SourcePath_from (path : string) (jc : JobConfig) :
  jobs_from (eq path) (Files.fix_SourcePath path jc).
Proof.
  split; [|split]; cbn.
  - intros repo jobs job. rewrite lookup_fmap.
    destruct (Presubmits jc !! repo) as [jobs0|]; [|done]. intros [= <-].
    rewrite list_elem_of_In, in_map_iff. by intros (j0 & <- & _).
  - intros repo jobs job. rewrite lookup_fmap.
    destruct (Postsubmits jc !! repo) as [jobs0|]; [|done]. intros [= <-].
    rewrite list_elem_of_In, in_map_iff. by intros (j0 & <- & _).
  - intros job. rewrite list_elem_of_In, in_map_iff. by intros (j0 & <- & _).
Qed.

Lemma merged_from (P : string → Prop) (a b : JobConfig) :
  jobs_from P a → jobs_from P b → jobs_from P (merged a b).
Proof.
  intros (A1 & A2 & A3) (B1 & B2 & B3). split; [|split]; cbn.
  - intros repo jobs job. rewrite merge_lists_lookup.
    destruct (Presubmits a !! repo) as [ja|] eqn:Ha, (Presubmits b !! repo) as [jb|] eqn:Hb;
      cbn; intros [= <-]; [intros [?|?]%elem_of_app|..]; eauto.
  - intros repo jobs job. rewrite merge_lists_lookup.
    destruct (Postsubmits a !! repo) as [ja|] eqn:Ha, (Postsubmits b !! repo) as [jb|] eqn:Hb;
      cbn; intros [= <-]; [intros [?|?]%elem_of_app|..]; eauto.
  - intros job [?|?]%elem_of_app; eauto.
Qed.

Lemma yamlToConfig_Ok {T} (unmarshal : string → res T) (jobs : T → JobConfig)
    (set_jobs : JobConfig → T → T) (path : string) (r : T) :
  Files.yamlToConfig unmarshal jobs set_jobs path = Ok r →
  ∃ b nc, Files.ReadFileMaybeGZIP path = Ok b ∧ unmarshal b = Ok nc
          ∧ r = set_jobs (Files.fix_SourcePath path (jobs nc)) nc.
Proof.
  unfold Files.yamlToConfig.
  intros (b & Hb%wrap_Ok_inv & (nc & Hnc%wrap_Ok_inv & [= <-])%bind_Ok_inv)%bind_Ok_inv.
  eauto.
Qed.

Lemma yamlToJobConfig_from (path : string) (jc : JobConfig) :
  Files.yamlToJobConfig path = Ok jc → jobs_from (eq path) jc.
Proof.
  intros (b & nc & _ & _ & ->)%yamlToConfig_Ok. apply fix_SourcePath_from.
Qed.

Lemma yamlToWholeConfig_from (path : string) (nc : Config * Components) :
  Files.yamlToWholeConfig path = Ok nc → jobs_from (eq path) (ConfigJobConfig nc.1).
Proof.
  intros (b & nc0 & _ & _ & ->)%yamlToConfig_Ok. apply fix_SourcePath_from.
Qed.

(** A call that does not pass the filters changes nothing and does not stop
    the walk, unless it has neither an info nor an error. *)
Lemma walkFn_skips (st : gset string * JobConfig) (path : string) (info : option FileInfo)
    (err : option error) :
  job_file (path, info, err) = false →
  ∃ r, Files.ReadJobConfig_walkFn st path info err = (st, r)
       ∧ (r = WalkNil ∨ r = WalkSkipDir ∨ r = WalkPanic nil_dereference).
Proof.
  destruct st as [ub jc]. unfold job_file, Files.ReadJobConfig_walkFn.
  destruct err as [e|]; [intros _; eauto|].
  destruct info as [info|]; [|intros _; eauto 6].
  destruct (String.prefix ".." (InfoName info)); cbn [negb andb].
  { intros _. destruct (IsDir info); eauto. }
  destruct (String.eqb (filepath_Ext path) ".yaml"), (String.eqb (filepath_Ext path) ".yml");
    cbn [negb andb orb]; try (intros _; by eauto).
  all: destruct (IsDir info); cbn [negb]; [intros _; eauto|done].
Qed.

(** A call that passes the filters: the base name must be new, the file
    must decode and its jobs must merge. *)
Lemma walkFn_reads (ub : gset string) (jc : JobConfig) (path : string) (info : FileInfo)
    (st' : gset string * JobConfig) (r : walked) :
  job_file (path, Some info, None) = true →
  Files.ReadJobConfig_walkFn (ub, jc) path (Some info) None = (st', r) →
  r = WalkNil ∨ r = WalkSkipDir →
  (filepath_Base path ∉ ub)
  ∧ ∃ subConfig, Files.yamlToJobConfig path = Ok subConfig
                 ∧ mergeJobConfigs jc subConfig = Ok (merged jc subConfig)
                 ∧ st' = ({[filepath_Base path]} ∪ ub, merged jc subConfig).
Proof.
  unfold job_file, Files.ReadJobConfig_walkFn.
  intros [[Hp He]%andb_true_iff Hd]%andb_true_iff.
  apply negb_true_iff in Hp, Hd. rewrite Hp, Hd.
  assert ((negb (filepath_Ext path =? ".yaml")%string
           && negb (filepath_Ext path =? ".yml")%string) = false) as ->.
  { by destruct (String.eqb (filepath_Ext path) ".yaml"),
         (String.eqb (filepath_Ext path) ".yml"). }
  case_bool_decide as Hin.
  { intros H [Hr|Hr]; injection H as _ <-; discriminate Hr. }
  destruct (Files.yamlToJobConfig path) as [sub|e|v].
  2,3: intros H [Hr|Hr]; injection H as _ <-; discriminate Hr.
  destruct (mergeJobConfigs jc sub) as [m|e|v] eqn:Hm.
  2,3: intros H [Hr|Hr]; injection H as _ <-; discriminate Hr.
  intros H _. injection H as <- _. split; [done|]. exists sub. split; [done|].
  pose proof Hm as Hm'. apply mergeJobConfigs_Ok in Hm' as [_ ->]. split; done.
Qed.

Lemma walk_calls_invariant (calls : list walk_call) (ub ub' : gset string)
    (jc jc' : JobConfig) :
  walk_calls calls (ub, jc) = Some (ub', jc') →
  ∃ configs,
    Forall2 (λ call subConfig, Files.yamlToJobConfig (call_path call) = Ok subConfig)
      (List.filter job_file calls) configs
    ∧ jc' = foldl merged jc configs
    ∧ NoDup (map (λ call, filepath_Base (call_path call)) (List.filter job_file calls))
    ∧ (∀ base, base ∈ ub'
               ↔ base ∈ ub
                 ∨ base ∈ map (λ call, filepath_Base (call_path call))
                          (List.filter job_file calls))
    ∧ (∀ base, base ∈ map (λ call, filepath_Base (call_path call))
                      (List.filter job_file calls) → base ∉ ub)
    ∧ (NoDup (pairs_of (Presets jc)) → NoDup (pairs_of (Presets jc'))).
Proof.
  revert ub jc; induction calls as [|[[path info] err] calls IH]; intros ub jc.
  - intros [= <- <-]. exists []. cbn. split; [constructor|]. split; [done|].
    split; [constructor|]. split; [|split; [|done]].
    + intros base. split; [by left|]. intros [?|Hb]; [done|]. by apply elem_of_nil in Hb.
    + intros base Hb. by apply elem_of_nil in Hb.
  - cbn [walk_calls List.filter].
    destruct (job_file (path, info, err)) eqn:Hjob.
    + destruct info as [info|]; [|done]. destruct err as [e|]; [done|].
      destruct (Files.ReadJobConfig_walkFn (ub, jc) path (Some info) None) as [st1 r] eqn:Hcall.
      intros Hrest.
      assert (r = WalkNil ∨ r = WalkSkipDir) as Hr by (destruct r; auto; done).
      destruct (walkFn_reads _ _ _ _ _ _ Hjob Hcall Hr) as (Hnew & sub & Hsub & Hm & ->).
      assert (walk_calls calls ({[filepath_Base path]} ∪ ub, merged jc sub) = Some (ub', jc'))
        as Hrest' by (destruct Hr as [-> | ->]; done).
      destruct (IH _ _ Hrest') as (configs & Hconfigs & -> & Hnd & Hub & Hfresh & Hpairs).
      exists (sub :: configs). split; [by constructor|]. split; [done|].
      cbn [map]. split; [|split; [|split]].
      * constructor; [|done]. intros Hb. apply (Hfresh _ Hb). set_solver.
      * intros base. rewrite Hub, elem_of_cons. set_solver.
      * intros base [->|Hb]%elem_of_cons; [done|]. specialize (Hfresh _ Hb). set_solver.
      * intros _. apply Hpairs. cbn. by apply mergeJobConfigs_Ok in Hm as [? _].
    + destruct (walkFn_skips (ub, jc) path info err Hjob) as (r & -> & Hr).
      destruct Hr as [-> | [-> | ->]]; [apply IH..|done].
Qed.

Lemma foldl_merged_from (P : string → Prop) (l : list walk_call) (configs : list JobConfig)
    (jc0 : JobConfig) :
  Forall2 (λ call subConfig, Files.yamlToJobConfig (call_path call) = Ok subConfig) l configs →
  (∀ call, call ∈ l → P (call_path call)) →
  jobs_from P jc0 → jobs_from P (foldl merged jc0 configs).
Proof.
  intros Hconfigs. revert jc0.
  induction Hconfigs as [|call sub l configs Hsub _ IH]; intros jc0 HP H0; [done|].
  cbn [foldl]. apply IH.
  - intros c Hc. apply HP. by right.
  - apply merged_from; [done|].
    eapply jobs_from_impl; [|apply (yamlToJobConfig_from _ _ Hsub)].
    intros p <-. apply HP. left.
Qed.

(** X28.  Take any run of calls that [filepath.Walk] makes to the function
    [ReadJobConfig] walks with, each of which returns nil or
    [filepath.SkipDir].  The calls that count are those without an error,
    for a name that does not start with two dots, with the extension
    [.yaml] or [.yml], and not for a directory.  Their base names are
    pairwise distinct and are the set the function has collected; each of
    their files has been decoded; the configuration collected is the
    merge of those files from left to right, in the order of the calls;
    no [label:value] pair occurs twice among its presets; and every job
    in it carries the path of the file it was read from. *)
Theorem ReadJobConfig_walkFn_merges_files (calls : list walk_call) (uniqueBasenames : gset string)
    (jc : JobConfig) :
  walk_calls calls (∅, empty_JobConfig) = Some (uniqueBasenames, jc) →
  ∃ configs,
    Forall2 (λ call subConfig, Files.yamlToJobConfig (call_path call) = Ok subConfig)
      (List.filter job_file calls) configs
    ∧ jc = foldl merged empty_JobConfig configs
    ∧ NoDup (map (λ call, filepath_Base (call_path call)) (List.filter job_file calls))
    ∧ (∀ base, base ∈ uniqueBasenames
               ↔ base ∈ map (λ call, filepath_Base (call_path call))
                        (List.filter job_file calls))
    ∧ NoDup (pairs_of (Presets jc))
    ∧ jobs_from (λ path, path ∈ map call_path (List.filter job_file calls)) jc.
Proof.
  intros H. destruct (walk_calls_invariant _ _ _ _ _ H)
    as (configs & Hconfigs & -> & Hnd & Hub & _ & Hpairs).
  exists configs. split; [done|]. split; [done|]. split; [done|]. split; [|split].
  - intros base. rewrite Hub. set_solver.
  - apply Hpairs. constructor.
  - apply (foldl_merged_from _ _ _ _ Hconfigs); [|apply jobs_from_empty].
    intros call Hcall. rewrite list_elem_of_In. apply in_map. by apply list_elem_of_In.
Qed.
End FilesFacts.
(** ** Loading from the files *)

Section LoadFacts.
Context {RL : RegexpLib} {CL : ConfigLibs} {GM : GoMap} {GS : GoSort} {FS : FileSystem}.

Lemma default_string_nonempty (v s : string) : v ≠ "" → default_string v s ≠ "".
Proof. unfold default_string. by destruct (String.eqb_spec s ""). Qed.

Lemma loadConfig_Ok (prowConfig jobConfig : string) (c : Config) (k : Components) :
  Files.loadConfig prowConfig jobConfig = Ok (c, k) →
  ∃ info nc c1,
    os_Stat prowConfig = Ok info ∧ IsDir info = false
    ∧ Files.yamlToWholeConfig prowConfig = Ok nc
    ∧ parseProwConfig nc.1 nc.2 = Ok (c1, k)
    ∧ ((jobConfig = "" ∧ c = Files.with_AllRepos ∅ c1)
       ∨ (jobConfig ≠ ""
          ∧ ∃ jc, Files.ReadJobConfig jobConfig = Ok jc
                  ∧ mergeJobConfig (Files.with_AllRepos ∅ c1) jc = (c, Ok ()))).
Proof.
  unfold Files.loadConfig. intros (info & Hstat & H)%bind_Ok_inv.
  destruct (IsDir info) eqn:Hdir; [done|].
  apply bind_Ok_inv in H as (nc & Hnc & H).
  apply bind_Ok_inv in H as ([c1 k1] & Hparse & H). cbn [fst snd] in H.
  exists info, nc, c1.
  destruct (String.eqb_spec jobConfig "") as [->|Hne].
  - injection H as <- <-. repeat split; try done. by left.
  - apply bind_Ok_inv in H as (jc & Hjc & H).
    destruct (mergeJobConfig (Files.with_AllRepos ∅ c1) jc) as [c2 [[]|e|v]] eqn:Hm; [|done..].
    injection H as <- <-. repeat split; try done. right. eauto.
Qed.

Lemma mergeJobConfig_Ok (c c' : Config) (jc : JobConfig) :
  mergeJobConfig c jc = (c', Ok ()) →
  NoDup (pairs_of (Presets (ConfigJobConfig c')))
  ∧ AllRepos (ConfigJobConfig c') = AllRepos (ConfigJobConfig c)
  ∧ ConfigProwConfig c' = ConfigProwConfig c
  ∧ ∀ P, jobs_from P (ConfigJobConfig c) → jobs_from P jc → jobs_from P (ConfigJobConfig c').
Proof.
  unfold mergeJobConfig.
  destruct (mergeJobConfigs _ jc) as [m|e|v] eqn:Hm; [|done..].
  intros [= <-]. apply mergeJobConfigs_Ok in Hm as [Hnd ->]. cbn.
  split; [done|]. split; [done|]. split; [done|].
  intros P Hc Hjc.
  apply (merged_from P {| Presets := Presets (ConfigJobConfig c);
                          Presubmits := Presubmits (ConfigJobConfig c);
                          Postsubmits := Postsubmits (ConfigJobConfig c);
                          Periodics := Periodics (ConfigJobConfig c);
                          AllRepos := ∅ |} jc); done.
Qed.

(** X29.  A configuration that [loadConfig] returns comes from a
    [prowConfig] that is not a directory; its set of repositories is
    empty and its pod namespace is not; when a job configuration is named,
    no [label:value] pair occurs twice among its presets.  Every job
    carries the path of the file it was read from: [prowConfig] when no
    job configuration is named, and [prowConfig] or [jobConfig] when the
    job configuration is a single file. *)
Theorem loadConfig_outcome (prowConfig jobConfig : string) (c : Config) (k : Components) :
  Files.loadConfig prowConfig jobConfig = Ok (c, k) →
  (∃ info, os_Stat prowConfig = Ok info ∧ IsDir info = false)
  ∧ AllRepos (ConfigJobConfig c) = ∅
  ∧ PodNamespace (ConfigProwConfig c) ≠ ""
  ∧ (jobConfig ≠ "" → NoDup (pairs_of (Presets (ConfigJobConfig c))))
  ∧ (jobConfig = "" → jobs_from (eq prowConfig) (ConfigJobConfig c))
  ∧ (∀ info, jobConfig ≠ "" → os_Stat jobConfig = Ok info → IsDir info = false →
             jobs_from (λ path, path = prowConfig ∨ path = jobConfig) (ConfigJobConfig c)).
Proof.
  intros (info & nc & c1 & Hstat & Hdir & Hnc & Hparse & Hjobs)%loadConfig_Ok.
  split; [eauto|].
  apply parseProwConfig_Ok in Hparse
    as (pc & ops & logs & size & cache & url & _ & _ & _ & _ & _ & _ & _ & _ & _ & Heq).
  injection Heq as -> _.
  apply yamlToWholeConfig_from in Hnc.
  destruct Hjobs as [[-> ->]|(Hne & jc & Hjc & Hm)].
  - cbn. split; [done|]. split; [by apply default_string_nonempty|].
    split; [done|]. split; [done|]. done.
  - apply mergeJobConfig_Ok in Hm as (Hnd & -> & -> & Hfrom). cbn.
    split; [done|]. split; [by apply default_string_nonempty|].
    split; [done|]. split; [done|].
    intros info' _ Hstat' Hdir'. apply Hfrom.
    + eapply jobs_from_impl; [|exact Hnc]. intros p <-. by left.
    + unfold Files.ReadJobConfig in Hjc. rewrite Hstat' in Hjc. cbn in Hjc.
      rewrite Hdir' in Hjc. cbn in Hjc.
      eapply jobs_from_impl; [|exact (yamlToJobConfig_from _ _ Hjc)]. intros p <-. by right.
Qed.

Context (EX : Externals).

Lemma file_externals_loadConfig (prowConfig jobConfig : string) (c : Config) :
  loadConfig (Externals := file_externals EX) prowConfig jobConfig = Ok (Some c) →
  ∃ k, Files.loadConfig prowConfig jobConfig = Ok (c, k).
Proof.
  cbn. intros ([c0 k] & H & [= <-])%bind_Ok_inv. eauto.
Qed.

(** X30.  When [Load] reads the configuration through [loadConfig] and
    returns it, the set of repositories holds exactly the repositories
    that have an entry among the presubmits or the postsubmits; the pod
    namespace is not empty; and, when a job configuration is named, no
    [label:value] pair occurs twice among the presets. *)
Theorem Load_from_files (prowConfig jobConfig : string) (c : Config) :
  Load (EX := file_externals EX) prowConfig jobConfig = ((Some c, None), Returning) →
  (∀ repo, repo ∈ AllRepos (ConfigJobConfig c)
           ↔ is_Some (Presubmits (ConfigJobConfig c) !! repo)
             ∨ is_Some (Postsubmits (ConfigJobConfig c) !! repo))
  ∧ PodNamespace (ConfigProwConfig c) ≠ ""
  ∧ (jobConfig ≠ "" → NoDup (pairs_of (Presets (ConfigJobConfig c)))).
Proof.
  intros (c0 & c1 & c2 & Hload & Hfin & Hcomp & _ & _ & ->)%Load_Ok_validated.
  apply file_externals_loadConfig in Hload as [k Hload].
  apply loadConfig_outcome in Hload as (_ & Hall & Hns & Hnd & _).
  pose proof (validateComponentConfig_Ok c1 c2) as [Hacc _].
  destruct (Hacc Hcomp) as [_ Hrep]. clear Hacc.
  assert (ConfigJobConfig c2 = ConfigJobConfig c1
          ∧ PodNamespace (ConfigProwConfig c2) = PodNamespace (ConfigProwConfig c1))
    as [Hj Hpn].
  { destruct (ProwSlackReporter (ConfigProwConfig c1)).
    - destruct Hrep as (? & _ & ->). split; reflexivity.
    - subst c2. split; reflexivity. }
  apply finalizeJobConfig_Ok in Hfin
    as (Hpn1 & _ & _ & Hpresets & Hrepos & Hpre & Hpost & _).
  cbn [with_Periodics ConfigJobConfig ConfigProwConfig Presubmits Postsubmits Periodics
       AllRepos Presets PodNamespace].
  rewrite Hj, Hpn, Hpn1, Hpresets. split; [|done].
  intros repo. rewrite Hrepos, Hall.
  assert (is_Some (Presubmits (ConfigJobConfig c0) !! repo)
          ↔ is_Some (Presubmits (ConfigJobConfig c1) !! repo)) as ->.
  { specialize (Hpre repo). inversion Hpre; split; intros [? ?]; by eauto || congruence. }
  assert (is_Some (Postsubmits (ConfigJobConfig c0) !! repo)
          ↔ is_Some (Postsubmits (ConfigJobConfig c1) !! repo)) as ->.
  { specialize (Hpost repo). inversion Hpost; split; intros [? ?]; by eauto || congruence. }
  set_solver.
Qed.
End LoadFacts.

(** ** The further properties on the sample environment *)

Lemma is_ok_from_Ok {A} (d : A) (m : res A) : is_ok m = true → m = Ok (from_Ok d m).
Proof. by destruct m. Qed.

Lemma Load_succeeded_from_Load {RL : RegexpLib} (d : Config) (r : results * unwinding) :
  Load_succeeded r = true → r = ((Some (from_Load d r), None), Returning).
Proof. by destruct r as [[[c|] [e|]] [|v]]. Qed.

Lemma GetJobURLPrefix_validated_witness :
  GetJobURLPrefix (plank prefixed_config) (Some {| Org := "kubernetes"; Repo := "test-infra" |})
  = ""
  ∨ url_Parse (Externals := sample_externals (Err ""))
      (GetJobURLPrefix (plank prefixed_config)
         (Some {| Org := "kubernetes"; Repo := "test-infra" |}))
    = Ok ().
Proof.
  refine (GetJobURLPrefix_validated (EX := sample_externals (Err "")) (GM := map_order)
            prefixed_config prefixed_config
            (Some {| Org := "kubernetes"; Repo := "test-infra" |}) _).
  reflexivity.
Defined.

Lemma ValidateController_accepts_witness :
  ValidateController validated_controller = (validated_controller, Ok ())
  ∧ (0 < MaxGoroutines validated_controller)%Z.
Proof.
  refine (proj2 (ValidateController_accepts sample_controller validated_controller) _).
  vm_compute. reflexivity.
Defined.

Lemma mergeJobConfigs_pair_text_collision_witness :
  failed (mergeJobConfigs (GM := map_order) (preset_fragment preset_a) (preset_fragment preset_b)).
Proof.
  refine (mergeJobConfigs_pair_text_collision (GM := map_order)
            (preset_fragment preset_a) (preset_fragment preset_b) preset_a preset_b
            "preset-a:b" "c" "preset-a" "b:c" _ _ _ _ _).
  - left.
  - left.
  - reflexivity.
  - reflexivity.
  - reflexivity.
Defined.

Lemma DefaultAndValidate_idempotent_witness :
  Channel validated_reporter = Channel sample_reporter
  ∧ Channel validated_reporter ≠ "" ∧ ReportTemplate validated_reporter ≠ ""
  ∧ (ReportTemplate sample_reporter ≠ "" → validated_reporter = sample_reporter)
  ∧ JobTypesToReport validated_reporter = JobTypesToReport sample_reporter
  ∧ JobStatesToReport validated_reporter = JobStatesToReport sample_reporter
  ∧ DefaultAndValidate (EX := sample_externals (Err "")) validated_reporter
    = Ok validated_reporter.
Proof.
  refine (DefaultAndValidate_idempotent (EX := sample_externals (Err ""))
            sample_reporter validated_reporter _).
  vm_compute. reflexivity.
Defined.

Lemma validateTriggering_after_defaults_witness :
  validateTriggering (hd bare_presubmit (defaultPresubmitFields sample_prow [bare_presubmit]))
  = Ok ()
  ↔ ¬ (AlwaysRun bare_presubmit = true
       ∧ RunIfChanged (PresubmitChangeMatcher bare_presubmit) ≠ "")
    ∧ (SkipReport bare_presubmit = true ∨ Context bare_presubmit ≠ ""
       ∨ Name (PresubmitJobBase bare_presubmit) ≠ "")
    ∧ (Trigger bare_presubmit = "" ↔ RerunCommand bare_presubmit = "").
Proof.
  refine (validateTriggering_after_defaults sample_prow [bare_presubmit] 0 bare_presubmit
            (hd bare_presubmit (defaultPresubmitFields sample_prow [bare_presubmit]))
            _ _).
  - reflexivity.
  - reflexivity.
Defined.

Lemma finalizeJobConfig_keeps_jobs_witness :
  Presets (ConfigJobConfig finalized_bare_config) = Presets (ConfigJobConfig bare_config)
  ∧ (∀ repo : string, option_Forall2 (same_names (presubmit_name (RL := go_regexp)))
               (Presubmits (ConfigJobConfig bare_config) !! repo)
               (Presubmits (ConfigJobConfig finalized_bare_config) !! repo))
  ∧ (∀ repo : string, option_Forall2 (same_names (postsubmit_name (RL := go_regexp)))
               (Postsubmits (ConfigJobConfig bare_config) !! repo)
               (Postsubmits (ConfigJobConfig finalized_bare_config) !! repo))
  ∧ same_names periodic_name (Periodics (ConfigJobConfig bare_config))
      (Periodics (ConfigJobConfig finalized_bare_config))
  ∧ (∀ repo : string, repo ∈ AllRepos (ConfigJobConfig finalized_bare_config)
             ↔ repo ∈ AllRepos (ConfigJobConfig bare_config)
               ∨ is_Some (Presubmits (ConfigJobConfig bare_config) !! repo)
               ∨ is_Some (Postsubmits (ConfigJobConfig bare_config) !! repo))
  ∧ (∀ (repo : string) jobs,
       Presubmits (ConfigJobConfig finalized_bare_config) !! repo = Some jobs →
       Forall (presubmit_defaulted (RL := go_regexp)) jobs)
  ∧ (∀ (repo : string) jobs,
       Postsubmits (ConfigJobConfig finalized_bare_config) !! repo = Some jobs →
       Forall (postsubmit_defaulted (RL := go_regexp)) jobs)
  ∧ Forall (λ p, base_defaulted (PeriodicJobBase p))
      (Periodics (ConfigJobConfig finalized_bare_config)).
Proof.
  refine (finalizeJobConfig_keeps_jobs (EX := sample_externals (Err "")) (GM := map_order)
            bare_config finalized_bare_config (is_ok_from_Ok bare_config _ _)).
  vm_compute. reflexivity.
Defined.

Lemma Load_returns_complete_jobs_witness :
  (∀ (repo : string) jobs ps,
     Presubmits (ConfigJobConfig loaded_bare_config) !! repo = Some jobs → ps ∈ jobs →
     repo ∈ AllRepos (ConfigJobConfig loaded_bare_config)
     ∧ validateJobBase (EX := sample_externals (Ok (Some bare_config))) (GM := map_order)
         (PresubmitJobBase ps) PresubmitJob
         (PodNamespace (ConfigProwConfig loaded_bare_config)) = Ok ()
     ∧ base_defaulted (PresubmitJobBase ps)
     ∧ Trigger ps ≠ "" ∧ RerunCommand ps ≠ ""
     ∧ (SkipReport ps = true ∨ Context ps ≠ ""))
  ∧ (∀ (repo : string) jobs ps,
       Postsubmits (ConfigJobConfig loaded_bare_config) !! repo = Some jobs → ps ∈ jobs →
       repo ∈ AllRepos (ConfigJobConfig loaded_bare_config)
       ∧ validateJobBase (EX := sample_externals (Ok (Some bare_config))) (GM := map_order)
           (PostsubmitJobBase ps) PostsubmitJob
           (PodNamespace (ConfigProwConfig loaded_bare_config)) = Ok ()
       ∧ base_defaulted (PostsubmitJobBase ps))
  ∧ NoDup (map periodic_name (Periodics (ConfigJobConfig loaded_bare_config)))
  ∧ (∀ p, p ∈ Periodics (ConfigJobConfig loaded_bare_config) →
          validateJobBase (EX := sample_externals (Ok (Some bare_config))) (GM := map_order)
            (PeriodicJobBase p) PeriodicJob
            (PodNamespace (ConfigProwConfig loaded_bare_config)) = Ok ()
          ∧ base_defaulted (PeriodicJobBase p)).
Proof.
  refine (Load_returns_complete_jobs (EX := sample_externals (Ok (Some bare_config)))
            (GM := map_order) "config.yaml" "" loaded_bare_config
            (Load_succeeded_from_Load bare_config _ _)).
  vm_compute. reflexivity.
Defined.

Lemma is_ok_from_Ok_pair {A B} (d : A * B) (m : res (A * B)) :
  is_ok m = true → m = Ok ((from_Ok d m).1, (from_Ok d m).2).
Proof. by destruct m as [[a b]|e|v]. Qed.

Lemma is_Some_default_pair {A B} (d : A * B) (o : option (A * B)) :
  match o with Some _ => true | None => false end = true →
  o = Some ((default d o).1, (default d o).2).
Proof. by destruct o as [[a b]|]. Qed.

Lemma parseProwConfig_fills_defaults_witness :
  (ConfigJobConfig parsed_sample.1 = ConfigJobConfig raw_config
   ∧ ProwPlank (ConfigProwConfig parsed_sample.1) = ProwPlank (ConfigProwConfig raw_config)
   ∧ ProwSlackReporter (ConfigProwConfig parsed_sample.1)
     = ProwSlackReporter (ConfigProwConfig raw_config)
   ∧ ProwInRepoConfig parsed_sample.2 = ProwInRepoConfig sample_components
   ∧ ProwOwnersDirBlacklist parsed_sample.2 = ProwOwnersDirBlacklist sample_components)
  ∧ (PodPendingTimeout parsed_sample.2
     = Some (default (24 * Hour)%Z (PodPendingTimeout sample_components))
     ∧ PodRunningTimeout parsed_sample.2
       = Some (default (48 * Hour)%Z (PodRunningTimeout sample_components))
     ∧ TickInterval (ProwGerrit parsed_sample.2)
       = Some (default Minute (TickInterval (ProwGerrit sample_components)))
     ∧ TideUpdatePeriod (ProwDeck parsed_sample.2)
       = Some (default (10 * Second)%Z (TideUpdatePeriod (ProwDeck sample_components)))
     ∧ PushInterval (ProwPushGateway parsed_sample.2)
       = Some (default Minute (PushInterval (ProwPushGateway sample_components)))
     ∧ ResyncPeriod (ProwSinker parsed_sample.2)
       = Some (default Hour (ResyncPeriod (ProwSinker sample_components)))
     ∧ MaxProwJobAge (ProwSinker parsed_sample.2)
       = Some (default (7 * 24 * Hour)%Z (MaxProwJobAge (ProwSinker sample_components)))
     ∧ MaxPodAge (ProwSinker parsed_sample.2)
       = Some (default (24 * Hour)%Z (MaxPodAge (ProwSinker sample_components)))
     ∧ ProwDefaultJobTimeout parsed_sample.2
       = Some (default (24 * Hour)%Z (ProwDefaultJobTimeout sample_components)))
  ∧ (PodNamespace (ConfigProwConfig parsed_sample.1)
     = (if decide (PodNamespace (ConfigProwConfig raw_config) = "") then "default"
        else PodNamespace (ConfigProwConfig raw_config))
     ∧ ProwJobNamespace parsed_sample.2
       = (if decide (ProwJobNamespace sample_components = "") then "default"
          else ProwJobNamespace sample_components)
     ∧ LinkURLFromConfig (ProwGitHubOptions parsed_sample.2)
       = (if decide (LinkURLFromConfig (ProwGitHubOptions sample_components) = "")
          then "https://github.com"
          else LinkURLFromConfig (ProwGitHubOptions sample_components))
     ∧ StatusErrorLink parsed_sample.2
       = (if decide (StatusErrorLink sample_components = "")
          then "https://github.com/kubernetes/test-infra/issues"
          else StatusErrorLink sample_components)
     ∧ LogLevel parsed_sample.2
       = (if decide (LogLevel sample_components = "") then "info"
          else LogLevel sample_components))
  ∧ (RateLimit (ProwGerrit parsed_sample.2)
     = (if decide (RateLimit (ProwGerrit sample_components) = 0%Z) then 5%Z
        else RateLimit (ProwGerrit sample_components))
     ∧ SizeLimit (DeckSpyglass (ProwDeck parsed_sample.2))
       = (if decide (SizeLimit (DeckSpyglass (ProwDeck sample_components)) = 0%Z)
          then 100000000%Z
          else SizeLimit (DeckSpyglass (ProwDeck sample_components)))
     ∧ (0 < SizeLimit (DeckSpyglass (ProwDeck parsed_sample.2)))%Z
     ∧ GitHubJobTypesToReport (ProwGitHubReporter parsed_sample.2)
       = (if decide (GitHubJobTypesToReport (ProwGitHubReporter sample_components) = [])
          then [PresubmitJob; PostsubmitJob]
          else GitHubJobTypesToReport (ProwGitHubReporter sample_components)))
  ∧ ((0 < MaxGoroutines (PlankController parsed_sample.2))%Z
     ∧ JobURLTemplate (PlankController parsed_sample.2) ≠ None
     ∧ ControllerReportTemplate (PlankController parsed_sample.2) ≠ None
     ∧ Forall2 (λ op op', LabelSelectorString op' = LabelSelectorString op
                          ∧ LabelSelector op' ≠ None
                          ∧ (0 < MaxGoroutines (JenkinsController op'))%Z
                          ∧ JobURLTemplate (JenkinsController op') ≠ None
                          ∧ ControllerReportTemplate (JenkinsController op') ≠ None)
         (JenkinsOperators sample_components) (JenkinsOperators parsed_sample.2)
     ∧ Forall2 (λ a a', ExternalAgent a' = ExternalAgent a
                        ∧ SelectorString a' = SelectorString a
                        ∧ URLTemplateString a' = URLTemplateString a
                        ∧ URLTemplate a' ≠ None ∧ ExternalSelector a' ≠ None)
         (ExternalAgentLogs (ProwDeck sample_components))
         (ExternalAgentLogs (ProwDeck parsed_sample.2))
     ∧ LinkURL (ProwGitHubOptions parsed_sample.2) ≠ None).
Proof.
  refine (parseProwConfig_fills_defaults (GM := map_order) (GS := sample_sort)
            raw_config parsed_sample.1 sample_components parsed_sample.2
            (is_ok_from_Ok_pair (raw_config, sample_components) _ _)).
  vm_compute. reflexivity.
Defined.

Lemma parseProwConfig_migrates_viewers_witness :
  ∃ migrated,
    Lenses (DeckSpyglass (ProwDeck parsed_sample.2))
    = Lenses (DeckSpyglass (ProwDeck sample_components)) ++ migrated
    ∧ migrated ≡ₚ concat (map (λ '(regex, viewers), map (viewer_lens regex) viewers)
                            (map_to_list (Viewers (DeckSpyglass (ProwDeck sample_components)))))
    ∧ Sorting.Sorted.Sorted lens_name_le migrated
    ∧ (∀ regex : string,
         Viewers (DeckSpyglass (ProwDeck parsed_sample.2)) !! regex
         = map rename_viewer <$> Viewers (DeckSpyglass (ProwDeck sample_components)) !! regex)
    ∧ (∀ (v : string) r,
         RegexCache (DeckSpyglass (ProwDeck parsed_sample.2)) !! v = Some r
         ↔ v ∈ patterns (Lenses (DeckSpyglass (ProwDeck parsed_sample.2)))
           ∧ regexp_Compile (RegexpLib := go_regexp) v = Ok r)
    ∧ (∀ v : string, v ∈ patterns (Lenses (DeckSpyglass (ProwDeck parsed_sample.2))) →
                     is_Some (RegexCache (DeckSpyglass (ProwDeck parsed_sample.2)) !! v)).
Proof.
  refine (parseProwConfig_migrates_viewers (GM := map_order) (GS := sample_sort)
            raw_config parsed_sample.1 sample_components parsed_sample.2
            (is_ok_from_Ok_pair (raw_config, sample_components) _ _)).
  vm_compute. reflexivity.
Defined.

Lemma ReadJobConfig_walkFn_merges_files_witness :
  ∃ configs,
    Forall2 (λ call subConfig,
               Files.yamlToJobConfig (FS := sample_file_system) (call_path call) = Ok subConfig)
      (List.filter (job_file (FS := sample_file_system)) sample_calls) configs
    ∧ walked_sample.2 = foldl (merged (GM := map_order)) empty_JobConfig configs
    ∧ NoDup (map (λ call, filepath_Base (FileSystem := sample_file_system) (call_path call))
               (List.filter (job_file (FS := sample_file_system)) sample_calls))
    ∧ (∀ base : string,
         base ∈ walked_sample.1
         ↔ base ∈ map (λ call, filepath_Base (FileSystem := sample_file_system) (call_path call))
                    (List.filter (job_file (FS := sample_file_system)) sample_calls))
    ∧ NoDup (pairs_of (GM := map_order) (Presets walked_sample.2))
    ∧ jobs_from (λ path, path ∈ map call_path
                                  (List.filter (job_file (FS := sample_file_system))
                                     sample_calls))
        walked_sample.2.
Proof.
  refine (ReadJobConfig_walkFn_merges_files (GM := map_order)
            (FS := sample_file_system) sample_calls walked_sample.1 walked_sample.2
            (is_Some_default_pair (∅, empty_JobConfig) _ _)).
  vm_compute. reflexivity.
Defined.

Lemma loadConfig_outcome_witness :
  (∃ info, os_Stat (FileSystem := sample_file_system) "/etc/config/config.yaml" = Ok info
           ∧ IsDir info = false)
  ∧ AllRepos (ConfigJobConfig loaded_files.1) = ∅
  ∧ PodNamespace (ConfigProwConfig loaded_files.1) ≠ ""
  ∧ ("/etc/job-config/periodics.yaml" ≠ "" →
     NoDup (pairs_of (GM := map_order) (Presets (ConfigJobConfig loaded_files.1))))
  ∧ ("/etc/job-config/periodics.yaml" = "" →
     jobs_from (eq "/etc/config/config.yaml") (ConfigJobConfig loaded_files.1))
  ∧ (∀ info, "/etc/job-config/periodics.yaml" ≠ "" →
             os_Stat (FileSystem := sample_file_system) "/etc/job-config/periodics.yaml"
             = Ok info →
             IsDir info = false →
             jobs_from (λ path, path = "/etc/config/config.yaml"
                                ∨ path = "/etc/job-config/periodics.yaml")
               (ConfigJobConfig loaded_files.1)).
Proof.
  refine (loadConfig_outcome (GM := map_order) (GS := sample_sort) (FS := sample_file_system)
            "/etc/config/config.yaml" "/etc/job-config/periodics.yaml"
            loaded_files.1 loaded_files.2
            (is_ok_from_Ok_pair (raw_config, sample_components) _ _)).
  vm_compute. reflexivity.
Defined.

Lemma Load_from_files_witness :
  (∀ repo : string,
     repo ∈ AllRepos (ConfigJobConfig loaded_from_files)
     ↔ is_Some (Presubmits (ConfigJobConfig loaded_from_files) !! repo)
       ∨ is_Some (Postsubmits (ConfigJobConfig loaded_from_files) !! repo))
  ∧ PodNamespace (ConfigProwConfig loaded_from_files) ≠ ""
  ∧ ("/etc/job-config" ≠ "" →
     NoDup (pairs_of (GM := map_order) (Presets (ConfigJobConfig loaded_from_files)))).
Proof.
  refine (Load_from_files (GM := map_order) (GS := sample_sort) (FS := sample_file_system)
            (sample_externals (Err "")) "/etc/config/config.yaml" "/etc/job-config"
            loaded_from_files (Load_succeeded_from_Load raw_config _ _)).
  vm_compute. reflexivity.
Defined.
